(** * A reactive dependency-tracking engine, verified against its listings

    The repository is a sequence of TypeScript listings that build a
    fine-grained reactivity system step by step: [effect], [cleanup],
    [track], [trigger], the [createReactive] proxy handlers, [computed]
    and [watch].  Each listing is embedded here as executable Rocq
    definitions that keep the names of the source, and the properties of
    the specification are proved about these definitions.

    Conventions of the embedding.
    - A JavaScript object identity is a natural number: an index into the
      table that holds it (raw objects, proxies, effect functions).
    - A JavaScript [Set] is a duplicate-free list in insertion order and a
      [Map] an association list in insertion order, because [forEach]
      visits them in that order.
    - A dependency [Set] is created once per (target, key) and never
      replaced, so a reference to it (as stored in [effectFn.deps]) is the
      pair (target, key).
    - User functions are data (a small expression and statement language),
      since they are inputs of the library. *)

From Stdlib Require Import ZArith String List Bool Lia.
From stdpp Require Import base list gmap strings.

Set Warnings "-clear-no-such-hyp".

(** ** JavaScript values and property keys *)

Inductive value : Type :=
| VUndef
| VNull
| VBool (b : bool)
| VNum (n : Z)
| VNaN
| VStr (s : string)
| VObj (r : nat)      (* a raw object or array: reference into the heap *)
| VProxy (p : nat).   (* a Proxy: reference into the proxy table *)

Global Instance value_eq_dec : EqDecision value.
Proof. solve_decision. Defined.

(** [a === b]: every value is equal to itself except NaN. *)
Definition strict_eq (a b : value) : bool :=
  match a, b with
  | VNaN, _ | _, VNaN => false
  | _, _ => bool_decide (a = b)
  end.

(** SameValueZero, the comparison of [Array.prototype.includes]. *)
Definition same_value_zero (a b : value) : bool := bool_decide (a = b).

Definition truthy (v : value) : bool :=
  match v with
  | VUndef | VNull | VNaN | VBool false => false
  | VNum n => negb (n =? 0)%Z
  | VStr s => negb (String.eqb s EmptyString)
  | _ => true
  end.

(** [typeof v === 'object' && v !== null] *)
Definition is_object (v : value) : bool :=
  match v with VObj _ | VProxy _ => true | _ => false end.

(** Property keys.  [KIdx i] is the canonical numeric string of [i],
    [KLength] the string ['length'], [KStr s] any other string (assumed
    not to read as a number), and the remaining ones are symbols:
    [ITERATE_KEY], [RAW_KEY] and the others ([Symbol.iterator], ...). *)
Inductive key : Type :=
| KIdx (i : nat)
| KLength
| KStr (s : string)
| KIterate
| KRaw
| KSym (s : string).

Global Instance key_eq_dec : EqDecision key.
Proof. solve_decision. Defined.

(** [typeof key === 'symbol'] *)
Definition is_symbol (k : key) : bool :=
  match k with KIterate | KRaw | KSym _ => true | _ => false end.

(** ** Sets and Maps in insertion order *)

Section Collections.
Context {A : Type} `{EqDecision A}.

(** [Set.prototype.add] *)
Definition Set_add (x : A) (s : list A) : list A :=
  if decide (x ∈ s) then s else s ++ [x].

(** [Set.prototype.delete] *)
Definition Set_delete (x : A) (s : list A) : list A :=
  filter (λ y, y ≠ x) s.

Context {B : Type}.

(** [Map.prototype.get] *)
Fixpoint Map_get (k : A) (m : list (A * B)) : option B :=
  match m with
  | [] => None
  | (k', v) :: m' => if decide (k' = k) then Some v else Map_get k m'
  end.

(** [Map.prototype.set] *)
Fixpoint Map_set (k : A) (v : B) (m : list (A * B)) : list (A * B) :=
  match m with
  | [] => [(k, v)]
  | (k', v') :: m' =>
      if decide (k' = k) then (k, v) :: m' else (k', v') :: Map_set k v m'
  end.
End Collections.

(** ** The dependency store

    [effectsBuckets] is a [WeakMap] from a target to a [Map] from a key to
    the [Set] of effect functions that read it.  The two functions below
    are the bookkeeping that [track] and [cleanup] do on it. *)

Abbreviation depsMap := (list (key * list nat)).

(** [effectsBuckets.get(target)?.get(key)], an absent set read as empty. *)
Definition subscribers (b : gmap nat depsMap) (target : nat) (k : key)
  : list nat :=
  match b !! target with
  | Some dm => default [] (Map_get k dm)
  | None => []
  end.

(** The body of [track] once an effect is active: fetch or create the
    [depsMap] of the target and the [deps] of the key, then
    [deps.add(activeEffect)]. *)
Definition bucket_add (b : gmap nat depsMap) (target : nat) (k : key)
    (e : nat) : gmap nat depsMap :=
  let dm := default [] (b !! target) in
  let deps := default [] (Map_get k dm) in
  <[target := Map_set k (Set_add e deps) dm]> b.

(** [deps.delete(effectFn)] for the set that [tk] refers to. *)
Definition bucket_delete (e : nat) (b : gmap nat depsMap) (tk : nat * key)
  : gmap nat depsMap :=
  match b !! tk.1 with
  | Some dm =>
      match Map_get tk.2 dm with
      | Some deps => <[tk.1 := Map_set tk.2 (Set_delete e deps) dm]> b
      | None => b
      end
  | None => b
  end.

(** * Listing [3.branch-and-cleanup.ts]: branch switching and cleanup

    The first listing that has [cleanup].  There is one global
    [activeEffect] and no effect stack yet; [trigger] runs a copy of the
    subscriber set.  The effect functions of this listing only read
    reactive data, like its own
    [document.title = proxyData.ok ? proxyData.text : 'not'], and are
    modelled as read expressions. *)

Module BranchCleanup.

(** What a user function does with reactive data: it reads properties
    through the proxy, under conditionals. *)
Inductive rexpr : Type :=
| RConst (v : value)
| RGet (target : nat) (k : key)      (* proxy of [target], property [k] *)
| RCond (c a b : rexpr)              (* [c ? a : b] *)
| RSeq (a b : rexpr).                (* [a; b] *)

(** [interface EffectFn { (): void; deps: any[] }] *)
Record EffectFn : Type := { fn : rexpr; deps : list (nat * key) }.

Record state : Type := {
  heap : list (list (key * value));        (* the plain data objects *)
  effectsBuckets : gmap nat depsMap;
  effectFns : list EffectFn;               (* the effect functions created *)
  activeEffect : option nat;
  executed : list nat   (* log: one entry per execution of a user [fn] *)
}.

Definition initial (h : list (list (key * value))) : state :=
  {| heap := h; effectsBuckets := ∅; effectFns := []; activeEffect := None;
     executed := [] |}.

(** [target[key]] on a plain data object *)
Definition plain_get (h : list (list (key * value))) (target : nat)
    (k : key) : value :=
  match h !! target with
  | Some o => default VUndef (Map_get k o)
  | None => VUndef
  end.

(** [track(target, key)] *)
Definition track (target : nat) (k : key) (st : state) : state :=
  match activeEffect st with
  | None => st
  | Some e =>
      {| heap := heap st;
         effectsBuckets := bucket_add (effectsBuckets st) target k e;
         effectFns :=
           alter (λ ef, {| fn := fn ef; deps := deps ef ++ [(target, k)] |})
                 e (effectFns st);
         activeEffect := activeEffect st;
         executed := executed st |}
  end.

(** [cleanup(effectFn)] *)
Definition cleanup (e : nat) (st : state) : state :=
  match effectFns st !! e with
  | None => st
  | Some ef =>
      {| heap := heap st;
         effectsBuckets :=
           foldl (bucket_delete e) (effectsBuckets st) (deps ef);
         effectFns := <[e := {| fn := fn ef; deps := [] |}]> (effectFns st);
         activeEffect := activeEffect st;
         executed := executed st |}
  end.

(** The [get] handler of [proxyData]: [track(target, key)] and then
    [return target[key]]. *)
Definition proxy_get (target : nat) (k : key) (st : state) : value * state :=
  (plain_get (heap st) target k, track target k st).

(** Execution of a user function. *)
Fixpoint eval_fn (r : rexpr) (st : state) : value * state :=
  match r with
  | RConst v => (v, st)
  | RGet target k => proxy_get target k st
  | RCond c a b =>
      let '(vc, st1) := eval_fn c st in
      if truthy vc then eval_fn a st1 else eval_fn b st1
  | RSeq a b => eval_fn b (eval_fn a st).2
  end.

(** The wrapper [effectFn] that [effect(fn)] builds:
    [cleanup(effectFn); activeEffect = effectFn; fn()]. *)
Definition effectFn (e : nat) (st : state) : state :=
  match effectFns st !! e with
  | None => st
  | Some ef =>
      let st1 := cleanup e st in
      let st2 := {| heap := heap st1; effectsBuckets := effectsBuckets st1;
                    effectFns := effectFns st1; activeEffect := Some e;
                    executed := executed st1 ++ [e] |} in
      (eval_fn (fn ef) st2).2
  end.

(** [effect(fn)]: create the wrapper with [deps = []] and run it. *)
Definition effect (f : rexpr) (st : state) : state :=
  let e := length (effectFns st) in
  effectFn e {| heap := heap st; effectsBuckets := effectsBuckets st;
                effectFns := effectFns st ++ [{| fn := f; deps := [] |}];
                activeEffect := activeEffect st; executed := executed st |}.

(** [trigger(target, key)]: run a copy of the subscriber set. *)
Definition trigger (target : nat) (k : key) (st : state) : state :=
  match effectsBuckets st !! target with
  | None => st
  | Some dm =>
      let effectsToRun := default [] (Map_get k dm) in
      foldl (λ s e, effectFn e s) st effectsToRun
  end.

(** The [set] handler of [proxyData]: [target[key] = newVal] and then
    [trigger(target, key)]. *)
Definition proxy_set (target : nat) (k : key) (newVal : value) (st : state)
  : state :=
  trigger target k
    {| heap := alter (Map_set k newVal) target (heap st);
       effectsBuckets := effectsBuckets st; effectFns := effectFns st;
       activeEffect := activeEffect st; executed := executed st |}.

(** The property reads of one execution of [r] on heap [h], in order: what
    the specification calls the reads of a run. *)
Fixpoint value_of (h : list (list (key * value))) (r : rexpr) : value :=
  match r with
  | RConst v => v
  | RGet target k => plain_get h target k
  | RCond c a b => if truthy (value_of h c) then value_of h a else value_of h b
  | RSeq a b => value_of h b
  end.

Fixpoint reads (h : list (list (key * value))) (r : rexpr)
  : list (nat * key) :=
  match r with
  | RConst _ => []
  | RGet target k => [(target, k)]
  | RCond c a b =>
      reads h c ++ (if truthy (value_of h c) then reads h a else reads h b)
  | RSeq a b => reads h a ++ reads h b
  end.

(** Every membership of an effect in a dependency set is recorded in
    its [deps]: the invariant that makes [cleanup] complete.  [track] is
    the only place that adds to a set, and it pushes the set on [deps] in
    the same breath. *)
Definition backrefs (st : state) : Prop :=
  ∀ e t k, e ∈ subscribers (effectsBuckets st) t k →
    ∃ ef, effectFns st !! e = Some ef ∧ (t, k) ∈ deps ef.

(** The listing's own program: [effect(() => { document.title =
    proxyData.ok ? proxyData.text : 'not' })] on
    [{ ok: true, text: 'Hello Vue', text2: 'text2' }]. *)
Definition originData : list (key * value) :=
  [(KStr "ok", VBool true); (KStr "text", VStr "Hello Vue");
   (KStr "text2", VStr "text2")].

Definition title_fn : rexpr :=
  RCond (RGet 0 (KStr "ok")) (RGet 0 (KStr "text")) (RConst (VStr "not")).

Definition registered : state :=
  {| heap := [originData]; effectsBuckets := ∅;
     effectFns := [{| fn := title_fn; deps := [] |}];
     activeEffect := None; executed := [] |}.

End BranchCleanup.
(** * Listing [3.branch-and-cleanup.ts], with effect functions that write
    and register effects

    The same listing as above, for any effect function: besides reading
    reactive data, a function may write a property through the proxy, which
    calls [trigger], and may register another effect.  An effect function
    can now call effect functions, itself included, so that a run need not
    end: the calls are counted by a depth.

    The state carries a log of what happened: the start of each run, and
    each read through the proxy with the value that [activeEffect] had at
    that moment. *)

Module BranchCalls.

(** What a user function does with reactive data. *)
Inductive ustmt : Type :=
| UExpr (r : BranchCleanup.rexpr)     (* [r;] *)
| USet (target : nat) (k : key) (r : BranchCleanup.rexpr)
                                      (* proxy of [target]: [proxy[k] = r] *)
| UEffect (f : ustmt)                 (* [effect(() => { f })] *)
| USeq (a b : ustmt)                  (* [a; b] *)
| UIf (c : BranchCleanup.rexpr) (a b : ustmt).  (* [if (c) a else b] *)

(** [interface EffectFn { (): void; deps: any[] }] *)
Record EffectFn : Type := { fn : ustmt; deps : list (nat * key) }.

Inductive event : Type :=
| EvRun (e : nat)                     (* the effect function [e] starts *)
| EvRead (active : option nat) (target : nat) (k : key).
                                      (* [proxy[k]] is read *)

Record state : Type := {
  heap : list (list (key * value));        (* the plain data objects *)
  effectsBuckets : gmap nat depsMap;
  effectFns : list EffectFn;               (* the effect functions created *)
  activeEffect : option nat;
  log : list event
}.

Definition initial (h : list (list (key * value))) : state :=
  {| heap := h; effectsBuckets := ∅; effectFns := []; activeEffect := None;
     log := [] |}.

Definition emit (ev : event) (st : state) : state :=
  {| heap := heap st; effectsBuckets := effectsBuckets st;
     effectFns := effectFns st; activeEffect := activeEffect st;
     log := log st ++ [ev] |}.

(** [track(target, key)] *)
Definition track (target : nat) (k : key) (st : state) : state :=
  match activeEffect st with
  | None => st
  | Some e =>
      {| heap := heap st;
         effectsBuckets := bucket_add (effectsBuckets st) target k e;
         effectFns :=
           alter (λ ef, {| fn := fn ef; deps := deps ef ++ [(target, k)] |})
                 e (effectFns st);
         activeEffect := activeEffect st;
         log := log st |}
  end.

(** [cleanup(effectFn)] *)
Definition cleanup (e : nat) (st : state) : state :=
  match effectFns st !! e with
  | None => st
  | Some ef =>
      {| heap := heap st;
         effectsBuckets :=
           foldl (bucket_delete e) (effectsBuckets st) (deps ef);
         effectFns := <[e := {| fn := fn ef; deps := [] |}]> (effectFns st);
         activeEffect := activeEffect st;
         log := log st |}
  end.

(** The [get] handler of [proxyData]: [track(target, key)] and then
    [return target[key]]. *)
Definition proxy_get (target : nat) (k : key) (st : state) : value * state :=
  (BranchCleanup.plain_get (heap st) target k,
   track target k (emit (EvRead (activeEffect st) target k) st)).

(** Evaluation of an expression, which only reads. *)
Fixpoint eval (r : BranchCleanup.rexpr) (st : state) : value * state :=
  match r with
  | BranchCleanup.RConst v => (v, st)
  | BranchCleanup.RGet target k => proxy_get target k st
  | BranchCleanup.RCond c a b =>
      let '(vc, st1) := eval c st in
      if truthy vc then eval a st1 else eval b st1
  | BranchCleanup.RSeq a b => eval b (eval a st).2
  end.

(** [target[key] = newVal] *)
Definition write (target : nat) (k : key) (newVal : value) (st : state)
  : state :=
  {| heap := alter (Map_set k newVal) target (heap st);
     effectsBuckets := effectsBuckets st; effectFns := effectFns st;
     activeEffect := activeEffect st; log := log st |}.

(** [effectFn.deps = []] for the new wrapper of [effect(fn)] *)
Definition register (f : ustmt) (st : state) : state :=
  {| heap := heap st; effectsBuckets := effectsBuckets st;
     effectFns := effectFns st ++ [{| fn := f; deps := [] |}];
     activeEffect := activeEffect st; log := log st |}.

(** [activeEffect = effectFn] *)
Definition activate (e : nat) (st : state) : state :=
  {| heap := heap st; effectsBuckets := effectsBuckets st;
     effectFns := effectFns st; activeEffect := Some e;
     log := log st ++ [EvRun e] |}.

(** One level of calls: [call e] is the call [effectFn()] of the effect
    function [e], and [None] a run that needs more depth. *)
Section Level.

Variable call : nat → state → option state.

(** [effectsToRun.forEach(fn => fn?.())] *)
Fixpoint forEach (effectsToRun : list nat) (st : state) : option state :=
  match effectsToRun with
  | [] => Some st
  | e :: rest =>
      match call e st with
      | Some st1 => forEach rest st1
      | None => None
      end
  end.

(** [trigger(target, key)]: run a copy of the subscriber set. *)
Definition trigger (target : nat) (k : key) (st : state) : option state :=
  match effectsBuckets st !! target with
  | None => Some st
  | Some dm => forEach (default [] (Map_get k dm)) st
  end.

(** The [set] handler of [proxyData]: [target[key] = newVal] and then
    [trigger(target, key)]. *)
Definition proxy_set (target : nat) (k : key) (newVal : value) (st : state)
  : option state :=
  trigger target k (write target k newVal st).

(** [effect(fn)]: create the wrapper with [deps = []] and call it. *)
Definition effect (f : ustmt) (st : state) : option state :=
  call (length (effectFns st)) (register f st).

(** Execution of a user function. *)
Fixpoint exec (s : ustmt) (st : state) : option state :=
  match s with
  | UExpr r => Some (eval r st).2
  | USet target k r =>
      let '(v, st1) := eval r st in proxy_set target k v st1
  | UEffect f => effect f st
  | USeq a b =>
      match exec a st with
      | Some st1 => exec b st1
      | None => None
      end
  | UIf c a b =>
      let '(vc, st1) := eval c st in
      if truthy vc then exec a st1 else exec b st1
  end.

(** The wrapper [effectFn] that [effect(fn)] builds:
    [cleanup(effectFn); activeEffect = effectFn; fn()]. *)
Definition effectFn (e : nat) (st : state) : option state :=
  match effectFns st !! e with
  | None => Some st
  | Some ef => exec (fn ef) (activate e (cleanup e st))
  end.

End Level.

(** Calls of effect functions, [fuel] deep. *)
Fixpoint call (fuel : nat) (e : nat) (st : state) : option state :=
  match fuel with
  | 0 => None
  | S n => effectFn (call n) e st
  end.

(** A function that only reads. *)
Fixpoint only_reads (s : ustmt) : bool :=
  match s with
  | UExpr _ => true
  | USet _ _ _ | UEffect _ => false
  | USeq a b => only_reads a && only_reads b
  | UIf _ a b => only_reads a && only_reads b
  end.

(** The dependencies that the log records for the effect [e]: the reads
    made since the start of its most recent run while it was the active
    effect. *)
Definition record (e : nat) (acc : list (nat * key)) (ev : event)
  : list (nat * key) :=
  match ev with
  | EvRun x => if decide (x = e) then [] else acc
  | EvRead a t k => if decide (a = Some e) then acc ++ [(t, k)] else acc
  end.

Definition recorded (e : nat) (l : list event) : list (nat * key) :=
  foldl (record e) [] l.

(** All the reads of a log, and the runs that it starts. *)
Definition reads_of (l : list event) : list (nat * key) :=
  omap (λ ev, match ev with EvRead _ t k => Some (t, k) | EvRun _ => None end) l.

Definition runs_of (l : list event) : list nat :=
  omap (λ ev, match ev with EvRun e => Some e | EvRead _ _ _ => None end) l.

(** The states that the listing goes through: the back-references of an
    effect function are the dependencies that the log records for it, it
    belongs to the sets that they name and to no other, and the log and
    [activeEffect] name effect functions that exist. *)
Definition coherent (st : state) : Prop :=
  (∀ e ef, effectFns st !! e = Some ef → deps ef = recorded e (log st)) ∧
  (∀ e t k, e ∈ subscribers (effectsBuckets st) t k
            ↔ ∃ ef, effectFns st !! e = Some ef ∧ (t, k) ∈ deps ef) ∧
  (∀ a, activeEffect st = Some a → a < length (effectFns st)) ∧
  (∀ a t k, EvRead (Some a) t k ∈ log st → a < length (effectFns st)).

(** The functions of the effects created. *)
Definition functions (st : state) : list ustmt := fn <$> effectFns st.

(** [st'] comes after [st]: the log has grown, and the effect functions
    of [st] are still there. *)
Definition later (st st' : state) : Prop :=
  (∃ rest, log st' = log st ++ rest) ∧ functions st `prefix_of` functions st'.

(** The events of the reads [l] made under [active]. *)
Definition read_events (active : option nat) (l : list (nat * key)) : list event :=
  (λ tk, EvRead active tk.1 tk.2) <$> l.

(** ** Programs *)

(** The data of the listing:
    [{ ok: true, text: 'Hello Vue', text2: 'text2' }]. *)
Definition originData : list (key * value) := BranchCleanup.originData.

(** An effect that registers another one between two reads:
    [[
      effect(() => {
        proxyData.ok
        effect(() => { proxyData.text })
        proxyData.text2
      })
    ]] *)
Definition nesting : ustmt :=
  USeq (UExpr (BranchCleanup.RGet 0 (KStr "ok")))
       (USeq (UEffect (UExpr (BranchCleanup.RGet 0 (KStr "text"))))
             (UExpr (BranchCleanup.RGet 0 (KStr "text2")))).

(** An effect that writes, between two reads, a property that another
    effect has read:
    [[
      effect(() => { proxyData.ok })
      effect(() => {
        proxyData.text
        proxyData.ok = false
        proxyData.text2
      })
    ]] *)
Definition reader : ustmt := UExpr (BranchCleanup.RGet 0 (KStr "ok")).

Definition writer : ustmt :=
  USeq (UExpr (BranchCleanup.RGet 0 (KStr "text")))
       (USeq (USet 0 (KStr "ok") (BranchCleanup.RConst (VBool false)))
             (UExpr (BranchCleanup.RGet 0 (KStr "text2")))).

Definition nested_run (fuel : nat) : option state :=
  effect (call fuel) nesting (initial [originData]).

Definition written_run (fuel : nat) : option state :=
  match effect (call fuel) reader (initial [originData]) with
  | Some st => effect (call fuel) writer st
  | None => None
  end.

(** The listing's own effect:
    [effect(() => { document.title = proxyData.ok ? proxyData.text : 'not' })] *)
Definition title_fn : ustmt := UExpr BranchCleanup.title_fn.

(** The subscribers at the end of a program that returns. *)
Definition subscribers_of (o : option state) (target : nat) (k : key)
  : option (list nat) :=
  match o with
  | Some st => Some (subscribers (effectsBuckets st) target k)
  | None => None
  end.

Definition log_of (o : option state) : option (list event) :=
  match o with Some st => Some (log st) | None => None end.

End BranchCalls.

(** * The reactivity system with the effect stack

    The later listings share one [effect] (with the effect stack and the
    [scheduler] and [lazy] options), [cleanup] and [track]; they differ in
    the proxy handlers and in [trigger].  This module embeds them
    together:
    - the hand-written handlers of [proxyData] with the two-argument
      [trigger] (listings on nested effects, schedulers, [computed] and
      [watch]) are the proxy kind [PlainHandler];
    - the handlers of [createReactive] with the array-aware [trigger], the
      overridden array search methods, the overridden [push] and
      [reactiveMap] (the listing on arrays) are the proxy kind [Reactive];
    - [computed] and [watch] are taken from their own listings.

    Invoking a function of the program (an effect function, a prototype's
    handler) is the only unbounded recursion.  It goes through the
    parameter [self] of the section below, which the interpreter
    instantiates with itself at one unit of fuel less. *)

Module Reactivity.

(** ** Raw objects *)

Record obj : Type := {
  isArray : bool;
  elems : list (option value);  (* the slots of an array; [None] is a hole *)
  props : list (key * value);   (* the other own data properties *)
  proto : value                 (* the prototype set by the program, or [VNull] *)
}.

Definition plain_object (ps : list (key * value)) : obj :=
  {| isArray := false; elems := []; props := ps; proto := VNull |}.

Definition array_object (vs : list value) : obj :=
  {| isArray := true; elems := Some <$> vs; props := []; proto := VNull |}.

(** The value of an own data property. *)
Definition own_get (o : obj) (k : key) : option value :=
  if isArray o then
    match k with
    | KIdx i => mjoin (elems o !! i)
    | KLength => Some (VNum (Z.of_nat (length (elems o))))
    | _ => Map_get k (props o)
    end
  else Map_get k (props o).

(** [Object.prototype.hasOwnProperty.call(o, k)] *)
Definition own_has (o : obj) (k : key) : bool := bool_decide (is_Some (own_get o k)).

Inductive defined : Type :=
| DefOk (o : obj)
| DefRangeError        (* "Invalid array length" *)
| DefUnmodelled.       (* a length that is not a number *)

(** Creating or overwriting an own data property.  Writing an index
    beyond the end of an array extends it with holes; writing [length]
    truncates or extends it. *)
Definition own_set (o : obj) (k : key) (v : value) : defined :=
  if isArray o then
    match k with
    | KIdx i =>
        DefOk {| isArray := true;
                 elems := if decide (i < length (elems o))
                          then <[i := Some v]> (elems o)
                          else elems o ++ replicate (i - length (elems o)) None
                                       ++ [Some v];
                 props := props o; proto := proto o |}
    | KLength =>
        match v with
        | VNum n =>
            if (0 <=? n)%Z
            then DefOk {| isArray := true;
                          elems := resize (Z.to_nat n) None (elems o);
                          props := props o; proto := proto o |}
            else DefRangeError
        | VUndef | VNaN => DefRangeError
        | _ => DefUnmodelled
        end
    | _ => DefOk {| isArray := true; elems := elems o;
                    props := Map_set k v (props o); proto := proto o |}
    end
  else DefOk {| isArray := false; elems := elems o;
                props := Map_set k v (props o); proto := proto o |}.

(** [Reflect.deleteProperty] on a raw object: [None] when the property
    cannot be deleted (the [length] of an array). *)
Definition own_delete (o : obj) (k : key) : option obj :=
  if isArray o then
    match k with
    | KIdx i =>
        Some {| isArray := true;
                elems := if decide (i < length (elems o))
                         then <[i := None]> (elems o) else elems o;
                props := props o; proto := proto o |}
    | KLength => None
    | _ => Some {| isArray := true; elems := elems o;
                   props := filter (λ p, p.1 ≠ k) (props o); proto := proto o |}
    end
  else Some {| isArray := false; elems := elems o;
               props := filter (λ p, p.1 ≠ k) (props o); proto := proto o |}.

(** The keys a [for ... in] loop visits on a raw object without a
    prototype: the indices that are not holes, then the string keys.
    (Integer-like keys of plain objects are kept in insertion order.) *)
Definition enumerable_keys (o : obj) : list key :=
  (if isArray o
   then omap (λ ie, match ie.2 with Some _ => Some (KIdx ie.1) | None => None end)
             (imap (λ i e, (i, e)) (elems o))
   else [])
  ++ filter (λ k, is_symbol k = false) (props o).*1.

(** ** User functions

    The functions a program hands to the library: what they do with
    reactive data is to read and write properties, call the array search
    methods, read computed values, register nested effects, and throw. *)

Inductive expr : Type :=
| EConst (v : value)
| EGet (o : expr) (k : key)             (* [o[k]] *)
| EAdd (a b : expr)                     (* [a + b] *)
| ECond (c a b : expr)                  (* [c ? a : b] *)
| EValue (c : nat)                      (* [c.value] of the computed [c] *)
| EIncludes (arr x : expr)              (* [arr.includes(x)] *)
| EIndexOf (arr x : expr)               (* [arr.indexOf(x)] *)
| ELastIndexOf (arr x : expr)           (* [arr.lastIndexOf(x)] *)
| EPush (arr x : expr).                 (* [arr.push(x)] *)

Inductive stmt : Type :=
| SSkip
| SSeq (a b : stmt)                     (* [a; b] *)
| SExpr (e : expr)                      (* [e;] *)
| SSet (o : expr) (k : key) (e : expr)  (* [o[k] = e] *)
| SDelete (o : expr) (k : key)          (* [delete o[k]] *)
| SIf (c : expr) (a b : stmt)           (* [if (c) a else b] *)
| SEffect (body : stmt) (result : expr) (deferred : bool)
      (* [effect(() => { body; return result })], with the option
         [{ scheduler(fn) { setTimeout(fn) } }] when [deferred] *)
| SThrow.                               (* [throw new Error()] *)

(** [() => { body; return result }] *)
Record userFn : Type := { body : stmt; result : expr }.

(** The [scheduler] option.  A scheduler is a closure; the three that
    occur are the one of the scheduling listing, which defers the effect
    function, and the two that [computed] and [watch] build. *)
Inductive sched : Type :=
| SchedQueue              (* [scheduler(fn) { setTimeout(fn) }] *)
| SchedComputed (c : nat) (* [scheduler() { dirty = true }] of computed [c] *)
| SchedWatch (w : nat).   (* [scheduler: job] of watcher [w] *)

(** [interface EffectFnOptions { scheduler?; lazy? }] *)
Record EffectFnOptions : Type := { scheduler : option sched; lazy : bool }.

(** The function an effect wraps: a user function, or the
    [() => traverse(source)] that [watch] builds for an object source. *)
Inductive wrapped : Type :=
| FUser (f : userFn)
| FTraverse (source : value).

(** [interface EffectFn { (): void; deps: Set<EffectFn>[]; options? }] *)
Record EffectFn : Type := {
  fn : wrapped;
  deps : list (nat * key);
  options : EffectFnOptions
}.

(** The variables that a [computed(getter)] closes over. *)
Record Computed : Type := {
  c_effectFn : nat;
  cacheValue : value;
  dirty : bool
}.

(** A [watch] callback [(newValue, oldValue, onInvalidate) => ...]: it may
    register an invalidation hook, and has a body. *)
Record callback : Type := {
  cb_onInvalidate : option stmt;
  cb_body : stmt
}.

(** The variables that a [watch(source, cb, options)] closes over. *)
Record Watcher : Type := {
  w_cb : callback;
  w_effectFn : nat;
  oldValue : value;
  newValue : value;
  w_cleanup : option stmt
}.

Inductive TriggerType : Type := T_add | T_set | T_delete.

Global Instance TriggerType_eq_dec : EqDecision TriggerType.
Proof. solve_decision. Defined.

(** How a proxy was built. *)
Inductive handler : Type :=
| PlainHandler                              (* [new Proxy(originData, { get, set })] *)
| Reactive (isShallow isReadonly : bool).   (* [createReactive(target, isShallow, isReadonly)] *)

Record proxy : Type := { p_target : nat; p_handler : handler }.

(** What an execution leaves behind for an observer. *)
Inductive event : Type :=
| EvRun (e : nat)                       (* the function wrapped by effect [e] is called *)
| EvTrigger (target : nat) (k : key)    (* [trigger(target, k, ...)] is called *)
| EvWarn (msg : string)                 (* [console.warn(msg)] *)
| EvLog (msg : string)                  (* [console.log(msg)] *)
| EvCallback (w : nat) (newV oldV : value)  (* the callback of watcher [w] is called *)
| EvInvalidate (w : nat).               (* the invalidation hook of watcher [w] is called *)

Global Instance event_eq_dec : EqDecision event.
Proof. solve_decision. Defined.

Record state : Type := {
  heap : list obj;
  proxies : list proxy;
  effectsBuckets : gmap nat depsMap;
  effectFns : list EffectFn;
  activeEffect : option nat;
  effectStack : list nat;
  shouldTrack : bool;           (* false inside an overridden mutating method *)
  reactiveMap : gmap nat nat;
  computeds : list Computed;
  watchers : list Watcher;
  jobQueue : list nat;          (* effect functions deferred by [SchedQueue] *)
  trace : list event;
  tracked : list (nat * nat * key)
    (* log: one entry (effect, target, key) per dependency that [track] records *)
}.

Definition initial (h : list obj) : state :=
  {| heap := h; proxies := []; effectsBuckets := ∅; effectFns := [];
     activeEffect := None; effectStack := []; shouldTrack := true;
     reactiveMap := ∅; computeds := []; watchers := []; jobQueue := [];
     trace := []; tracked := [] |}.

Definition set_heap (x : list obj) (st : state) : state :=
  {| heap := x; proxies := proxies st; effectsBuckets := effectsBuckets st;
     effectFns := effectFns st; activeEffect := activeEffect st;
     effectStack := effectStack st; shouldTrack := shouldTrack st;
     reactiveMap := reactiveMap st; computeds := computeds st;
     watchers := watchers st; jobQueue := jobQueue st; trace := trace st;
     tracked := tracked st |}.

Definition set_proxies (x : list proxy) (st : state) : state :=
  {| heap := heap st; proxies := x; effectsBuckets := effectsBuckets st;
     effectFns := effectFns st; activeEffect := activeEffect st;
     effectStack := effectStack st; shouldTrack := shouldTrack st;
     reactiveMap := reactiveMap st; computeds := computeds st;
     watchers := watchers st; jobQueue := jobQueue st; trace := trace st;
     tracked := tracked st |}.

Definition set_effectsBuckets (x : gmap nat depsMap) (st : state) : state :=
  {| heap := heap st; proxies := proxies st; effectsBuckets := x;
     effectFns := effectFns st; activeEffect := activeEffect st;
     effectStack := effectStack st; shouldTrack := shouldTrack st;
     reactiveMap := reactiveMap st; computeds := computeds st;
     watchers := watchers st; jobQueue := jobQueue st; trace := trace st;
     tracked := tracked st |}.

Definition set_effectFns (x : list EffectFn) (st : state) : state :=
  {| heap := heap st; proxies := proxies st; effectsBuckets := effectsBuckets st;
     effectFns := x; activeEffect := activeEffect st;
     effectStack := effectStack st; shouldTrack := shouldTrack st;
     reactiveMap := reactiveMap st; computeds := computeds st;
     watchers := watchers st; jobQueue := jobQueue st; trace := trace st;
     tracked := tracked st |}.

Definition set_activeEffect (x : option nat) (st : state) : state :=
  {| heap := heap st; proxies := proxies st; effectsBuckets := effectsBuckets st;
     effectFns := effectFns st; activeEffect := x;
     effectStack := effectStack st; shouldTrack := shouldTrack st;
     reactiveMap := reactiveMap st; computeds := computeds st;
     watchers := watchers st; jobQueue := jobQueue st; trace := trace st;
     tracked := tracked st |}.

Definition set_effectStack (x : list nat) (st : state) : state :=
  {| heap := heap st; proxies := proxies st; effectsBuckets := effectsBuckets st;
     effectFns := effectFns st; activeEffect := activeEffect st;
     effectStack := x; shouldTrack := shouldTrack st;
     reactiveMap := reactiveMap st; computeds := computeds st;
     watchers := watchers st; jobQueue := jobQueue st; trace := trace st;
     tracked := tracked st |}.

Definition set_shouldTrack (x : bool) (st : state) : state :=
  {| heap := heap st; proxies := proxies st; effectsBuckets := effectsBuckets st;
     effectFns := effectFns st; activeEffect := activeEffect st;
     effectStack := effectStack st; shouldTrack := x;
     reactiveMap := reactiveMap st; computeds := computeds st;
     watchers := watchers st; jobQueue := jobQueue st; trace := trace st;
     tracked := tracked st |}.

Definition set_reactiveMap (x : gmap nat nat) (st : state) : state :=
  {| heap := heap st; proxies := proxies st; effectsBuckets := effectsBuckets st;
     effectFns := effectFns st; activeEffect := activeEffect st;
     effectStack := effectStack st; shouldTrack := shouldTrack st;
     reactiveMap := x; computeds := computeds st;
     watchers := watchers st; jobQueue := jobQueue st; trace := trace st;
     tracked := tracked st |}.

Definition set_computeds (x : list Computed) (st : state) : state :=
  {| heap := heap st; proxies := proxies st; effectsBuckets := effectsBuckets st;
     effectFns := effectFns st; activeEffect := activeEffect st;
     effectStack := effectStack st; shouldTrack := shouldTrack st;
     reactiveMap := reactiveMap st; computeds := x;
     watchers := watchers st; jobQueue := jobQueue st; trace := trace st;
     tracked := tracked st |}.

Definition set_watchers (x : list Watcher) (st : state) : state :=
  {| heap := heap st; proxies := proxies st; effectsBuckets := effectsBuckets st;
     effectFns := effectFns st; activeEffect := activeEffect st;
     effectStack := effectStack st; shouldTrack := shouldTrack st;
     reactiveMap := reactiveMap st; computeds := computeds st;
     watchers := x; jobQueue := jobQueue st; trace := trace st;
     tracked := tracked st |}.

Definition set_jobQueue (x : list nat) (st : state) : state :=
  {| heap := heap st; proxies := proxies st; effectsBuckets := effectsBuckets st;
     effectFns := effectFns st; activeEffect := activeEffect st;
     effectStack := effectStack st; shouldTrack := shouldTrack st;
     reactiveMap := reactiveMap st; computeds := computeds st;
     watchers := watchers st; jobQueue := x; trace := trace st;
     tracked := tracked st |}.

(** Appending an event to the trace. *)
Definition emit (ev : event) (st : state) : state :=
  {| heap := heap st; proxies := proxies st; effectsBuckets := effectsBuckets st;
     effectFns := effectFns st; activeEffect := activeEffect st;
     effectStack := effectStack st; shouldTrack := shouldTrack st;
     reactiveMap := reactiveMap st; computeds := computeds st;
     watchers := watchers st; jobQueue := jobQueue st;
     trace := trace st ++ [ev]; tracked := tracked st |}.

(** Appending an entry to the log of recorded dependencies. *)
Definition log_tracked (x : nat * nat * key) (st : state) : state :=
  {| heap := heap st; proxies := proxies st; effectsBuckets := effectsBuckets st;
     effectFns := effectFns st; activeEffect := activeEffect st;
     effectStack := effectStack st; shouldTrack := shouldTrack st;
     reactiveMap := reactiveMap st; computeds := computeds st;
     watchers := watchers st; jobQueue := jobQueue st; trace := trace st;
     tracked := tracked st ++ [x] |}.

(** ** The monad of the interpreter *)

Inductive outcome (A : Type) : Type :=
| Ret (a : A) (st : state)   (* normal completion *)
| Throw (st : state)         (* an exception propagates; [st] is the state it leaves *)
| Unmodelled                 (* the program leaves the modelled fragment *)
| OutOfFuel.                 (* the recursion is deeper than the fuel *)

Arguments Ret {A} a st.
Arguments Throw {A} st.
Arguments Unmodelled {A}.
Arguments OutOfFuel {A}.

Definition M (A : Type) : Type := state → outcome A.

Definition ret {A} (a : A) : M A := λ st, Ret a st.

Definition bind {A B} (m : M A) (f : A → M B) : M B := λ st,
  match m st with
  | Ret a st' => f a st'
  | Throw st' => Throw st'
  | Unmodelled => Unmodelled
  | OutOfFuel => OutOfFuel
  end.

Declare Scope M_scope.
Delimit Scope M_scope with M.
Bind Scope M_scope with M.
Notation "x ← y ; z" := (bind y (λ x, z))
  (at level 20, y at level 100, z at level 200, only parsing) : M_scope.
Notation "x ;; z" := (bind x (λ _, z))
  (at level 100, z at level 200, only parsing, right associativity) : M_scope.
Local Open Scope M_scope.

Definition modify (f : state → state) : M unit := λ st, Ret tt (f st).
Definition gets {A} (f : state → A) : M A := λ st, Ret (f st) st.
Definition throw {A} : M A := λ st, Throw st.
Definition unmodelled {A} : M A := λ _, Unmodelled.

(** A lookup in one of the tables; a dangling reference is outside the
    model. *)
Definition lookup_in {A} (f : state → list A) (i : nat) : M A := λ st,
  match f st !! i with Some x => Ret x st | None => Unmodelled end.

(** [for (x of l) f(x)] *)
Fixpoint for_each {A} (f : A → M unit) (l : list A) : M unit :=
  match l with
  | [] => ret tt
  | x :: l' => f x ;; for_each f l'
  end.

(** ** [track] and [cleanup] *)

(** [track(target, key)].  Without an active effect, or while tracking is
    suspended, nothing is recorded (the [return target[key]] of that branch
    computes a value that every caller drops).  A dependency that is
    recorded is also entered in the log [tracked]. *)
Definition track (target : nat) (k : key) (st : state) : state :=
  match activeEffect st with
  | None => st
  | Some e =>
      if shouldTrack st then
        log_tracked (e, target, k)
          (set_effectFns
             (alter (λ ef, {| fn := fn ef; deps := deps ef ++ [(target, k)];
                              options := options ef |}) e (effectFns st))
             (set_effectsBuckets (bucket_add (effectsBuckets st) target k e) st))
      else st
  end.

(** [cleanup(effectFn)] *)
Definition cleanup (e : nat) (st : state) : state :=
  match effectFns st !! e with
  | None => st
  | Some ef =>
      set_effectFns
        (<[e := {| fn := fn ef; deps := []; options := options ef |}]> (effectFns st))
        (set_effectsBuckets (foldl (bucket_delete e) (effectsBuckets st) (deps ef)) st)
  end.

(** ** The subscribers that [trigger] assembles *)

(** [effects?.forEach(fn => { if (fn !== activeEffect) effectsToRun.add(fn) })] *)
Definition add_effects (active : option nat) (effects : list nat)
    (effectsToRun : list nat) : list nat :=
  foldl (λ acc f, if decide (Some f = active) then acc else Set_add f acc)
        effectsToRun effects.

(** [key >= newVal] for the new length [newVal] of an array.  A symbol
    cannot be converted to a number: [None] stands for the TypeError. *)
Definition key_ge (k : key) (newVal : Z) : option bool :=
  match k with
  | KIdx i => Some (newVal <=? Z.of_nat i)%Z
  | KLength | KStr _ => Some false
  | KIterate | KRaw | KSym _ => None
  end.

(** [depsMap.forEach((effects, key) => { if (key >= newVal) ... })] *)
Fixpoint add_truncated (active : option nat) (newVal : Z) (dm : depsMap)
    (effectsToRun : list nat) : option (list nat) :=
  match dm with
  | [] => Some effectsToRun
  | (k, effects) :: dm' =>
      match key_ge k newVal with
      | None => None
      | Some true =>
          add_truncated active newVal dm' (add_effects active effects effectsToRun)
      | Some false => add_truncated active newVal dm' effectsToRun
      end
  end.

Inductive assembled : Type :=
| ToRun (effectsToRun : list nat)
| AsmTypeError
| AsmUnmodelled.

(** The set [effectsToRun] of the array-aware [trigger], in the order in
    which [forEach] will visit it. *)
Definition effectsToRun (dm : depsMap) (active : option nat)
    (isArrayTarget : bool) (k : key) (type : TriggerType) (newVal : value)
  : assembled :=
  let s1 := add_effects active (default [] (Map_get k dm)) [] in
  let s2 := if isArrayTarget && bool_decide (type = T_add)
            then add_effects active (default [] (Map_get KLength dm)) s1
            else s1 in
  let iterate s :=
    if bool_decide (type = T_add) || bool_decide (type = T_delete)
    then add_effects active (default [] (Map_get KIterate dm)) s
    else s in
  if isArrayTarget && bool_decide (k = KLength) then
    match newVal with
    | VNum n =>
        match add_truncated active n dm s2 with
        | Some s3 => ToRun (iterate s3)
        | None => AsmTypeError
        end
    | _ => AsmUnmodelled
    end
  else ToRun (iterate s2).

(** The condition under which the [set] handler of [createReactive] calls
    [trigger]:
    [target === receiver[RAW_KEY]] and
    [oldValue !== newVal && (oldValue === oldValue || newVal === newVal)]. *)
Definition set_notifies (target : nat) (receiverRaw oldV newVal : value) : bool :=
  strict_eq (VObj target) receiverRaw
  && (negb (strict_eq oldV newVal)
      && (strict_eq oldV oldV || strict_eq newVal newVal)).

(** How the [set] handler of [createReactive] classifies a write:
    [[
      Array.isArray(target)
        ? Number(key) < target.length ? 'set' : 'add'
        : Object.prototype.hasOwnProperty.call(target, key) ? 'set' : 'add'
    ]]
    [None] stands for the TypeError of [Number(key)] on a symbol. *)
Definition set_type (o : obj) (k : key) : option TriggerType :=
  if isArray o then
    match k with
    | KIdx i => Some (if decide (i < length (elems o)) then T_set else T_add)
    | KLength | KStr _ => Some T_add
    | KIterate | KRaw | KSym _ => None
    end
  else Some (if own_has o k then T_set else T_add).

(** A number of JavaScript is a double: 53 bits of precision.  The
    integers up to [Number.MAX_SAFE_INTEGER] in absolute value are
    doubles, and arithmetic that stays among them is exact. *)
Definition MAX_SAFE_INTEGER : Z := (2 ^ 53 - 1)%Z.

(** [Number.isSafeInteger(z)] *)
Definition isSafeInteger (z : Z) : bool :=
  ((- MAX_SAFE_INTEGER <=? z) && (z <=? MAX_SAFE_INTEGER))%Z.

(** The double nearest to a positive integer [a], ties to the even
    significand.  From [2 ^ 53] on, the doubles around [a] are [2 ^ e]
    apart: [q] is the significand of the double below, [down] and [up]
    are the doubles below and above, and what is left of [a] is compared
    with half their distance. *)
Definition round_magnitude (a : positive) : Z :=
  match (Z.log2 (Zpos a) - 52)%Z with
  | Zpos e =>
      match Z.shiftr (Zpos a) (Zpos e) with
      | Zpos q =>
          let down := Z.shiftl (Zpos q) (Zpos e) in
          let up := Z.shiftl (Zpos q + 1) (Zpos e) in
          match (Zpos a - down ?= Z.shiftl 1 (Zpos e - 1))%Z with
          | Lt => down
          | Eq => if Z.even (Zpos q) then down else up
          | Gt => up
          end
      | _ => Zpos a
      end
  | _ => Zpos a
  end.

(** The double nearest to the integer [z].  The exponent is not bounded:
    the doubles end below [2 ^ 1024], and the model has no [Infinity]. *)
Definition round_to_double (z : Z) : Z :=
  match z with
  | Z0 => 0%Z
  | Zpos a => round_magnitude a
  | Zneg a => (- round_magnitude a)%Z
  end.

(** [a + b] on numbers, booleans, [null] and [undefined]: the sum of two
    doubles is the exact sum, rounded.  [None] for strings and objects,
    which are outside the model. *)
Definition to_number (v : value) : option (option Z) :=
  match v with
  | VNum n => Some (Some n)
  | VBool b => Some (Some (if b then 1 else 0)%Z)
  | VNull => Some (Some 0%Z)
  | VUndef | VNaN => Some None
  | _ => None
  end.

Definition js_add (a b : value) : option value :=
  match to_number a, to_number b with
  | Some (Some x), Some (Some y) => Some (VNum (round_to_double (x + y)))
  | Some _, Some _ => Some VNaN
  | _, _ => None
  end.

(** ** The variables of [computed] and [watch] *)

(** [dirty = true] *)
Definition mark_dirty (c : nat) (st : state) : state :=
  set_computeds
    (alter (λ x, {| c_effectFn := c_effectFn x; cacheValue := cacheValue x;
                    dirty := true |}) c (computeds st)) st.

(** [cacheValue = v; dirty = false] *)
Definition store_cacheValue (c : nat) (v : value) (st : state) : state :=
  set_computeds
    (alter (λ x, {| c_effectFn := c_effectFn x; cacheValue := v;
                    dirty := false |}) c (computeds st)) st.

(** [newValue = v] *)
Definition store_newValue (w : nat) (v : value) (st : state) : state :=
  set_watchers
    (alter (λ x, {| w_cb := w_cb x; w_effectFn := w_effectFn x;
                    oldValue := oldValue x; newValue := v;
                    w_cleanup := w_cleanup x |}) w (watchers st)) st.

(** [onInvalidate(hook)], when the callback calls it: [cleanup = hook] *)
Definition store_cleanup (w : nat) (hook : option stmt) (st : state) : state :=
  match hook with
  | Some h =>
      set_watchers
        (alter (λ x, {| w_cb := w_cb x; w_effectFn := w_effectFn x;
                        oldValue := oldValue x; newValue := newValue x;
                        w_cleanup := Some h |}) w (watchers st)) st
  | None => st
  end.

(** [oldValue = newValue] *)
Definition store_oldValue (w : nat) (st : state) : state :=
  set_watchers
    (alter (λ x, {| w_cb := w_cb x; w_effectFn := w_effectFn x;
                    oldValue := newValue x; newValue := newValue x;
                    w_cleanup := w_cleanup x |}) w (watchers st)) st.

(** [oldValue = v] *)
Definition seed_oldValue (w : nat) (v : value) (st : state) : state :=
  set_watchers
    (alter (λ x, {| w_cb := w_cb x; w_effectFn := w_effectFn x;
                    oldValue := v; newValue := newValue x;
                    w_cleanup := w_cleanup x |}) w (watchers st)) st.

(** The keys of [arrayInstrumentations]. *)
Definition arrayInstrumentations : list key :=
  [KStr "includes"; KStr "indexOf"; KStr "lastIndexOf";
   KStr "push"; KStr "pop"; KStr "shift"; KStr "unshift"; KStr "splice"].

(** ** One level of the interpreter *)

(** The calls that re-enter the interpreter. *)
Inductive task : Type :=
| TCall (e : nat)                          (* [effectFn()] for the effect function [e] *)
| TGet (o : value) (k : key) (receiver : value)      (* [o.[[Get]](k, receiver)] *)
| TSet (o : value) (k : key) (v : value) (receiver : value)  (* [o.[[Set]](k, v, receiver)] *)
| TStmt (s : stmt).                        (* the body of a stored user function *)

Section Level.

Variable fuel : nat.
Variable self : task → M value.

(** [Reflect.get(target, key, receiver)] on a raw object: the own
    property, or else the prototype's [[Get]]. *)
Definition Reflect_get (target : nat) (k : key) (receiver : value) : M value :=
  o ← lookup_in heap target;
  match own_get o k with
  | Some v => ret v
  | None =>
      match proto o with
      | VNull => ret VUndef
      | p => self (TGet p k receiver)
      end
  end.

(** The data property [k] of the receiver is created or overwritten: the
    last step of an ordinary [[Set]]. *)
Definition define_on (receiver : value) (k : key) (v : value) : M value :=
  match receiver with
  | VObj r =>
      o ← lookup_in heap r;
      match own_set o k v with
      | DefOk o' => modify (λ st, set_heap (<[r := o']> (heap st)) st) ;; ret (VBool true)
      | DefRangeError => throw
      | DefUnmodelled => unmodelled
      end
  | VProxy p =>
      px ← lookup_in proxies p;
      o ← lookup_in heap (p_target px);
      match own_set o k v with
      | DefOk o' =>
          modify (λ st, set_heap (<[p_target px := o']> (heap st)) st) ;;
          ret (VBool true)
      | DefRangeError => throw
      | DefUnmodelled => unmodelled
      end
  | _ => ret (VBool false)
  end.

(** [Reflect.set(target, key, newVal, receiver)] on a raw object. *)
Definition Reflect_set (target : nat) (k : key) (newVal receiver : value)
  : M value :=
  o ← lookup_in heap target;
  if own_has o k then define_on receiver k newVal
  else
    match proto o with
    | VNull => define_on receiver k newVal
    | p => self (TSet p k newVal receiver)
    end.

(** [reactive(target)]: the proxy registered in [reactiveMap], or a new
    one. *)
Definition createReactive (target : nat) (isShallow isReadonly : bool)
  : M value := λ st,
  Ret (VProxy (length (proxies st)))
      (set_proxies (proxies st ++ [{| p_target := target;
                                     p_handler := Reactive isShallow isReadonly |}]) st).

Definition reactive (target : value) : M value :=
  match target with
  | VObj r =>
      existProxy ← gets (λ st, reactiveMap st !! r);
      match existProxy with
      | Some p => ret (VProxy p)
      | None =>
          newProxy ← createReactive r false false;
          match newProxy with
          | VProxy p => modify (λ st, set_reactiveMap (<[r := p]> (reactiveMap st)) st)
          | _ => ret tt
          end ;;
          ret newProxy
      end
  | _ => unmodelled
  end.

Definition shallowReactive (target : value) : M value :=
  match target with VObj r => createReactive r true false | _ => unmodelled end.

Definition readonly (target : value) : M value :=
  match target with VObj r => createReactive r false true | _ => unmodelled end.

Definition shallowReadonly (target : value) : M value :=
  match target with VObj r => createReactive r true true | _ => unmodelled end.

(** The [get] handler of [createReactive].  For an array it answers the
    names of [arrayInstrumentations] with the overridden method, which is
    a function and not a value of the model: a call of a search method is
    [call_search] below, and a call of [push] is [call_push]. *)
Definition reactive_get (isShallow isReadonly : bool) (target : nat) (k : key)
    (receiver : value) : M value :=
  if decide (k = KRaw) then ret (VObj target)
  else
    o ← lookup_in heap target;
    if isArray o && bool_decide (k ∈ arrayInstrumentations) then unmodelled
    else
    (if negb isReadonly && negb (is_symbol k) then modify (track target k)
     else ret tt) ;;
    res ← Reflect_get target k receiver;
    if isShallow then ret res
    else if is_object res
         then (if isReadonly then readonly res else reactive res)
         else ret res.

(** The [get] handler of [proxyData]: [track(target, key)] and
    [return target[key]]. *)
Definition plain_get (target : nat) (k : key) : M value :=
  modify (track target k) ;;
  Reflect_get target k (VObj target).

Definition proxy_get (p : nat) (k : key) (receiver : value) : M value :=
  px ← lookup_in proxies p;
  match p_handler px with
  | PlainHandler => plain_get (p_target px) k
  | Reactive isShallow isReadonly =>
      reactive_get isShallow isReadonly (p_target px) k receiver
  end.

(** [o[k]] for a value [o]. *)
Definition get_value (o : value) (k : key) : M value :=
  match o with
  | VObj r => Reflect_get r k o
  | VProxy p => proxy_get p k o
  | VUndef | VNull => throw
  | _ => unmodelled
  end.

(** The [job] of [watch]:
    [[
      newValue = effectFn()
      cleanup?.()
      cb(newValue, oldValue, onInvalidate)
      oldValue = newValue
    ]]
    The callback is an event of the trace; it registers its invalidation
    hook, if it has one, and runs its body. *)
Definition job (w : nat) : M unit :=
  wr ← lookup_in watchers w;
  v ← self (TCall (w_effectFn wr));
  modify (store_newValue w v) ;;
  wr1 ← lookup_in watchers w;
  match w_cleanup wr1 with
  | Some hook => modify (emit (EvInvalidate w)) ;; self (TStmt hook) ;; ret tt
  | None => ret tt
  end ;;
  wr2 ← lookup_in watchers w;
  modify (emit (EvCallback w (newValue wr2) (oldValue wr2))) ;;
  modify (store_cleanup w (cb_onInvalidate (w_cb wr2))) ;;
  self (TStmt (cb_body (w_cb wr2))) ;;
  modify (store_oldValue w).

(** Running the assembled effects:
    [if (fn?.options?.scheduler) fn.options.scheduler(fn) else fn()]. *)
Definition run_scheduler (s : sched) (f : nat) : M unit :=
  match s with
  | SchedQueue => modify (λ st, set_jobQueue (jobQueue st ++ [f]) st)
  | SchedComputed c => modify (mark_dirty c)
  | SchedWatch w => job w
  end.

Definition run_effect (f : nat) : M unit :=
  ef ← lookup_in effectFns f;
  match scheduler (options ef) with
  | Some s => run_scheduler s f
  | None => self (TCall f) ;; ret tt
  end.

(** The two-argument [trigger(target, key)] of the listings before
    [createReactive]. *)
Definition trigger_plain (target : nat) (k : key) : M unit :=
  modify (emit (EvTrigger target k)) ;;
  depsMap ← gets (λ st, effectsBuckets st !! target);
  match depsMap with
  | None => ret tt
  | Some dm =>
      active ← gets activeEffect;
      for_each run_effect (add_effects active (default [] (Map_get k dm)) [])
  end.

(** [trigger(target, key, type, newVal)] of the listing on arrays. *)
Definition trigger (target : nat) (k : key) (type : TriggerType)
    (newVal : value) : M unit :=
  modify (emit (EvTrigger target k)) ;;
  depsMap ← gets (λ st, effectsBuckets st !! target);
  match depsMap with
  | None => ret tt
  | Some dm =>
      active ← gets activeEffect;
      o ← lookup_in heap target;
      match effectsToRun dm active (isArray o) k type newVal with
      | ToRun l => for_each run_effect l
      | AsmTypeError => throw
      | AsmUnmodelled => unmodelled
      end
  end.

(** The [set] handler of [proxyData]: [target[key] = newVal],
    [trigger(target, key)], [return true]. *)
Definition plain_set (target : nat) (k : key) (newVal : value) : M value :=
  Reflect_set target k newVal (VObj target) ;;
  trigger_plain target k ;;
  ret (VBool true).

(** The [set] handler of [createReactive]. *)
Definition reactive_set (isReadonly : bool) (target : nat) (k : key)
    (newVal receiver : value) : M value :=
  if isReadonly then
    modify (emit (EvWarn "set failed: readonly")) ;; ret (VBool true)
  else
    oldV ← Reflect_get target k (VObj target);
    o ← lookup_in heap target;
    type ← match set_type o k with Some ty => ret ty | None => throw end;
    res ← Reflect_set target k newVal receiver;
    receiverRaw ← get_value receiver KRaw;
    (if set_notifies target receiverRaw oldV newVal
     then trigger target k type newVal
     else ret tt) ;;
    ret res.

Definition proxy_set (p : nat) (k : key) (newVal receiver : value) : M value :=
  px ← lookup_in proxies p;
  match p_handler px with
  | PlainHandler => plain_set (p_target px) k newVal
  | Reactive _ isReadonly => reactive_set isReadonly (p_target px) k newVal receiver
  end.

(** [o[k] = v] for a value [o], in strict mode: a [[Set]] that reports
    failure throws. *)
Definition set_value (o : value) (k : key) (v : value) : M unit :=
  res ← match o with
        | VObj r => Reflect_set r k v o
        | VProxy p => proxy_set p k v o
        | VUndef | VNull => throw
        | _ => unmodelled
        end;
  if truthy res then ret tt else throw.

(** The [deleteProperty] handler of [createReactive]. *)
Definition reactive_delete (isReadonly : bool) (target : nat) (k : key)
  : M value :=
  if isReadonly then
    modify (emit (EvWarn "set failed: readonly")) ;; ret (VBool true)
  else
    o ← lookup_in heap target;
    let hadKey := own_has o k in
    match own_delete o k with
    | Some o' =>
        modify (λ st, set_heap (<[target := o']> (heap st)) st) ;;
        (if hadKey then trigger target k T_delete VUndef else ret tt) ;;
        ret (VBool true)
    | None => ret (VBool false)
    end.

(** [delete o[k]] in strict mode. *)
Definition delete_value (o : value) (k : key) : M unit :=
  res ← match o with
        | VObj r =>
            x ← lookup_in heap r;
            match own_delete x k with
            | Some x' =>
                modify (λ st, set_heap (<[r := x']> (heap st)) st) ;;
                ret (VBool true)
            | None => ret (VBool false)
            end
        | VProxy p =>
            px ← lookup_in proxies p;
            match p_handler px with
            | PlainHandler =>
                x ← lookup_in heap (p_target px);
                match own_delete x k with
                | Some x' =>
                    modify (λ st, set_heap (<[p_target px := x']> (heap st)) st) ;;
                    ret (VBool true)
                | None => ret (VBool false)
                end
            | Reactive _ isReadonly => reactive_delete isReadonly (p_target px) k
            end
        | VUndef | VNull => throw
        | _ => unmodelled
        end;
  if truthy res then ret tt else throw.

(** *** The array search methods *)

(** [ToLength(O.length)] *)
Definition length_of (O : value) : M nat :=
  len ← get_value O KLength;
  match len with
  | VNum n => ret (Z.to_nat n)
  | VUndef | VNaN | VNull => ret 0
  | _ => unmodelled
  end.

(** [HasProperty(O, i)]: no handler intercepts it, so it is answered by
    the raw array. *)
Definition has_index (O : value) (i : nat) : M bool :=
  match O with
  | VObj r => o ← lookup_in heap r; ret (own_has o (KIdx i))
  | VProxy p =>
      px ← lookup_in proxies p;
      o ← lookup_in heap (p_target px);
      ret (own_has o (KIdx i))
  | _ => unmodelled
  end.

(** [Array.prototype.includes.call(O, x)]: the indices [i], [i+1], ...
    of the [n] remaining ones. *)
Fixpoint includes_from (O x : value) (i n : nat) : M value :=
  match n with
  | 0 => ret (VBool false)
  | S n' =>
      elem ← get_value O (KIdx i);
      if same_value_zero elem x then ret (VBool true)
      else includes_from O x (S i) n'
  end.

Definition Array_includes (O x : value) : M value :=
  len ← length_of O;
  includes_from O x 0 len.

(** [Array.prototype.indexOf.call(O, x)] *)
Fixpoint indexOf_from (O x : value) (i n : nat) : M value :=
  match n with
  | 0 => ret (VNum (-1))
  | S n' =>
      present ← has_index O i;
      if present then
        elem ← get_value O (KIdx i);
        if strict_eq elem x then ret (VNum (Z.of_nat i))
        else indexOf_from O x (S i) n'
      else indexOf_from O x (S i) n'
  end.

Definition Array_indexOf (O x : value) : M value :=
  len ← length_of O;
  indexOf_from O x 0 len.

(** [Array.prototype.lastIndexOf.call(O, x)]: the indices [n-1], ...,
    [0]. *)
Fixpoint lastIndexOf_below (O x : value) (n : nat) : M value :=
  match n with
  | 0 => ret (VNum (-1))
  | S i =>
      present ← has_index O i;
      if present then
        elem ← get_value O (KIdx i);
        if strict_eq elem x then ret (VNum (Z.of_nat i))
        else lastIndexOf_below O x i
      else lastIndexOf_below O x i
  end.

Definition Array_lastIndexOf (O x : value) : M value :=
  len ← length_of O;
  lastIndexOf_below O x len.

(** An entry of [arrayInstrumentations] for a search method
    [originMethod]:
    [[
      let res = originMethod.apply(this, args)
      if (res === false) { res = originMethod.apply(this[RAW_KEY], args) }
      return res
    ]] *)
Definition instrumented (originMethod : value → value → M value)
    (this x : value) : M value :=
  res ← originMethod this x;
  if strict_eq res (VBool false) then
    raw ← get_value this KRaw;
    originMethod raw x
  else ret res.

(** A call [arr.method(x)]: the [get] handler of a reactive array answers
    the method name with the instrumented method; on a raw array it is the
    method of [Array.prototype]. *)
Definition call_search (originMethod : value → value → M value)
    (arr x : value) : M value :=
  match arr with
  | VObj r =>
      o ← lookup_in heap r;
      if isArray o then originMethod arr x else unmodelled
  | VProxy p =>
      px ← lookup_in proxies p;
      o ← lookup_in heap (p_target px);
      match p_handler px with
      | Reactive _ _ => if isArray o then instrumented originMethod arr x else unmodelled
      | PlainHandler => unmodelled
      end
  | VUndef | VNull => throw
  | _ => unmodelled
  end.

(** *** The array method [push] *)

(** [Array.prototype.push.call(O, x)]:
    [[
      len = O.length
      O[len] = x
      O.length = len + 1
      return len + 1
    ]] *)
Definition Array_push (O x : value) : M value :=
  len ← length_of O;
  set_value O (KIdx len) x ;;
  set_value O KLength (VNum (Z.of_nat (S len))) ;;
  ret (VNum (Z.of_nat (S len))).

(** An entry of [arrayInstrumentations] for a mutating method
    [originMethod]:
    [[
      shouldTrack = false
      const res = originMethod.apply(this, args)
      shouldTrack = true
      return res
    ]] *)
Definition instrumented_mutator (originMethod : value → value → M value)
    (this x : value) : M value :=
  modify (set_shouldTrack false) ;;
  res ← originMethod this x;
  modify (set_shouldTrack true) ;;
  ret res.

(** A call [arr.push(x)].  Of the five overridden mutating methods this
    is the one that is embedded. *)
Definition call_push (arr x : value) : M value :=
  match arr with
  | VObj r =>
      o ← lookup_in heap r;
      if isArray o then Array_push arr x else unmodelled
  | VProxy p =>
      px ← lookup_in proxies p;
      o ← lookup_in heap (p_target px);
      match p_handler px with
      | Reactive _ _ =>
          if isArray o then instrumented_mutator Array_push arr x else unmodelled
      | PlainHandler => unmodelled
      end
  | VUndef | VNull => throw
  | _ => unmodelled
  end.

(** *** [computed] *)

(** The accessor [get value()] of the object that [computed] returns. *)
Definition computed_value (c : nat) : M value :=
  cr ← lookup_in computeds c;
  if dirty cr then
    v ← self (TCall (c_effectFn cr));
    modify (store_cacheValue c v) ;;
    modify (emit (EvLog "get new value")) ;;
    cr' ← lookup_in computeds c;
    ret (cacheValue cr')
  else
    modify (emit (EvLog "get cache value")) ;;
    ret (cacheValue cr).

(** *** Expressions and statements of user functions *)

Fixpoint eval (x : expr) : M value :=
  match x with
  | EConst v => ret v
  | EGet o k => ov ← eval o; get_value ov k
  | EAdd a b =>
      av ← eval a; bv ← eval b;
      match js_add av bv with Some v => ret v | None => unmodelled end
  | ECond c a b => cv ← eval c; if truthy cv then eval a else eval b
  | EValue c => computed_value c
  | EIncludes arr y => av ← eval arr; yv ← eval y; call_search Array_includes av yv
  | EIndexOf arr y => av ← eval arr; yv ← eval y; call_search Array_indexOf av yv
  | ELastIndexOf arr y =>
      av ← eval arr; yv ← eval y; call_search Array_lastIndexOf av yv
  | EPush arr y => av ← eval arr; yv ← eval y; call_push av yv
  end.

(** [effect(fn, options)]: build the wrapper with [deps = []], run it
    unless [options.lazy], and return it. *)
Definition effect (f : wrapped) (opts : EffectFnOptions) : M nat :=
  e ← gets (λ st, length (effectFns st));
  modify (λ st, set_effectFns
            (effectFns st ++ [{| fn := f; deps := []; options := opts |}]) st) ;;
  (if lazy opts then ret tt else self (TCall e) ;; ret tt) ;;
  ret e.

Fixpoint exec (s : stmt) : M unit :=
  match s with
  | SSkip => ret tt
  | SSeq a b => exec a ;; exec b
  | SExpr x => eval x ;; ret tt
  | SSet o k x => ov ← eval o; v ← eval x; set_value ov k v
  | SDelete o k => ov ← eval o; delete_value ov k
  | SIf c a b => cv ← eval c; if truthy cv then exec a else exec b
  | SEffect b r deferred =>
      effect (FUser {| body := b; result := r |})
             {| scheduler := if deferred then Some SchedQueue else None;
                lazy := false |} ;;
      ret tt
  | SThrow => throw
  end.

(** *** [traverse] of the [watch] listing *)

(** The keys of [for (const key in source)]; the [ownKeys] handler of a
    reactive proxy tracks [length] or [ITERATE_KEY] first. *)
Definition for_in_keys (source : value) : M (list key) :=
  match source with
  | VObj r =>
      o ← lookup_in heap r;
      match proto o with VNull => ret (enumerable_keys o) | _ => unmodelled end
  | VProxy p =>
      px ← lookup_in proxies p;
      o ← lookup_in heap (p_target px);
      match p_handler px with
      | PlainHandler => ret tt
      | Reactive _ _ =>
          modify (track (p_target px) (if isArray o then KLength else KIterate))
      end ;;
      match proto o with VNull => ret (enumerable_keys o) | _ => unmodelled end
  | _ => ret []
  end.

(** [traverse(source, seen)], returning the set [seen]; [n] bounds the
    depth of the recursion. *)
Fixpoint traverse (n : nat) (source : value) (seen : list value)
  : M (list value) :=
  match n with
  | 0 => λ _, OutOfFuel
  | S n' =>
      if negb (is_object source) || bool_decide (source ∈ seen) then ret seen
      else
        keys ← for_in_keys source;
        (fix loop (keys : list key) (seen : list value) : M (list value) :=
           match keys with
           | [] => ret seen
           | k :: keys' =>
               v ← get_value source k;
               seen' ← traverse n' v seen;
               loop keys' seen'
           end) keys (seen ++ [source])
  end.

(** *** The wrapper [effectFn] *)

Definition run_wrapped (f : wrapped) : M value :=
  match f with
  | FUser uf => exec (body uf) ;; eval (result uf)
  | FTraverse source =>
      traverse fuel source [] ;;
      ret (if is_object source then source else VUndef)
  end.

(** The wrapper around the call [fn()]:
    [[
      cleanup(effectFn)
      activeEffect = effectFn
      effectStack.push(effectFn)
      const res = fn()
      effectStack.pop()
      activeEffect = effectStack[effectStack.length - 1]
      return res
    ]] *)
Definition wrapper (e : nat) (call_fn : M value) : M value :=
  modify (cleanup e) ;;
  modify (set_activeEffect (Some e)) ;;
  modify (λ st, set_effectStack (effectStack st ++ [e]) st) ;;
  modify (emit (EvRun e)) ;;
  res ← call_fn;
  modify (λ st, set_effectStack (removelast (effectStack st)) st) ;;
  modify (λ st, set_activeEffect (last (effectStack st)) st) ;;
  ret res.

(** A call [effectFn()] of the effect function [e]. *)
Definition effectFn (e : nat) : M value :=
  ef ← lookup_in effectFns e;
  wrapper e (run_wrapped (fn ef)).

Definition step (t : task) : M value :=
  match t with
  | TCall e => effectFn e
  | TGet (VObj r) k receiver => Reflect_get r k receiver
  | TGet (VProxy p) k receiver => proxy_get p k receiver
  | TGet _ _ _ => unmodelled
  | TSet (VObj r) k v receiver => Reflect_set r k v receiver
  | TSet (VProxy p) k v receiver => proxy_set p k v receiver
  | TSet _ _ _ _ => unmodelled
  | TStmt s => exec s ;; ret VUndef
  end.

End Level.

(** The interpreter: [fuel] bounds the depth of nested calls. *)
Fixpoint interp (fuel : nat) (t : task) : M value :=
  match fuel with
  | 0 => λ _, OutOfFuel
  | S n => step n (interp n) t
  end.

(** ** Relations between the states of a call

    A piece of the interpreter respects the pair [(QR, QT)] when [QR]
    relates the state before it to the state in which it returns, and [QT]
    to the state in which it throws. *)
Definition respects (QR QT : state → state → Prop) {A} (m : M A) : Prop :=
  ∀ st, match m st with
        | Ret _ st' => QR st st'
        | Throw st' => QT st st'
        | _ => True
        end.

(** On return the stack is what it was, and the active effect is either
    untouched or reset to the top of the stack. *)
Definition stack_kept (st st' : state) : Prop :=
  effectStack st' = effectStack st ∧
  (activeEffect st' = activeEffect st ∨ activeEffect st' = last (effectStack st)).

(** When an exception propagates, the effect functions that were running
    are still on the stack, and the innermost one is still the active
    effect. *)
Definition stack_left (st st' : state) : Prop :=
  ∃ rest, effectStack st' = effectStack st ++ rest ∧
    match rest with
    | [] => activeEffect st' = activeEffect st
            ∨ activeEffect st' = last (effectStack st)
    | _ => activeEffect st' = last (effectStack st')
    end.

(** The back-reference list of an effect names exactly the dependency
    sets that the effect is a member of: [track] adds to a set and pushes
    it on [deps] together, [cleanup] empties both. *)
Definition backrefs (st : state) : Prop :=
  ∀ e t k, e ∈ subscribers (effectsBuckets st) t k
           ↔ ∃ ef, effectFns st !! e = Some ef ∧ (t, k) ∈ deps ef.

(** The states that the system goes through: the back-references are
    exact, the active effect is the top of the effect stack, and the stack
    holds effect functions that [effect] has created. *)
Definition consistent (st : state) : Prop :=
  backrefs st ∧
  activeEffect st = last (effectStack st) ∧
  (∀ x, x ∈ effectStack st → x < length (effectFns st)).

Definition keeps_consistent (st st' : state) : Prop :=
  consistent st → consistent st'.

(** Between [st] and [st'] the trace and the log of recorded
    dependencies have grown, and an effect whose function was not called
    in between belongs to the sets it belonged to and to those recorded for
    it in between. *)
Definition memberships_follow (st st' : state) : Prop :=
  ∃ tr tk,
    trace st' = trace st ++ tr ∧ tracked st' = tracked st ++ tk ∧
    ∀ e, EvRun e ∉ tr → ∀ t k,
      e ∈ subscribers (effectsBuckets st') t k
      ↔ e ∈ subscribers (effectsBuckets st) t k ∨ (e, t, k) ∈ tk.

(** [m'] gives the outcome of [m] wherever [m] does not run out of
    fuel. *)
Definition refines {A} (m m' : M A) : Prop :=
  ∀ st, match m st with
        | OutOfFuel => True
        | o => m' st = o
        end.

(** ** The operations of a program at top level *)

Section TopLevel.

Variable fuel : nat.

(** Statements and expressions executed outside any function. *)
Definition run (s : stmt) : M unit := exec (interp fuel) s.
Definition read (x : expr) : M value := eval (interp fuel) x.

(** [computed(getter)] *)
Definition computed (getter : userFn) : M nat :=
  c ← gets (λ st, length (computeds st));
  e ← effect (interp fuel) (FUser getter)
         {| scheduler := Some (SchedComputed c); lazy := true |};
  modify (λ st, set_computeds
            (computeds st ++ [{| c_effectFn := e; cacheValue := VUndef;
                                 dirty := true |}]) st) ;;
  ret c.

(** The first argument of [watch]: a getter function, or a value to
    traverse. *)
Inductive source : Type :=
| SrcFunction (getter : userFn)
| SrcValue (v : value).

(** [watch(source, cb, options)] *)
Definition watch (src : source) (cb : callback) (immediate : bool) : M unit :=
  w ← gets (λ st, length (watchers st));
  e ← gets (λ st, length (effectFns st));
  modify (λ st, set_watchers
            (watchers st ++ [{| w_cb := cb; w_effectFn := e; oldValue := VUndef;
                                newValue := VUndef; w_cleanup := None |}]) st) ;;
  effect (interp fuel)
         (match src with
          | SrcFunction getter => FUser getter
          | SrcValue v => FTraverse v
          end)
         {| scheduler := Some (SchedWatch w); lazy := true |} ;;
  if immediate then job (interp fuel) w
  else
    v ← interp fuel (TCall e);
    modify (seed_oldValue w v).

(** The deferred effect functions are called (the timers fire). *)
Definition flush_jobs : M unit :=
  jobs ← gets jobQueue;
  modify (set_jobQueue []) ;;
  for_each (λ f, interp fuel (TCall f) ;; ret tt) jobs.

End TopLevel.

End Reactivity.

(** * The programs of the listings

    The demonstration programs at the end of the listings, as inputs of
    the interpreter.  Effect functions, proxies, computed values and
    watchers are numbered in the order of their creation. *)

Module Programs.
Import Reactivity.
Local Open Scope M_scope.

(** A depth of nested calls that suffices for the programs below; they
    are stated for any depth from this one on. *)
Definition depth : nat := 8.

Definition no_result : expr := EConst VUndef.

(** The statement [o[k] = v] at top level. *)
Definition assign (fuel : nat) (o : value) (k : key) (v : value) : M unit :=
  run fuel (SSet (EConst o) k (EConst v)).

(** [const proxyData = new Proxy(originData, { get, set })] for the data
    object at address [0]. *)
Definition with_proxyData (originData : obj) : state :=
  set_proxies [{| p_target := 0; p_handler := PlainHandler |}]
    (initial [originData]).

Definition proxyData : expr := EConst (VProxy 0).


Definition fn2 : stmt := SExpr (EGet proxyData (KStr "bar")).

Definition fn1 : stmt :=
  SSeq (SEffect fn2 no_result false) (SExpr (EGet proxyData (KStr "foo"))).

Definition nested (fuel : nat) : M unit :=
  run fuel (SEffect fn1 no_result false).

(** ** An effect that reads and writes the same property
    [const counter = reactive({ count: 1 });
     effect(() => { counter.count++ })] *)
Definition counter_data : state :=
  initial [plain_object [(KStr "count", VNum 1)]].

Definition increment (counter : value) : stmt :=
  SSet (EConst counter) (KStr "count")
       (EAdd (EGet (EConst counter) (KStr "count")) (EConst (VNum 1))).

Definition self_increment (fuel : nat) : M value :=
  counter ← reactive (VObj 0);
  run fuel (SEffect (increment counter) no_result false) ;;
  ret counter.

(** ** An effect function that throws
    [effect(() => { throw new Error() })] *)
Definition throwing (fuel : nat) : M unit :=
  run fuel (SEffect SThrow no_result false).

(** ** A reactive array
    [const arr = reactive([1, 2, 3]); effect(() => { arr[2] })] *)
Definition array_data : state := initial [array_object [VNum 1; VNum 2; VNum 3]].

Definition array_reader (fuel : nat) : M value :=
  arr ← reactive (VObj 0);
  run fuel (SEffect (SExpr (EGet (EConst arr) (KIdx 2))) no_result false) ;;
  ret arr.

(** ** Two effects that push
    [[
      const b = reactive([])
      effect(() => { b.push(1) })
      effect(() => { b.push(2) })
    ]] *)
Definition pushers_data : state := initial [array_object []].

Definition pushers (fuel : nat) : M value :=
  b ← reactive (VObj 0);
  run fuel (SEffect (SExpr (EPush (EConst b) (EConst (VNum 1)))) no_result false) ;;
  run fuel (SEffect (SExpr (EPush (EConst b) (EConst (VNum 2)))) no_result false) ;;
  ret b.

(** ** Searching a raw element
    [const obj = {}; const a = reactive([obj])] *)
Definition array_of_obj_data : state :=
  initial [plain_object []; array_object [VObj 0]].

Definition array_of_obj : M value := reactive (VObj 1).

(** ** Inheritance
    [[
      const proxyChild = reactive(originChild)
      const proxyParent = reactive(originParent)
      Object.setPrototypeOf(proxyChild, proxyParent)
      effect(() => { proxyChild.bar })
    ]]
    with [originChild = {}] and [originParent = { bar }]. *)
Definition originChild : obj :=
  {| isArray := false; elems := []; props := []; proto := VProxy 1 |}.

Definition inheritance_data (bar : value) : state :=
  initial [originChild; plain_object [(KStr "bar", bar)]].

Definition inheritance (fuel : nat) : M unit :=
  proxyChild ← reactive (VObj 0);
  proxyParent ← reactive (VObj 1);
  run fuel (SEffect (SExpr (EGet (EConst proxyChild) (KStr "bar")))
                    no_result false).

(** ** A reactive object with one subscriber of [bar]
    [const p = reactive({ bar }); effect(() => { p.bar })] *)
Definition one_reader_data (bar : value) : state :=
  initial [plain_object [(KStr "bar", bar)]].

Definition one_reader (fuel : nat) : M unit :=
  p ← reactive (VObj 0);
  run fuel (SEffect (SExpr (EGet (EConst p) (KStr "bar"))) no_result false).

(** ** Branch switching
    [[
      const data = reactive({ ok, text: 'Hello Vue', text2: 'text2' })
      effect(() => { document.title = data.ok ? data.text : 'not' })
    ]] *)
Definition title_data (ok : value) : state :=
  initial [plain_object [(KStr "ok", ok); (KStr "text", VStr "Hello Vue");
                         (KStr "text2", VStr "text2")]].

Definition title_fn (data : value) : stmt :=
  SExpr (ECond (EGet (EConst data) (KStr "ok"))
               (EGet (EConst data) (KStr "text"))
               (EConst (VStr "not"))).

Definition title (fuel : nat) : M value :=
  data ← reactive (VObj 0);
  run fuel (SEffect (title_fn data) no_result false) ;;
  ret data.

(** ** A deferred effect
    [[
      effect(() => { console.log(proxyData.count) },
             { scheduler(fn) { setTimeout(fn) } })
      proxyData.count++
    ]] *)
Definition deferred_data (count : Z) : state :=
  with_proxyData (plain_object [(KStr "count", VNum count)]).

Definition deferred (fuel : nat) : M unit :=
  run fuel (SEffect (SExpr (EGet proxyData (KStr "count"))) no_result true) ;;
  run fuel (increment (VProxy 0)).

(** ** A computed value
    [const sum = computed(() => proxyData.foo + proxyData.bar)] *)
Definition sum_getter : userFn :=
  {| body := SSkip;
     result := EAdd (EGet proxyData (KStr "foo")) (EGet proxyData (KStr "bar")) |}.

Definition sum_data (foo bar : Z) : obj :=
  plain_object [(KStr "count", VNum 1); (KStr "foo", VNum foo);
                (KStr "bar", VNum bar)].

(** ** Watchers
    [watch(proxyData, cb, { immediate })] and
    [watch(() => proxyData.bar, cb, { immediate })], with a callback that
    only logs. *)
Definition logging_cb : callback := {| cb_onInvalidate := None; cb_body := SSkip |}.

Definition bar_getter : userFn :=
  {| body := SSkip; result := EGet proxyData (KStr "bar") |}.

(** A callback that registers an invalidation hook:
    [(newValue, oldValue, onInvalidate) => { onInvalidate(() => { ... }) }] *)
Definition invalidating_cb : callback :=
  {| cb_onInvalidate := Some SSkip; cb_body := SSkip |}.

(** The state of a [watch] call once it has created its variables and its
    lazy effect. *)
Definition watch_registered (src : source) (cb : callback) (st : state) : state :=
  set_effectFns
    (effectFns st ++
       [{| fn := match src with
                 | SrcFunction getter => FUser getter
                 | SrcValue v => FTraverse v
                 end;
           deps := [];
           options := {| scheduler := Some (SchedWatch (length (watchers st)));
                         lazy := true |} |}])
    (set_watchers
       (watchers st ++ [{| w_cb := cb; w_effectFn := length (effectFns st);
                           oldValue := VUndef; newValue := VUndef;
                           w_cleanup := None |}]) st).

(** The [EvCallback] events of a trace. *)
Definition is_callback (ev : event) : bool :=
  match ev with EvCallback _ _ _ => true | _ => false end.

Definition callbacks (tr : list event) : list event :=
  filter (λ ev, is_callback ev) tr.

(** ** Observing a program *)

(** The trace of a program that returns. *)
Definition trace_of {A} (o : outcome A) : option (list event) :=
  match o with Ret _ st => Some (trace st) | _ => None end.

(** The value of a program that returns. *)
Definition returned {A} (o : outcome A) : option A :=
  match o with Ret a _ => Some a | _ => None end.

(** The raw objects at the end of a program that returns. *)
Definition heap_of {A} (o : outcome A) : option (list obj) :=
  match o with Ret _ st => Some (heap st) | _ => None end.

(** The dependencies recorded by a program that returns. *)
Definition tracked_of {A} (o : outcome A) : option (list (nat * nat * key)) :=
  match o with Ret _ st => Some (tracked st) | _ => None end.


End Programs.
(** * Shapes of data

    Notions about raw objects and the heap that the statements on
    [traverse] and on the array methods speak of. *)

Module Shapes.
Import Reactivity.

(** The values that a raw object holds: the elements of an array that
    are not holes, and the values of its other properties. *)
Definition stored (o : obj) : list value :=
  omap id (elems o) ++ (props o).*2.

(** A value of raw data on the heap [h]: no proxy, and a reference only to
    an object of [h]. *)
Definition raw_value (h : list obj) (v : value) : Prop :=
  match v with
  | VProxy _ => False
  | VObj r => r < length h
  | _ => True
  end.

(** A heap of raw data: objects without prototype that hold raw values. *)
Definition raw_data (h : list obj) : Prop :=
  ∀ o, o ∈ h → proto o = VNull ∧ ∀ v, v ∈ stored o → raw_value h v.

(** The objects that a [for ... in] loop over the object [a], reading
    each property, comes across. *)
Definition child (h : list obj) (a : nat) (v : value) : Prop :=
  ∃ o k, h !! a = Some o ∧ k ∈ enumerable_keys o ∧
         default VUndef (own_get o k) = v ∧ is_object v = true.

(** [w] is [v], or an object that such loops reach from [v]. *)
Inductive reaches (h : list obj) : value → value → Prop :=
| reaches_here v : reaches h v v
| reaches_child a v w : child h a v → reaches h v w → reaches h (VObj a) w.

(** The number of objects of the heap that are not in the set [seen]. *)
Definition unseen (h : list obj) (seen : list value) : nat :=
  length (filter (λ r, VObj r ∉ seen) (seq 0 (length h))).

(** A flat object: all its values are primitive. *)
Definition flat (o : obj) : Prop :=
  ∀ v, v ∈ stored o → is_object v = false.

(** Between [st] and [st'] the effect stack is the same, and every
    dependency recorded in between belongs to an effect function that was
    executing: the active one of [st], or one called in between. *)
Definition attributed (st st' : state) : Prop :=
  consistent st →
  consistent st' ∧ effectStack st' = effectStack st ∧
  ∃ tr tk, trace st' = trace st ++ tr ∧ tracked st' = tracked st ++ tk ∧
    ∀ e t k, (e, t, k) ∈ tk → activeEffect st = Some e ∨ EvRun e ∈ tr.

(** The same, for a piece of code that does not read through a proxy
    itself: what is recorded belongs to the effects that it calls. *)
Definition attributed_to_callees (st st' : state) : Prop :=
  consistent st →
  consistent st' ∧ effectStack st' = effectStack st ∧
  ∃ tr tk, trace st' = trace st ++ tr ∧ tracked st' = tracked st ++ tk ∧
    ∀ e t k, (e, t, k) ∈ tk → EvRun e ∈ tr.

(** Code that reads no property through a proxy itself: constants, sums,
    conditionals and reads of computed values; and statements made of
    these, nested effects included. *)
Fixpoint reads_no_property (x : expr) : bool :=
  match x with
  | EConst _ | EValue _ => true
  | EAdd a b => reads_no_property a && reads_no_property b
  | ECond c a b =>
      reads_no_property c && reads_no_property a && reads_no_property b
  | _ => false
  end.

Fixpoint touches_no_property (s : stmt) : bool :=
  match s with
  | SSkip | SThrow | SEffect _ _ _ => true
  | SSeq a b => touches_no_property a && touches_no_property b
  | SExpr x => reads_no_property x
  | SIf c a b =>
      reads_no_property c && touches_no_property a && touches_no_property b
  | SSet _ _ _ | SDelete _ _ => false
  end.

(** No condition on the state that an exception leaves. *)
Definition unconstrained (st st' : state) : Prop := True.


(** Two objects that refer to each other, and the first to itself:
    [[
      const a = { child: b }; a.self = a
      const b = { parent: a, n: 1 }
    ]] *)
Definition cyclic_data : state :=
  initial [plain_object [(KStr "self", VObj 0); (KStr "child", VObj 1)];
           plain_object [(KStr "parent", VObj 0); (KStr "n", VNum 1)]].

(** A reactive proxy of a flat object, and a lazy effect that traverses
    it:
    [[
      const data = reactive({ foo: 1, bar: 2 })
      effect(() => traverse(data), { lazy: true })
    ]] *)
Definition traversed_data : state :=
  set_effectFns
    [{| fn := FTraverse (VProxy 0); deps := [];
        options := {| scheduler := None; lazy := true |} |}]
    (set_proxies [{| p_target := 0; p_handler := Reactive false false |}]
       (initial [plain_object [(KStr "foo", VNum 1); (KStr "bar", VNum 2)]])).

End Shapes.
(** * Further programs *)

Module Scenarios.
Import Reactivity Programs.
Local Open Scope M_scope.



Definition length_reader (change : expr → stmt) (fuel : nat) : M value :=
  arr ← reactive (VObj 0);
  run fuel (SEffect (SExpr (EGet (EConst arr) KLength)) no_result false) ;;
  run fuel (change (EConst arr)) ;;
  run fuel (SSet (EConst arr) KLength (EConst (VNum 0))) ;;
  ret arr.

(** ** An effect that reads a computed value
    [[
      const sum = computed(() => proxyData.foo + proxyData.bar)
      effect(() => { sum.value })
      proxyData.foo = foo'
    ]] *)
Definition computed_reader (foo' : Z) (fuel : nat) : M unit :=
  sum ← computed fuel sum_getter;
  run fuel (SEffect (SExpr (EValue sum)) no_result false) ;;
  assign fuel (VProxy 0) (KStr "foo") (VNum foo').

(** ** Effects that increment a property
    [[
      const counter = reactive({ count })
      effect(() => { counter.count++ })
    ]]
    in any state: the effect function [e] is the one of an effect
    [() => { counter.count++ }] for the proxy [p], and [p] is a mutable
    reactive proxy of the object [t], whose [count] is the number [c]. *)
Definition increments (st : state) (e p : nat) : Prop :=
  ∃ d, effectFns st !! e
       = Some {| fn := FUser {| body := increment (VProxy p);
                                result := no_result |};
                 deps := d;
                 options := {| scheduler := None; lazy := false |} |}.

Definition counts (st : state) (p t : nat) (c : Z) : Prop :=
  (∃ isShallow,
     proxies st !! p
     = Some {| p_target := t; p_handler := Reactive isShallow false |}) ∧
  ∃ o, heap st !! t = Some o ∧ isArray o = false ∧
       own_get o (KStr "count") = Some (VNum c).

(** The effect function that [effect(() => { counter.count++ })] creates,
    and the state once it is registered. *)
Definition incrementer (p : nat) : EffectFn :=
  {| fn := FUser {| body := increment (VProxy p); result := no_result |};
     deps := [];
     options := {| scheduler := None; lazy := false |} |}.

Definition registered (p : nat) (st : state) : state :=
  set_effectFns (effectFns st ++ [incrementer p]) st.

(** The state in which the function of the effect [e] starts: [e] is
    cleaned up, active and on the stack; and the state in which its
    wrapper returns, for the state [st] in which the function ends. *)
Definition entered (e : nat) (st : state) : state :=
  emit (EvRun e)
    (set_effectStack (effectStack (cleanup e st) ++ [e])
       (set_activeEffect (Some e) (cleanup e st))).

Definition exited (st : state) : state :=
  set_activeEffect (last (removelast (effectStack st)))
    (set_effectStack (removelast (effectStack st)) st).

(** The object [o] with the count [c]. *)
Definition counted (o : obj) (c : Z) : obj :=
  {| isArray := false; elems := elems o;
     props := Map_set (KStr "count") (VNum c) (props o); proto := proto o |}.

(** The state in which the write of [counter.count++] notifies: the effect
    [e] has started and read the count of the object [t], which is now
    the object [o']. *)
Definition incremented (e t : nat) (o' : obj) (st : state) : state :=
  let st1 := track t (KStr "count") (entered e st) in
  emit (EvTrigger t (KStr "count")) (set_heap (<[t := o']> (heap st1)) st1).

(** Between two runs: the effect [e] increments the count of [t], it is
    the only subscriber of the count, and no effect is running. *)
Definition sole_incrementer (st : state) (e p t : nat) (c : Z) : Prop :=
  increments st e p ∧ counts st p t c ∧ shouldTrack st = true ∧
  activeEffect st = None ∧ effectStack st = [] ∧
  ∀ x, x ∈ subscribers (effectsBuckets st) t (KStr "count") ↔ x = e.

(** The writes [counter.count = v] from outside, for the numbers [v] of a
    list in turn. *)
Definition writes (fuel : nat) (counter : value) (vs : list Z) : M unit :=
  for_each (λ v, assign fuel counter (KStr "count") (VNum v)) vs.

(** What these writes add to the trace when the effect [e] is the only
    subscriber of [count] and [c] is the count: a write of the count
    itself adds nothing, and any other write is notified, runs [e], and
    [e] writes the count in turn. *)
Fixpoint notified (t e : nat) (c : Z) (vs : list Z) : list event :=
  match vs with
  | [] => []
  | v :: vs' =>
      if (v =? c)%Z then notified t e c vs'
      else [EvTrigger t (KStr "count"); EvRun e; EvTrigger t (KStr "count")]
             ++ notified t e (v + 1) vs'
  end.

(** Two effects that increment the same property:
    [[
      const counter = reactive({ count: 1 })
      effect(() => { counter.count++ })
      effect(() => { counter.count++ })
    ]] *)
Definition two_incrementers (fuel : nat) : M value :=
  counter ← reactive (VObj 0);
  run fuel (SEffect (increment counter) no_result false) ;;
  run fuel (SEffect (increment counter) no_result false) ;;
  ret counter.

(** ** Watchers whose callback is not called once
    [[
      watch(() => { throw new Error() }, cb, { immediate: true })
      watch(() => proxyData.bar,
            () => { if (proxyData.foo) { proxyData.foo = 0; proxyData.bar = 5 } },
            { immediate: true })
    ]]
    The callback of the second one writes, the first time it is called,
    the property that the source reads. *)
Definition throwing_getter : userFn := {| body := SThrow; result := no_result |}.

Definition rewriting_cb : callback :=
  {| cb_onInvalidate := None;
     cb_body := SIf (EGet proxyData (KStr "foo"))
                    (SSeq (SSet proxyData (KStr "foo") (EConst (VNum 0)))
                          (SSet proxyData (KStr "bar") (EConst (VNum 5))))
                    SSkip |}.

(** The trace of a program that ends in an exception. *)
Definition trace_of_throw {A} (o : outcome A) : option (list event) :=
  match o with Throw st => Some (trace st) | _ => None end.

End Scenarios.
(** * The first listing: one hard-coded effect

    [[
      const effects = new Set<Function>()
      const proxyData = new Proxy(originData, {
        get(target, key) { effects.add(effect); return target[key] },
        set(target, key, newVal) {
          target[key] = newVal
          effects.forEach((fn) => fn())
          return true
        },
      })
      function effect() { document.title = proxyData.text }
    ]] *)

Module Simplest.

(** The functions that the set [effects] can hold: the [get] handler adds
    the function [effect] by name. *)
Inductive function : Type := Effect.

Global Instance function_eq_dec : EqDecision function.
Proof. solve_decision. Defined.

Record state : Type := {
  originData : list (key * value);
  effects : list function;     (* the Set *)
  title : value;               (* [document.title] *)
  calls : nat                  (* log: the number of executions of [effect] *)
}.

(** [originData.text] *)
Definition text (st : state) : value :=
  default VUndef (Map_get (KStr "text") (originData st)).

(** The [get] handler. *)
Definition proxy_get (k : key) (st : state) : value * state :=
  (default VUndef (Map_get k (originData st)),
   {| originData := originData st; effects := Set_add Effect (effects st);
      title := title st; calls := calls st |}).

(** [function effect() { document.title = proxyData.text }] *)
Definition effect (st : state) : state :=
  let '(v, st1) := proxy_get (KStr "text") st in
  {| originData := originData st1; effects := effects st1;
     title := v; calls := S (calls st1) |}.

Definition call (f : function) (st : state) : state :=
  match f with Effect => effect st end.

(** [effects.forEach((fn) => fn())] from the [i]-th element on.
    [forEach] visits the elements in insertion order, those added during
    the iteration included; [fuel] bounds the number of visits. *)
Fixpoint forEach_from (fuel i : nat) (st : state) : option state :=
  match fuel with
  | 0 => None
  | S n =>
      match effects st !! i with
      | None => Some st
      | Some f => forEach_from n (S i) (call f st)
      end
  end.

(** The [set] handler. *)
Definition proxy_set (fuel : nat) (k : key) (newVal : value) (st : state)
  : option state :=
  forEach_from fuel 0
    {| originData := Map_set k newVal (originData st); effects := effects st;
       title := title st; calls := calls st |}.

(** What a program does with the listing: it reads and writes properties
    through the proxy and calls [effect]. *)
Inductive op : Type :=
| Read (k : key)
| Write (k : key) (v : value)
| CallEffect.

Definition step (fuel : nat) (o : op) (st : state) : option state :=
  match o with
  | Read k => Some (proxy_get k st).2
  | Write k v => proxy_set fuel k v st
  | CallEffect => Some (effect st)
  end.

Fixpoint run (fuel : nat) (ops : list op) (st : state) : option state :=
  match ops with
  | [] => Some st
  | o :: ops' =>
      match step fuel o st with
      | Some st' => run fuel ops' st'
      | None => None
      end
  end.

(** The state in which the listing starts. *)
Definition start (t : value) : state :=
  {| originData := [(KStr "text", VStr "Hello Vue")]; effects := [];
     title := t; calls := 0 |}.

End Simplest.
(** * Listing [2.basic-enhance.ts]: [effect], [track] and [trigger]

    The first listing with a dependency store.  [effect(fn)] makes [fn]
    the active effect and calls it; the sets hold the functions
    themselves; there is no cleanup, and [trigger] iterates over the live
    set.  As in the listing, the functions only read reactive data. *)

Module BasicEnhance.
Import BranchCleanup.

(** The functions that the program passes to [effect] are entries of the
    table [fns]; a function is identified by its index. *)
Record state : Type := {
  heap : list (list (key * value));        (* the plain data objects *)
  effectsBuckets : gmap nat depsMap;
  fns : list rexpr;
  activeEffect : option nat;
  executed : list nat   (* log: one entry per execution of a function *)
}.

Definition initial (h : list (list (key * value))) (fs : list rexpr) : state :=
  {| heap := h; effectsBuckets := ∅; fns := fs; activeEffect := None;
     executed := [] |}.

(** [track(target, key)]: [deps.add(activeEffect)] *)
Definition track (target : nat) (k : key) (st : state) : state :=
  match activeEffect st with
  | None => st
  | Some e =>
      {| heap := heap st;
         effectsBuckets := bucket_add (effectsBuckets st) target k e;
         fns := fns st; activeEffect := activeEffect st;
         executed := executed st |}
  end.

(** The [get] handler of [proxyData]. *)
Definition proxy_get (target : nat) (k : key) (st : state) : value * state :=
  (plain_get (heap st) target k, track target k st).

(** Execution of the body of a function. *)
Fixpoint eval_fn (r : rexpr) (st : state) : value * state :=
  match r with
  | RConst v => (v, st)
  | RGet target k => proxy_get target k st
  | RCond c a b =>
      let '(vc, st1) := eval_fn c st in
      if truthy vc then eval_fn a st1 else eval_fn b st1
  | RSeq a b => eval_fn b (eval_fn a st).2
  end.

(** A call [fn()] of the function [f]. *)
Definition call (f : nat) (st : state) : state :=
  match fns st !! f with
  | None => st
  | Some r =>
      (eval_fn r {| heap := heap st; effectsBuckets := effectsBuckets st;
                    fns := fns st; activeEffect := activeEffect st;
                    executed := executed st ++ [f] |}).2
  end.

(** [effect(fn)]: [activeEffect = fn; fn()] *)
Definition effect (f : nat) (st : state) : state :=
  call f {| heap := heap st; effectsBuckets := effectsBuckets st;
            fns := fns st; activeEffect := Some f; executed := executed st |}.

(** [effects?.forEach((fn) => fn?.())] on the set of [(target, k)], from
    its [i]-th element on.  [forEach] visits the elements in insertion
    order, those added during the iteration included; [fuel] bounds the
    number of visits. *)
Fixpoint forEach_from (fuel : nat) (target : nat) (k : key) (i : nat)
    (st : state) : option state :=
  match fuel with
  | 0 => None
  | S n =>
      match subscribers (effectsBuckets st) target k !! i with
      | None => Some st
      | Some f => forEach_from n target k (S i) (call f st)
      end
  end.

(** [trigger(target, key)] *)
Definition trigger (fuel : nat) (target : nat) (k : key) (st : state)
  : option state :=
  forEach_from fuel target k 0 st.

(** The [set] handler of [proxyData]. *)
Definition proxy_set (fuel : nat) (target : nat) (k : key) (newVal : value)
    (st : state) : option state :=
  trigger fuel target k
    {| heap := alter (Map_set k newVal) target (heap st);
       effectsBuckets := effectsBuckets st; fns := fns st;
       activeEffect := activeEffect st; executed := executed st |}.

(** The two effects of the listing: [() => { document.title =
    proxyData.text }] and [() => { console.log('hahaha its changed!') }]. *)
Definition listing : state :=
  initial [[(KStr "text", VStr "Hello Vue")]]
          [RGet 0 (KStr "text"); RConst VUndef].

End BasicEnhance.
(** * The error-handling utility

    [[
      let errorHandler: ErrorHandler | null = null
      const demoUtils = {
        foo(fn) { console.log('foo'); callWithErrorHandling(fn) },
        bar(fn) { console.log('bar'); callWithErrorHandling(fn) },
        registerErrorHandler(fn) { errorHandler = fn },
      }
      function callWithErrorHandling(fn) {
        try { return fn?.() } catch (error) { errorHandler(error) }
      }
    ]]
    The functions that a program passes to the utility are data: they
    log, throw, call the utility again and register handlers. *)

Module ErrorHandling.

Inductive error : Type :=
| Error (msg : string)     (* [new Error(msg)] *)
| TypeError.               (* the call of [errorHandler] while it is [null] *)

#[warnings="-register-all"]
Inductive code : Type :=
| Log (s : string)              (* [console.log(s)] *)
| LogArgument                   (* [console.log(error)], in a handler *)
| Throw (msg : string)          (* [throw new Error(msg)] *)
| Seq (a b : code)              (* [a; b] *)
| Foo (fn : option code)        (* [demoUtils.foo(fn)] *)
| Bar (fn : option code)        (* [demoUtils.bar(fn)] *)
| Register (h : code).          (* [demoUtils.registerErrorHandler((error) => { h })] *)

Inductive line : Type :=
| LStr (s : string)
| LArgument (e : option error).   (* [None] is [undefined] *)

Record state : Type := {
  errorHandler : option code;
  console : list line
}.

Definition initial : state := {| errorHandler := None; console := [] |}.

Definition log (l : line) (st : state) : state :=
  {| errorHandler := errorHandler st; console := console st ++ [l] |}.

Inductive result : Type :=
| Done (st : state)
| Threw (e : error) (st : state)
| OutOfFuel.

(** [callWithErrorHandling(fn)], where [call] runs a function on its
    argument. *)
Definition callWithErrorHandling
    (call : code → option error → state → result)
    (fn : option code) (st : state) : result :=
  match fn with
  | None => Done st
  | Some f =>
      match call f None st with
      | Threw e st1 =>
          match errorHandler st1 with
          | Some h => call h (Some e) st1
          | None => Threw TypeError st1
          end
      | r => r
      end
  end.

(** The body [c] of a function called with the argument [arg]; [fuel]
    bounds the depth of the execution. *)
Fixpoint exec (fuel : nat) (c : code) (arg : option error) (st : state)
  : result :=
  match fuel with
  | 0 => OutOfFuel
  | S n =>
      match c with
      | Log s => Done (log (LStr s) st)
      | LogArgument => Done (log (LArgument arg) st)
      | Throw msg => Threw (Error msg) st
      | Seq a b =>
          match exec n a arg st with
          | Done st1 => exec n b arg st1
          | r => r
          end
      | Foo fn => callWithErrorHandling (exec n) fn (log (LStr "foo") st)
      | Bar fn => callWithErrorHandling (exec n) fn (log (LStr "bar") st)
      | Register h => Done {| errorHandler := Some h; console := console st |}
      end
  end.

(** The number of constructors of a piece of code. *)
Fixpoint size (c : code) : nat :=
  match c with
  | Log _ | LogArgument | Throw _ => 1
  | Seq a b => S (size a + size b)
  | Foo fn | Bar fn => S (from_option size 0 fn)
  | Register h => S (size h)
  end.

(** A handler that only logs. *)
Fixpoint quiet (c : code) : bool :=
  match c with
  | Log _ | LogArgument => true
  | Seq a b => quiet a && quiet b
  | _ => false
  end.

(** The handlers that a piece of code registers only log. *)
Fixpoint registers_quiet (c : code) : bool :=
  match c with
  | Log _ | LogArgument | Throw _ => true
  | Seq a b => registers_quiet a && registers_quiet b
  | Foo fn | Bar fn => from_option registers_quiet true fn
  | Register h => quiet h
  end.

(** The program of the listing. *)
Definition handler : code := Seq (Log "error handler executed!") LogArgument.

Definition demo : code :=
  Seq (Register handler)
      (Seq (Foo (Some (Throw "foo error"))) (Bar (Some (Throw "bar error")))).

End ErrorHandling.
(** * Facts about the collections and the dependency store *)

Section CollectionFacts.
Context {A : Type} `{EqDecision A}.

Lemma elem_of_Set_add (x y : A) (s : list A) :
  y ∈ Set_add x s ↔ y = x ∨ y ∈ s.
Proof.
  unfold Set_add. destruct (decide (x ∈ s)).
  - split; [auto | intros [-> | ?]; auto].
  - rewrite elem_of_app, list_elem_of_singleton. tauto.
Qed.

Lemma elem_of_Set_delete (x y : A) (s : list A) :
  y ∈ Set_delete x s ↔ y ≠ x ∧ y ∈ s.
Proof. unfold Set_delete. by rewrite list_elem_of_filter. Qed.

Lemma NoDup_Set_add (x : A) (s : list A) : NoDup s → NoDup (Set_add x s).
Proof.
  intros Hs. unfold Set_add. destruct (decide (x ∈ s)); [done |].
  apply NoDup_app. split_and!; [done | | apply NoDup_singleton].
  intros y Hy ->%list_elem_of_singleton. done.
Qed.

Context {B : Type}.

Lemma Map_get_set_eq (k : A) (v : B) (m : list (A * B)) :
  Map_get k (Map_set k v m) = Some v.
Proof.
  induction m as [| [k' v'] m IH]; simpl.
  - by rewrite decide_True.
  - destruct (decide (k' = k)); simpl.
    + by rewrite decide_True.
    + by rewrite decide_False.
Qed.

Lemma Map_get_set_ne (k k0 : A) (v : B) (m : list (A * B)) :
  k ≠ k0 → Map_get k0 (Map_set k v m) = Map_get k0 m.
Proof.
  intros Hne. induction m as [| [k' v'] m IH]; simpl.
  - by rewrite decide_False.
  - destruct (decide (k' = k)) as [-> |]; simpl.
    + by rewrite !decide_False.
    + destruct (decide (k' = k0)); done.
Qed.
End CollectionFacts.

Lemma subscribers_bucket_add b t k e t' k' x :
  x ∈ subscribers (bucket_add b t k e) t' k'
  ↔ x ∈ subscribers b t' k' ∨ (x = e ∧ t' = t ∧ k' = k).
Proof.
  unfold subscribers, bucket_add.
  destruct (decide (t = t')) as [<- | Ht].
  - rewrite lookup_insert_eq.
    destruct (decide (k = k')) as [<- | Hk].
    + rewrite Map_get_set_eq. simpl. rewrite elem_of_Set_add.
      destruct (b !! t) as [dm |]; simpl; naive_solver.
    + rewrite Map_get_set_ne by done.
      destruct (b !! t) as [dm |]; simpl; naive_solver.
  - rewrite lookup_insert_ne by done. naive_solver.
Qed.

Lemma subscribers_bucket_delete e b t k t' k' x :
  x ∈ subscribers (bucket_delete e b (t, k)) t' k'
  ↔ x ∈ subscribers b t' k' ∧ ¬ (x = e ∧ t' = t ∧ k' = k).
Proof.
  unfold subscribers, bucket_delete. simpl.
  destruct (b !! t) as [dm |] eqn:Hdm.
  - destruct (Map_get k dm) as [deps |] eqn:Hdeps.
    + destruct (decide (t = t')) as [<- | Ht].
      * rewrite lookup_insert_eq, Hdm.
        destruct (decide (k = k')) as [<- | Hk].
        -- rewrite Map_get_set_eq, Hdeps. simpl.
           rewrite elem_of_Set_delete. naive_solver.
        -- rewrite Map_get_set_ne by done. naive_solver.
      * rewrite lookup_insert_ne by done. naive_solver.
    + split; [| tauto]. intros Hx. split; [done |].
      intros (-> & -> & ->). rewrite Hdm, Hdeps in Hx. simpl in Hx.
      by apply not_elem_of_nil in Hx.
  - split; [| tauto]. intros Hx. split; [done |].
    intros (-> & -> & ->). rewrite Hdm in Hx. by apply not_elem_of_nil in Hx.
Qed.

(** [cleanup]'s loop removes the effect from the sets of its list, and
    from no other. *)
Lemma subscribers_foldl_bucket_delete e l : ∀ b t k x,
  x ∈ subscribers (foldl (bucket_delete e) b l) t k
  ↔ x ∈ subscribers b t k ∧ ¬ (x = e ∧ (t, k) ∈ l).
Proof.
  induction l as [| [t0 k0] l IH]; intros b t k x; simpl.
  - rewrite elem_of_nil. tauto.
  - rewrite IH, subscribers_bucket_delete, elem_of_cons. naive_solver.
Qed.

Lemma alter_as_insert {A} (f : A → A) (l : list A) (i : nat) (x : A) :
  l !! i = Some x → alter f i l = <[i := f x]> l.
Proof.
  intros Hi. apply list_eq. intros j.
  destruct (decide (i = j)) as [<- | Hne].
  - rewrite list_lookup_alter_eq, Hi. simpl.
    by rewrite list_lookup_insert_eq by (by eapply lookup_lt_Some).
  - by rewrite list_lookup_alter_ne, list_lookup_insert_ne.
Qed.
(** * Facts about numbers *)

Module NumberFacts.
Import Reactivity.

(** A safe integer is a double. *)
Lemma round_to_double_safe z :
  isSafeInteger z = true → round_to_double z = z.
Proof.
  unfold isSafeInteger, MAX_SAFE_INTEGER. intros H.
  apply andb_prop in H as [H1 H2]. apply Z.leb_le in H1, H2.
  assert (Hmag : ∀ a, (Zpos a < 2 ^ 53)%Z → round_magnitude a = Zpos a).
  { intros a Ha. unfold round_magnitude.
    assert (Z.log2 (Zpos a) < 53)%Z by (apply Z.log2_lt_pow2; lia).
    by destruct (Z.log2 (Z.pos a) - 52)%Z eqn:He; [| lia |]. }
  destruct z as [| a | a]; simpl; [done | |].
  - apply Hmag. lia.
  - rewrite Hmag; lia.
Qed.

(** A sum that is a safe integer is exact. *)
Lemma js_add_safe x y :
  isSafeInteger (x + y) = true →
  js_add (VNum x) (VNum y) = Some (VNum (x + y)).
Proof. intros H. unfold js_add. simpl. by rewrite round_to_double_safe. Qed.

End NumberFacts.
(** * Facts about listing [3.branch-and-cleanup.ts] *)

Module BranchCleanupFacts.
Import BranchCleanup.

(** *** Bookkeeping lemmas *)

Lemma track_active target k st e ef :
  activeEffect st = Some e → effectFns st !! e = Some ef →
  track target k st =
    {| heap := heap st;
       effectsBuckets := bucket_add (effectsBuckets st) target k e;
       effectFns :=
         <[e := {| fn := fn ef; deps := deps ef ++ [(target, k)] |}]>
           (effectFns st);
       activeEffect := Some e;
       executed := executed st |}.
Proof.
  intros Ha He. unfold track. rewrite Ha.
  by rewrite (alter_as_insert _ _ _ _ He).
Qed.

(** One execution of a user function under the active effect [e]: the
    store gains [e] exactly at the properties read, and the back-reference
    list of [e] grows by these reads. *)
Lemma eval_fn_spec (r : rexpr) : ∀ st e ef,
  activeEffect st = Some e → effectFns st !! e = Some ef →
  (eval_fn r st).1 = value_of (heap st) r ∧
  heap (eval_fn r st).2 = heap st ∧
  activeEffect (eval_fn r st).2 = Some e ∧
  executed (eval_fn r st).2 = executed st ∧
  effectFns (eval_fn r st).2 =
    <[e := {| fn := fn ef; deps := deps ef ++ reads (heap st) r |}]>
      (effectFns st) ∧
  (∀ t k x, x ∈ subscribers (effectsBuckets (eval_fn r st).2) t k
            ↔ x ∈ subscribers (effectsBuckets st) t k
              ∨ (x = e ∧ (t, k) ∈ reads (heap st) r)).
Proof.
  induction r as [v | target k | c IHc a IHa b IHb | a IHa b IHb];
    intros st e ef Ha He; simpl.
  - split_and!; try done.
    + rewrite app_nil_r. destruct ef. by rewrite list_insert_id.
    + intros t k x. rewrite elem_of_nil. tauto.
  - rewrite (track_active _ _ _ _ _ Ha He). simpl. split_and!; try done.
    intros t k0 x. rewrite subscribers_bucket_add, list_elem_of_singleton.
    naive_solver.
  - destruct (eval_fn c st) as [vc st1] eqn:Hc.
    destruct (IHc st e ef Ha He) as (Hv & Hh & Ha1 & Hx & Hf & Hs).
    rewrite Hc in *. simpl in *. subst vc.
    assert (He1 : effectFns st1 !! e
                  = Some {| fn := fn ef;
                            deps := deps ef ++ reads (heap st) c |}).
    { rewrite Hf. apply list_lookup_insert_eq. by eapply lookup_lt_Some. }
    destruct (truthy (value_of (heap st) c)).
    + destruct (IHa st1 e _ Ha1 He1) as (Hv' & Hh' & Ha' & Hx' & Hf' & Hs').
      simpl in *. rewrite Hh in *. split_and!; try congruence.
      * rewrite Hf', Hf, list_insert_insert_eq. by rewrite app_assoc.
      * intros t k x. rewrite Hs', Hs, elem_of_app. naive_solver.
    + destruct (IHb st1 e _ Ha1 He1) as (Hv' & Hh' & Ha' & Hx' & Hf' & Hs').
      simpl in *. rewrite Hh in *. split_and!; try congruence.
      * rewrite Hf', Hf, list_insert_insert_eq. by rewrite app_assoc.
      * intros t k x. rewrite Hs', Hs, elem_of_app. naive_solver.
  - destruct (IHa st e ef Ha He) as (Hv & Hh & Ha1 & Hx & Hf & Hs).
    assert (He1 : effectFns (eval_fn a st).2 !! e
                  = Some {| fn := fn ef;
                            deps := deps ef ++ reads (heap st) a |}).
    { rewrite Hf. apply list_lookup_insert_eq. by eapply lookup_lt_Some. }
    destruct (IHb _ e _ Ha1 He1) as (Hv' & Hh' & Ha' & Hx' & Hf' & Hs').
    simpl in *. rewrite Hh in *. split_and!; try congruence.
    + rewrite Hf', Hf, list_insert_insert_eq. by rewrite app_assoc.
    + intros t k x. rewrite Hs', Hs, elem_of_app. naive_solver.
Qed.

(** [cleanup] removes the effect from every set it belonged to, empties
    its [deps], and touches nothing else. *)
Lemma cleanup_spec st e ef :
  backrefs st → effectFns st !! e = Some ef →
  heap (cleanup e st) = heap st ∧
  activeEffect (cleanup e st) = activeEffect st ∧
  executed (cleanup e st) = executed st ∧
  effectFns (cleanup e st) = <[e := {| fn := fn ef; deps := [] |}]> (effectFns st) ∧
  (∀ t k, e ∉ subscribers (effectsBuckets (cleanup e st)) t k) ∧
  (∀ t k x, x ≠ e →
     x ∈ subscribers (effectsBuckets (cleanup e st)) t k
     ↔ x ∈ subscribers (effectsBuckets st) t k).
Proof.
  intros Hb He. unfold cleanup. rewrite He. simpl. split_and!; try done.
  - intros t k. rewrite subscribers_foldl_bucket_delete.
    intros [Hin Hnot]. apply Hnot. split; [done |].
    destruct (Hb _ _ _ Hin) as (ef' & He' & Hd). congruence.
  - intros t k x Hx. rewrite subscribers_foldl_bucket_delete. naive_solver.
Qed.

(** One run of the wrapper [effectFn]. *)
Lemma effectFn_spec st e ef :
  backrefs st → effectFns st !! e = Some ef →
  heap (effectFn e st) = heap st ∧
  activeEffect (effectFn e st) = Some e ∧
  executed (effectFn e st) = executed st ++ [e] ∧
  effectFns (effectFn e st) =
    <[e := {| fn := fn ef; deps := reads (heap st) (fn ef) |}]> (effectFns st) ∧
  (∀ t k, e ∈ subscribers (effectsBuckets (effectFn e st)) t k
          ↔ (t, k) ∈ reads (heap st) (fn ef)) ∧
  (∀ t k x, x ≠ e →
     x ∈ subscribers (effectsBuckets (effectFn e st)) t k
     ↔ x ∈ subscribers (effectsBuckets st) t k).
Proof.
  intros Hb He.
  destruct (cleanup_spec st e ef Hb He) as (Hh & Ha & Hx & Hf & Hout & Hoth).
  unfold effectFn. rewrite He.
  set (st2 := {| heap := heap (cleanup e st);
                 effectsBuckets := effectsBuckets (cleanup e st);
                 effectFns := effectFns (cleanup e st);
                 activeEffect := Some e;
                 executed := executed (cleanup e st) ++ [e] |}).
  assert (He2 : effectFns st2 !! e = Some {| fn := fn ef; deps := [] |}).
  { simpl. rewrite Hf. apply list_lookup_insert_eq. by eapply lookup_lt_Some. }
  destruct (eval_fn_spec (fn ef) st2 e _ eq_refl He2)
    as (_ & Hh' & Ha' & Hx' & Hf' & Hs').
  simpl in *. rewrite Hh in *. split_and!; try congruence.
  - by rewrite Hf', Hf, list_insert_insert_eq.
  - intros t k. rewrite Hs'. specialize (Hout t k). naive_solver.
  - intros t k x Hne. rewrite Hs', Hoth by done. naive_solver.
Qed.

Lemma backrefs_effectFn st e :
  backrefs st → backrefs (effectFn e st).
Proof.
  intros Hb. destruct (effectFns st !! e) as [ef |] eqn:He.
  - destruct (effectFn_spec st e ef Hb He) as (_ & _ & _ & Hf & Hin & Hoth).
    intros x t k Hx. destruct (decide (x = e)) as [-> | Hne].
    + apply Hin in Hx.
      exists {| fn := fn ef; deps := reads (heap st) (fn ef) |}.
      split; [| exact Hx]. rewrite Hf.
      apply list_lookup_insert_eq. by eapply lookup_lt_Some.
    + apply Hoth in Hx; [| done]. destruct (Hb _ _ _ Hx) as (ef' & ? & ?).
      exists ef'. split; [| done]. rewrite Hf.
      by rewrite list_lookup_insert_ne.
  - unfold effectFn. by rewrite He.
Qed.

Lemma backrefs_initial h : backrefs (initial h).
Proof. intros e t k Hin. unfold subscribers in Hin. simpl in Hin.
  rewrite lookup_empty in Hin. by apply not_elem_of_nil in Hin. Qed.

Lemma backrefs_effect f st : backrefs st → backrefs (effect f st).
Proof.
  intros Hb. apply backrefs_effectFn. intros e t k Hin. simpl in *.
  destruct (Hb _ _ _ Hin) as (ef & He & Hd). exists ef. split; [| done].
  by apply lookup_app_l_Some.
Qed.

(** Delivery: the subscribers of the snapshot are run once each, in
    order. *)
Lemma run_all_spec (l : list nat) : ∀ st,
  backrefs st → (∀ e, e ∈ l → is_Some (effectFns st !! e)) →
  let st' := foldl (λ s e, effectFn e s) st l in
  backrefs st' ∧ heap st' = heap st ∧ executed st' = executed st ++ l.
Proof.
  induction l as [| e l IH]; intros st Hb Hv; simpl.
  - by rewrite app_nil_r.
  - destruct (Hv e) as [ef He]; [by left |].
    destruct (effectFn_spec st e ef Hb He) as (Hh & _ & Hx & Hf & _).
    destruct (IH (effectFn e st)) as (Hb' & Hh' & Hx').
    + by apply backrefs_effectFn.
    + intros e' Hin. rewrite Hf. apply lookup_lt_is_Some.
      rewrite length_insert. apply lookup_lt_is_Some. apply Hv. by right.
    + split_and!; [done | congruence |]. rewrite Hx', Hx.
      by rewrite <- app_assoc.
Qed.

Lemma trigger_spec target k st :
  backrefs st →
  backrefs (trigger target k st) ∧
  heap (trigger target k st) = heap st ∧
  executed (trigger target k st)
    = executed st ++ subscribers (effectsBuckets st) target k.
Proof.
  intros Hb. unfold trigger, subscribers in *.
  destruct (effectsBuckets st !! target) as [dm |] eqn:Hdm.
  - apply run_all_spec; [done |]. intros e Hin.
    destruct (Hb e target k) as (ef & -> & _); [| done].
    unfold subscribers. by rewrite Hdm.
  - by rewrite app_nil_r.
Qed.

Lemma proxy_set_spec target k v st :
  backrefs st →
  backrefs (proxy_set target k v st) ∧
  executed (proxy_set target k v st)
    = executed st ++ subscribers (effectsBuckets st) target k.
Proof.
  intros Hb. unfold proxy_set.
  match goal with |- context [trigger _ _ ?s] => set (st1 := s) end.
  destruct (trigger_spec target k st1) as (Hb' & _ & Hx); [exact Hb |].
  split; [done | exact Hx].
Qed.

Lemma backrefs_track target k st :
  backrefs st → (∀ a, activeEffect st = Some a → is_Some (effectFns st !! a)) →
  backrefs (track target k st).
Proof.
  intros Hb Hact. unfold track. destruct (activeEffect st) as [a |] eqn:Ha; [| done].
  intros e t k0 Hin. simpl in *. apply subscribers_bucket_add in Hin.
  destruct Hin as [Hin | (-> & -> & ->)].
  - destruct (Hb _ _ _ Hin) as (ef & He & Hd).
    destruct (decide (e = a)) as [-> | Hne].
    + eexists. rewrite list_lookup_alter_eq, He. split; [done |]. simpl.
      apply elem_of_app. by left.
    + exists ef. by rewrite list_lookup_alter_ne.
  - destruct (effectFns st !! a) as [ef |] eqn:He.
    + eexists. rewrite list_lookup_alter_eq, He. split; [done |]. simpl.
      apply elem_of_app. right. by apply list_elem_of_singleton.
    + destruct (Hact a eq_refl) as [ef Hef]. congruence.
Qed.

End BranchCleanupFacts.
(** * Facts about listing [3.branch-and-cleanup.ts] with any effect
    function *)

Module BranchCallsFacts.
Import BranchCalls.

(** *** The dependencies that the log records *)

Lemma recorded_snoc e l ev : recorded e (l ++ [ev]) = record e (recorded e l) ev.
Proof. unfold recorded. by rewrite foldl_app. Qed.

Lemma recorded_start e l rest :
  recorded e (l ++ EvRun e :: rest) = recorded e (EvRun e :: rest).
Proof.
  unfold recorded. rewrite foldl_app. simpl. by rewrite !decide_True by done.
Qed.

(** The dependencies recorded for [e] are reads made under [e]. *)
Lemma elem_of_recorded e l t k :
  (t, k) ∈ recorded e l → EvRead (Some e) t k ∈ l.
Proof.
  induction l as [| ev l IH] using rev_ind; [by intros ?%elem_of_nil |].
  rewrite recorded_snoc, elem_of_app, list_elem_of_singleton.
  destruct ev as [x | a t' k']; simpl.
  - destruct (decide (x = e)); [by intros ?%elem_of_nil | auto].
  - destruct (decide (a = Some e)) as [-> | ?]; [| auto].
    rewrite elem_of_app, list_elem_of_singleton. intros [? | [= -> ->]]; auto.
Qed.

Lemma recorded_none e l :
  (∀ t k, EvRead (Some e) t k ∉ l) → recorded e l = [].
Proof.
  intros Hl. destruct (recorded e l) as [| [t k] r] eqn:Hr; [done |].
  destruct (Hl t k). apply elem_of_recorded. rewrite Hr. by left.
Qed.

(** *** The invariant *)

Lemma coherent_initial h : coherent (initial h).
Proof.
  split_and!; simpl.
  - intros e ef He. by rewrite lookup_nil in He.
  - intros e t k. unfold subscribers. rewrite lookup_empty. split.
    + by intros ?%elem_of_nil.
    + intros (ef & He & _). by rewrite lookup_nil in He.
  - done.
  - intros a t k Hin. by apply elem_of_nil in Hin.
Qed.

Lemma coherent_write t k v st : coherent st → coherent (write t k v st).
Proof. done. Qed.

Lemma coherent_register f st : coherent st → coherent (register f st).
Proof.
  intros (Hdeps & Hsub & Hact & Hlog). split_and!; simpl.
  - intros e ef He. apply lookup_app_Some in He as [He | [Hlen He]]; [by apply Hdeps |].
    apply list_lookup_singleton_Some in He as [Hz <-]. simpl.
    symmetry. apply recorded_none. intros t k Hin. apply Hlog in Hin. lia.
  - intros e t k. rewrite Hsub. split.
    + intros (ef & He & Hd). exists ef. split; [by apply lookup_app_l_Some | done].
    + intros (ef & He & Hd). apply lookup_app_Some in He as [He | [Hlen He]].
      * by exists ef.
      * apply list_lookup_singleton_Some in He as [_ <-]. by apply elem_of_nil in Hd.
  - intros a Ha. rewrite length_app. specialize (Hact a Ha). lia.
  - intros a t k Hin. rewrite length_app. specialize (Hlog a t k Hin). lia.
Qed.

Lemma coherent_read t k st :
  coherent st → coherent (track t k (emit (EvRead (activeEffect st) t k) st)).
Proof.
  intros (Hdeps & Hsub & Hact & Hlog). unfold track. simpl.
  destruct (activeEffect st) as [a |] eqn:Ha.
  - specialize (Hact a eq_refl).
    destruct (lookup_lt_is_Some_2 _ _ Hact) as [efa Hefa].
    split_and!; simpl.
    + intros e ef He. rewrite recorded_snoc. simpl.
      destruct (decide (a = e)) as [-> | Hne].
      * rewrite list_lookup_alter_eq, Hefa in He. injection He as <-. simpl.
        rewrite decide_True by done. by rewrite (Hdeps e efa).
      * rewrite list_lookup_alter_ne in He by done.
        rewrite decide_False by congruence. by apply Hdeps.
    + intros e t' k'. rewrite subscribers_bucket_add, Hsub. split.
      * intros [(ef & He & Hd) | (-> & -> & ->)].
        -- destruct (decide (a = e)) as [-> | Hne].
           ++ eexists. rewrite list_lookup_alter_eq, He. split; [done |]. simpl.
              apply elem_of_app. by left.
           ++ exists ef. by rewrite list_lookup_alter_ne.
        -- eexists. rewrite list_lookup_alter_eq, Hefa. split; [done |]. simpl.
           apply elem_of_app. right. by apply list_elem_of_singleton.
      * intros (ef & He & Hd). destruct (decide (a = e)) as [-> | Hne].
        -- rewrite list_lookup_alter_eq, Hefa in He. injection He as <-.
           simpl in Hd. apply elem_of_app in Hd as [Hd | Hd].
           ++ left. by exists efa.
           ++ apply list_elem_of_singleton in Hd. injection Hd as -> ->. by right.
        -- rewrite list_lookup_alter_ne in He by done. left. by exists ef.
    + intros a' [= <-]. by rewrite length_alter.
    + intros a' t' k' Hin. rewrite length_alter.
      apply elem_of_app in Hin as [Hin | Hin]; [by eapply Hlog |].
      apply list_elem_of_singleton in Hin. by injection Hin as -> _ _.
  - split_and!; simpl.
    + intros e ef He. rewrite recorded_snoc. simpl. by apply Hdeps.
    + done.
    + by rewrite Ha.
    + intros a t' k' Hin. apply elem_of_app in Hin as [Hin | Hin]; [by eapply Hlog |].
      by apply list_elem_of_singleton in Hin.
Qed.

Lemma coherent_start e ef st :
  coherent st → effectFns st !! e = Some ef → coherent (activate e (cleanup e st)).
Proof.
  intros (Hdeps & Hsub & Hact & Hlog) He. unfold cleanup. rewrite He.
  assert (Hlt : e < length (effectFns st)) by (by eapply lookup_lt_Some).
  split_and!; simpl.
  - intros x efx Hx. rewrite recorded_snoc. simpl.
    destruct (decide (e = x)) as [-> | Hne].
    + rewrite list_lookup_insert_eq in Hx by done. by injection Hx as <-.
    + rewrite list_lookup_insert_ne in Hx by done. by apply Hdeps.
  - intros x t k. rewrite subscribers_foldl_bucket_delete, Hsub. split.
    + intros [(efx & Hx & Hd) Hnot]. destruct (decide (e = x)) as [-> | Hne].
      * destruct Hnot. split; [done |]. congruence.
      * exists efx. by rewrite list_lookup_insert_ne.
    + intros (efx & Hx & Hd). destruct (decide (e = x)) as [-> | Hne].
      * rewrite list_lookup_insert_eq in Hx by done. injection Hx as <-.
        by apply elem_of_nil in Hd.
      * rewrite list_lookup_insert_ne in Hx by done. split; [by exists efx |].
        intros [-> _]. done.
  - intros a [= <-]. by rewrite length_insert.
  - intros a t k Hin. rewrite length_insert.
    apply elem_of_app in Hin as [Hin | Hin]; [by eapply Hlog |].
    by apply list_elem_of_singleton in Hin.
Qed.

Lemma later_refl st : later st st.
Proof. split; [exists []; by rewrite app_nil_r | done]. Qed.

Lemma later_trans a b c : later a b → later b c → later a c.
Proof.
  intros [[r1 H1] P1] [[r2 H2] P2]. split.
  - exists (r1 ++ r2). by rewrite H2, H1, app_assoc.
  - by etrans.
Qed.

Lemma functions_track t k st : functions (track t k st) = functions st.
Proof.
  unfold functions, track. destruct (activeEffect st) as [a |]; [| done]. simpl.
  apply list_eq. intros i. rewrite !list_lookup_fmap.
  destruct (decide (a = i)) as [-> | Hne].
  - rewrite list_lookup_alter_eq. by destruct (effectFns st !! i).
  - by rewrite list_lookup_alter_ne.
Qed.

Lemma functions_cleanup e st : functions (cleanup e st) = functions st.
Proof.
  unfold functions, cleanup. destruct (effectFns st !! e) as [ef |] eqn:He; [| done].
  simpl. apply list_eq. intros i. rewrite !list_lookup_fmap.
  destruct (decide (e = i)) as [-> | Hne].
  - rewrite list_lookup_insert_eq by (by eapply lookup_lt_Some). by rewrite He.
  - by rewrite list_lookup_insert_ne.
Qed.

Lemma functions_lookup st e ef :
  effectFns st !! e = Some ef → functions st !! e = Some (fn ef).
Proof. intros He. unfold functions. by rewrite list_lookup_fmap, He. Qed.

Lemma functions_lookup_inv st e f :
  functions st !! e = Some f → ∃ ef, effectFns st !! e = Some ef ∧ fn ef = f.
Proof.
  unfold functions. rewrite list_lookup_fmap.
  destruct (effectFns st !! e) as [ef |]; [| done]. intros [= <-]. by exists ef.
Qed.

(** A read through the proxy. *)
Lemma proxy_get_spec t k st :
  let st' := (proxy_get t k st).2 in
  (proxy_get t k st).1 = BranchCleanup.plain_get (heap st) t k ∧
  heap st' = heap st ∧ activeEffect st' = activeEffect st ∧
  functions st' = functions st ∧
  log st' = log st ++ [EvRead (activeEffect st) t k].
Proof.
  simpl. split; [done |].
  rewrite functions_track. unfold track. simpl.
  destruct (activeEffect st) eqn:Ha; simpl; rewrite ?Ha; by split_and!.
Qed.

Lemma eval_spec (r : BranchCleanup.rexpr) : ∀ st,
  (eval r st).1 = BranchCleanup.value_of (heap st) r ∧
  heap (eval r st).2 = heap st ∧
  activeEffect (eval r st).2 = activeEffect st ∧
  functions (eval r st).2 = functions st ∧
  log (eval r st).2
  = log st ++ read_events (activeEffect st) (BranchCleanup.reads (heap st) r) ∧
  (coherent st → coherent (eval r st).2).
Proof.
  induction r as [v | t k | c IHc a IHa b IHb | a IHa b IHb]; intros st.
  - simpl. split_and!; try done. by rewrite app_nil_r.
  - cbn [eval BranchCleanup.value_of BranchCleanup.reads].
    destruct (proxy_get_spec t k st) as (Hv & Hh & Ha & Hf & Hl).
    split_and!; try done. apply coherent_read.
  - cbn [eval BranchCleanup.value_of BranchCleanup.reads].
    destruct (IHc st) as (Hv & Hh & Ha & Hf & Hl & Hc).
    destruct (eval c st) as [vc st1]. simpl in *. subst vc.
    destruct (truthy (BranchCleanup.value_of (heap st) c)).
    + destruct (IHa st1) as (Hv' & Hh' & Ha' & Hf' & Hl' & Hc').
      rewrite Hh, Ha in *. split_and!; try congruence; [| auto].
      rewrite Hl', Hl. unfold read_events. by rewrite fmap_app, app_assoc.
    + destruct (IHb st1) as (Hv' & Hh' & Ha' & Hf' & Hl' & Hc').
      rewrite Hh, Ha in *. split_and!; try congruence; [| auto].
      rewrite Hl', Hl. unfold read_events. by rewrite fmap_app, app_assoc.
  - cbn [eval BranchCleanup.value_of BranchCleanup.reads].
    destruct (IHa st) as (Hv & Hh & Ha & Hf & Hl & Hc).
    destruct (IHb (eval a st).2) as (Hv' & Hh' & Ha' & Hf' & Hl' & Hc').
    rewrite Hh, Ha in *. split_and!; try congruence; [| auto].
    rewrite Hl', Hl. unfold read_events. by rewrite fmap_app, app_assoc.
Qed.

Lemma eval_later r st : later st (eval r st).2.
Proof.
  destruct (eval_spec r st) as (_ & _ & _ & Hf & Hl & _). split.
  - by eexists.
  - by rewrite Hf.
Qed.

Section LevelFacts.

Variable call : nat → state → option state.
Hypothesis call_ok : ∀ e st st',
  coherent st → call e st = Some st' → coherent st' ∧ later st st'.

Lemma forEach_ok l : ∀ st st',
  coherent st → forEach call l st = Some st' → coherent st' ∧ later st st'.
Proof.
  induction l as [| e l IH]; intros st st' Hc H; simpl in H.
  - injection H as <-. split; [done | apply later_refl].
  - destruct (call e st) as [st1 |] eqn:He; [| done].
    destruct (call_ok e st st1 Hc He) as [Hc1 Hl1].
    destruct (IH st1 st' Hc1 H) as [Hc' Hl']. split; [done |]. by eapply later_trans.
Qed.

Lemma proxy_set_ok t k v st st' :
  coherent st → proxy_set call t k v st = Some st' → coherent st' ∧ later st st'.
Proof.
  intros Hc H. unfold proxy_set, trigger in H.
  destruct (effectsBuckets (write t k v st) !! t) as [dm |].
  - exact (forEach_ok _ (write t k v st) st' Hc H).
  - injection H as <-. split; [done |]. exact (later_refl st).
Qed.

Lemma register_later f st : later st (register f st).
Proof.
  split; [exists []; by rewrite app_nil_r |].
  unfold functions. simpl. rewrite fmap_app. by apply prefix_app_r.
Qed.

Lemma exec_ok (s : ustmt) : ∀ st st',
  coherent st → exec call s st = Some st' → coherent st' ∧ later st st'.
Proof.
  induction s as [r | t k r | f IHf | a IHa b IHb | c a IHa b IHb];
    intros st st' Hc H; cbn [exec] in H.
  - injection H as <-. split; [by apply eval_spec | apply eval_later].
  - destruct (eval r st) as [v st1] eqn:Hr.
    assert (Hc1 : coherent st1).
    { change st1 with (v, st1).2. rewrite <- Hr. by apply eval_spec. }
    assert (Hl1 : later st st1).
    { change st1 with (v, st1).2. rewrite <- Hr. apply eval_later. }
    destruct (proxy_set_ok t k v st1 st' Hc1 H) as [Hc' Hl'].
    split; [done |]. by eapply later_trans.
  - unfold effect in H.
    destruct (call_ok _ _ _ (coherent_register f st Hc) H) as [Hc' Hl'].
    split; [done |]. eapply later_trans; [apply register_later | done].
  - destruct (exec call a st) as [st1 |] eqn:Ha; [| done].
    destruct (IHa st st1 Hc Ha) as [Hc1 Hl1].
    destruct (IHb st1 st' Hc1 H) as [Hc' Hl']. split; [done |]. by eapply later_trans.
  - destruct (eval c st) as [v st1] eqn:Hr.
    assert (Hc1 : coherent st1).
    { change st1 with (v, st1).2. rewrite <- Hr. by apply eval_spec. }
    assert (Hl1 : later st st1).
    { change st1 with (v, st1).2. rewrite <- Hr. apply eval_later. }
    destruct (truthy v).
    + destruct (IHa st1 st' Hc1 H) as [Hc' Hl']. split; [done |]. by eapply later_trans.
    + destruct (IHb st1 st' Hc1 H) as [Hc' Hl']. split; [done |]. by eapply later_trans.
Qed.

Lemma start_later e st :
  (∃ rest, log (activate e (cleanup e st)) = log st ++ EvRun e :: rest ∧ rest = []) ∧
  functions (activate e (cleanup e st)) = functions st.
Proof.
  split.
  - exists []. split; [| done]. unfold cleanup. by destruct (effectFns st !! e).
  - change (functions (activate e (cleanup e st))) with (functions (cleanup e st)).
    apply functions_cleanup.
Qed.

Lemma effectFn_ok e st st' :
  coherent st → effectFn call e st = Some st' →
  coherent st' ∧ later st st' ∧
  (is_Some (effectFns st !! e) → ∃ rest, log st' = log st ++ EvRun e :: rest).
Proof.
  intros Hc H. unfold effectFn in H.
  destruct (effectFns st !! e) as [ef |] eqn:He.
  - destruct (exec_ok (fn ef) _ st' (coherent_start e ef st Hc He) H)
      as [Hc' [[rest Hl] Hp]].
    destruct (start_later e st) as [(r0 & Hl0 & ->) Hf0].
    rewrite Hl0 in Hl. rewrite Hf0 in Hp.
    split; [done |]. split.
    + split; [| done]. exists (EvRun e :: rest). by rewrite Hl, <- app_assoc.
    + intros _. exists rest. by rewrite Hl, <- app_assoc.
  - injection H as <-. split; [done |]. split; [apply later_refl |].
    by intros [? ?].
Qed.

End LevelFacts.

Lemma call_ok fuel : ∀ e st st',
  coherent st → call fuel e st = Some st' →
  coherent st' ∧ later st st' ∧
  (is_Some (effectFns st !! e) → ∃ rest, log st' = log st ++ EvRun e :: rest).
Proof.
  induction fuel as [| n IH]; intros e st st' Hc H; [done |].
  apply (effectFn_ok (call n)); [| done | done].
  intros e0 st0 st0' Hc0 H0. destruct (IH e0 st0 st0' Hc0 H0) as (? & ? & _). done.
Qed.

(** *** Functions that only read *)

Lemma reads_of_read_events a l : reads_of (read_events a l) = l.
Proof.
  induction l as [| [t k] l IH]; [done |].
  unfold reads_of, read_events in *. simpl. by f_equal.
Qed.

Lemma runs_of_read_events a l : runs_of (read_events a l) = [].
Proof. unfold runs_of, read_events. by induction l as [| [t k] l IH]. Qed.

Lemma runs_of_app l1 l2 : runs_of (l1 ++ l2) = runs_of l1 ++ runs_of l2.
Proof. unfold runs_of. by rewrite omap_app. Qed.

Lemma recorded_read_events e l :
  recorded e (EvRun e :: read_events (Some e) l) = l.
Proof.
  induction l as [| [t k] l IH] using rev_ind.
  - unfold recorded. simpl. by rewrite decide_True.
  - unfold read_events in *. rewrite fmap_app. simpl.
    rewrite app_comm_cons, recorded_snoc, IH. simpl. by rewrite decide_True.
Qed.

Lemma exec_only_reads call (s : ustmt) : only_reads s = true → ∀ st,
  ∃ st' l, exec call s st = Some st' ∧ heap st' = heap st ∧
    activeEffect st' = activeEffect st ∧ functions st' = functions st ∧
    log st' = log st ++ read_events (activeEffect st) l ∧
    (∀ r, s = UExpr r → l = BranchCleanup.reads (heap st) r).
Proof.
  induction s as [r | t k r | f IHf | a IHa b IHb | c a IHa b IHb];
    intros Hs st; try done; cbn [exec]; simpl in Hs.
  - destruct (eval_spec r st) as (_ & Hh & Ha & Hf & Hl & _).
    exists (eval r st).2, (BranchCleanup.reads (heap st) r).
    split_and!; try done. by intros ? [= <-].
  - apply andb_prop in Hs as [Hsa Hsb].
    destruct (IHa Hsa st) as (st1 & l1 & -> & Hh1 & Ha1 & Hf1 & Hl1 & _).
    destruct (IHb Hsb st1) as (st2 & l2 & -> & Hh2 & Ha2 & Hf2 & Hl2 & _).
    exists st2, (l1 ++ l2).
    assert (Hlog : log st2 = log st ++ read_events (activeEffect st) (l1 ++ l2)).
    { rewrite Hl2, Hl1, Ha1. unfold read_events. by rewrite fmap_app, app_assoc. }
    split_and!; congruence || done.
  - apply andb_prop in Hs as [Hsa Hsb].
    destruct (eval_spec c st) as (_ & Hh & Ha & Hf & Hl & _).
    destruct (eval c st) as [v st1]. simpl in *.
    destruct (truthy v).
    + destruct (IHa Hsa st1) as (st2 & l2 & -> & Hh2 & Ha2 & Hf2 & Hl2 & _).
      exists st2, (BranchCleanup.reads (heap st) c ++ l2).
      assert (Hlog : log st2 = log st ++ read_events (activeEffect st)
                                          (BranchCleanup.reads (heap st) c ++ l2)).
      { rewrite Hl2, Hl, Ha. unfold read_events. by rewrite fmap_app, app_assoc. }
      split_and!; congruence || done.
    + destruct (IHb Hsb st1) as (st2 & l2 & -> & Hh2 & Ha2 & Hf2 & Hl2 & _).
      exists st2, (BranchCleanup.reads (heap st) c ++ l2).
      assert (Hlog : log st2 = log st ++ read_events (activeEffect st)
                                          (BranchCleanup.reads (heap st) c ++ l2)).
      { rewrite Hl2, Hl, Ha. unfold read_events. by rewrite fmap_app, app_assoc. }
      split_and!; congruence || done.
Qed.

Lemma cleanup_keeps e st :
  heap (cleanup e st) = heap st ∧ activeEffect (cleanup e st) = activeEffect st ∧
  log (cleanup e st) = log st.
Proof. unfold cleanup. by destruct (effectFns st !! e). Qed.

(** A run of an effect function that only reads. *)
Lemma call_only_reads n e st ef :
  effectFns st !! e = Some ef → only_reads (fn ef) = true →
  ∃ st' l, call (S n) e st = Some st' ∧
    log st' = log st ++ EvRun e :: read_events (Some e) l ∧
    heap st' = heap st ∧ functions st' = functions st ∧
    (∀ r, fn ef = UExpr r → l = BranchCleanup.reads (heap st) r).
Proof.
  intros He Hs. cbn [call]. unfold effectFn. rewrite He.
  destruct (exec_only_reads (call n) (fn ef) Hs (activate e (cleanup e st)))
    as (st' & l & -> & Hh & Ha & Hf & Hl & Hr).
  destruct (cleanup_keeps e st) as (Hch & _ & Hcl).
  exists st', l. split_and!; try done.
  - rewrite Hl. simpl. rewrite Hcl. by rewrite <- app_assoc.
  - rewrite Hh. exact Hch.
  - rewrite Hf. apply (functions_cleanup e st).
  - intros r Hfn. rewrite (Hr r Hfn). simpl. by rewrite Hch.
Qed.

Lemma forEach_only_reads n l : ∀ st,
  (∀ x f, functions st !! x = Some f → only_reads f = true) →
  (∀ x, x ∈ l → is_Some (functions st !! x)) →
  ∃ st' rest, forEach (call (S n)) l st = Some st' ∧
    log st' = log st ++ rest ∧ runs_of rest = l.
Proof.
  induction l as [| e l IH]; intros st Hall Hl.
  - exists st, []. split; [done |]. by rewrite app_nil_r.
  - destruct (Hl e) as [f Hf]; [by left |].
    destruct (functions_lookup_inv st e f Hf) as (ef & He & <-).
    destruct (call_only_reads n e st ef He (Hall e _ Hf))
      as (st1 & l1 & Hcall & Hlog & _ & Hfs & _).
    destruct (IH st1) as (st' & rest & Hrun & Hlog' & Hruns).
    + by rewrite Hfs.
    + intros x Hx. rewrite Hfs. apply Hl. by right.
    + exists st', (EvRun e :: read_events (Some e) l1 ++ rest).
      cbn [forEach]. rewrite Hcall. split; [done |]. split.
      * rewrite Hlog', Hlog. by rewrite <- app_assoc.
      * change (runs_of (EvRun e :: read_events (Some e) l1 ++ rest))
          with (e :: runs_of (read_events (Some e) l1 ++ rest)).
        by rewrite runs_of_app, runs_of_read_events, Hruns.
Qed.

(** A write from outside, among effects that only read: the subscribers
    of the property are run, and no other effect. *)
Lemma proxy_set_only_reads n t k v st :
  coherent st →
  (∀ x f, functions st !! x = Some f → only_reads f = true) →
  ∃ st' rerun, proxy_set (call (S n)) t k v st = Some st' ∧
    log st' = log st ++ rerun ∧
    runs_of rerun = subscribers (effectsBuckets st) t k.
Proof.
  intros Hc Hall. unfold proxy_set, trigger, subscribers.
  change (effectsBuckets (write t k v st)) with (effectsBuckets st).
  destruct (effectsBuckets st !! t) as [dm |] eqn:Hdm.
  - destruct (forEach_only_reads n (default [] (Map_get k dm)) (write t k v st))
      as (st' & rest & Hrun & Hlog & Hruns); [done | | by exists st', rest].
    intros x Hx. destruct Hc as (_ & Hsub & _ & _).
    destruct (proj1 (Hsub x t k)) as (ef & He & _).
    { unfold subscribers. by rewrite Hdm. }
    exists (fn ef). by apply functions_lookup.
  - exists (write t k v st), []. split; [done |]. split; [| done].
    simpl. by rewrite app_nil_r.
Qed.

(** *** More depth changes nothing of a run that returns *)

Lemma exec_mono (call1 call2 : nat → state → option state) :
  (∀ e st st', call1 e st = Some st' → call2 e st = Some st') →
  ∀ s st st', exec call1 s st = Some st' → exec call2 s st = Some st'.
Proof.
  intros Hcall.
  assert (Hfor : ∀ l st st', forEach call1 l st = Some st' → forEach call2 l st = Some st').
  { induction l as [| e l IH]; intros st st' H; [done |]. simpl in *.
    destruct (call1 e st) as [st1 |] eqn:He; [| done].
    rewrite (Hcall _ _ _ He). by apply IH. }
  induction s as [r | t k r | f IHf | a IHa b IHb | c a IHa b IHb];
    intros st st' H; cbn [exec] in *.
  - done.
  - destruct (eval r st) as [v st1]. unfold proxy_set, trigger in *.
    destruct (effectsBuckets (write t k v st1) !! t); [by apply Hfor | done].
  - by apply Hcall.
  - destruct (exec call1 a st) as [st1 |] eqn:Ha; [| done].
    rewrite (IHa _ _ Ha). by apply IHb.
  - destruct (eval c st) as [v st1]. destruct (truthy v); auto.
Qed.

Lemma call_mono n : ∀ m e st st',
  n ≤ m → call n e st = Some st' → call m e st = Some st'.
Proof.
  induction n as [| n IH]; intros m e st st' Hle H; [done |].
  destruct m as [| m]; [lia |]. cbn [call] in *. unfold effectFn in *.
  destruct (effectFns st !! e) as [ef |]; [| done].
  apply (exec_mono (call n) (call m)); [| done].
  intros e0 st0 st0' H0. apply (IH m); [lia | done].
Qed.

Lemma nested_run_mono n m st : n ≤ m → nested_run n = Some st → nested_run m = Some st.
Proof. unfold nested_run, effect. apply call_mono. Qed.

Lemma written_run_mono n m st : n ≤ m → written_run n = Some st → written_run m = Some st.
Proof.
  intros Hle. unfold written_run, effect.
  destruct (call n _ _) as [st1 |] eqn:H1; [| done].
  rewrite (call_mono n m _ _ _ Hle H1). by apply call_mono.
Qed.

(** C1, as stated for every registered computation, fails on the listing,
    which sets [activeEffect] when an effect function starts and never
    sets it back.
    - The effect [0] reads [ok], registers the effect [1], which reads
      [text], and then reads [text2]: this last read is made while [1] is
      the active effect.  When the run of [0] is over, [0] is in the set
      of [ok] only, and the set of [text2] holds [1], which never read it.
    - The effect [1] reads [text], writes [ok], which runs the effect [0]
      that had read it, and then reads [text2]: when the run of [1] is
      over, the set of [text2] holds [0] and not [1]. *)
Lemma C1_reads_recorded_for_other_effect :
  (∀ fuel, 2 ≤ fuel →
     log_of (nested_run fuel)
     = Some [EvRun 0; EvRead (Some 0) 0 (KStr "ok");
             EvRun 1; EvRead (Some 1) 0 (KStr "text");
             EvRead (Some 1) 0 (KStr "text2")] ∧
     subscribers_of (nested_run fuel) 0 (KStr "ok") = Some [0] ∧
     subscribers_of (nested_run fuel) 0 (KStr "text2") = Some [1]) ∧
  (∀ fuel, 2 ≤ fuel →
     log_of (written_run fuel)
     = Some [EvRun 0; EvRead (Some 0) 0 (KStr "ok");
             EvRun 1; EvRead (Some 1) 0 (KStr "text");
             EvRun 0; EvRead (Some 0) 0 (KStr "ok");
             EvRead (Some 0) 0 (KStr "text2")] ∧
     subscribers_of (written_run fuel) 0 (KStr "text") = Some [1] ∧
     subscribers_of (written_run fuel) 0 (KStr "text2") = Some [0]).
Proof.
  split; intros fuel Hle.
  - destruct (nested_run 2) as [st |] eqn:Hrun; [| by vm_compute in Hrun].
    rewrite (nested_run_mono 2 fuel st Hle Hrun).
    vm_compute in Hrun. injection Hrun as <-. by vm_compute.
  - destruct (written_run 2) as [st |] eqn:Hrun; [| by vm_compute in Hrun].
    rewrite (written_run_mono 2 fuel st Hle Hrun).
    vm_compute in Hrun. injection Hrun as <-. by vm_compute.
Qed.

(** C1, amended.  After any run of an effect function that completes,
    the effect is a member of exactly the dependency sets of the
    properties that were read, since the start of that most recent run,
    while it was the active effect, and its [deps] lists them in order.
    - The states that the listing goes through are [coherent]: the
      initial one, and the ones that a registration, a read or a write
      from outside leaves.
    - [cleanup], before each run, removes the effect from every set it
      belonged to and empties its [deps].
    - After a run of the effect [e] that returns, whatever its function
      does, the log has grown by the start of [e] and the events of the
      run, and [e] belongs to the sets that the log records for it.
    - For a function that only reads, the run returns, starts no other
      effect, and every read of the run is recorded for [e].
    - Among effects that only read, a later write from outside returns
      and re-runs [e] exactly when it writes a property read during the
      run; in particular, for [cond ? a : b] with [cond] true, a write to
      [b] does not re-run it and a write to [a] does. *)
Theorem C1_membership_is_reads_while_active :
  ((∀ h, coherent (initial h)) ∧
   (∀ fuel f st st',
      coherent st → effect (call fuel) f st = Some st' → coherent st') ∧
   (∀ t k st, coherent st → coherent (proxy_get t k st).2) ∧
   (∀ fuel t k v st st',
      coherent st → proxy_set (call fuel) t k v st = Some st' → coherent st')) ∧
  (∀ st e ef,
     coherent st → effectFns st !! e = Some ef →
     (∀ t k, ¬ e ∈ subscribers (effectsBuckets (cleanup e st)) t k) ∧
     deps <$> effectFns (cleanup e st) !! e = Some []) ∧
  (∀ fuel st e st',
     coherent st → is_Some (effectFns st !! e) → call fuel e st = Some st' →
     ∃ rest, log st' = log st ++ EvRun e :: rest ∧
       (∀ t k, e ∈ subscribers (effectsBuckets st') t k
               ↔ (t, k) ∈ recorded e (EvRun e :: rest)) ∧
       deps <$> effectFns st' !! e = Some (recorded e (EvRun e :: rest))) ∧
  (∀ fuel st e ef,
     coherent st → effectFns st !! e = Some ef → only_reads (fn ef) = true →
     0 < fuel →
     ∃ st' rest, call fuel e st = Some st' ∧
       log st' = log st ++ EvRun e :: rest ∧ runs_of rest = [] ∧
       recorded e (EvRun e :: rest) = reads_of rest ∧
       (∀ r, fn ef = UExpr r → reads_of rest = BranchCleanup.reads (heap st) r)) ∧
  (∀ fuel st e ef,
     coherent st → effectFns st !! e = Some ef →
     (∀ x f, functions st !! x = Some f → only_reads f = true) →
     0 < fuel →
     ∃ st' rest, call fuel e st = Some st' ∧
       log st' = log st ++ EvRun e :: rest ∧
       ∀ t k v, ∃ st'' rerun,
         proxy_set (call fuel) t k v st' = Some st'' ∧
         log st'' = log st' ++ rerun ∧
         (e ∈ runs_of rerun ↔ (t, k) ∈ reads_of rest)) ∧
  (∀ fuel st e ef t c a b,
     coherent st → effectFns st !! e = Some ef →
     fn ef = UExpr (BranchCleanup.RCond (BranchCleanup.RGet t c)
                      (BranchCleanup.RGet t a) (BranchCleanup.RGet t b)) →
     truthy (BranchCleanup.plain_get (heap st) t c) = true → b ≠ c → b ≠ a →
     (∀ x f, functions st !! x = Some f → only_reads f = true) →
     0 < fuel →
     ∃ st', call fuel e st = Some st' ∧
       ∀ v, (∃ st'' rerun, proxy_set (call fuel) t b v st' = Some st'' ∧
                           log st'' = log st' ++ rerun ∧ ¬ e ∈ runs_of rerun) ∧
            (∃ st'' rerun, proxy_set (call fuel) t a v st' = Some st'' ∧
                           log st'' = log st' ++ rerun ∧ e ∈ runs_of rerun)).
Proof.
  assert (Hrun : ∀ fuel st e st',
            coherent st → is_Some (effectFns st !! e) → call fuel e st = Some st' →
            coherent st' ∧
            ∃ rest, log st' = log st ++ EvRun e :: rest ∧
              (∀ t k, e ∈ subscribers (effectsBuckets st') t k
                      ↔ (t, k) ∈ recorded e (EvRun e :: rest)) ∧
              deps <$> effectFns st' !! e = Some (recorded e (EvRun e :: rest))).
  { intros fuel st e st' Hc [ef He] Hcall.
    destruct (call_ok fuel e st st' Hc Hcall) as (Hc' & [_ Hpre] & Hlog).
    split; [done |].
    destruct Hlog as [rest Hlog]; [by exists ef |]. exists rest. split; [done |].
    destruct Hc' as (Hdeps & Hsub & _ & _).
    destruct (functions_lookup_inv st' e (fn ef)
                (prefix_lookup_Some _ _ _ _ (functions_lookup st e ef He) Hpre))
      as (ef' & He' & _).
    pose proof (Hdeps e ef' He') as Hd.
    rewrite Hlog, recorded_start in Hd. split.
    - intros t k. rewrite Hsub. rewrite <- Hd. split.
      + intros (ef'' & He'' & Hin). congruence.
      + intros Hin. by exists ef'.
    - by rewrite He', <- Hd. }
  assert (Hreads : ∀ fuel st e ef,
            coherent st → effectFns st !! e = Some ef → only_reads (fn ef) = true →
            0 < fuel →
            ∃ st' rest, call fuel e st = Some st' ∧
              log st' = log st ++ EvRun e :: rest ∧ runs_of rest = [] ∧
              recorded e (EvRun e :: rest) = reads_of rest ∧
              functions st' = functions st ∧
              (∀ r, fn ef = UExpr r → reads_of rest = BranchCleanup.reads (heap st) r)).
  { intros fuel st e ef Hc He Hs Hfuel. destruct fuel as [| n]; [lia |].
    destruct (call_only_reads n e st ef He Hs) as (st' & l & Hcall & Hlog & _ & Hf & Hr).
    exists st', (read_events (Some e) l). split_and!; try done.
    - apply runs_of_read_events.
    - by rewrite recorded_read_events, reads_of_read_events.
    - intros r Hfn. rewrite reads_of_read_events. by apply Hr. }
  assert (Hwrite : ∀ fuel st e ef,
            coherent st → effectFns st !! e = Some ef →
            (∀ x f, functions st !! x = Some f → only_reads f = true) →
            0 < fuel →
            ∃ st' rest, call fuel e st = Some st' ∧
              log st' = log st ++ EvRun e :: rest ∧
              (∀ r, fn ef = UExpr r → reads_of rest = BranchCleanup.reads (heap st) r) ∧
              ∀ t k v, ∃ st'' rerun,
                proxy_set (call fuel) t k v st' = Some st'' ∧
                log st'' = log st' ++ rerun ∧
                (e ∈ runs_of rerun ↔ (t, k) ∈ reads_of rest)).
  { intros fuel st e ef Hc He Hall Hfuel.
    destruct (Hreads fuel st e ef Hc He (Hall e _ (functions_lookup st e ef He)) Hfuel)
      as (st' & rest & Hcall & Hlog & _ & Hrec & Hf & Hr).
    exists st', rest. split_and!; try done. intros t k v.
    destruct (Hrun fuel st e st' Hc (mk_is_Some _ _ He) Hcall)
      as (Hc' & rest' & Hlog' & Hsub & _).
    assert (rest' = rest) as -> by (rewrite Hlog in Hlog'; by simplify_list_eq).
    destruct fuel as [| n]; [lia |].
    destruct (proxy_set_only_reads n t k v st' Hc') as (st'' & rerun & Hset & Hl & Hruns).
    { by rewrite Hf. }
    exists st'', rerun. split_and!; try done.
    by rewrite Hruns, Hsub, Hrec. }
  assert (Hkept : ∀ fuel e st st',
            coherent st → call fuel e st = Some st' → coherent st' ∧ later st st').
  { intros fuel e st st' Hc H. destruct (call_ok fuel e st st' Hc H) as (? & ? & _).
    done. }
  split_and!.
  - apply coherent_initial.
  - intros fuel f st st' Hc H. unfold effect in H.
    by destruct (Hkept fuel _ _ _ (coherent_register f st Hc) H).
  - intros t k st Hc. by apply coherent_read.
  - intros fuel t k v st st' Hc H.
    by destruct (proxy_set_ok (call fuel) (Hkept fuel) t k v st st' Hc H).
  - intros st e ef (Hdeps & Hsub & _ & _) He. unfold cleanup. rewrite He. simpl. split.
    + intros t k [Hin Hnot]%subscribers_foldl_bucket_delete. apply Hnot.
      split; [done |]. apply Hsub in Hin as (ef' & He' & Hd). congruence.
    + by rewrite list_lookup_insert_eq by (by eapply lookup_lt_Some).
  - intros fuel st e st' Hc He Hcall. by destruct (Hrun fuel st e st' Hc He Hcall).
  - intros fuel st e ef Hc He Hs Hfuel.
    destruct (Hreads fuel st e ef Hc He Hs Hfuel)
      as (st' & rest & ? & ? & ? & ? & _ & ?).
    by exists st', rest.
  - intros fuel st e ef Hc He Hall Hfuel.
    destruct (Hwrite fuel st e ef Hc He Hall Hfuel) as (st' & rest & ? & ? & _ & ?).
    by exists st', rest.
  - intros fuel st e ef t c a b Hc He Hfn Hcond Hbc Hba Hall Hfuel.
    destruct (Hwrite fuel st e ef Hc He Hall Hfuel)
      as (st' & rest & Hcall & _ & Hr & Hw).
    exists st'. split; [done |]. intros v.
    assert (Hreads' : reads_of rest = [(t, c); (t, a)]).
    { rewrite (Hr _ Hfn). simpl. by rewrite Hcond. }
    split.
    + destruct (Hw t b v) as (st'' & rerun & Hset & Hl & Hiff).
      exists st'', rerun. split_and!; try done. rewrite Hiff, Hreads'. set_solver.
    + destruct (Hw t a v) as (st'' & rerun & Hset & Hl & Hiff).
      exists st'', rerun. split_and!; try done. rewrite Hiff, Hreads'. set_solver.
Qed.

(** The theorem at the run of the effect that registers another one
    between its reads of [ok] and of [text2]. *)
Lemma C1_witness :
  ∃ st st' rest,
    coherent st ∧ is_Some (effectFns st !! 0) ∧ call 2 0 st = Some st' ∧
    log st' = log st ++ EvRun 0 :: rest ∧
    ∀ t k, 0 ∈ subscribers (effectsBuckets st') t k
           ↔ (t, k) ∈ recorded 0 (EvRun 0 :: rest).
Proof.
  set (st := register nesting (initial [originData])).
  assert (Hc : coherent st) by apply coherent_register, coherent_initial.
  assert (Hs : is_Some (effectFns st !! 0)) by (by eexists).
  destruct (call 2 0 st) as [st' |] eqn:Hrun; [| by vm_compute in Hrun].
  destruct (proj1 (proj2 (proj2 C1_membership_is_reads_while_active))
              2 st 0 st' Hc Hs Hrun)
    as (rest & Hl & Hsub & _).
  exists st, st', rest. by split_and!.
Defined.

End BranchCallsFacts.
(** * Facts about the reactivity system *)

Module ReactivityFacts.
Import Reactivity.
Local Open Scope M_scope.

(** A relation that every update of [shouldTrack] respects is respected
    by the bracket of an overridden mutating method around a call. *)
Lemma mutator_by_updates (QR QT : state → state → Prop) :
  (∀ a b c, QR a b → QR b c → QR a c) →
  (∀ a b c, QR a b → QT b c → QT a c) →
  (∀ x st, QR st (set_shouldTrack x st)) →
  ∀ m : M value,
    respects QR QT m →
    respects QR QT (modify (set_shouldTrack false) ;;
                    res ← m; modify (set_shouldTrack true) ;; ret res).
Proof.
  intros Htrans HtransT Hset m Hm st. unfold bind, modify, ret.
  specialize (Hm (set_shouldTrack false st)).
  destruct (m (set_shouldTrack false st)) as [v st1 | st1 | |]; try done.
  - eapply Htrans; [apply Hset |]. eapply Htrans; [exact Hm |]. apply Hset.
  - eapply HtransT; [apply Hset | exact Hm].
Qed.

(** ** Relational invariants of the whole interpreter

    When the elementary state updates respect [QR] and the wrapper of
    a registered effect function respects the pair [(QR, QT)], every call
    of the interpreter does. *)

Section Frame.

Variable QR QT : state → state → Prop.

Local Abbreviation ok := (respects QR QT).

Hypothesis QR_refl : ∀ st, QR st st.
Hypothesis QT_refl : ∀ st, QT st st.
Hypothesis QR_trans : ∀ a b c, QR a b → QR b c → QR a c.
Hypothesis QRT_trans : ∀ a b c, QR a b → QT b c → QT a c.

Lemma ok_ret {A} (a : A) : ok (ret a).
Proof. intros st. apply QR_refl. Qed.

Lemma ok_bind {A B} (m : M A) (f : A → M B) :
  ok m → (∀ a, ok (f a)) → ok (bind m f).
Proof.
  intros Hm Hf st. unfold bind. specialize (Hm st).
  destruct (m st) as [a st1 | st1 | |]; try done.
  specialize (Hf a st1). destruct (f a st1); try done.
  - by eapply QR_trans.
  - by eapply QRT_trans.
Qed.

Lemma ok_gets {A} (f : state → A) : ok (gets f).
Proof. intros st. apply QR_refl. Qed.

Lemma ok_throw {A} : ok (@throw A).
Proof. intros st. apply QT_refl. Qed.

Lemma ok_unmodelled {A} : ok (@unmodelled A).
Proof. by intros st. Qed.

Lemma ok_lookup_in {A} (f : state → list A) i : ok (lookup_in f i).
Proof. intros st. unfold lookup_in. destruct (f st !! i); [apply QR_refl | done]. Qed.

Lemma ok_modify (f : state → state) : (∀ st, QR st (f st)) → ok (modify f).
Proof. intros Hf st. apply Hf. Qed.

Lemma ok_for_each {A} (f : A → M unit) (l : list A) :
  (∀ x, ok (f x)) → ok (for_each f l).
Proof.
  intros Hf. induction l as [| x l IH]; simpl.
  - apply ok_ret.
  - apply ok_bind; [apply Hf | done].
Qed.

(** The elementary updates. *)
Hypothesis QR_track : ∀ t k st, QR st (track t k st).
Hypothesis QR_emit : ∀ ev st, QR st (emit ev st).
Hypothesis QR_heap : ∀ x st, QR st (set_heap x st).
Hypothesis QR_proxies : ∀ x st, QR st (set_proxies x st).
Hypothesis QR_reactiveMap : ∀ x st, QR st (set_reactiveMap x st).
Hypothesis QR_computeds : ∀ x st, QR st (set_computeds x st).
Hypothesis QR_watchers : ∀ x st, QR st (set_watchers x st).
Hypothesis QR_jobQueue : ∀ x st, QR st (set_jobQueue x st).
Hypothesis QR_register : ∀ f opts st,
  QR st (set_effectFns
           (effectFns st ++ [{| fn := f; deps := []; options := opts |}]) st).

Hypothesis ok_wrapper : ∀ e (call_fn : EffectFn → M value),
  (∀ ef, ok (call_fn ef)) →
  ok (ef ← lookup_in effectFns e; wrapper e (call_fn ef)).

(** The bracket [shouldTrack = false; ...; shouldTrack = true] of the
    overridden mutating methods. *)
Hypothesis ok_mutator : ∀ m : M value,
  ok m →
  ok (modify (set_shouldTrack false) ;;
      res ← m; modify (set_shouldTrack true) ;; ret res).

Ltac ok_step :=
  match goal with
  | |- ok (ret _) => apply ok_ret
  | |- ok (bind _ _) => apply ok_bind; [| intros ?]
  | |- ok (gets _) => apply ok_gets
  | |- ok throw => apply ok_throw
  | |- ok unmodelled => apply ok_unmodelled
  | |- ok (lookup_in _ _) => apply ok_lookup_in
  | |- ok (modify _) =>
      apply ok_modify; intros ?;
      unfold mark_dirty, store_cacheValue, store_newValue, store_cleanup,
        store_oldValue, seed_oldValue;
      try match goal with |- QR _ (match ?h with _ => _ end) => destruct h end;
      auto
  | |- ok (for_each _ _) => apply ok_for_each; intros ?
  | |- ok (match ?x with _ => _ end) => destruct x
  | |- ok (if ?x then _ else _) => destruct x
  | |- ok (let _ := _ in _) => cbv zeta
  | H : ∀ t, ok (?self t) |- ok (?self _) => apply H
  end.

Ltac ok_auto := repeat ok_step; auto.

Section FrameLevel.

Variable fuel : nat.
Variable self : task → M value.
Hypothesis self_ok : ∀ t, ok (self t).

Lemma ok_Reflect_get target k receiver : ok (Reflect_get self target k receiver).
Proof. unfold Reflect_get. ok_auto. Qed.

Lemma ok_define_on receiver k v : ok (define_on receiver k v).
Proof. unfold define_on. ok_auto. Qed.

Lemma ok_Reflect_set target k v receiver : ok (Reflect_set self target k v receiver).
Proof. unfold Reflect_set. ok_auto; apply ok_define_on. Qed.

Lemma ok_createReactive target sh ro : ok (createReactive target sh ro).
Proof. intros st. apply QR_proxies. Qed.

Lemma ok_reactive v : ok (reactive v).
Proof. unfold reactive. ok_auto. apply ok_createReactive. Qed.

Lemma ok_readonly v : ok (readonly v).
Proof. unfold readonly. ok_auto. apply ok_createReactive. Qed.

Lemma ok_shallowReactive v : ok (shallowReactive v).
Proof. unfold shallowReactive. ok_auto. apply ok_createReactive. Qed.

Lemma ok_shallowReadonly v : ok (shallowReadonly v).
Proof. unfold shallowReadonly. ok_auto. apply ok_createReactive. Qed.

Lemma ok_reactive_get sh ro target k receiver :
  ok (reactive_get self sh ro target k receiver).
Proof.
  unfold reactive_get. ok_auto;
    first [apply ok_Reflect_get | apply ok_readonly | apply ok_reactive].
Qed.

Lemma ok_plain_get target k : ok (plain_get self target k).
Proof. unfold plain_get. ok_auto. apply ok_Reflect_get. Qed.

Lemma ok_proxy_get p k receiver : ok (proxy_get self p k receiver).
Proof.
  unfold proxy_get. ok_auto; [apply ok_plain_get | apply ok_reactive_get].
Qed.

Lemma ok_get_value o k : ok (get_value self o k).
Proof.
  unfold get_value. ok_auto; [apply ok_Reflect_get | apply ok_proxy_get].
Qed.

Lemma ok_job w : ok (job self w).
Proof. unfold job. ok_auto. Qed.

Lemma ok_run_scheduler s f : ok (run_scheduler self s f).
Proof. unfold run_scheduler. ok_auto. apply ok_job. Qed.

Lemma ok_run_effect f : ok (run_effect self f).
Proof. unfold run_effect. ok_auto. apply ok_run_scheduler. Qed.

Lemma ok_trigger_plain target k : ok (trigger_plain self target k).
Proof. unfold trigger_plain. ok_auto. apply ok_run_effect. Qed.

Lemma ok_trigger target k type newVal : ok (trigger self target k type newVal).
Proof. unfold trigger. ok_auto. apply ok_run_effect. Qed.

Lemma ok_plain_set target k newVal : ok (plain_set self target k newVal).
Proof.
  unfold plain_set. ok_auto; [apply ok_Reflect_set | apply ok_trigger_plain].
Qed.

Lemma ok_reactive_set ro target k newVal receiver :
  ok (reactive_set self ro target k newVal receiver).
Proof.
  unfold reactive_set. ok_auto;
    first [apply ok_Reflect_get | apply ok_Reflect_set | apply ok_get_value
          | apply ok_trigger].
Qed.

Lemma ok_proxy_set p k newVal receiver : ok (proxy_set self p k newVal receiver).
Proof.
  unfold proxy_set. ok_auto; [apply ok_plain_set | apply ok_reactive_set].
Qed.

Lemma ok_set_value o k v : ok (set_value self o k v).
Proof.
  unfold set_value. ok_auto; first [apply ok_Reflect_set | apply ok_proxy_set].
Qed.

Lemma ok_reactive_delete ro target k : ok (reactive_delete self ro target k).
Proof. unfold reactive_delete. ok_auto; apply ok_trigger. Qed.

Lemma ok_delete_value o k : ok (delete_value self o k).
Proof. unfold delete_value. ok_auto; apply ok_reactive_delete. Qed.

Lemma ok_length_of O : ok (length_of self O).
Proof. unfold length_of. ok_auto; apply ok_get_value. Qed.

Lemma ok_has_index O i : ok (has_index O i).
Proof. unfold has_index. ok_auto. Qed.

Lemma ok_includes_from O x n : ∀ i, ok (includes_from self O x i n).
Proof.
  induction n as [| n IH]; intros i; simpl; ok_auto. apply ok_get_value.
Qed.

Lemma ok_Array_includes O x : ok (Array_includes self O x).
Proof.
  unfold Array_includes. ok_auto; [apply ok_length_of | apply ok_includes_from].
Qed.

Lemma ok_indexOf_from O x n : ∀ i, ok (indexOf_from self O x i n).
Proof.
  induction n as [| n IH]; intros i; simpl; ok_auto;
    first [apply ok_has_index | apply ok_get_value].
Qed.

Lemma ok_Array_indexOf O x : ok (Array_indexOf self O x).
Proof.
  unfold Array_indexOf. ok_auto; [apply ok_length_of | apply ok_indexOf_from].
Qed.

Lemma ok_lastIndexOf_below O x n : ok (lastIndexOf_below self O x n).
Proof.
  induction n as [| n IH]; simpl; ok_auto;
    first [apply ok_has_index | apply ok_get_value].
Qed.

Lemma ok_Array_lastIndexOf O x : ok (Array_lastIndexOf self O x).
Proof.
  unfold Array_lastIndexOf. ok_auto;
    [apply ok_length_of | apply ok_lastIndexOf_below].
Qed.

Lemma ok_instrumented originMethod this x :
  (∀ a b, ok (originMethod a b)) → ok (instrumented self originMethod this x).
Proof. intros H. unfold instrumented. ok_auto. apply ok_get_value. Qed.

Lemma ok_call_search originMethod arr x :
  (∀ a b, ok (originMethod a b)) → ok (call_search self originMethod arr x).
Proof. intros H. unfold call_search. ok_auto. by apply ok_instrumented. Qed.

Lemma ok_Array_push O x : ok (Array_push self O x).
Proof. unfold Array_push. ok_auto; first [apply ok_length_of | apply ok_set_value]. Qed.

Lemma ok_instrumented_mutator originMethod this x :
  (∀ a b, ok (originMethod a b)) → ok (instrumented_mutator originMethod this x).
Proof. intros H. apply ok_mutator, H. Qed.

Lemma ok_call_push arr x : ok (call_push self arr x).
Proof.
  unfold call_push. ok_auto;
    first [apply ok_Array_push | apply ok_instrumented_mutator; apply ok_Array_push].
Qed.

Lemma ok_computed_value c : ok (computed_value self c).
Proof. unfold computed_value. ok_auto. Qed.

Lemma ok_eval x : ok (eval self x).
Proof.
  induction x; simpl; ok_auto;
    first [ apply ok_get_value | apply ok_computed_value | apply ok_call_push
          | apply ok_call_search; intros;
            first [apply ok_Array_includes | apply ok_Array_indexOf
                  | apply ok_Array_lastIndexOf] ].
Qed.

Lemma ok_effect f opts : ok (effect self f opts).
Proof. unfold effect. ok_auto. Qed.

Lemma ok_exec s : ok (exec self s).
Proof.
  induction s; simpl; ok_auto;
    first [ apply ok_eval | apply ok_set_value | apply ok_delete_value
          | apply ok_effect ].
Qed.

Lemma ok_for_in_keys source : ok (for_in_keys source).
Proof. unfold for_in_keys. ok_auto. Qed.

Lemma ok_traverse n : ∀ source seen, ok (traverse self n source seen).
Proof.
  induction n as [| n IH]; intros source seen; simpl; [by intros st |].
  ok_auto; [apply ok_for_in_keys |].
  generalize (seen ++ [source]). clear seen.
  match goal with |- ∀ l, ok (?loop ?ks l) => induction ks as [| k ks IHk] end;
    intros seen; ok_auto. apply ok_get_value.
Qed.

Lemma ok_run_wrapped f : ok (run_wrapped fuel self f).
Proof.
  unfold run_wrapped. ok_auto;
    first [apply ok_exec | apply ok_eval | apply ok_traverse].
Qed.

Lemma ok_effectFn e : ok (effectFn fuel self e).
Proof.
  unfold effectFn. apply (ok_wrapper e (λ ef, run_wrapped fuel self (fn ef))).
  intros ef. apply ok_run_wrapped.
Qed.

Lemma ok_step t : ok (step fuel self t).
Proof.
  unfold step. ok_auto;
    first [ apply ok_effectFn | apply ok_Reflect_get | apply ok_proxy_get
          | apply ok_Reflect_set | apply ok_proxy_set | apply ok_exec ].
Qed.

End FrameLevel.

(** Every call of the interpreter respects the pair. *)
Lemma ok_interp fuel : ∀ t, ok (interp fuel t).
Proof.
  induction fuel as [| n IH]; intros t; simpl; [by intros st |].
  by apply ok_step.
Qed.

Lemma ok_run fuel s : ok (run fuel s).
Proof. apply ok_exec, ok_interp. Qed.

Lemma ok_read fuel x : ok (read fuel x).
Proof. apply ok_eval, ok_interp. Qed.

Lemma ok_computed fuel getter : ok (computed fuel getter).
Proof. unfold computed. ok_auto. apply ok_effect, ok_interp. Qed.

Lemma ok_watch fuel src cb immediate : ok (watch fuel src cb immediate).
Proof.
  unfold watch. ok_auto;
    first [apply ok_effect, ok_interp | apply ok_job, ok_interp | apply ok_interp].
Qed.

Lemma ok_flush_jobs fuel : ok (flush_jobs fuel).
Proof. unfold flush_jobs. ok_auto. apply ok_interp. Qed.

End Frame.

End ReactivityFacts.
(** * The effect stack *)

Module StackFacts.
Import Reactivity ReactivityFacts.
Local Open Scope M_scope.

Lemma stack_kept_refl st : stack_kept st st.
Proof. split; auto. Qed.

Lemma stack_left_refl st : stack_left st st.
Proof. exists []. rewrite app_nil_r. auto. Qed.

Lemma stack_kept_trans a b c : stack_kept a b → stack_kept b c → stack_kept a c.
Proof.
  intros [Hs1 Ha1] [Hs2 Ha2]. split; [congruence |].
  rewrite Hs1 in Ha2. destruct Ha1, Ha2; [left | right | right | right]; congruence.
Qed.

Lemma stack_kept_left_trans a b c : stack_kept a b → stack_left b c → stack_left a c.
Proof.
  intros [Hs1 Ha1] (rest & Hs2 & Ha2). exists rest. rewrite <- Hs1. split; [done |].
  destruct rest; [| done]. rewrite Hs1 in *.
  destruct Ha1, Ha2; [left | right | right | right]; congruence.
Qed.

Lemma stack_kept_track t k st : stack_kept st (track t k st).
Proof.
  unfold track. destruct (activeEffect st) eqn:Ha; [| apply stack_kept_refl].
  destruct (shouldTrack st); [| apply stack_kept_refl].
  split; simpl; auto.
Qed.

Lemma stack_kept_cleanup e st : stack_kept st (cleanup e st).
Proof.
  unfold cleanup. destruct (effectFns st !! e); [| apply stack_kept_refl].
  split; simpl; auto.
Qed.

(** The wrapper pushes and pops around the call. *)
Lemma wrapper_stack e call_fn :
  respects stack_kept stack_left call_fn →
  ∀ st, match wrapper e call_fn st with
        | Ret _ st' =>
            effectStack st' = effectStack st ∧
            activeEffect st' = last (effectStack st)
        | Throw st' =>
            ∃ rest, effectStack st' = effectStack st ++ e :: rest ∧
                    activeEffect st' = last (effectStack st')
        | _ => True
        end.
Proof.
  intros Hcall st. unfold wrapper, bind, modify, ret.
  match goal with |- context [call_fn ?s] => set (st1 := s) end.
  assert (Hst1 : effectStack st1 = effectStack st ++ [e]).
  { subst st1. simpl. unfold cleanup.
    by destruct (effectFns st !! e). }
  assert (Hac1 : activeEffect st1 = Some e) by done.
  specialize (Hcall st1). destruct (call_fn st1) as [v st2 | st2 | |]; try done.
  - destruct Hcall as [Hs _]. simpl. rewrite Hs, Hst1.
    by rewrite removelast_last.
  - destruct Hcall as (rest & Hs & Ha). rewrite Hst1, <- app_assoc in Hs.
    exists rest. split; [done |].
    destruct rest as [| x rest]; [| done].
    rewrite Hs. simpl. rewrite last_snoc.
    rewrite Hst1, last_snoc, Hac1 in Ha. by destruct Ha.
Qed.

Lemma ok_wrapper_stack e (call_fn : EffectFn → M value) :
  (∀ ef, respects stack_kept stack_left (call_fn ef)) →
  respects stack_kept stack_left
           (ef ← lookup_in effectFns e; wrapper e (call_fn ef)).
Proof.
  intros Hcall st. unfold bind, lookup_in.
  destruct (effectFns st !! e) as [ef |]; [| done].
  pose proof (wrapper_stack e (call_fn ef) (Hcall ef) st) as H.
  destruct (wrapper e (call_fn ef) st) as [v st' | st' | |]; try done.
  - destruct H. split; auto.
  - destruct H as (rest & Hs & Ha). by exists (e :: rest).
Qed.

Lemma mutator_stack (m : M value) :
  respects stack_kept stack_left m →
  respects stack_kept stack_left
           (modify (set_shouldTrack false) ;;
            res ← m; modify (set_shouldTrack true) ;; ret res).
Proof.
  apply mutator_by_updates;
    first [ apply stack_kept_trans | apply stack_kept_left_trans
          | by intros; split; simpl; auto ].
Qed.

(** Every call of the interpreter keeps the stack. *)
Lemma interp_stack fuel t : respects stack_kept stack_left (interp fuel t).
Proof.
  apply ok_interp;
    first [ apply stack_kept_refl | apply stack_left_refl
          | apply stack_kept_trans | apply stack_kept_left_trans
          | apply stack_kept_track | apply ok_wrapper_stack
          | apply mutator_stack
          | by intros; split; simpl; auto ].
Qed.

(** A call [effectFn()] that returns has restored the active effect to
    the top of the stack; one that throws has not. *)
Lemma effectFn_stack fuel e st :
  match interp fuel (TCall e) st with
  | Ret _ st' =>
      effectStack st' = effectStack st ∧
      activeEffect st' = last (effectStack st)
  | Throw st' =>
      ∃ rest, effectStack st' = effectStack st ++ e :: rest ∧
              activeEffect st' = last (effectStack st')
  | _ => True
  end.
Proof.
  destruct fuel as [| n]; [done |]. simpl. unfold effectFn, bind, lookup_in.
  destruct (effectFns st !! e) as [ef |]; [| done].
  apply wrapper_stack.
  apply ok_run_wrapped;
    first [ apply stack_kept_refl | apply stack_left_refl
          | apply stack_kept_trans | apply stack_kept_left_trans
          | apply stack_kept_track | apply ok_wrapper_stack
          | apply mutator_stack
          | apply interp_stack
          | by intros; split; simpl; auto ].
Qed.

End StackFacts.
(** * The set that [trigger] assembles *)

Module TriggerFacts.
Import Reactivity.

Lemma elem_of_add_effects active effects : ∀ acc x,
  x ∈ add_effects active effects acc
  ↔ x ∈ acc ∨ (x ∈ effects ∧ Some x ≠ active).
Proof.
  unfold add_effects.
  induction effects as [| f effects IH]; intros acc x; simpl.
  - rewrite elem_of_nil. tauto.
  - rewrite IH, elem_of_cons. destruct (decide (Some f = active)) as [Heq | Hne].
    + split; [intros [? | [? ?]]; auto | intros [? | [[-> | ?] ?]]; auto]. done.
    + rewrite elem_of_Set_add. naive_solver.
Qed.

Lemma NoDup_add_effects active effects : ∀ acc,
  NoDup acc → NoDup (add_effects active effects acc).
Proof.
  unfold add_effects.
  induction effects as [| f effects IH]; intros acc Hacc; simpl; [done |].
  apply IH. destruct (decide (Some f = active)); [done |].
  by apply NoDup_Set_add.
Qed.

Lemma Map_get_elem_of {A B} `{EqDecision A} (k : A) (v : B) (m : list (A * B)) :
  Map_get k m = Some v → (k, v) ∈ m.
Proof.
  induction m as [| [k' v'] m IH]; simpl; [done |].
  destruct (decide (k' = k)) as [-> | Hne].
  - intros [= ->]. by left.
  - intros H. right. by apply IH.
Qed.

(** Truncation: when no key of the [depsMap] is a symbol, the loop over
    the [depsMap] succeeds and adds the subscribers of the keys that are at
    least the new length. *)
Lemma add_truncated_spec active n dm : ∀ acc,
  (∀ k effects, (k, effects) ∈ dm → is_symbol k = false) →
  ∃ l, add_truncated active n dm acc = Some l ∧
    ∀ x, x ∈ l ↔ x ∈ acc ∨
                 ∃ k effects, (k, effects) ∈ dm ∧ key_ge k n = Some true ∧
                              x ∈ effects ∧ Some x ≠ active.
Proof.
  induction dm as [| [k effects] dm IH]; intros acc Hsym; simpl.
  - exists acc. split; [done |]. intros x. split; [auto |].
    intros [? | (k & effs & Hin & _)]; [done |]. by apply elem_of_nil in Hin.
  - assert (Hk : is_symbol k = false) by (eapply Hsym; by left).
    assert (Hdm : ∀ k effects, (k, effects) ∈ dm → is_symbol k = false).
    { intros k' effs Hin. eapply Hsym. right. exact Hin. }
    destruct (key_ge k n) as [[|] |] eqn:Hge.
    + destruct (IH (add_effects active effects acc) Hdm) as (l & -> & Hl).
      exists l. split; [done |]. intros x. rewrite Hl, elem_of_add_effects.
      split.
      * intros [[? | [? ?]] | (k' & effs & Hin & ? & ? & ?)]; auto.
        -- right. exists k, effects. split_and!; auto. by left.
        -- right. exists k', effs. split_and!; auto. by right.
      * intros [? | (k' & effs & Hin & Hge' & ? & ?)]; auto.
        apply elem_of_cons in Hin as [[= -> ->] | Hin]; auto.
        right. by exists k', effs.
    + destruct (IH acc Hdm) as (l & -> & Hl).
      exists l. split; [done |]. intros x. rewrite Hl. split.
      * intros [? | (k' & effs & Hin & ? & ? & ?)]; auto.
        right. exists k', effs. split_and!; auto. by right.
      * intros [? | (k' & effs & Hin & Hge' & ? & ?)]; auto.
        apply elem_of_cons in Hin as [[= -> ->] | Hin]; [congruence |].
        right. by exists k', effs.
    + destruct k; simpl in *; congruence.
Qed.

(** The effects that the two-argument [trigger] runs. *)
Lemma elem_of_plain_effectsToRun active effects x :
  x ∈ add_effects active effects [] ↔ x ∈ effects ∧ Some x ≠ active.
Proof. rewrite elem_of_add_effects, elem_of_nil. tauto. Qed.

Lemma add_truncated_not_active active n dm : ∀ acc l,
  add_truncated active n dm acc = Some l →
  (∀ y, y ∈ acc → Some y ≠ active) → ∀ y, y ∈ l → Some y ≠ active.
Proof.
  induction dm as [| [k effs] dm IH]; intros acc l H Hacc y Hy; simpl in *.
  - injection H as <-. auto.
  - destruct (key_ge k n) as [[|] |]; [| | done].
    + eapply IH; [exact H | | exact Hy].
      intros z Hz. apply elem_of_add_effects in Hz as [? | [_ ?]]; auto.
    + eapply IH; [exact H | exact Hacc | exact Hy].
Qed.

Lemma add_truncated_elem active n dm : ∀ acc l,
  add_truncated active n dm acc = Some l →
  ∀ x, x ∈ l ↔ x ∈ acc ∨
               ∃ k effects, (k, effects) ∈ dm ∧ key_ge k n = Some true ∧
                            x ∈ effects ∧ Some x ≠ active.
Proof.
  induction dm as [| [k effects] dm IH]; intros acc l H x; simpl in H.
  - injection H as <-. split; [auto |].
    intros [? | (k & effs & Hin & _)]; [done |]. by apply elem_of_nil in Hin.
  - destruct (key_ge k n) as [[|] |] eqn:Hge; [| | done].
    + rewrite (IH _ _ H), elem_of_add_effects. split.
      * intros [[? | [? ?]] | (k' & effs & Hin & ? & ? & ?)]; auto.
        -- right. exists k, effects. split_and!; auto. by left.
        -- right. exists k', effs. split_and!; auto. by right.
      * intros [? | (k' & effs & Hin & Hge' & ? & ?)]; auto.
        apply elem_of_cons in Hin as [[= -> ->] | Hin]; auto.
        right. by exists k', effs.
    + rewrite (IH _ _ H). split.
      * intros [? | (k' & effs & Hin & ? & ? & ?)]; auto.
        right. exists k', effs. split_and!; auto. by right.
      * intros [? | (k' & effs & Hin & Hge' & ? & ?)]; auto.
        apply elem_of_cons in Hin as [[= -> ->] | Hin]; [congruence |].
        right. by exists k', effs.
Qed.

Lemma NoDup_add_truncated active n dm : ∀ acc l,
  add_truncated active n dm acc = Some l → NoDup acc → NoDup l.
Proof.
  induction dm as [| [k effects] dm IH]; intros acc l H Hacc; simpl in H.
  - by injection H as <-.
  - destruct (key_ge k n) as [[|] |]; [| | done].
    + eapply IH; [exact H |]. by apply NoDup_add_effects.
    + by eapply IH.
Qed.

(** The active effect is never assembled. *)
Lemma effectsToRun_not_active dm active isArrayTarget k type newVal l x :
  effectsToRun dm active isArrayTarget k type newVal = ToRun l →
  x ∈ l → Some x ≠ active.
Proof.
  unfold effectsToRun.
  set (s1 := add_effects active (default [] (Map_get k dm)) []).
  set (s2 := if isArrayTarget && bool_decide (type = T_add)
             then add_effects active (default [] (Map_get KLength dm)) s1
             else s1).
  assert (H1 : ∀ y, y ∈ s1 → Some y ≠ active).
  { intros y Hy. apply elem_of_plain_effectsToRun in Hy. tauto. }
  assert (H2 : ∀ y, y ∈ s2 → Some y ≠ active).
  { intros y Hy. subst s2.
    destruct (isArrayTarget && bool_decide (type = T_add)); [| auto].
    apply elem_of_add_effects in Hy as [? | [_ ?]]; auto. }
  assert (Hit : ∀ s, (∀ y, y ∈ s → Some y ≠ active) →
            ∀ y, y ∈ (if bool_decide (type = T_add) || bool_decide (type = T_delete)
                      then add_effects active (default [] (Map_get KIterate dm)) s
                      else s) → Some y ≠ active).
  { intros s Hs y Hy.
    destruct (bool_decide (type = T_add) || bool_decide (type = T_delete)); [| auto].
    apply elem_of_add_effects in Hy as [? | [_ ?]]; auto. }
  destruct (isArrayTarget && bool_decide (k = KLength)).
  - destruct newVal; try done.
    destruct (add_truncated active n dm s2) as [s3 |] eqn:H3; [| done].
    intros [= <-]. apply Hit.
    eapply add_truncated_not_active; [exact H3 | exact H2].
  - intros [= <-]. by apply Hit.
Qed.

(** Writing [length]: the subscribers of [length] and of every index at or
    beyond the new length are assembled. *)
Lemma effectsToRun_length dm active type n :
  (∀ k effects, (k, effects) ∈ dm → is_symbol k = false) →
  ∃ l, effectsToRun dm active true KLength type (VNum n) = ToRun l ∧
    (∀ x, x ∈ default [] (Map_get KLength dm) → Some x ≠ active → x ∈ l) ∧
    (∀ i x, (n ≤ Z.of_nat i)%Z → x ∈ default [] (Map_get (KIdx i) dm) →
            Some x ≠ active → x ∈ l).
Proof.
  intros Hsym. unfold effectsToRun. simpl.
  set (s1 := add_effects active (default [] (Map_get KLength dm)) []).
  set (s2 := if bool_decide (type = T_add)
             then add_effects active (default [] (Map_get KLength dm)) s1
             else s1).
  assert (H1 : ∀ x, x ∈ s1 → x ∈ s2).
  { intros x Hx. subst s2. destruct (bool_decide (type = T_add)); [| done].
    apply elem_of_add_effects. by left. }
  destruct (add_truncated_spec active n dm s2 Hsym) as (s3 & -> & H3).
  eexists. split; [reflexivity |].
  assert (Hit : ∀ x, x ∈ s3 →
            x ∈ (if bool_decide (type = T_add) || bool_decide (type = T_delete)
                 then add_effects active (default [] (Map_get KIterate dm)) s3
                 else s3)).
  { intros x Hx.
    destruct (bool_decide (type = T_add) || bool_decide (type = T_delete)); [| done].
    apply elem_of_add_effects. by left. }
  split.
  - intros x Hx Hne. apply Hit, H3. left. apply H1.
    apply elem_of_plain_effectsToRun. done.
  - intros i x Hle Hx Hne. apply Hit, H3. right.
    destruct (Map_get (KIdx i) dm) as [effs |] eqn:Hget; simpl in Hx;
      [| by apply elem_of_nil in Hx].
    exists (KIdx i), effs. split_and!; auto.
    + by apply Map_get_elem_of.
    + simpl. f_equal. by apply Z.leb_le.
Qed.

End TriggerFacts.
(** * The handlers of [createReactive] *)

Module ProxyFacts.
Import Reactivity.
Local Open Scope M_scope.

(** [a === b] is equality, except that NaN is not equal to itself. *)
Lemma strict_eq_true a b : strict_eq a b = true ↔ a = b ∧ a ≠ VNaN.
Proof.
  unfold strict_eq. destruct a, b; rewrite ?bool_decide_eq_true; naive_solver.
Qed.

(** The condition of the [set] handler, in the words of the
    specification: the target is the raw object of the receiver, and the
    new value differs from the old one, NaN being equal to NaN. *)
Lemma set_notifies_spec target receiverRaw oldV newVal :
  set_notifies target receiverRaw oldV newVal = true
  ↔ receiverRaw = VObj target ∧ oldV ≠ newVal.
Proof.
  unfold set_notifies. rewrite !andb_true_iff, orb_true_iff, negb_true_iff.
  rewrite !strict_eq_true. rewrite <- not_true_iff_false, strict_eq_true.
  split.
  - intros [[<- _] [Hne Hor]]. split; [done |]. intros ->.
    destruct Hor as [[_ H] | [_ H]]; naive_solver.
  - intros [-> Hne]. split; [done |]. split; [naive_solver |].
    destruct (decide (oldV = VNaN)) as [-> | Hn]; [| by left].
    right. split; [done |]. congruence.
Qed.

Lemma set_notifies_false target receiverRaw oldV newVal :
  set_notifies target receiverRaw oldV newVal = false
  ↔ receiverRaw ≠ VObj target ∨ oldV = newVal.
Proof.
  rewrite <- not_true_iff_false, set_notifies_spec.
  destruct (decide (receiverRaw = VObj target)), (decide (oldV = newVal));
    naive_solver.
Qed.

(** *** Evaluation steps *)

Lemma bind_Ret {A B} (m : M A) (f : A → M B) st a st' :
  m st = Ret a st' → bind m f st = f a st'.
Proof. intros H. unfold bind. by rewrite H. Qed.

Lemma bind_Throw {A B} (m : M A) (f : A → M B) st st' :
  m st = Throw st' → bind m f st = Throw st'.
Proof. intros H. unfold bind. by rewrite H. Qed.

Lemma lookup_in_Some {A} (f : state → list A) i st x :
  f st !! i = Some x → lookup_in f i st = Ret x st.
Proof. intros H. unfold lookup_in. by rewrite H. Qed.

Lemma own_has_true o k : own_has o k = true ↔ is_Some (own_get o k).
Proof. unfold own_has. by rewrite bool_decide_eq_true. Qed.

(** A property that the object answers itself, or that an object without
    prototype lacks, is read without any call. *)
Lemma Reflect_get_own self st target o k receiver :
  heap st !! target = Some o →
  own_has o k = true ∨ proto o = VNull →
  Reflect_get self target k receiver st = Ret (default VUndef (own_get o k)) st.
Proof.
  intros Ho Hown. unfold Reflect_get.
  rewrite (bind_Ret _ _ _ _ _ (lookup_in_Some heap _ _ _ Ho)).
  destruct (own_get o k) as [v |] eqn:Hget; [done |].
  destruct Hown as [Hhas | ->]; [| done].
  apply own_has_true in Hhas. rewrite Hget in Hhas. by destruct Hhas.
Qed.

Lemma define_on_proxy st p px o o' k v :
  proxies st !! p = Some px → heap st !! p_target px = Some o →
  own_set o k v = DefOk o' →
  define_on (VProxy p) k v st
  = Ret (VBool true) (set_heap (<[p_target px := o']> (heap st)) st).
Proof.
  intros Hp Ho Hset. unfold define_on.
  rewrite (bind_Ret _ _ _ _ _ (lookup_in_Some proxies _ _ _ Hp)).
  rewrite (bind_Ret _ _ _ _ _ (lookup_in_Some heap _ _ _ Ho)).
  by rewrite Hset.
Qed.

Lemma Reflect_set_own self st target o k v receiver :
  heap st !! target = Some o →
  own_has o k = true ∨ proto o = VNull →
  Reflect_set self target k v receiver st = define_on receiver k v st.
Proof.
  intros Ho Hown. unfold Reflect_set.
  rewrite (bind_Ret _ _ _ _ _ (lookup_in_Some heap _ _ _ Ho)).
  destruct (own_has o k); [done |].
  destruct Hown as [? | ->]; done.
Qed.

(** [receiver[RAW_KEY]] for a reactive proxy is its target. *)
Lemma proxy_get_raw self st p target isShallow isReadonly receiver :
  proxies st !! p
    = Some {| p_target := target; p_handler := Reactive isShallow isReadonly |} →
  proxy_get self p KRaw receiver st = Ret (VObj target) st.
Proof.
  intros Hp. unfold proxy_get.
  by rewrite (bind_Ret _ _ _ _ _ (lookup_in_Some proxies _ _ _ Hp)).
Qed.

(** A write [p[k] = newVal] through a mutable reactive proxy of an object
    that answers [k] itself: the property is written, and [trigger] is
    called exactly when the value changes. *)
Lemma reactive_set_own self st p isShallow target o o' k newVal type :
  proxies st !! p
    = Some {| p_target := target; p_handler := Reactive isShallow false |} →
  heap st !! target = Some o →
  own_has o k = true ∨ proto o = VNull →
  set_type o k = Some type →
  own_set o k newVal = DefOk o' →
  let oldV := default VUndef (own_get o k) in
  let st1 := set_heap (<[target := o']> (heap st)) st in
  proxy_set self p k newVal (VProxy p) st =
    if decide (oldV = newVal) then Ret (VBool true) st1
    else (trigger self target k type newVal ;; ret (VBool true)) st1.
Proof.
  intros Hp Ho Hown Hty Hset oldV st1.
  unfold proxy_set.
  rewrite (bind_Ret _ _ _ _ _ (lookup_in_Some proxies _ _ _ Hp)). simpl.
  unfold reactive_set.
  rewrite (bind_Ret _ _ _ _ _ (Reflect_get_own self _ _ _ _ _ Ho Hown)).
  rewrite (bind_Ret _ _ _ _ _ (lookup_in_Some heap _ _ _ Ho)).
  rewrite Hty. rewrite (bind_Ret _ _ st type st eq_refl).
  erewrite bind_Ret;
    [| rewrite (Reflect_set_own self _ _ _ _ _ _ Ho Hown);
       by apply (define_on_proxy st p _ o o' k newVal Hp Ho Hset)].
  simpl.
  erewrite bind_Ret; [| by eapply proxy_get_raw].
  fold oldV st1.
  destruct (decide (oldV = newVal)) as [Heq | Hne].
  - assert (set_notifies target (VObj target) oldV newVal = false) as ->.
    { apply set_notifies_false. by right. }
    reflexivity.
  - assert (set_notifies target (VObj target) oldV newVal = true) as ->.
    { by apply set_notifies_spec. }
    reflexivity.
Qed.

(** A write that reaches the handler of a prototype: the receiver is the
    proxy [q] of another object, and the target answers [k].  The property
    is created on the raw object of the receiver, and [trigger] is not
    called, whatever the values. *)
Lemma reactive_set_inherited self st target o k newVal type q t2 h2 o2 o2' :
  heap st !! target = Some o →
  own_has o k = true →
  set_type o k = Some type →
  proxies st !! q = Some {| p_target := t2; p_handler := h2 |} →
  (∃ isShallow isReadonly, h2 = Reactive isShallow isReadonly) →
  t2 ≠ target →
  heap st !! t2 = Some o2 →
  own_set o2 k newVal = DefOk o2' →
  reactive_set self false target k newVal (VProxy q) st
  = Ret (VBool true) (set_heap (<[t2 := o2']> (heap st)) st).
Proof.
  intros Ho Hhas Hty Hq (sh & ro & ->) Hne Ho2 Hset.
  unfold reactive_set.
  rewrite (bind_Ret _ _ _ _ _
             (Reflect_get_own self _ _ _ _ _ Ho (or_introl Hhas))).
  rewrite (bind_Ret _ _ _ _ _ (lookup_in_Some heap _ _ _ Ho)).
  rewrite Hty. rewrite (bind_Ret _ _ st type st eq_refl).
  erewrite bind_Ret;
    [| rewrite (Reflect_set_own self _ _ _ _ _ _ Ho (or_introl Hhas));
       by apply (define_on_proxy st q _ o2 o2' k newVal Hq Ho2 Hset)].
  simpl.
  erewrite bind_Ret; [| by eapply (proxy_get_raw self _ q t2)].
  assert (set_notifies target (VObj t2) (default VUndef (own_get o k)) newVal
          = false) as ->.
  { apply set_notifies_false. left. congruence. }
  reflexivity.
Qed.

(** *** Searching a reactive array *)

Lemma track_keeps target k st :
  heap (track target k st) = heap st ∧ proxies (track target k st) = proxies st.
Proof.
  unfold track. destruct (activeEffect st); [| done]. by destruct (shouldTrack st).
Qed.

(** Wrapping a raw object creates at most one proxy and touches no raw
    object. *)
Lemma wrap_keeps (isReadonly : bool) r st :
  ∃ q st', (if isReadonly then readonly (VObj r) else reactive (VObj r)) st
           = Ret (VProxy q) st' ∧
           heap st' = heap st ∧ proxies st `prefix_of` proxies st'.
Proof.
  destruct isReadonly.
  - eexists _, _. split; [reflexivity |]. split; [done |].
    simpl. by apply prefix_app_r.
  - unfold reactive, bind, gets. destruct (reactiveMap st !! r) as [q |].
    + by exists q, st.
    + eexists _, _. split; [reflexivity |]. split; [done |].
      simpl. by apply prefix_app_r.
Qed.

Lemma not_instrumented_index i : bool_decide (KIdx i ∈ arrayInstrumentations) = false.
Proof.
  apply bool_decide_eq_false. unfold arrayInstrumentations. intros H.
  repeat (apply elem_of_cons in H as [H | H]; [discriminate |]).
  by apply elem_of_nil in H.
Qed.

Lemma not_instrumented_length : bool_decide (KLength ∈ arrayInstrumentations) = false.
Proof.
  apply bool_decide_eq_false. unfold arrayInstrumentations. intros H.
  repeat (apply elem_of_cons in H as [H | H]; [discriminate |]).
  by apply elem_of_nil in H.
Qed.

(** Reading an index or [length] of an array through a reactive proxy:
    the read returns, no raw object changes and no proxy is lost.  The
    value is the raw one unless it is an object that the handler wraps. *)
Lemma get_value_array self st p isShallow isReadonly target o k :
  proxies st !! p
    = Some {| p_target := target; p_handler := Reactive isShallow isReadonly |} →
  heap st !! target = Some o → isArray o = true → proto o = VNull →
  (∃ i, k = KIdx i) ∨ k = KLength →
  (∀ q, own_get o k ≠ Some (VProxy q)) →
  ∃ v st', get_value self (VProxy p) k st = Ret v st' ∧
           heap st' = heap st ∧ proxies st `prefix_of` proxies st' ∧
           (is_object (default VUndef (own_get o k)) = false →
            v = default VUndef (own_get o k)).
Proof.
  intros Hp Ho Harr Hproto Hk Hraw.
  unfold get_value, proxy_get.
  rewrite (bind_Ret _ _ _ _ _ (lookup_in_Some proxies _ _ _ Hp)). simpl.
  unfold reactive_get.
  assert (Hnr : k ≠ KRaw) by (destruct Hk as [[i ->] | ->]; done).
  rewrite decide_False by done.
  rewrite (bind_Ret _ _ _ _ _ (lookup_in_Some heap _ _ _ Ho)).
  assert (Hni : bool_decide (k ∈ arrayInstrumentations) = false).
  { destruct Hk as [[i ->] | ->];
      [apply not_instrumented_index | apply not_instrumented_length]. }
  rewrite Harr, Hni. simpl.
  set (m := if negb isReadonly && negb (is_symbol k)
            then modify (track target k) else ret tt).
  assert (Hm : ∃ st1, m st = Ret tt st1 ∧ heap st1 = heap st
                      ∧ proxies st1 = proxies st).
  { subst m. destruct (negb isReadonly && negb (is_symbol k)).
    - eexists. split; [reflexivity |]. apply track_keeps.
    - by exists st. }
  destruct Hm as (st1 & Hm & Hh1 & Hp1).
  rewrite (bind_Ret _ _ _ _ _ Hm).
  assert (Ho1 : heap st1 !! target = Some o) by (by rewrite Hh1).
  rewrite (bind_Ret _ _ _ _ _
             (Reflect_get_own self _ _ _ _ _ Ho1 (or_intror Hproto))).
  destruct isShallow.
  { eexists _, _. split; [reflexivity |]. rewrite Hh1, Hp1. done. }
  destruct (default VUndef (own_get o k)) as [| | b | n | | s | r | q] eqn:Hres;
    simpl; try (eexists _, _; split; [reflexivity |]; by rewrite Hh1, Hp1).
  - destruct (wrap_keeps isReadonly r st1) as (q & st2 & Hw & Hh2 & Hp2).
    exists (VProxy q), st2. split; [exact Hw |]. rewrite Hh2, Hh1, <- Hp1. done.
  - destruct (own_get o k) as [v |] eqn:Hget; simpl in Hres; [| done].
    subst v. by destruct (Hraw q).
Qed.

(** The search of [includes] through the proxy comes to an end. *)
Lemma includes_from_proxy self p isShallow isReadonly target o x n : ∀ j st,
  proxies st !! p
    = Some {| p_target := target; p_handler := Reactive isShallow isReadonly |} →
  heap st !! target = Some o → isArray o = true → proto o = VNull →
  (∀ i q, elems o !! i ≠ Some (Some (VProxy q))) →
  ∃ b st', includes_from self (VProxy p) x j n st = Ret (VBool b) st' ∧
           heap st' = heap st ∧ proxies st `prefix_of` proxies st'.
Proof.
  induction n as [| n IH]; intros j st Hp Ho Harr Hproto Hel; simpl.
  - by exists false, st.
  - destruct (get_value_array self st p isShallow isReadonly target o (KIdx j)
                Hp Ho Harr Hproto) as (v & st1 & Hget & Hh1 & Hp1 & _).
    { left. by exists j. }
    { intros q Hq. unfold own_get in Hq. rewrite Harr in Hq.
      destruct (elems o !! j) as [[e |] |] eqn:Hj; simpl in Hq; try done.
      injection Hq as ->. by destruct (Hel j q). }
    rewrite (bind_Ret _ _ _ _ _ Hget).
    destruct (same_value_zero v x).
    + exists true, st1. done.
    + destruct (IH (S j) st1) as (b & st2 & Hrun & Hh2 & Hp2); try done.
      * by eapply prefix_lookup_Some.
      * by rewrite Hh1.
      * exists b, st2. split; [done |]. split; [congruence |]. by etrans.
Qed.

(** The search of [includes] on the raw array finds an element that is
    there. *)
Lemma includes_from_raw self target o x n : ∀ j st i,
  heap st !! target = Some o → proto o = VNull →
  j ≤ i < j + n → own_get o (KIdx i) = Some x →
  includes_from self (VObj target) x j n st = Ret (VBool true) st.
Proof.
  induction n as [| n IH]; intros j st i Ho Hproto Hi Hx; simpl; [lia |].
  unfold get_value.
  rewrite (bind_Ret _ _ _ _ _
             (Reflect_get_own self _ _ _ _ _ Ho (or_intror Hproto))).
  destruct (same_value_zero (default VUndef (own_get o (KIdx j))) x) eqn:Heq;
    [done |].
  apply (IH (S j) st i); try done.
  destruct (decide (i = j)) as [-> | Hne]; [| lia].
  rewrite Hx in Heq. simpl in Heq. unfold same_value_zero in Heq.
  by rewrite bool_decide_eq_true_2 in Heq.
Qed.

Lemma length_of_num self O st n st1 :
  get_value self O KLength st = Ret (VNum (Z.of_nat n)) st1 →
  length_of self O st = Ret n st1.
Proof.
  intros H. unfold length_of. rewrite (bind_Ret _ _ _ _ _ H).
  unfold ret. by rewrite Nat2Z.id.
Qed.

(** The [get] handler of [createReactive] on a property that the target
    answers itself. *)
Lemma reactive_get_own self isShallow isReadonly t o k receiver st :
  heap st !! t = Some o → isArray o = false → k ≠ KRaw →
  own_has o k = true ∨ proto o = VNull →
  reactive_get self isShallow isReadonly t k receiver st
  = let st1 := if negb isReadonly && negb (is_symbol k) then track t k st else st in
    let res := default VUndef (own_get o k) in
    if isShallow then Ret res st1
    else if is_object res
         then (if isReadonly then readonly res else reactive res) st1
         else Ret res st1.
Proof.
  intros Ho Harr Hk Hown. unfold reactive_get. rewrite decide_False by done.
  rewrite (bind_Ret _ _ _ _ _ (lookup_in_Some heap _ _ _ Ho)). rewrite Harr. simpl.
  set (st1 := if negb isReadonly && negb (is_symbol k) then track t k st else st).
  assert (Hm : (if negb isReadonly && negb (is_symbol k)
                then modify (track t k) else ret ()) st = Ret tt st1).
  { subst st1. by destruct (negb isReadonly && negb (is_symbol k)). }
  rewrite (bind_Ret _ _ _ _ _ Hm).
  assert (Ho1 : heap st1 !! t = Some o).
  { subst st1. destruct (negb isReadonly && negb (is_symbol k)); [| done].
    by destruct (track_keeps t k st) as [-> _]. }
  rewrite (bind_Ret _ _ _ _ _ (Reflect_get_own self _ _ _ _ _ Ho1 Hown)).
  destruct isShallow; [done |].
  by destruct (is_object (default VUndef (own_get o k))).
Qed.

End ProxyFacts.
(** * [computed] and [watch] *)

Module DerivedFacts.
Import Reactivity ProxyFacts Programs.
Local Open Scope M_scope.



Lemma store_cacheValue_lookup c v st cr :
  computeds st !! c = Some cr →
  computeds (store_cacheValue c v st) !! c
  = Some {| c_effectFn := c_effectFn cr; cacheValue := v; dirty := false |}.
Proof. intros Hc. simpl. by rewrite list_lookup_alter_eq, Hc. Qed.


Lemma mark_dirty_lookup c st cr :
  computeds st !! c = Some cr →
  computeds (mark_dirty c st) !! c
  = Some {| c_effectFn := c_effectFn cr; cacheValue := cacheValue cr;
            dirty := true |}.
Proof. intros Hc. simpl. by rewrite list_lookup_alter_eq, Hc. Qed.

(** *** [watch] *)

Lemma callbacks_app tr1 tr2 : callbacks (tr1 ++ tr2) = callbacks tr1 ++ callbacks tr2.
Proof. unfold callbacks. apply filter_app. Qed.

Lemma watch_registered_watcher src cb st :
  watchers (watch_registered src cb st) !! length (watchers st)
  = Some {| w_cb := cb; w_effectFn := length (effectFns st);
            oldValue := VUndef; newValue := VUndef; w_cleanup := None |}.
Proof. simpl. by rewrite lookup_app_r, Nat.sub_diag. Qed.

(** [watch] with [immediate]: when reading the source and running the
    body of the callback return, [job] runs once at registration and calls
    the callback with the value read and with [undefined]. *)
Lemma watch_immediate fuel src cb st v st2 st4 u :
  let w := length (watchers st) in
  let e := length (effectFns st) in
  interp fuel (TCall e) (watch_registered src cb st) = Ret v st2 →
  watchers st2 = watchers (watch_registered src cb st) →
  let st3 := store_cleanup w (cb_onInvalidate cb)
               (emit (EvCallback w v VUndef) (store_newValue w v st2)) in
  interp fuel (TStmt (cb_body cb)) st3 = Ret u st4 →
  watch fuel src cb true st = Ret tt (store_oldValue w st4).
Proof.
  intros w e Hget Hw st3 Hcb.
  unfold watch, effect, bind, gets, modify, ret. simpl.
  change (job (interp fuel) w (watch_registered src cb st)
          = Ret () (store_oldValue w st4)).
  unfold job.
  rewrite (bind_Ret _ _ _ _ _
             (lookup_in_Some watchers _ _ _ (watch_registered_watcher src cb st))).
  simpl w_effectFn. fold e. rewrite (bind_Ret _ _ _ _ _ Hget).
  erewrite bind_Ret; [| reflexivity].
  assert (Hl1 : watchers (store_newValue w v st2) !! w
                = Some {| w_cb := cb; w_effectFn := e; oldValue := VUndef;
                          newValue := v; w_cleanup := None |}).
  { simpl. rewrite list_lookup_alter_eq, Hw.
    unfold w. by rewrite watch_registered_watcher. }
  rewrite (bind_Ret _ _ _ _ _ (lookup_in_Some watchers _ _ _ Hl1)).
  simpl w_cleanup. cbv iota.
  erewrite bind_Ret; [| reflexivity].
  rewrite (bind_Ret _ _ _ _ _ (lookup_in_Some watchers _ _ _ Hl1)).
  erewrite bind_Ret; [| reflexivity].
  erewrite bind_Ret; [| reflexivity].
  simpl. fold st3. rewrite (bind_Ret _ _ _ _ _ Hcb).
  reflexivity.
Qed.

(** [watch] without [immediate]: the effect function is called once, and
    its result becomes [oldValue]; the callback is not called. *)
Lemma watch_lazy fuel src cb st v st2 :
  let w := length (watchers st) in
  let e := length (effectFns st) in
  interp fuel (TCall e) (watch_registered src cb st) = Ret v st2 →
  watch fuel src cb false st = Ret tt (seed_oldValue w v st2).
Proof.
  intros w e Hget.
  unfold watch, effect, bind, gets, modify, ret. simpl.
  change (match interp fuel (TCall e) (watch_registered src cb st) with
          | Ret a st' => Ret () (seed_oldValue w a st')
          | Throw st' => Throw st'
          | Unmodelled => Unmodelled
          | OutOfFuel => OutOfFuel
          end = Ret () (seed_oldValue w v st2)).
  by rewrite Hget.
Qed.

End DerivedFacts.
(** * More fuel changes nothing *)

Module FuelFacts.
Import Reactivity Programs Scenarios.
Local Open Scope M_scope.

Lemma refines_refl {A} (m : M A) : refines m m.
Proof. intros st. by destruct (m st). Qed.

Lemma refines_bind {A B} (m m' : M A) (f f' : A → M B) :
  refines m m' → (∀ a, refines (f a) (f' a)) → refines (bind m f) (bind m' f').
Proof.
  intros Hm Hf st. unfold bind. specialize (Hm st).
  destruct (m st) as [a st1 | st1 | |]; [| by rewrite Hm | by rewrite Hm | done].
  rewrite Hm. apply Hf.
Qed.

Lemma refines_for_each {A} (f f' : A → M unit) (l : list A) :
  (∀ x, refines (f x) (f' x)) → refines (for_each f l) (for_each f' l).
Proof.
  intros Hf. induction l as [| x l IH]; simpl.
  - apply refines_refl.
  - apply refines_bind; [apply Hf | done].
Qed.

(** What a program returns, or throws, with some fuel, it does with
    more. *)
Lemma refines_Ret {A} (m m' : M A) st a st' :
  refines m m' → m st = Ret a st' → m' st = Ret a st'.
Proof. intros H Hm. specialize (H st). by rewrite Hm in H. Qed.

Lemma refines_Throw {A} (m m' : M A) st st' :
  refines m m' → m st = Throw st' → m' st = Throw st'.
Proof. intros H Hm. specialize (H st). by rewrite Hm in H. Qed.

Ltac refines_step :=
  match goal with
  | |- refines ?m ?m => apply refines_refl
  | |- refines (bind _ _) (bind _ _) => apply refines_bind; [| intros ?]
  | |- refines (for_each _ _) (for_each _ _) => apply refines_for_each; intros ?
  | |- refines (match ?x with _ => _ end) (match ?x with _ => _ end) => destruct x
  | |- refines (if ?x then _ else _) (if ?x then _ else _) => destruct x
  | |- refines (let _ := _ in _) _ => cbv zeta
  | H : ∀ t, refines (?self t) (?self' t) |- refines (?self _) (?self' _) => apply H
  end.

Ltac refines_auto := repeat refines_step; auto.

Section Level.

Variable self self' : task → M value.
Hypothesis self_refines : ∀ t, refines (self t) (self' t).

Lemma refines_Reflect_get target k receiver :
  refines (Reflect_get self target k receiver) (Reflect_get self' target k receiver).
Proof. unfold Reflect_get. refines_auto. Qed.

Lemma refines_Reflect_set target k v receiver :
  refines (Reflect_set self target k v receiver) (Reflect_set self' target k v receiver).
Proof. unfold Reflect_set. refines_auto. Qed.

Lemma refines_reactive_get sh ro target k receiver :
  refines (reactive_get self sh ro target k receiver)
          (reactive_get self' sh ro target k receiver).
Proof. unfold reactive_get. refines_auto; apply refines_Reflect_get. Qed.

Lemma refines_plain_get target k :
  refines (plain_get self target k) (plain_get self' target k).
Proof. unfold plain_get. refines_auto. apply refines_Reflect_get. Qed.

Lemma refines_proxy_get p k receiver :
  refines (proxy_get self p k receiver) (proxy_get self' p k receiver).
Proof.
  unfold proxy_get. refines_auto;
    [apply refines_plain_get | apply refines_reactive_get].
Qed.

Lemma refines_get_value o k : refines (get_value self o k) (get_value self' o k).
Proof.
  unfold get_value. refines_auto;
    [apply refines_Reflect_get | apply refines_proxy_get].
Qed.

Lemma refines_job w : refines (job self w) (job self' w).
Proof. unfold job. refines_auto. Qed.

Lemma refines_run_scheduler s f :
  refines (run_scheduler self s f) (run_scheduler self' s f).
Proof. unfold run_scheduler. refines_auto. apply refines_job. Qed.

Lemma refines_run_effect f : refines (run_effect self f) (run_effect self' f).
Proof. unfold run_effect. refines_auto. apply refines_run_scheduler. Qed.

Lemma refines_trigger_plain target k :
  refines (trigger_plain self target k) (trigger_plain self' target k).
Proof. unfold trigger_plain. refines_auto. apply refines_run_effect. Qed.

Lemma refines_trigger target k type newVal :
  refines (trigger self target k type newVal) (trigger self' target k type newVal).
Proof. unfold trigger. refines_auto. apply refines_run_effect. Qed.

Lemma refines_plain_set target k newVal :
  refines (plain_set self target k newVal) (plain_set self' target k newVal).
Proof.
  unfold plain_set. refines_auto;
    [apply refines_Reflect_set | apply refines_trigger_plain].
Qed.

Lemma refines_reactive_set ro target k newVal receiver :
  refines (reactive_set self ro target k newVal receiver)
          (reactive_set self' ro target k newVal receiver).
Proof.
  unfold reactive_set. refines_auto;
    first [ apply refines_Reflect_get | apply refines_Reflect_set
          | apply refines_get_value | apply refines_trigger ].
Qed.

Lemma refines_proxy_set p k newVal receiver :
  refines (proxy_set self p k newVal receiver) (proxy_set self' p k newVal receiver).
Proof.
  unfold proxy_set. refines_auto;
    [apply refines_plain_set | apply refines_reactive_set].
Qed.

Lemma refines_set_value o k v : refines (set_value self o k v) (set_value self' o k v).
Proof.
  unfold set_value. refines_auto;
    first [apply refines_Reflect_set | apply refines_proxy_set].
Qed.

Lemma refines_reactive_delete ro target k :
  refines (reactive_delete self ro target k) (reactive_delete self' ro target k).
Proof. unfold reactive_delete. refines_auto; apply refines_trigger. Qed.

Lemma refines_delete_value o k :
  refines (delete_value self o k) (delete_value self' o k).
Proof. unfold delete_value. refines_auto; apply refines_reactive_delete. Qed.

Lemma refines_length_of O : refines (length_of self O) (length_of self' O).
Proof. unfold length_of. refines_auto; apply refines_get_value. Qed.

Lemma refines_includes_from O x n : ∀ i,
  refines (includes_from self O x i n) (includes_from self' O x i n).
Proof.
  induction n as [| n IH]; intros i; simpl; refines_auto. apply refines_get_value.
Qed.

Lemma refines_Array_includes O x :
  refines (Array_includes self O x) (Array_includes self' O x).
Proof.
  unfold Array_includes. refines_auto;
    [apply refines_length_of | apply refines_includes_from].
Qed.

Lemma refines_indexOf_from O x n : ∀ i,
  refines (indexOf_from self O x i n) (indexOf_from self' O x i n).
Proof.
  induction n as [| n IH]; intros i; simpl; refines_auto. apply refines_get_value.
Qed.

Lemma refines_Array_indexOf O x :
  refines (Array_indexOf self O x) (Array_indexOf self' O x).
Proof.
  unfold Array_indexOf. refines_auto;
    [apply refines_length_of | apply refines_indexOf_from].
Qed.

Lemma refines_lastIndexOf_below O x n :
  refines (lastIndexOf_below self O x n) (lastIndexOf_below self' O x n).
Proof.
  induction n as [| n IH]; simpl; refines_auto. apply refines_get_value.
Qed.

Lemma refines_Array_lastIndexOf O x :
  refines (Array_lastIndexOf self O x) (Array_lastIndexOf self' O x).
Proof.
  unfold Array_lastIndexOf. refines_auto;
    [apply refines_length_of | apply refines_lastIndexOf_below].
Qed.

Lemma refines_instrumented (m m' : value → value → M value) this x :
  (∀ a b, refines (m a b) (m' a b)) →
  refines (instrumented self m this x) (instrumented self' m' this x).
Proof. intros H. unfold instrumented. refines_auto. apply refines_get_value. Qed.

Lemma refines_call_search (m m' : value → value → M value) arr x :
  (∀ a b, refines (m a b) (m' a b)) →
  refines (call_search self m arr x) (call_search self' m' arr x).
Proof. intros H. unfold call_search. refines_auto. by apply refines_instrumented. Qed.

Lemma refines_Array_push O x : refines (Array_push self O x) (Array_push self' O x).
Proof.
  unfold Array_push. refines_auto;
    first [apply refines_length_of | apply refines_set_value].
Qed.

Lemma refines_instrumented_mutator (m m' : value → value → M value) this x :
  (∀ a b, refines (m a b) (m' a b)) →
  refines (instrumented_mutator m this x) (instrumented_mutator m' this x).
Proof. intros H. unfold instrumented_mutator. refines_auto. Qed.

Lemma refines_call_push arr x : refines (call_push self arr x) (call_push self' arr x).
Proof.
  unfold call_push. refines_auto;
    first [ apply refines_Array_push
          | apply refines_instrumented_mutator; apply refines_Array_push ].
Qed.

Lemma refines_computed_value c :
  refines (computed_value self c) (computed_value self' c).
Proof. unfold computed_value. refines_auto. Qed.

Lemma refines_eval x : refines (eval self x) (eval self' x).
Proof.
  induction x; simpl; refines_auto;
    first [ apply refines_get_value | apply refines_computed_value
          | apply refines_call_push
          | apply refines_call_search; intros;
            first [ apply refines_Array_includes | apply refines_Array_indexOf
                  | apply refines_Array_lastIndexOf ] ].
Qed.

Lemma refines_effect f opts : refines (effect self f opts) (effect self' f opts).
Proof. unfold effect. refines_auto. Qed.

Lemma refines_exec s : refines (exec self s) (exec self' s).
Proof.
  induction s; simpl; refines_auto;
    first [ apply refines_eval | apply refines_set_value
          | apply refines_delete_value | apply refines_effect ].
Qed.

Lemma refines_traverse n : ∀ n' source seen, n ≤ n' →
  refines (traverse self n source seen) (traverse self' n' source seen).
Proof.
  induction n as [| n IH]; intros n' source seen Hle; [by intros st |].
  destruct n' as [| n']; [lia |]. simpl. refines_auto.
  generalize (seen ++ [source]). clear seen.
  match goal with
  | |- ∀ l, refines (?loop ?ks l) _ => induction ks as [| k ks IHk]
  end; intros seen; refines_auto; [apply refines_get_value | apply IH; lia].
Qed.

Lemma refines_run_wrapped n n' f : n ≤ n' →
  refines (run_wrapped n self f) (run_wrapped n' self' f).
Proof.
  intros Hle. unfold run_wrapped. refines_auto;
    first [apply refines_exec | apply refines_eval | by apply refines_traverse].
Qed.

Lemma refines_effectFn n n' e : n ≤ n' →
  refines (effectFn n self e) (effectFn n' self' e).
Proof.
  intros Hle. unfold effectFn, wrapper. refines_auto.
  by apply refines_run_wrapped.
Qed.

Lemma refines_step n n' t : n ≤ n' → refines (step n self t) (step n' self' t).
Proof.
  intros Hle. unfold step. refines_auto;
    first [ by apply refines_effectFn | apply refines_Reflect_get
          | apply refines_proxy_get | apply refines_Reflect_set
          | apply refines_proxy_set | apply refines_exec ].
Qed.

End Level.

(** The interpreter with more fuel gives the same outcome. *)
Lemma interp_refines n : ∀ n' t, n ≤ n' → refines (interp n t) (interp n' t).
Proof.
  induction n as [| n IH]; intros n' t Hle; [by intros st |].
  destruct n' as [| n']; [lia |]. simpl.
  apply refines_step; [| lia]. intros t'. apply IH. lia.
Qed.

Lemma run_refines n n' s : n ≤ n' → refines (run n s) (run n' s).
Proof. intros Hle. apply refines_exec. intros t. by apply interp_refines. Qed.

Lemma read_refines n n' x : n ≤ n' → refines (read n x) (read n' x).
Proof. intros Hle. apply refines_eval. intros t. by apply interp_refines. Qed.

Lemma computed_refines n n' getter : n ≤ n' →
  refines (computed n getter) (computed n' getter).
Proof.
  intros Hle. unfold computed. refines_auto.
  apply refines_effect. intros t. by apply interp_refines.
Qed.

Lemma watch_refines n n' src cb immediate : n ≤ n' →
  refines (watch n src cb immediate) (watch n' src cb immediate).
Proof.
  intros Hle. unfold watch. refines_auto;
    first [ apply refines_effect | apply refines_job | idtac ];
    try (intros t; by apply interp_refines); by apply interp_refines.
Qed.

Lemma flush_jobs_refines n n' : n ≤ n' → refines (flush_jobs n) (flush_jobs n').
Proof.
  intros Hle. unfold flush_jobs. refines_auto. by apply interp_refines.
Qed.

(** What is observed of a program with the depth [n] is observed with any
    greater depth. *)
Lemma refines_observe {A B} (obs : outcome A → option B) (P : nat → M A)
    (st : state) (b : B) (n : nat) :
  obs OutOfFuel = None →
  (∀ n', n ≤ n' → refines (P n) (P n')) →
  obs (P n st) = Some b →
  ∀ n', n ≤ n' → obs (P n' st) = Some b.
Proof.
  intros Hobs Hmono Hn n' Hle. specialize (Hmono n' Hle st).
  destruct (P n st); try (by rewrite Hmono); congruence.
Qed.

Ltac mono :=
  cbv beta;
  unfold assign, nested, self_increment, throwing, array_reader, array_of_obj,
    inheritance, one_reader, title, deferred, pushers, length_reader,
    computed_reader;
  repeat first
    [ refines_step
    | apply run_refines | apply read_refines | apply computed_refines
    | apply watch_refines | apply flush_jobs_refines ];
  auto.

(** A statement about a program at every depth from [depth] on is checked
    by running the program at [depth]. *)
Ltac at_depth :=
  intros;
  match goal with
  | Hle : depth ≤ ?fuel |- ?obs (?prog ?st) = Some ?b =>
      let F := eval pattern fuel in prog in
      match F with
      | ?P fuel =>
          revert fuel Hle;
          apply (refines_observe obs P st b depth);
          [ reflexivity | intros ? ?; mono | vm_compute; reflexivity ]
      end
  end.

End FuelFacts.
(** * The dependency sets an effect belongs to *)

Module MembershipFacts.
Import Reactivity ReactivityFacts.
Local Open Scope M_scope.

(** ** The states the system goes through *)

Lemma consistent_initial h : consistent (initial h).
Proof.
  split_and!.
  - intros e t k. unfold subscribers. simpl. rewrite lookup_empty. split.
    + by intros ?%not_elem_of_nil.
    + by intros (ef & He & _).
  - done.
  - intros x Hx. by apply not_elem_of_nil in Hx.
Qed.

Lemma keeps_consistent_refl st : keeps_consistent st st.
Proof. by intros H. Qed.

Lemma keeps_consistent_trans a b c :
  keeps_consistent a b → keeps_consistent b c → keeps_consistent a c.
Proof. unfold keeps_consistent. auto. Qed.

Lemma consistent_track t k st : consistent st → consistent (track t k st).
Proof.
  intros Hc. unfold track.
  destruct (activeEffect st) as [a |] eqn:Hact; [| done].
  destruct (shouldTrack st); [| done].
  destruct Hc as (Hb & Ha & Hs).
  assert (Hlt : a < length (effectFns st)).
  { apply Hs. apply last_Some_elem_of. congruence. }
  destruct (lookup_lt_is_Some_2 _ _ Hlt) as [efa Hefa].
  split_and!; [| done | by intros x; simpl; rewrite length_alter; apply Hs].
  intros e t' k'.
  cbn [effectsBuckets effectFns log_tracked set_effectFns set_effectsBuckets].
  rewrite subscribers_bucket_add, (Hb e t' k').
  destruct (decide (e = a)) as [-> | Hne].
  - rewrite list_lookup_alter_eq, Hefa. simpl. split.
    + intros [(ef & He & Hd) | (_ & -> & ->)]; eexists; (split; [done |]); simpl;
        rewrite elem_of_app, list_elem_of_singleton; [left | right]; congruence.
    + intros (ef & [= <-] & Hd). simpl in Hd.
      rewrite elem_of_app, list_elem_of_singleton in Hd.
      destruct Hd as [Hd | [= -> ->]]; [left; by exists efa | by right].
  - rewrite list_lookup_alter_ne by done. naive_solver.
Qed.

Lemma consistent_register f opts st :
  consistent st →
  consistent (set_effectFns
                (effectFns st ++ [{| fn := f; deps := []; options := opts |}]) st).
Proof.
  intros (Hb & Ha & Hs). split_and!; simpl; [| done |].
  - intros e t k. rewrite (Hb e t k). split.
    + intros (ef & He & Hd). exists ef. split; [| done].
      by apply lookup_app_l_Some.
    + intros (ef & He & Hd). apply lookup_app_Some in He.
      destruct He as [He | [_ He]]; [by exists ef |].
      apply list_lookup_singleton_Some in He. destruct He as [_ <-].
      by apply not_elem_of_nil in Hd.
  - intros x Hx. rewrite length_app. specialize (Hs x Hx). simpl. lia.
Qed.

(** [cleanup] leaves the effect in no set, and the other effects where
    they were. *)
Lemma cleanup_subscribers e st :
  backrefs st →
  ∀ x t k, x ∈ subscribers (effectsBuckets (cleanup e st)) t k
           ↔ x ≠ e ∧ x ∈ subscribers (effectsBuckets st) t k.
Proof.
  intros Hb x t k. unfold cleanup.
  destruct (effectFns st !! e) as [ef |] eqn:He; simpl.
  - rewrite subscribers_foldl_bucket_delete. split.
    + intros [Hin Hnot]. split; [| done]. intros ->. apply Hnot. split; [done |].
      apply Hb in Hin. destruct Hin as (ef' & He' & Hd). congruence.
    + intros [Hne Hin]. split; [done |]. by intros [? _].
  - split; [| tauto]. intros Hin. split; [| done]. intros ->.
    apply Hb in Hin. destruct Hin as (ef' & He' & _). congruence.
Qed.

Lemma cleanup_other e st x t k :
  x ≠ e →
  x ∈ subscribers (effectsBuckets (cleanup e st)) t k
  ↔ x ∈ subscribers (effectsBuckets st) t k.
Proof.
  intros Hne. unfold cleanup. destruct (effectFns st !! e) as [ef |]; [| done].
  simpl. rewrite subscribers_foldl_bucket_delete. naive_solver.
Qed.

Lemma consistent_cleanup e st : consistent st → consistent (cleanup e st).
Proof.
  intros (Hb & Ha & Hs). split_and!.
  - intros x t k. rewrite (cleanup_subscribers e st Hb), (Hb x t k).
    unfold cleanup. destruct (effectFns st !! e) as [ef |] eqn:He; simpl.
    + destruct (decide (x = e)) as [-> | Hne].
      * rewrite list_lookup_insert_eq by (by eapply lookup_lt_Some). split.
        -- by intros [? _].
        -- intros (ef' & [= <-] & Hd). by apply not_elem_of_nil in Hd.
      * rewrite list_lookup_insert_ne by done. tauto.
    + split; [tauto |]. intros (ef & Hx & Hd). split; [congruence |]. by exists ef.
  - unfold cleanup. by destruct (effectFns st !! e).
  - unfold cleanup. destruct (effectFns st !! e); [| done]. simpl.
    intros x Hx. rewrite length_insert. by apply Hs.
Qed.

Lemma elem_of_removelast {A} (l : list A) x : x ∈ removelast l → x ∈ l.
Proof.
  destruct (decide (l = [])) as [-> | Hne]; [done |].
  destruct (exists_last Hne) as (l' & a & ->). rewrite removelast_last.
  intros Hx. apply elem_of_app. by left.
Qed.

(** The wrapper of a registered effect function keeps the state
    consistent, whether the function returns or throws. *)
Lemma ok_wrapper_consistent e (call_fn : EffectFn → M value) :
  (∀ ef, respects keeps_consistent keeps_consistent (call_fn ef)) →
  respects keeps_consistent keeps_consistent
           (ef ← lookup_in effectFns e; wrapper e (call_fn ef)).
Proof.
  intros Hcall st. unfold bind, lookup_in.
  destruct (effectFns st !! e) as [ef |] eqn:He; [| done].
  unfold wrapper, bind, modify, ret.
  match goal with |- context [call_fn ef ?s] => set (st1 := s) end.
  assert (H1 : consistent st → consistent st1).
  { intros Hc. apply (consistent_cleanup e) in Hc. destruct Hc as (Hb & Ha & Hs).
    subst st1. split_and!; simpl.
    - exact Hb.
    - by rewrite last_snoc.
    - intros x [Hx | ->%list_elem_of_singleton]%elem_of_app; [by apply Hs |].
      unfold cleanup. rewrite He. simpl. rewrite length_insert.
      by eapply lookup_lt_Some. }
  specialize (Hcall ef st1). destruct (call_fn ef st1) as [v st2 | st2 | |]; try done.
  - intros Hc. destruct (Hcall (H1 Hc)) as (Hb & Ha & Hs). split_and!; simpl.
    + exact Hb.
    + done.
    + intros x Hx. by apply Hs, elem_of_removelast.
  - intros Hc. by apply Hcall, H1.
Qed.

Lemma mutator_consistent (m : M value) :
  respects keeps_consistent keeps_consistent m →
  respects keeps_consistent keeps_consistent
           (modify (set_shouldTrack false) ;;
            res ← m; modify (set_shouldTrack true) ;; ret res).
Proof.
  apply mutator_by_updates;
    first [ apply keeps_consistent_trans | by intros; intros ? ].
Qed.

Ltac frame_consistent :=
  first [ apply keeps_consistent_refl | apply keeps_consistent_trans
        | by intros; intros ?; apply consistent_track
        | by intros; intros ?; apply consistent_register
        | apply ok_wrapper_consistent
        | apply mutator_consistent
        | by intros; intros ? ].

(** Every call of the interpreter keeps the state consistent. *)
Lemma interp_consistent fuel t :
  respects keeps_consistent keeps_consistent (interp fuel t).
Proof. apply ok_interp; frame_consistent. Qed.

(** So does every operation of the interface. *)
Lemma api_consistent fuel :
  (∀ s, respects keeps_consistent keeps_consistent (run fuel s)) ∧
  (∀ x, respects keeps_consistent keeps_consistent (read fuel x)) ∧
  (∀ v, respects keeps_consistent keeps_consistent (reactive v)) ∧
  (∀ v, respects keeps_consistent keeps_consistent (shallowReactive v)) ∧
  (∀ v, respects keeps_consistent keeps_consistent (readonly v)) ∧
  (∀ v, respects keeps_consistent keeps_consistent (shallowReadonly v)) ∧
  (∀ getter, respects keeps_consistent keeps_consistent (computed fuel getter)) ∧
  (∀ src cb immediate,
     respects keeps_consistent keeps_consistent (watch fuel src cb immediate)) ∧
  respects keeps_consistent keeps_consistent (flush_jobs fuel).
Proof.
  split_and!; intros;
    first [ apply ok_run | apply ok_read | apply ok_reactive | apply ok_shallowReactive
          | apply ok_readonly | apply ok_shallowReadonly | apply ok_computed
          | apply ok_watch | apply ok_flush_jobs ];
    frame_consistent.
Qed.

(** ** What a run does to the memberships *)

Lemma memberships_follow_refl st : memberships_follow st st.
Proof. exists [], []. rewrite !app_nil_r. split_and!; [done | done |]. set_solver. Qed.

Lemma memberships_follow_trans a b c :
  memberships_follow a b → memberships_follow b c → memberships_follow a c.
Proof.
  intros (tr1 & tk1 & Ht1 & Hk1 & H1) (tr2 & tk2 & Ht2 & Hk2 & H2).
  exists (tr1 ++ tr2), (tk1 ++ tk2). rewrite Ht2, Ht1, Hk2, Hk1, !app_assoc.
  split_and!; [done | done |].
  intros e He t k. rewrite not_elem_of_app in He. destruct He as [He1 He2].
  rewrite (H2 e He2), (H1 e He1), elem_of_app. tauto.
Qed.

Lemma memberships_follow_same st st' :
  trace st' = trace st → tracked st' = tracked st →
  effectsBuckets st' = effectsBuckets st → memberships_follow st st'.
Proof.
  intros Ht Hk Hb. exists [], []. rewrite Ht, Hk, Hb, !app_nil_r.
  split_and!; [done | done |]. set_solver.
Qed.

Lemma memberships_follow_track t k st : memberships_follow st (track t k st).
Proof.
  unfold track. destruct (activeEffect st) as [a |]; [| apply memberships_follow_refl].
  destruct (shouldTrack st); [| apply memberships_follow_refl].
  exists [], [(a, t, k)]. simpl. rewrite app_nil_r. split_and!; [done | done |].
  intros e _ t' k'. rewrite subscribers_bucket_add, list_elem_of_singleton.
  naive_solver.
Qed.

Lemma memberships_follow_emit ev st : memberships_follow st (emit ev st).
Proof.
  exists [ev], []. simpl. rewrite app_nil_r. split_and!; [done | done |]. set_solver.
Qed.

(** The wrapper of the effect function [e] empties the sets of [e] and
    no other. *)
Lemma ok_wrapper_memberships e (call_fn : EffectFn → M value) :
  (∀ ef, respects memberships_follow memberships_follow (call_fn ef)) →
  respects memberships_follow memberships_follow
           (ef ← lookup_in effectFns e; wrapper e (call_fn ef)).
Proof.
  intros Hcall st. unfold bind, lookup_in.
  destruct (effectFns st !! e) as [ef |] eqn:He; [| done].
  unfold wrapper, bind, modify, ret.
  match goal with |- context [call_fn ef ?s] => set (st1 := s) end.
  assert (H1 : ∀ st2, memberships_follow st1 st2 →
                 ∃ tr tk, trace st2 = trace st ++ tr ∧ tracked st2 = tracked st ++ tk ∧
                   ∀ x, EvRun x ∉ tr → ∀ t k,
                     x ∈ subscribers (effectsBuckets st2) t k
                     ↔ x ∈ subscribers (effectsBuckets st) t k ∨ (x, t, k) ∈ tk).
  { intros st2 (tr & tk & Ht & Hk & H).
    assert (Ht1 : trace st1 = trace st ++ [EvRun e]).
    { subst st1. simpl. unfold cleanup. by destruct (effectFns st !! e). }
    assert (Hk1 : tracked st1 = tracked st).
    { subst st1. simpl. unfold cleanup. by destruct (effectFns st !! e). }
    exists (EvRun e :: tr), tk. rewrite Ht, Ht1, Hk, Hk1, <- app_assoc.
    split_and!; [done | done |].
    intros x Hx t k. rewrite not_elem_of_cons in Hx. destruct Hx as [Hne Hx].
    rewrite (H x Hx). subst st1. simpl.
    rewrite cleanup_other by congruence. done. }
  specialize (Hcall ef st1). destruct (call_fn ef st1) as [v st2 | st2 | |]; try done.
  - by apply H1 in Hcall.
  - by apply H1 in Hcall.
Qed.

Lemma mutator_memberships (m : M value) :
  respects memberships_follow memberships_follow m →
  respects memberships_follow memberships_follow
           (modify (set_shouldTrack false) ;;
            res ← m; modify (set_shouldTrack true) ;; ret res).
Proof.
  apply mutator_by_updates;
    first [ apply memberships_follow_trans
          | by intros; apply memberships_follow_same ].
Qed.

Lemma interp_memberships fuel t :
  respects memberships_follow memberships_follow (interp fuel t).
Proof.
  apply ok_interp;
    first [ apply memberships_follow_refl | apply memberships_follow_trans
          | apply memberships_follow_track | apply memberships_follow_emit
          | apply ok_wrapper_memberships | apply mutator_memberships
          | by intros; apply memberships_follow_same ].
Qed.

(** A call [effectFn()] that returns: the trace gains the run and what
    the function did, and unless the function of [e] was called again
    during the run, [e] is left in exactly the sets recorded for it by
    this run. *)
Lemma effectFn_memberships fuel e st v st' :
  backrefs st →
  interp fuel (TCall e) st = Ret v st' →
  ∃ tr tk,
    trace st' = trace st ++ EvRun e :: tr ∧
    tracked st' = tracked st ++ tk ∧
    (EvRun e ∉ tr →
     ∀ t k, e ∈ subscribers (effectsBuckets st') t k ↔ (e, t, k) ∈ tk).
Proof.
  intros Hb. destruct fuel as [| n]; [done |]. simpl.
  unfold effectFn, bind, lookup_in.
  destruct (effectFns st !! e) as [ef |] eqn:He; [| done].
  unfold wrapper, bind, modify, ret.
  match goal with |- context [run_wrapped n (interp n) (fn ef) ?s] =>
    set (st1 := s) end.
  assert (Hcall : respects memberships_follow memberships_follow
                           (run_wrapped n (interp n) (fn ef))).
  { apply ok_run_wrapped;
      first [ apply memberships_follow_refl | apply memberships_follow_trans
            | apply memberships_follow_track | apply memberships_follow_emit
            | apply ok_wrapper_memberships | apply mutator_memberships
            | apply interp_memberships
            | by intros; apply memberships_follow_same ]. }
  specialize (Hcall st1).
  destruct (run_wrapped n (interp n) (fn ef) st1) as [r st2 | st2 | |]; try done.
  intros [= <- <-]. destruct Hcall as (tr & tk & Ht & Hk & H).
  assert (Ht1 : trace st1 = trace st ++ [EvRun e]).
  { subst st1. simpl. unfold cleanup. by rewrite He. }
  assert (Hk1 : tracked st1 = tracked st).
  { subst st1. simpl. unfold cleanup. by rewrite He. }
  exists tr, tk. simpl. rewrite Ht, Ht1, Hk, Hk1, <- app_assoc.
  split_and!; [done | done |].
  intros Hx t k. rewrite (H e Hx). subst st1. simpl.
  rewrite (cleanup_subscribers e st Hb). naive_solver.
Qed.

End MembershipFacts.
(** * Effects that read and write the same property *)

Module IncrementFacts.
Import Reactivity NumberFacts TriggerFacts ProxyFacts MembershipFacts Programs Scenarios.
Local Open Scope M_scope.

(** What [cleanup] and [track] leave as it is. *)
Lemma cleanup_fields e st :
  heap (cleanup e st) = heap st ∧ proxies (cleanup e st) = proxies st ∧
  shouldTrack (cleanup e st) = shouldTrack st ∧
  activeEffect (cleanup e st) = activeEffect st ∧
  effectStack (cleanup e st) = effectStack st ∧
  trace (cleanup e st) = trace st.
Proof. unfold cleanup. by destruct (effectFns st !! e). Qed.

Lemma track_fields t k st :
  heap (track t k st) = heap st ∧ proxies (track t k st) = proxies st ∧
  shouldTrack (track t k st) = shouldTrack st ∧
  activeEffect (track t k st) = activeEffect st ∧
  effectStack (track t k st) = effectStack st ∧
  trace (track t k st) = trace st.
Proof.
  unfold track. destruct (activeEffect st) eqn:Ha; [| done].
  by destruct (shouldTrack st) eqn:Hs.
Qed.

Lemma entered_same e st :
  heap (entered e st) = heap st ∧ proxies (entered e st) = proxies st ∧
  shouldTrack (entered e st) = shouldTrack st ∧
  activeEffect (entered e st) = Some e.
Proof.
  unfold entered. simpl. by destruct (cleanup_fields e st) as (-> & -> & -> & _).
Qed.

(** A call of an incrementing effect, up to the effects that its write
    runs. *)
Lemma increment_call n st e p t isShallow o c :
  increments st e p →
  proxies st !! p = Some {| p_target := t; p_handler := Reactive isShallow false |} →
  heap st !! t = Some o → isArray o = false →
  own_get o (KStr "count") = Some (VNum c) →
  shouldTrack st = true →
  isSafeInteger (c + 1) = true →
  let st3 := incremented e t (counted o (c + 1)) st in
  let l := add_effects (Some e) (subscribers (effectsBuckets st3) t (KStr "count")) [] in
  interp (S n) (TCall e) st
  = match for_each (run_effect (interp n)) l st3 with
    | Ret _ st4 => Ret VUndef (exited st4)
    | Throw s => Throw s
    | Unmodelled => Unmodelled
    | OutOfFuel => OutOfFuel
    end.
Proof.
  intros [d He] Hp Ho Harr Hc Hs Hsafe st3 l.
  set (st0 := entered e st).
  destruct (entered_same e st) as (Hh0 & Hp0 & Hs0 & Ha0). fold st0 in Hh0, Hp0, Hs0, Ha0.
  set (st1 := track t (KStr "count") st0).
  destruct (track_fields t (KStr "count") st0) as (Hh1 & Hp1 & Hs1 & Ha1 & _).
  fold st1 in Hh1, Hp1, Ha1, Hs1.
  assert (Hown : own_has o (KStr "count") = true ∨ proto o = VNull).
  { left. apply own_has_true. by rewrite Hc. }
  assert (Hget : get_value (interp n) (VProxy p) (KStr "count") st0 = Ret (VNum c) st1).
  { unfold get_value, proxy_get.
    rewrite (bind_Ret _ _ _ _ _ (lookup_in_Some proxies _ _ _ (eq_trans (f_equal (.!! p) Hp0) Hp))).
    simpl.
    rewrite (reactive_get_own _ _ _ t o); [| by rewrite Hh0 | done | done | done].
    simpl. rewrite Hc. simpl. by destruct isShallow. }
  assert (Hrhs : eval (interp n)
                   (EAdd (EGet (EConst (VProxy p)) (KStr "count")) (EConst (VNum 1))) st0
                 = Ret (VNum (c + 1)) st1).
  { simpl. unfold bind at 1. unfold bind at 1. unfold ret at 1.
    rewrite Hget. unfold bind, ret. by rewrite (js_add_safe _ _ Hsafe). }
  set (st2 := set_heap (<[t := counted o (c + 1)]> (heap st1)) st1).
  assert (Hlt : t < length (heap st)) by (by eapply lookup_lt_Some).
  assert (Hsub : e ∈ subscribers (effectsBuckets st1) t (KStr "count")).
  { unfold st1, track. rewrite Ha0, Hs0, Hs. simpl.
    apply subscribers_bucket_add. by right. }
  assert (Htrig : trigger (interp n) t (KStr "count") T_set (VNum (c + 1)) st2
                  = for_each (run_effect (interp n)) l st3).
  { unfold trigger, bind, modify, gets. simpl.
    change (emit (EvTrigger t (KStr "count")) st2) with st3.
    unfold l, subscribers in *. change (effectsBuckets st3) with (effectsBuckets st1).
    destruct (effectsBuckets st1 !! t) as [dm |] eqn:Hdm;
      [| by apply elem_of_nil in Hsub].
    unfold lookup_in. simpl.
    change (heap (track t (KStr "count") (entered e st))) with (heap st1).
    rewrite Hh1, Hh0.
    rewrite list_lookup_insert_eq by done. simpl.
    change (activeEffect (track t (KStr "count") (entered e st)))
      with (activeEffect st1).
    by rewrite Ha1, Ha0. }
  assert (Hwrite : set_value (interp n) (VProxy p) (KStr "count") (VNum (c + 1)) st1
                   = match for_each (run_effect (interp n)) l st3 with
                     | Ret _ st4 => Ret tt st4
                     | Throw s => Throw s
                     | Unmodelled => Unmodelled
                     | OutOfFuel => OutOfFuel
                     end).
  { unfold set_value.
    pose proof (reactive_set_own (interp n) st1 p isShallow t o
                  (counted o (c + 1)) (KStr "count") (VNum (c + 1)) T_set) as Hset.
    assert (Hp' : proxies st1 !! p
                  = Some {| p_target := t; p_handler := Reactive isShallow false |})
      by (by rewrite Hp1, Hp0).
    assert (Ho' : heap st1 !! t = Some o) by (by rewrite Hh1, Hh0).
    specialize (Hset Hp' Ho' Hown).
    rewrite Hc in Hset. simpl in Hset.
    rewrite decide_False in Hset by (intros [=]; lia).
    unfold bind at 1. rewrite Hset.
    - unfold bind at 1. fold st2. rewrite Htrig.
      by destruct (for_each (run_effect (interp n)) l st3).
    - unfold set_type. rewrite Harr. destruct Hown as [-> | ?]; [done |].
      unfold own_has. rewrite Hc. by rewrite bool_decide_eq_true_2.
    - unfold own_set. by rewrite Harr. }
  assert (Hbody : exec (interp n) (increment (VProxy p)) st0
                  = match for_each (run_effect (interp n)) l st3 with
                    | Ret _ st4 => Ret tt st4
                    | Throw s => Throw s
                    | Unmodelled => Unmodelled
                    | OutOfFuel => OutOfFuel
                    end).
  { unfold increment. cbn [exec]. unfold bind at 1.
    simpl (eval (interp n) (EConst (VProxy p))). unfold ret at 1. cbv beta iota.
    unfold bind at 1. rewrite Hrhs. exact Hwrite. }
  change (interp (S n) (TCall e) st) with (effectFn n (interp n) e st).
  unfold effectFn.
  rewrite (bind_Ret _ _ _ _ _ (lookup_in_Some effectFns _ _ _ He)).
  unfold wrapper, run_wrapped. cbn [fn body result].
  unfold bind, modify, ret.
  match goal with |- context [exec _ _ ?s] => change s with st0 end.
  rewrite Hbody.
  by destruct (for_each (run_effect (interp n)) l st3).
Qed.

Lemma incremented_fields e t o' st :
  let st' := incremented e t o' st in
  heap st' = <[t := o']> (heap st) ∧ proxies st' = proxies st ∧
  shouldTrack st' = shouldTrack st ∧ activeEffect st' = Some e ∧
  effectStack st' = effectStack st ++ [e] ∧
  trace st' = trace st ++ [EvRun e; EvTrigger t (KStr "count")].
Proof.
  unfold incremented. simpl.
  destruct (track_fields t (KStr "count") (entered e st))
    as (-> & -> & -> & -> & -> & ->).
  unfold entered. simpl.
  destruct (cleanup_fields e st) as (-> & -> & -> & _ & -> & ->).
  split_and!; try done. by rewrite <- app_assoc.
Qed.

Lemma increments_cleanup x st e p : increments st e p → increments (cleanup x st) e p.
Proof.
  intros [d He]. unfold increments, cleanup.
  destruct (effectFns st !! x) as [ef |] eqn:Hx; [| by exists d]. simpl.
  destruct (decide (x = e)) as [-> | Hne].
  - rewrite list_lookup_insert_eq by (by eapply lookup_lt_Some).
    assert (ef = {| fn := FUser {| body := increment (VProxy p); result := no_result |};
                    deps := d;
                    options := {| scheduler := None; lazy := false |} |}) as ->
      by congruence.
    by eexists.
  - rewrite list_lookup_insert_ne by done. by exists d.
Qed.

Lemma increments_track t k st e p : increments st e p → increments (track t k st) e p.
Proof.
  intros [d He]. unfold increments, track.
  destruct (activeEffect st) as [a |]; [| by exists d].
  destruct (shouldTrack st); [| by exists d]. simpl.
  destruct (decide (a = e)) as [-> | Hne].
  - rewrite list_lookup_alter_eq, He. simpl. by eexists.
  - rewrite list_lookup_alter_ne by done. by exists d.
Qed.

Lemma increments_incremented x t o' st e p :
  increments st e p → increments (incremented x t o' st) e p.
Proof.
  intros H. unfold incremented.
  apply (increments_track t (KStr "count") (entered x st) e p).
  by apply (increments_cleanup x st e p).
Qed.

(** The subscribers of [count] once the effect [e] has read it. *)
Lemma subscribers_incremented e t o' st x :
  shouldTrack st = true →
  x ∈ subscribers (effectsBuckets (incremented e t o' st)) t (KStr "count")
  ↔ x = e ∨ (x ≠ e ∧ x ∈ subscribers (effectsBuckets st) t (KStr "count")).
Proof.
  intros Hs. unfold incremented. simpl. unfold track.
  destruct (entered_same e st) as (_ & _ & -> & ->). rewrite Hs. simpl.
  rewrite subscribers_bucket_add.
  destruct (decide (x = e)) as [-> | Hne]; [naive_solver |].
  rewrite (cleanup_other e st x) by done. naive_solver.
Qed.

Lemma singleton_list (l : list nat) (e : nat) :
  NoDup l → (∀ x, x ∈ l ↔ x = e) → l = [e].
Proof.
  intros Hnd Hl. destruct l as [| a l].
  - assert (e ∈ ([] : list nat)) as Hin by (by apply Hl). by apply elem_of_nil in Hin.
  - assert (a = e) as -> by (apply Hl; by left).
    destruct l as [| b l]; [done |].
    assert (b = e) as -> by (apply Hl; right; by left).
    apply NoDup_cons in Hnd as [Hnd _]. exfalso. apply Hnd. by left.
Qed.

Lemma exited_fields st :
  heap (exited st) = heap st ∧ proxies (exited st) = proxies st ∧
  shouldTrack (exited st) = shouldTrack st ∧
  activeEffect (exited st) = last (removelast (effectStack st)) ∧
  effectStack (exited st) = removelast (effectStack st) ∧
  trace (exited st) = trace st ∧
  effectsBuckets (exited st) = effectsBuckets st ∧
  effectFns (exited st) = effectFns st.
Proof. done. Qed.

Lemma own_get_counted o c : own_get (counted o c) (KStr "count") = Some (VNum c).
Proof. unfold own_get, counted. simpl. by rewrite Map_get_set_eq. Qed.

(** A call of an incrementing effect that is the only subscriber of the
    count: its write runs nothing. *)
Lemma sole_call n st e p t isShallow o c :
  increments st e p →
  proxies st !! p = Some {| p_target := t; p_handler := Reactive isShallow false |} →
  heap st !! t = Some o → isArray o = false →
  own_get o (KStr "count") = Some (VNum c) →
  shouldTrack st = true →
  isSafeInteger (c + 1) = true →
  (∀ x, x ∈ subscribers (effectsBuckets st) t (KStr "count") → x = e) →
  interp (S n) (TCall e) st
  = Ret VUndef (exited (incremented e t (counted o (c + 1)) st)).
Proof.
  intros He Hp Ho Harr Hc Hs Hsafe Hsole.
  rewrite (increment_call n st e p t isShallow o c) by done. cbv zeta.
  set (st3 := incremented e t (counted o (c + 1)) st).
  assert (add_effects (Some e)
            (subscribers (effectsBuckets st3) t (KStr "count")) [] = []) as ->;
    [| done].
  apply elem_of_nil_inv. intros x [Hx | [Hx Hne]]%elem_of_add_effects.
  - by apply elem_of_nil in Hx.
  - apply subscribers_incremented in Hx; [| done].
    destruct Hx as [-> | [Hxe Hx]]; [done |]. by apply Hxe, Hsole.
Qed.

Lemma length_effectFns_incremented e t o' st :
  length (effectFns (incremented e t o' st)) = length (effectFns st).
Proof.
  unfold incremented. simpl. unfold track.
  assert (Hc : length (effectFns (entered e st)) = length (effectFns st)).
  { unfold entered, cleanup. simpl. destruct (effectFns st !! e); simpl; [| done].
    by rewrite length_insert. }
  destruct (activeEffect (entered e st)); [| done].
  destruct (shouldTrack (entered e st)); [| done]. simpl. by rewrite length_alter.
Qed.

(** What a call of a sole incrementer leaves. *)
Lemma sole_call_leaves e p t isShallow o c st :
  increments st e p →
  proxies st !! p = Some {| p_target := t; p_handler := Reactive isShallow false |} →
  heap st !! t = Some o →
  shouldTrack st = true →
  (∀ x, x ∈ subscribers (effectsBuckets st) t (KStr "count") → x = e) →
  let s1 := exited (incremented e t (counted o c) st) in
  increments s1 e p ∧ length (effectFns s1) = length (effectFns st) ∧
  proxies s1 !! p = Some {| p_target := t; p_handler := Reactive isShallow false |} ∧
  heap s1 !! t = Some (counted o c) ∧ shouldTrack s1 = true ∧
  ∀ y, y ∈ subscribers (effectsBuckets s1) t (KStr "count") ↔ y = e.
Proof.
  intros He Hp Ho Hs Hsole s1.
  destruct (incremented_fields e t (counted o c) st)
    as (Hh & Hpx & Hsh & Hact & Hstk & Htr).
  cbv zeta in Hh, Hpx, Hsh, Hact, Hstk, Htr.
  destruct (exited_fields (incremented e t (counted o c) st))
    as (Hh' & Hpx' & Hsh' & Hact' & Hstk' & Htr' & Hb' & Hf').
  subst s1. split_and!.
  - destruct (increments_incremented e t (counted o c) st e p He) as [d Hd].
    exists d. by rewrite Hf'.
  - rewrite Hf'. apply length_effectFns_incremented.
  - by rewrite Hpx', Hpx.
  - rewrite Hh', Hh. apply list_lookup_insert_eq. by eapply lookup_lt_Some.
  - by rewrite Hsh', Hsh.
  - intros y. rewrite Hb'. rewrite subscribers_incremented by done.
    split; [intros [-> | [_ Hy]]; [done | by apply Hsole] | intros ->; by left].
Qed.

(** The same, from a state between two runs to the next such state. *)
Lemma sole_call_returns n st e p t c :
  sole_incrementer st e p t c → isSafeInteger (c + 1) = true →
  ∃ st', interp (S n) (TCall e) st = Ret VUndef st' ∧
         trace st' = trace st ++ [EvRun e; EvTrigger t (KStr "count")] ∧
         sole_incrementer st' e p t (c + 1).
Proof.
  intros (He & ([isShallow Hp] & o & Ho & Harr & Hc) & Hs & Ha & Hstack & Hsub) Hsafe.
  assert (Hsole : ∀ x, x ∈ subscribers (effectsBuckets st) t (KStr "count") → x = e)
    by (intros x; apply Hsub).
  exists (exited (incremented e t (counted o (c + 1)) st)). split.
  { by apply (sole_call n st e p t isShallow o c). }
  destruct (sole_call_leaves e p t isShallow o (c + 1) st He Hp Ho Hs Hsole)
    as (He' & _ & Hp' & Ho' & Hs' & Hsub').
  destruct (incremented_fields e t (counted o (c + 1)) st)
    as (_ & _ & _ & _ & Hstk & Htr).
  cbv zeta in Hstk, Htr.
  destruct (exited_fields (incremented e t (counted o (c + 1)) st))
    as (_ & _ & _ & Hact' & Hstk' & Htr' & _ & _).
  assert (Hpop : removelast (effectStack st ++ [e]) = []) by (by rewrite Hstack).
  split; [by rewrite Htr', Htr |].
  split_and!; try done.
  - split; [by exists isShallow |]. exists (counted o (c + 1)).
    split_and!; [done | done | apply own_get_counted].
  - by rewrite Hact', Hstk, Hpop.
  - by rewrite Hstk', Hstk, Hpop.
Qed.

Lemma outside_write n st e p t c v :
  sole_incrementer st e p t c →
  isSafeInteger (v + 1) = true →
  ∃ st', assign (S n) (VProxy p) (KStr "count") (VNum v) st = Ret tt st' ∧
    if decide (v = c)
    then trace st' = trace st ∧ sole_incrementer st' e p t c
    else trace st' = trace st ++ [EvTrigger t (KStr "count"); EvRun e;
                                  EvTrigger t (KStr "count")]
         ∧ sole_incrementer st' e p t (v + 1).
Proof.
  intros (He & ([isShallow Hp] & o & Ho & Harr & Hc) & Hs & Ha & Hstack & Hsub) Hsafe.
  assert (Hown : own_has o (KStr "count") = true ∨ proto o = VNull).
  { left. apply own_has_true. by rewrite Hc. }
  assert (Hlt : t < length (heap st)) by (by eapply lookup_lt_Some).
  set (st1 := set_heap (<[t := counted o v]> (heap st)) st).
  assert (Hset : proxy_set (interp (S n)) p (KStr "count") (VNum v) (VProxy p) st
                 = if decide (VNum c = VNum v) then Ret (VBool true) st1
                   else (trigger (interp (S n)) t (KStr "count") T_set (VNum v) ;;
                         ret (VBool true)) st1).
  { pose proof (reactive_set_own (interp (S n)) st p isShallow t o (counted o v)
                  (KStr "count") (VNum v) T_set Hp Ho Hown) as H.
    rewrite Hc in H. apply H.
    - unfold set_type. rewrite Harr. unfold own_has. rewrite Hc.
      by rewrite bool_decide_eq_true_2.
    - unfold own_set. by rewrite Harr. }
  assert (Hassign : assign (S n) (VProxy p) (KStr "count") (VNum v) st
                    = (res ← proxy_set (interp (S n)) p (KStr "count") (VNum v) (VProxy p);
                       if truthy res then ret tt else throw) st) by reflexivity.
  rewrite Hassign. unfold bind at 1. rewrite Hset.
  destruct (decide (v = c)) as [-> | Hne].
  - rewrite decide_True by done. simpl. exists st1. split; [done |].
    split; [done |]. split_and!; try done.
    split; [by exists isShallow |]. exists (counted o c).
    split_and!; [| done | apply own_get_counted].
    simpl. by rewrite list_lookup_insert_eq.
  - rewrite decide_False by congruence.
    set (st2 := emit (EvTrigger t (KStr "count")) st1).
    assert (Hsubs : add_effects None
                      (subscribers (effectsBuckets st) t (KStr "count")) [] = [e]).
    { apply singleton_list; [apply NoDup_add_effects, NoDup_nil_2 |].
      intros x. rewrite elem_of_add_effects, Hsub, elem_of_nil. naive_solver. }
    destruct He as [d He].
    assert (Hcall : interp (S n) (TCall e) st2
                    = Ret VUndef
                        (exited (incremented e t (counted (counted o v) (v + 1)) st2))).
    { apply (sole_call n st2 e p t isShallow (counted o v) v);
        try done.
      - by exists d.
      - simpl. by rewrite list_lookup_insert_eq.
      - apply own_get_counted.
      - intros x. apply Hsub. }
    set (st' := exited (incremented e t (counted (counted o v) (v + 1)) st2)) in *.
    assert (Htrig : trigger (interp (S n)) t (KStr "count") T_set (VNum v) st1
                    = Ret tt st').
    { unfold trigger, bind, modify, gets. simpl. fold st2.
      assert (e ∈ subscribers (effectsBuckets st) t (KStr "count")) as Hin
        by (by apply Hsub).
      unfold subscribers in Hsubs, Hin.
      destruct (effectsBuckets st !! t) as [dm |] eqn:Hdm;
        [| by apply elem_of_nil in Hin].
      unfold lookup_in. simpl. rewrite list_lookup_insert_eq by done. simpl.
      rewrite Ha.
      change (effectsToRun dm None false (KStr "count") T_set (VNum v))
        with (ToRun (add_effects None (default [] (Map_get (KStr "count") dm)) [])).
      rewrite Hsubs.
      assert (Hrun : run_effect (interp (S n)) e st2 = Ret tt st').
      { unfold run_effect.
        rewrite (bind_Ret _ _ _ _ _ (lookup_in_Some effectFns e st2 _ He)).
        cbn [options scheduler]. unfold bind. by rewrite Hcall. }
      cbn [for_each]. unfold bind.
      match goal with
      | |- context [run_effect ?f e st2] =>
          change (run_effect f e st2) with (run_effect (interp (S n)) e st2)
      end.
      by rewrite Hrun. }
    unfold bind. rewrite Htrig. simpl. exists st'. split; [done |].
    destruct (incremented_fields e t (counted (counted o v) (v + 1)) st2)
      as (Hh & Hpx & Hsh & Hact & Hstk & Htr).
    cbv zeta in Hh, Hpx, Hsh, Hact, Hstk, Htr.
    destruct (exited_fields (incremented e t (counted (counted o v) (v + 1)) st2))
      as (Hh' & Hpx' & Hsh' & Hact' & Hstk' & Htr' & Hb' & Hf').
    fold st' in Hh', Hpx', Hsh', Hact', Hstk', Htr', Hb', Hf'.
    assert (Hpop : removelast (effectStack st2 ++ [e]) = []).
    { change (effectStack st2) with (effectStack st). by rewrite Hstack. }
    split.
    + rewrite Htr', Htr. simpl. by rewrite <- app_assoc.
    + split_and!.
      * destruct (increments_incremented e t (counted (counted o v) (v + 1))
                    st2 e p) as [d' Hd']; [by exists d |].
        exists d'. by rewrite Hf'.
      * split; [exists isShallow; by rewrite Hpx', Hpx |].
        exists (counted (counted o v) (v + 1)). rewrite Hh', Hh. simpl.
        rewrite list_insert_insert_eq.
        split_and!; [by rewrite list_lookup_insert_eq | done | apply own_get_counted].
      * by rewrite Hsh', Hsh.
      * by rewrite Hact', Hstk, Hpop.
      * by rewrite Hstk', Hstk, Hpop.
      * intros x. rewrite Hb'.
        rewrite (subscribers_incremented e t _ st2 x) by done.
        change (effectsBuckets st2) with (effectsBuckets st).
        rewrite Hsub. naive_solver.
Qed.

Lemma outside_writes n e p t (vs : list Z) : ∀ st c,
  sole_incrementer st e p t c →
  (∀ v, v ∈ vs → isSafeInteger (v + 1) = true) →
  ∃ st' c', writes (S n) (VProxy p) vs st = Ret tt st' ∧
    trace st' = trace st ++ notified t e c vs ∧
    sole_incrementer st' e p t c'.
Proof.
  induction vs as [| v vs IH]; intros st c Hinv Hsafe.
  - exists st, c. split; [done |]. split; [| done]. simpl. by rewrite app_nil_r.
  - destruct (outside_write n st e p t c v Hinv) as (st1 & Hw & Hcase).
    { apply Hsafe. by left. }
    assert (Hrest : ∀ v', v' ∈ vs → isSafeInteger (v' + 1) = true).
    { intros v' Hv'. apply Hsafe. by right. }
    unfold writes. cbn [for_each]. rewrite (bind_Ret _ _ _ _ _ Hw).
    fold (writes (S n) (VProxy p) vs). cbn [notified].
    destruct (decide (v = c)) as [-> | Hne].
    + destruct Hcase as [Htr Hinv1].
      destruct (IH st1 c Hinv1 Hrest) as (st' & c' & Hws & Htr' & Hinv').
      exists st', c'. split; [done |]. split; [| done].
      rewrite Z.eqb_refl. by rewrite Htr', Htr.
    + destruct Hcase as [Htr Hinv1].
      destruct (IH st1 (v + 1)%Z Hinv1 Hrest) as (st' & c' & Hws & Htr' & Hinv').
      exists st', c'. split; [done |]. split; [| done].
      assert ((v =? c)%Z = false) as -> by (by apply Z.eqb_neq).
      rewrite Htr', Htr. by rewrite <- app_assoc.
Qed.

(** Two incrementing effects that are both subscribers of the count. *)
Lemma mutual_calls n : ∀ st e x p t isShallow o c,
  increments st e p → increments st x p → e ≠ x →
  proxies st !! p = Some {| p_target := t; p_handler := Reactive isShallow false |} →
  heap st !! t = Some o → isArray o = false →
  own_get o (KStr "count") = Some (VNum c) →
  shouldTrack st = true →
  x ∈ subscribers (effectsBuckets st) t (KStr "count") →
  (∀ y, y ∈ subscribers (effectsBuckets st) t (KStr "count") → y = e ∨ y = x) →
  (0 ≤ c)%Z → (c + Z.of_nat n ≤ MAX_SAFE_INTEGER)%Z →
  interp n (TCall e) st = OutOfFuel.
Proof.
  induction n as [| n IH]; intros st e x p t isShallow o c He Hx Hne Hp Ho Harr Hc Hs
    Hin Hall Hpos Hbound; [done |].
  assert (Hsafe : isSafeInteger (c + 1) = true).
  { unfold isSafeInteger, MAX_SAFE_INTEGER in *.
    apply andb_true_intro. split; apply Z.leb_le; lia. }
  rewrite (increment_call n st e p t isShallow o c) by done. cbv zeta.
  set (st3 := incremented e t (counted o (c + 1)) st).
  assert (Hl : add_effects (Some e)
                 (subscribers (effectsBuckets st3) t (KStr "count")) [] = [x]).
  { apply singleton_list; [apply NoDup_add_effects, NoDup_nil_2 |].
    intros y. rewrite elem_of_add_effects, elem_of_nil.
    unfold st3. rewrite subscribers_incremented by done. split.
    - intros [[] | [[-> | [Hye Hy]] Hact]]; [congruence |].
      destruct (Hall y Hy) as [-> | ->]; done.
    - intros ->. right. split; [| congruence]. right. split; [congruence | done]. }
  rewrite Hl.
  destruct (incremented_fields e t (counted o (c + 1)) st)
    as (Hh & Hpx & Hsh & Hact & Hstk & Htr).
  cbv zeta in Hh, Hpx, Hsh, Hact, Hstk, Htr. fold st3 in Hh, Hpx, Hsh, Hact, Hstk, Htr.
  assert (Hlt : t < length (heap st)) by (by eapply lookup_lt_Some).
  assert (Hcall : interp n (TCall x) st3 = OutOfFuel).
  { apply (IH st3 x e p t isShallow (counted o (c + 1)) (c + 1)%Z).
    - by apply increments_incremented.
    - by apply increments_incremented.
    - congruence.
    - by rewrite Hpx.
    - rewrite Hh. by apply list_lookup_insert_eq.
    - done.
    - apply own_get_counted.
    - by rewrite Hsh.
    - unfold st3. apply subscribers_incremented; [done |]. by left.
    - intros y Hy. unfold st3 in Hy. apply subscribers_incremented in Hy; [| done].
      destruct Hy as [-> | [_ Hy]]; [by right |].
      destruct (Hall y Hy) as [-> | ->]; [by right | by left].
    - lia.
    - lia. }
  destruct (increments_incremented e t (counted o (c + 1)) st x p Hx) as [d Hd].
  fold st3 in Hd.
  cbn [for_each]. unfold bind at 1. unfold run_effect.
  rewrite (bind_Ret _ _ _ _ _ (lookup_in_Some effectFns x st3 _ Hd)).
  cbn [options scheduler]. unfold bind. by rewrite Hcall.
Qed.

Lemma effect_call self b r st :
  exec self (SEffect b r false) st
  = match self (TCall (length (effectFns st)))
            (set_effectFns
               (effectFns st ++
                  [{| fn := FUser {| body := b; result := r |}; deps := [];
                      options := {| scheduler := None; lazy := false |} |}]) st) with
    | Ret _ st' => Ret tt st'
    | Throw s => Throw s
    | Unmodelled => Unmodelled
    | OutOfFuel => OutOfFuel
    end.
Proof.
  cbn [exec]. unfold effect, bind, gets, modify, ret. cbn [lazy].
  by destruct (self _ _).
Qed.

Lemma registered_fields p st :
  heap (registered p st) = heap st ∧ proxies (registered p st) = proxies st ∧
  shouldTrack (registered p st) = shouldTrack st ∧
  effectsBuckets (registered p st) = effectsBuckets st ∧
  effectFns (registered p st) = effectFns st ++ [incrementer p].
Proof. done. Qed.

Lemma increments_registered p st : increments (registered p st) (length (effectFns st)) p.
Proof.
  exists []. destruct (registered_fields p st) as (_ & _ & _ & _ & ->).
  rewrite lookup_app_r by done. by rewrite Nat.sub_diag.
Qed.

Lemma increments_registered_old q st e p :
  increments st e p → increments (registered q st) e p.
Proof.
  intros [d Hd]. exists d. destruct (registered_fields q st) as (_ & _ & _ & _ & ->).
  by apply lookup_app_l_Some.
Qed.

Lemma register_call n p st :
  run (S n) (SEffect (increment (VProxy p)) no_result false) st
  = match interp (S n) (TCall (length (effectFns st))) (registered p st) with
    | Ret _ st' => Ret tt st'
    | Throw s => Throw s
    | Unmodelled => Unmodelled
    | OutOfFuel => OutOfFuel
    end.
Proof. unfold run. by rewrite effect_call. Qed.

Lemma two_incrementers_diverge fuel :
  (Z.of_nat fuel + 2 ≤ MAX_SAFE_INTEGER)%Z →
  two_incrementers fuel counter_data = OutOfFuel.
Proof.
  intros Hbound. destruct fuel as [| n]; [reflexivity |].
  unfold two_incrementers.
  set (o := plain_object [(KStr "count", VNum 1)]).
  assert (Hreactive : ∃ s0, reactive (VObj 0) counter_data = Ret (VProxy 0) s0 ∧
            proxies s0 !! 0
            = Some {| p_target := 0; p_handler := Reactive false false |} ∧
            heap s0 !! 0 = Some o ∧
            effectFns s0 = [] ∧ effectsBuckets s0 = ∅ ∧ shouldTrack s0 = true).
  { eexists. split; [reflexivity |]. by split_and!. }
  destruct Hreactive as (s0 & Hr & Hp0 & Hh0 & Hf0 & Hb0 & Hs0).
  rewrite (bind_Ret _ _ _ _ _ Hr).
  (* the first effect *)
  destruct (registered_fields 0 s0) as (Hrh & Hrp & Hrs & Hrb & Hrf).
  assert (Hempty : ∀ x, x ∈ subscribers (effectsBuckets (registered 0 s0)) 0 (KStr "count")
                        → x = 0).
  { intros x Hx. rewrite Hrb in Hx. unfold subscribers in Hx.
    rewrite Hb0, lookup_empty in Hx. by apply elem_of_nil in Hx. }
  assert (Hinc0 : increments (registered 0 s0) 0 0).
  { pose proof (increments_registered 0 s0) as H. by rewrite Hf0 in H. }
  assert (Hp0' : proxies (registered 0 s0) !! 0
                 = Some {| p_target := 0; p_handler := Reactive false false |})
    by (by rewrite Hrp).
  assert (Hh0' : heap (registered 0 s0) !! 0 = Some o) by (by rewrite Hrh).
  assert (Hs0' : shouldTrack (registered 0 s0) = true) by (by rewrite Hrs).
  pose proof (sole_call n (registered 0 s0) 0 0 0 false o 1 Hinc0 Hp0' Hh0'
                eq_refl eq_refl Hs0' eq_refl Hempty) as Hcall0.
  destruct (sole_call_leaves 0 0 0 false o (1 + 1) (registered 0 s0)
              Hinc0 Hp0' Hh0' Hs0' Hempty)
    as (Hinc1 & Hlen1 & Hp1 & Hh1 & Hs1 & Hsub1).
  revert Hcall0 Hinc1 Hlen1 Hp1 Hh1 Hs1 Hsub1.
  generalize (exited (incremented 0 0 (counted o (1 + 1)) (registered 0 s0))).
  intros s1 Hcall0 Hinc1 Hlen1 Hp1 Hh1 Hs1 Hsub1.
  rewrite Hrf, Hf0 in Hlen1. simpl in Hlen1.
  assert (Hrun0 : run (S n) (SEffect (increment (VProxy 0)) no_result false) s0
                  = Ret tt s1).
  { rewrite register_call. rewrite Hf0. simpl length. by rewrite Hcall0. }
  rewrite (bind_Ret _ _ _ _ _ Hrun0).
  clear Hcall0 Hrun0 Hinc0 Hp0' Hh0' Hs0' Hempty Hrh Hrp Hrs Hrb Hrf Hr.
  (* the second effect *)
  destruct (registered_fields 0 s1) as (Hrh & Hrp & Hrs & Hrb & Hrf).
  assert (Hcall1 : interp (S n) (TCall 1) (registered 0 s1) = OutOfFuel).
  { apply (mutual_calls (S n) (registered 0 s1) 1 0 0 0 false (counted o (1 + 1)) 2%Z).
    - pose proof (increments_registered 0 s1) as H. by rewrite Hlen1 in H.
    - by apply increments_registered_old.
    - done.
    - by rewrite Hrp.
    - by rewrite Hrh.
    - done.
    - apply own_get_counted.
    - by rewrite Hrs.
    - rewrite Hrb. by apply Hsub1.
    - intros y Hy. rewrite Hrb in Hy. right. by apply Hsub1.
    - lia.
    - lia. }
  unfold bind. rewrite register_call, Hlen1. by rewrite Hcall1.
Qed.

(** The listing's program: once the effect is registered, it is the only
    subscriber of the count, which is 2. *)
Lemma self_increment_registered fuel :
  0 < fuel →
  ∃ st, self_increment fuel counter_data = Ret (VProxy 0) st ∧
        sole_incrementer st 0 0 0 2.
Proof.
  intros Hfuel. destruct fuel as [| n]; [lia |]. unfold self_increment.
  set (o := plain_object [(KStr "count", VNum 1)]).
  assert (Hreactive : ∃ s0, reactive (VObj 0) counter_data = Ret (VProxy 0) s0 ∧
            proxies s0 !! 0
            = Some {| p_target := 0; p_handler := Reactive false false |} ∧
            heap s0 !! 0 = Some o ∧
            effectFns s0 = [] ∧ effectsBuckets s0 = ∅ ∧ shouldTrack s0 = true ∧
            effectStack s0 = []).
  { eexists. split; [reflexivity |]. by split_and!. }
  destruct Hreactive as (s0 & Hr & Hp0 & Hh0 & Hf0 & Hb0 & Hs0 & Hk0).
  rewrite (bind_Ret _ _ _ _ _ Hr).
  destruct (registered_fields 0 s0) as (Hrh & Hrp & Hrs & Hrb & Hrf).
  assert (Hempty : ∀ x, x ∈ subscribers (effectsBuckets (registered 0 s0)) 0 (KStr "count")
                        → x = 0).
  { intros x Hx. rewrite Hrb in Hx. unfold subscribers in Hx.
    rewrite Hb0, lookup_empty in Hx. by apply elem_of_nil in Hx. }
  assert (Hinc0 : increments (registered 0 s0) 0 0).
  { pose proof (increments_registered 0 s0) as H. by rewrite Hf0 in H. }
  assert (Hp0' : proxies (registered 0 s0) !! 0
                 = Some {| p_target := 0; p_handler := Reactive false false |})
    by (by rewrite Hrp).
  assert (Hh0' : heap (registered 0 s0) !! 0 = Some o) by (by rewrite Hrh).
  assert (Hs0' : shouldTrack (registered 0 s0) = true) by (by rewrite Hrs).
  pose proof (sole_call n (registered 0 s0) 0 0 0 false o 1 Hinc0 Hp0' Hh0'
                eq_refl eq_refl Hs0' eq_refl Hempty) as Hcall0.
  destruct (sole_call_leaves 0 0 0 false o (1 + 1) (registered 0 s0)
              Hinc0 Hp0' Hh0' Hs0' Hempty)
    as (Hinc1 & Hlen1 & Hp1 & Hh1 & Hs1 & Hsub1).
  destruct (incremented_fields 0 0 (counted o (1 + 1)) (registered 0 s0))
    as (_ & _ & _ & _ & Hstk & _).
  cbv zeta in Hstk.
  destruct (exited_fields (incremented 0 0 (counted o (1 + 1)) (registered 0 s0)))
    as (_ & _ & _ & Hact' & Hstk' & _ & _ & _).
  assert (Hpop : removelast (effectStack (registered 0 s0) ++ [0]) = []).
  { change (effectStack (registered 0 s0)) with (effectStack s0). by rewrite Hk0. }
  rewrite Hstk, Hpop in Hact', Hstk'. cbn [last] in Hact'.
  revert Hcall0 Hinc1 Hlen1 Hp1 Hh1 Hs1 Hsub1 Hact' Hstk'.
  generalize (exited (incremented 0 0 (counted o (1 + 1)) (registered 0 s0))).
  intros s1 Hcall0 Hinc1 Hlen1 Hp1 Hh1 Hs1 Hsub1 Hact1 Hstk1.
  assert (Hrun0 : run (S n) (SEffect (increment (VProxy 0)) no_result false) s0
                  = Ret tt s1).
  { rewrite register_call. rewrite Hf0. simpl length. by rewrite Hcall0. }
  rewrite (bind_Ret _ _ _ _ _ Hrun0). exists s1. split; [done |].
  split_and!; try done.
  split; [by exists false |]. exists (counted o (1 + 1)).
  split_and!; [done | done | apply own_get_counted].
Qed.

End IncrementFacts.
(** * The properties of the specification *)

Module Properties.
Import Reactivity NumberFacts ReactivityFacts StackFacts TriggerFacts ProxyFacts DerivedFacts
  FuelFacts IncrementFacts Programs Scenarios.
Local Open Scope M_scope.

(** ** The effect stack *)



(** An effect function that throws leaves itself on the stack and
    remains the active effect. *)
Lemma C7_throw_leaves_stack :
  match throwing depth (initial []) with
  | Throw st' =>
      effectStack st' = [0] ∧ activeEffect st' = Some 0 ∧
      effectStack (initial []) = [] ∧ activeEffect (initial []) = None
  | _ => False
  end.
Proof. vm_compute. by split_and!. Qed.

(** C7, amended.  When a call of an effect function ends in an
    exception, nothing is restored: the effect function, and any nested
    one that was running, is still on the stack, and the innermost of them
    is still the active effect. *)
Theorem C7_throw_keeps_stack fuel e st st' :
  interp fuel (TCall e) st = Throw st' →
  ∃ rest, effectStack st' = effectStack st ++ e :: rest ∧
          activeEffect st' = last (effectStack st').
Proof.
  intros H. pose proof (effectFn_stack fuel e st) as Hs. by rewrite H in Hs.
Qed.

Lemma C7_witness :
  ∃ st st' : state,
    interp 1 (TCall 0) st = Throw st' ∧
    effectStack st = [] ∧
    ∃ rest, effectStack st' = effectStack st ++ 0 :: rest ∧
            activeEffect st' = last (effectStack st').
Proof.
  set (st := set_effectFns
               [{| fn := FUser {| body := SThrow; result := no_result |};
                   deps := [];
                   options := {| scheduler := None; lazy := false |} |}]
               (initial [])).
  destruct (interp 1 (TCall 0) st) as [| st' | |] eqn:Hrun;
    try (vm_compute in Hrun; discriminate).
  exists st, st'. split_and!; [exact Hrun | reflexivity |].
  exact (C7_throw_keeps_stack 1 0 st st' Hrun).
Defined.

(** ** Notification *)

(** C2, as stated, fails for two effects that increment the same
    property and for a write that changes nothing.  With
    [effect(() => { counter.count++ })] registered twice, the write of
    each effect runs the other one, which is not the active effect of
    that moment: the registration of the second effect does not return,
    whatever the depth of calls allowed (the count grows by one with each
    call, and the statement stops where it would leave the safe
    integers).  And the write [counter.count = 2] from outside, when the
    count is 2, runs nothing: the set handler calls [trigger] only for a
    value that differs. *)
Lemma C2_effects_rerun_each_other :
  (∀ fuel, (Z.of_nat fuel + 2 ≤ MAX_SAFE_INTEGER)%Z →
     two_incrementers fuel counter_data = OutOfFuel) ∧
  (∀ fuel, depth ≤ fuel →
     trace_of ((counter ← self_increment fuel;
                assign fuel counter (KStr "count") (VNum 2)) counter_data)
     = Some [EvRun 0; EvTrigger 0 (KStr "count")]).
Proof.
  split.
  - apply two_incrementers_diverge.
  - at_depth.
Qed.

(** C2, amended.  The set of effects that [trigger] assembles never
    contains the active effect, whatever the target, the key, the kind of
    change and the new value; the same holds for the two-argument
    [trigger].  Hence an effect that increments a property of which it is
    the only subscriber does not run again for its own write:
    - a call of it returns, and adds to the trace its run and its one
      notification;
    - of the writes [counter.count = v] made from outside, one after the
      other, each one that changes the count runs the effect exactly
      once, each one that writes the count of the moment runs nothing,
      and all of them return ([notified] is the trace they leave).
    The numbers written are safe integers below the largest.  The
    effect of [effect(() => { counter.count++ })] on [{ count: 1 }] is
    such an effect once it is registered: it runs once when registered and
    once for each of the writes 10 and 20 from outside, and every run
    returns. *)
Theorem C2_active_effect_not_notified :
  (∀ st target dm o k type newVal l x,
     effectsBuckets st !! target = Some dm → heap st !! target = Some o →
     effectsToRun dm (activeEffect st) (isArray o) k type newVal = ToRun l →
     activeEffect st = Some x → ¬ x ∈ l) ∧
  (∀ st target dm k x,
     effectsBuckets st !! target = Some dm → activeEffect st = Some x →
     ¬ x ∈ add_effects (activeEffect st) (default [] (Map_get k dm)) []) ∧
  (∀ fuel st e p t c,
     0 < fuel → sole_incrementer st e p t c →
     isSafeInteger c = true → isSafeInteger (c + 1) = true →
     ∃ st', interp fuel (TCall e) st = Ret VUndef st' ∧
            trace st' = trace st ++ [EvRun e; EvTrigger t (KStr "count")] ∧
            sole_incrementer st' e p t (c + 1)) ∧
  (∀ fuel st e p t c vs,
     0 < fuel → sole_incrementer st e p t c → isSafeInteger c = true →
     (∀ v, v ∈ vs → isSafeInteger v = true ∧ isSafeInteger (v + 1) = true) →
     ∃ st', writes fuel (VProxy p) vs st = Ret tt st' ∧
            trace st' = trace st ++ notified t e c vs) ∧
  (∀ fuel,
     0 < fuel →
     ∃ st, self_increment fuel counter_data = Ret (VProxy 0) st ∧
           sole_incrementer st 0 0 0 2) ∧
  (∀ fuel,
     depth ≤ fuel →
     let count := KStr "count" in
     trace_of (self_increment fuel counter_data)
       = Some [EvRun 0; EvTrigger 0 count] ∧
     trace_of ((counter ← self_increment fuel;
                assign fuel counter count (VNum 10)) counter_data)
       = Some [EvRun 0; EvTrigger 0 count;
               EvTrigger 0 count; EvRun 0; EvTrigger 0 count] ∧
     trace_of ((counter ← self_increment fuel;
                assign fuel counter count (VNum 10) ;;
                assign fuel counter count (VNum 20)) counter_data)
       = Some [EvRun 0; EvTrigger 0 count;
               EvTrigger 0 count; EvRun 0; EvTrigger 0 count;
               EvTrigger 0 count; EvRun 0; EvTrigger 0 count] ∧
     heap_of ((counter ← self_increment fuel;
               assign fuel counter count (VNum 10) ;;
               assign fuel counter count (VNum 20)) counter_data)
       = Some [plain_object [(count, VNum 21)]]).
Proof.
  split_and!.
  - intros st target dm o k type newVal l x _ _ Hl Ha Hin.
    rewrite Ha in Hl. by apply (effectsToRun_not_active _ _ _ _ _ _ _ _ Hl Hin).
  - intros st target dm k x _ Ha Hin. rewrite Ha in Hin.
    apply elem_of_plain_effectsToRun in Hin. tauto.
  - intros fuel st e p t c Hfuel Hsole _ Hsafe.
    destruct fuel as [| n]; [lia |]. by apply sole_call_returns.
  - intros fuel st e p t c vs Hfuel Hsole _ Hsafe.
    destruct fuel as [| n]; [lia |].
    destruct (outside_writes n e p t vs st c Hsole) as (st' & c' & Hw & Htr & _).
    + intros v Hv. by apply Hsafe.
    + by exists st'.
  - apply self_increment_registered.
  - intros fuel Hle count. split_and!; at_depth.
Qed.

(** The theorem at the write that the effect of [self_increment] makes
    while it is running, and at the writes 10 and 20 from outside once it
    has run. *)
Lemma C2_witness :
  (∃ st : state,
     effectsBuckets st !! 0 = Some [(KStr "count", [0])] ∧
     activeEffect st = Some 0 ∧
     effectsToRun [(KStr "count", [0])] (activeEffect st) false (KStr "count")
                  T_set (VNum 2) = ToRun [] ∧
     ¬ 0 ∈ ([] : list nat)) ∧
  (∃ st st' : state,
     sole_incrementer st 0 0 0 2 ∧
     writes 1 (VProxy 0) [10; 20]%Z st = Ret tt st' ∧
     trace st' = trace st ++ notified 0 0 2 [10; 20]%Z).
Proof.
  split.
  - set (st := set_activeEffect (Some 0)
                 (set_effectsBuckets {[0 := [(KStr "count", [0])]]}
                    (initial [plain_object [(KStr "count", VNum 2)]]))).
    exists st.
    assert (H1 : effectsBuckets st !! 0 = Some [(KStr "count", [0])]) by reflexivity.
    assert (H2 : heap st !! 0 = Some (plain_object [(KStr "count", VNum 2)]))
      by reflexivity.
    assert (H3 : effectsToRun [(KStr "count", [0])] (activeEffect st)
                   (isArray (plain_object [(KStr "count", VNum 2)]))
                   (KStr "count") T_set (VNum 2) = ToRun []) by reflexivity.
    assert (H4 : activeEffect st = Some 0) by reflexivity.
    split_and!; [exact H1 | exact H4 | exact H3 |].
    exact (proj1 C2_active_effect_not_notified st 0 _ _ _ _ _ _ 0 H1 H2 H3 H4).
  - set (st := set_effectsBuckets {[0 := [(KStr "count", [0])]]}
                 (set_proxies [{| p_target := 0; p_handler := Reactive false false |}]
                    (registered 0 (initial [plain_object [(KStr "count", VNum 2)]])))).
    assert (Hsole : sole_incrementer st 0 0 0 2).
    { split_and!; try reflexivity.
      - by exists [].
      - split; [by exists false |]. by eexists.
      - intros x. change (subscribers (effectsBuckets st) 0 (KStr "count")) with [0].
        apply list_elem_of_singleton. }
    assert (Hsafe : ∀ v : Z, v ∈ [10; 20]%Z →
              isSafeInteger v = true ∧ isSafeInteger (v + 1) = true).
    { intros v Hv. repeat (apply elem_of_cons in Hv as [-> | Hv]; [done |]).
      by apply elem_of_nil in Hv. }
    destruct (proj1 (proj2 (proj2 (proj2 C2_active_effect_not_notified)))
                1 st 0 0 0 2%Z [10; 20]%Z (le_n 1) Hsole eq_refl Hsafe)
      as (st' & Hw & Htr).
    exists st, st'. by split_and!.
Defined.

(** C5.  When [length] of an array is written, [trigger] assembles the
    subscribers of [length] and the subscribers of every index at or
    beyond the new length (the active effect apart, and provided the
    [depsMap] of the array has no symbol key, which the handlers never
    give it).  For [reactive([1, 2, 3])] and an effect that read index 2:
    setting [length] to 1 re-runs the effect, and a write to index 0 after
    that does not. *)
Theorem C5_length_write_reaches_truncated_indices :
  (∀ dm active type n,
     (∀ k effects, (k, effects) ∈ dm → is_symbol k = false) →
     ∃ l, effectsToRun dm active true KLength type (VNum n) = ToRun l ∧
       (∀ x, x ∈ default [] (Map_get KLength dm) → Some x ≠ active → x ∈ l) ∧
       (∀ i x, (n ≤ Z.of_nat i)%Z → x ∈ default [] (Map_get (KIdx i) dm) →
               Some x ≠ active → x ∈ l)) ∧
  (∀ fuel,
     depth ≤ fuel →
     trace_of (array_reader fuel array_data) = Some [EvRun 0] ∧
     trace_of ((arr ← array_reader fuel; assign fuel arr KLength (VNum 1))
                 array_data)
       = Some [EvRun 0; EvTrigger 0 KLength; EvRun 0] ∧
     trace_of ((arr ← array_reader fuel;
                assign fuel arr KLength (VNum 1) ;;
                assign fuel arr (KIdx 0) (VNum 5)) array_data)
       = Some [EvRun 0; EvTrigger 0 KLength; EvRun 0; EvTrigger 0 (KIdx 0)] ∧
     heap_of ((arr ← array_reader fuel;
               assign fuel arr KLength (VNum 1) ;;
               assign fuel arr (KIdx 0) (VNum 5)) array_data)
       = Some [array_object [VNum 5]]).
Proof.
  split.
  - intros dm active type n Hsym. by apply effectsToRun_length.
  - intros fuel Hle. split_and!; at_depth.
Qed.

(** The theorem at the [depsMap] of the array above, when [length]
    becomes 1. *)
Lemma C5_witness :
  (∀ k effects, (k, effects) ∈ [(KIdx 2, [0])] → is_symbol k = false) ∧
  ∃ l, effectsToRun [(KIdx 2, [0])] None true KLength T_add (VNum 1) = ToRun l ∧
       0 ∈ l.
Proof.
  assert (Hsym : ∀ k (effects : list nat),
            (k, effects) ∈ [(KIdx 2, [0])] → is_symbol k = false).
  { intros k effects Hin. apply list_elem_of_singleton in Hin.
    by injection Hin as -> ->. }
  split; [exact Hsym |].
  destruct (proj1 C5_length_write_reaches_truncated_indices
              [(KIdx 2, [0])] None T_add 1%Z Hsym) as (l & Hl & _ & Hidx).
  exists l. split; [exact Hl |].
  apply (Hidx 2 0); [lia | by apply list_elem_of_singleton | done].
Defined.

(** ** The array search methods *)

(** C8, where the code departs from it.  The array [a = reactive([obj])]
    holds the raw object [obj]: the overridden [includes] finds it by the
    second search, on the raw array, but the overridden [indexOf] and
    [lastIndexOf] return -1, because their first result is never
    [=== false] and the second search is never made; on the raw array
    [indexOf] returns 0. *)
Theorem C8_indexOf_misses_raw_element :
  let obj := EConst (VObj 0) in
  let found (search : value → expr) : option value :=
    returned ((a ← array_of_obj; read depth (search a)) array_of_obj_data) in
  found (λ a, EIncludes (EConst a) obj) = Some (VBool true) ∧
  found (λ a, EIndexOf (EConst a) obj) = Some (VNum (-1)) ∧
  found (λ a, ELastIndexOf (EConst a) obj) = Some (VNum (-1)) ∧
  found (λ a, EIndexOf (EConst (VObj 1)) obj) = Some (VNum 0) ∧
  found (λ a, EIndexOf (EConst a) (EGet (EConst a) (KIdx 0))) = Some (VNum 0).
Proof. split_and!; vm_compute; reflexivity. Qed.

(** ** Read-only proxies *)

(** C9.  A write through a read-only proxy does nothing but warn: the
    [set] handler returns [true], so the assignment does not throw; the
    raw objects, the dependency store, the computed values, the watchers
    and the deferred jobs are untouched; and the trace gains the warning
    alone, hence no call of [trigger] and no run of an effect. *)
Theorem C9_readonly_write_is_noop fuel st p px isShallow k newVal receiver :
  proxies st !! p = Some px → p_handler px = Reactive isShallow true →
  let st' := emit (EvWarn "set failed: readonly") st in
  proxy_set (interp fuel) p k newVal receiver st = Ret (VBool true) st' ∧
  set_value (interp fuel) (VProxy p) k newVal st = Ret tt st' ∧
  heap st' = heap st ∧
  effectsBuckets st' = effectsBuckets st ∧
  computeds st' = computeds st ∧
  watchers st' = watchers st ∧
  jobQueue st' = jobQueue st ∧
  trace st' = trace st ++ [EvWarn "set failed: readonly"].
Proof.
  intros Hp Hh st'.
  assert (Hset : proxy_set (interp fuel) p k newVal receiver st
                 = Ret (VBool true) st').
  { unfold proxy_set, bind, lookup_in. rewrite Hp, Hh. reflexivity. }
  split_and!; try reflexivity; [exact Hset |].
  unfold set_value, bind.
  assert (Hset' : proxy_set (interp fuel) p k newVal (VProxy p) st
                  = Ret (VBool true) st').
  { unfold proxy_set, bind, lookup_in. rewrite Hp, Hh. reflexivity. }
  rewrite Hset'. reflexivity.
Qed.

(** The theorem at [readonly({ bar: 1 })], written with [bar = 7]. *)
Lemma C9_witness :
  ∃ st : state,
    proxies st !! 0 = Some {| p_target := 0; p_handler := Reactive false true |} ∧
    set_value (interp depth) (VProxy 0) (KStr "bar") (VNum 7) st
      = Ret tt (emit (EvWarn "set failed: readonly") st).
Proof.
  set (st := set_proxies [{| p_target := 0; p_handler := Reactive false true |}]
               (initial [plain_object [(KStr "bar", VNum 1)]])).
  exists st. split; [reflexivity |].
  exact (proj1 (proj2 (C9_readonly_write_is_noop depth st 0 _ false (KStr "bar")
                         (VNum 7) (VProxy 0) eq_refl eq_refl))).
Defined.

(** ** The [set] handler *)

(** C6.  The [set] handler of a mutable reactive proxy calls [trigger]
    exactly when its target is the raw object of the receiver and the new
    value differs from the old one, NaN counting as equal to NaN.
    - A write [p[k] = newVal] through the proxy [p] of an object that
      answers [k] itself calls [trigger] if and only if the value changes.
    - When the write reaches the handler of a prototype, the receiver
      being the proxy of another object, the property is created on the
      raw object of the receiver and [trigger] is not called.
    In the listing's program, [proxyChild.bar = proxyChild.bar + 1] calls
    [trigger] once, for the child, and re-runs the effect once; writing the
    value a property already has, or NaN over NaN, triggers nothing. *)
Theorem C6_set_notifies_own_changes :
  (∀ target receiverRaw oldV newVal,
     set_notifies target receiverRaw oldV newVal = true
     ↔ receiverRaw = VObj target ∧ oldV ≠ newVal) ∧
  (∀ self st p isShallow target o o' k newVal type,
     proxies st !! p
       = Some {| p_target := target; p_handler := Reactive isShallow false |} →
     heap st !! target = Some o →
     own_has o k = true ∨ proto o = VNull →
     set_type o k = Some type →
     own_set o k newVal = DefOk o' →
     let oldV := default VUndef (own_get o k) in
     let st1 := set_heap (<[target := o']> (heap st)) st in
     proxy_set self p k newVal (VProxy p) st =
       if decide (oldV = newVal) then Ret (VBool true) st1
       else (trigger self target k type newVal ;; ret (VBool true)) st1) ∧
  (∀ self st target o k newVal type q t2 h2 o2 o2',
     heap st !! target = Some o →
     own_has o k = true →
     set_type o k = Some type →
     proxies st !! q = Some {| p_target := t2; p_handler := h2 |} →
     (∃ isShallow isReadonly, h2 = Reactive isShallow isReadonly) →
     t2 ≠ target →
     heap st !! t2 = Some o2 →
     own_set o2 k newVal = DefOk o2' →
     reactive_set self false target k newVal (VProxy q) st
     = Ret (VBool true) (set_heap (<[t2 := o2']> (heap st)) st)) ∧
  (∀ fuel,
     depth ≤ fuel →
     let bar := KStr "bar" in
     let proxyChild := EConst (VProxy 0) in
     let increment :=
       run fuel (SSet proxyChild bar
                      (EAdd (EGet proxyChild bar) (EConst (VNum 1)))) in
     trace_of (inheritance fuel (inheritance_data (VNum 1))) = Some [EvRun 0] ∧
     trace_of ((inheritance fuel ;; increment) (inheritance_data (VNum 1)))
       = Some [EvRun 0; EvTrigger 0 bar; EvRun 0] ∧
     heap_of ((inheritance fuel ;; increment) (inheritance_data (VNum 1)))
       = Some [{| isArray := false; elems := []; props := [(bar, VNum 2)];
                  proto := VProxy 1 |};
               plain_object [(bar, VNum 1)]] ∧
     trace_of ((one_reader fuel ;; assign fuel (VProxy 0) bar (VNum 1))
                 (one_reader_data (VNum 1)))
       = Some [EvRun 0] ∧
     trace_of ((one_reader fuel ;; assign fuel (VProxy 0) bar VNaN)
                 (one_reader_data VNaN))
       = Some [EvRun 0] ∧
     trace_of ((one_reader fuel ;; assign fuel (VProxy 0) bar (VNum 2))
                 (one_reader_data (VNum 1)))
       = Some [EvRun 0; EvTrigger 0 bar; EvRun 0] ∧
     trace_of ((one_reader fuel ;; assign fuel (VProxy 0) bar (VNum 1))
                 (one_reader_data VNaN))
       = Some [EvRun 0; EvTrigger 0 bar; EvRun 0]).
Proof.
  split_and!.
  - apply set_notifies_spec.
  - intros. by eapply reactive_set_own.
  - intros. by eapply reactive_set_inherited.
  - intros fuel Hle bar proxyChild increment. subst increment.
    split_and!; at_depth.
Qed.

(** The theorem at [p = reactive({ bar: 1 })], written with [p.bar = 2]:
    the handler calls [trigger]. *)
Lemma C6_witness :
  ∃ st : state,
    proxies st !! 0 = Some {| p_target := 0; p_handler := Reactive false false |} ∧
    heap st !! 0 = Some (plain_object [(KStr "bar", VNum 1)]) ∧
    proxy_set (interp depth) 0 (KStr "bar") (VNum 2) (VProxy 0) st
    = (trigger (interp depth) 0 (KStr "bar") T_set (VNum 2) ;; ret (VBool true))
        (set_heap [plain_object [(KStr "bar", VNum 2)]] st).
Proof.
  set (st := set_proxies [{| p_target := 0; p_handler := Reactive false false |}]
               (initial [plain_object [(KStr "bar", VNum 1)]])).
  exists st. split; [reflexivity |]. split; [reflexivity |].
  exact (proj1 (proj2 C6_set_notifies_own_changes) (interp depth) st 0 false 0
           (plain_object [(KStr "bar", VNum 1)])
           (plain_object [(KStr "bar", VNum 2)]) (KStr "bar") (VNum 2) T_set
           eq_refl eq_refl (or_introl eq_refl) eq_refl eq_refl).
Defined.

(** ** [computed] *)





(** ** [watch] *)

(** C10, as stated for every source and callback, fails on the data
    [{ count: 1, foo: 2, bar: 3 }].  With a source that throws, the
    exception leaves [watch] and the callback is not called.  With a
    callback that writes the property that the source reads, the write
    runs the job again before the callback has returned: the callback is
    called twice at registration, both times with [undefined] as the old
    value. *)
Lemma C10_callback_not_called_once :
  (∀ fuel, depth ≤ fuel →
     trace_of_throw (watch fuel (SrcFunction throwing_getter) logging_cb true
                       (with_proxyData (sum_data 2 3)))
     = Some [EvRun 0]) ∧
  (∀ fuel, depth ≤ fuel →
     trace_of (watch fuel (SrcFunction bar_getter) rewriting_cb true
                 (with_proxyData (sum_data 2 3)))
     = Some [EvRun 0; EvCallback 0 (VNum 3) VUndef;
             EvTrigger 0 (KStr "foo"); EvTrigger 0 (KStr "bar");
             EvRun 0; EvCallback 0 (VNum 5) VUndef]).
Proof. split; at_depth. Qed.

(** C10, amended.  [watch(source, cb, { immediate: true })] runs its job
    once at registration: for every source and callback such that reading
    the source returns and running the body of the callback returns,
    neither of them running the job of a watcher (they call no watch
    callback and leave the variables of the watchers as they are), the
    callback is called exactly once, with the value read and with
    [undefined] as the old value.  Without [immediate], and for every
    source that is read in this way, the effect function is called once,
    its result becomes [oldValue], and the callback is not called; it is
    called at the first later change, with this old value. *)
Theorem C10_watch_immediate_calls_once :
  (∀ fuel src cb st v st2 st4 u,
     let w := length (watchers st) in
     let e := length (effectFns st) in
     let st1 := watch_registered src cb st in
     interp fuel (TCall e) st1 = Ret v st2 →
     watchers st2 = watchers st1 →
     callbacks (trace st2) = callbacks (trace st1) →
     let st3 := store_cleanup w (cb_onInvalidate cb)
                  (emit (EvCallback w v VUndef) (store_newValue w v st2)) in
     interp fuel (TStmt (cb_body cb)) st3 = Ret u st4 →
     callbacks (trace st4) = callbacks (trace st3) →
     ∃ st', watch fuel src cb true st = Ret tt st' ∧
            callbacks (trace st')
            = callbacks (trace st) ++ [EvCallback w v VUndef]) ∧
  (∀ fuel src cb st v st2,
     let w := length (watchers st) in
     let e := length (effectFns st) in
     let st1 := watch_registered src cb st in
     interp fuel (TCall e) st1 = Ret v st2 →
     watchers st2 = watchers st1 →
     callbacks (trace st2) = callbacks (trace st1) →
     ∃ st', watch fuel src cb false st = Ret tt st' ∧
            trace st' = trace st2 ∧
            callbacks (trace st') = callbacks (trace st) ∧
            oldValue <$> watchers st' !! w = Some v) ∧
  (∀ fuel (foo bar bar' : Z),
     depth ≤ fuel →
     let data := with_proxyData (sum_data foo bar) in
     trace_of (watch fuel (SrcValue (VProxy 0)) logging_cb true data)
       = Some [EvRun 0; EvCallback 0 (VProxy 0) VUndef] ∧
     trace_of (watch fuel (SrcFunction bar_getter) logging_cb true data)
       = Some [EvRun 0; EvCallback 0 (VNum bar) VUndef] ∧
     trace_of (watch fuel (SrcFunction bar_getter) logging_cb false data)
       = Some [EvRun 0] ∧
     trace_of ((watch fuel (SrcFunction bar_getter) logging_cb false ;;
                assign fuel (VProxy 0) (KStr "bar") (VNum bar')) data)
       = Some [EvRun 0; EvTrigger 0 (KStr "bar"); EvRun 0;
               EvCallback 0 (VNum bar') (VNum bar)]).
Proof.
  split_and!.
  - intros fuel src cb st v st2 st4 u w e st1 Hget Hw Hq1 st3 Hcb Hq2.
    exists (store_oldValue w st4). split.
    + by eapply watch_immediate.
    + change (trace (store_oldValue w st4)) with (trace st4). rewrite Hq2.
      assert (Ht3 : trace st3 = trace st2 ++ [EvCallback w v VUndef]).
      { subst st3. unfold store_cleanup. by destruct (cb_onInvalidate cb). }
      rewrite Ht3, callbacks_app, Hq1. reflexivity.
  - intros fuel src cb st v st2 w e st1 Hget Hw Hq1.
    exists (seed_oldValue w v st2). split; [by eapply watch_lazy |].
    split; [done |]. split; [exact Hq1 |].
    simpl. rewrite list_lookup_alter_eq, Hw.
    unfold w, st1. by rewrite watch_registered_watcher.
  - intros fuel foo bar bar' Hle data. split_and!; at_depth.
Qed.

(** The theorem at [watch(() => proxyData.bar, cb, { immediate: true })]
    on [{ count: 1, foo: 2, bar: 3 }]. *)
Lemma C10_witness :
  ∃ st', watch depth (SrcFunction bar_getter) logging_cb true
               (with_proxyData (sum_data 2 3)) = Ret tt st' ∧
         callbacks (trace st') = [EvCallback 0 (VNum 3) VUndef].
Proof.
  set (st := with_proxyData (sum_data 2 3)).
  destruct (interp depth (TCall 0) (watch_registered (SrcFunction bar_getter)
                                                     logging_cb st))
    as [v st2 | | |] eqn:Hget; try (vm_compute in Hget; discriminate).
  assert (Hv : v = VNum 3) by (vm_compute in Hget; congruence). subst v.
  assert (Hw : watchers st2
               = watchers (watch_registered (SrcFunction bar_getter) logging_cb st))
    by (vm_compute in Hget; injection Hget as <-; reflexivity).
  assert (Hq : callbacks (trace st2)
               = callbacks (trace (watch_registered (SrcFunction bar_getter)
                                                    logging_cb st)))
    by (vm_compute in Hget; injection Hget as <-; reflexivity).
  set (st3 := store_cleanup 0 (cb_onInvalidate logging_cb)
                (emit (EvCallback 0 (VNum 3) VUndef) (store_newValue 0 (VNum 3) st2))).
  assert (Hcb : interp depth (TStmt (cb_body logging_cb)) st3 = Ret VUndef st3)
    by reflexivity.
  exact (proj1 C10_watch_immediate_calls_once depth (SrcFunction bar_getter)
           logging_cb st (VNum 3) st2 st3 VUndef Hget Hw Hq Hcb eq_refl).
Defined.

End Properties.
(** * Further properties of the reactivity system *)

Module Further.
Import Reactivity ReactivityFacts TriggerFacts ProxyFacts MembershipFacts FuelFacts
  Programs.
Local Open Scope M_scope.

(** ** The dependency store of the listing with the effect stack *)

(** X1.  In every state that the system goes through, the
    back-reference list of an effect names exactly the dependency sets
    that the effect is a member of, and the active effect is the top of
    the effect stack: this holds initially and is kept by every call of an
    effect function, every read and write through a proxy and every
    statement of a user function, whether it returns or throws, and by
    every operation of the interface. *)
Theorem back_references_are_exact :
  (∀ h, consistent (initial h)) ∧
  (∀ fuel t st,
     consistent st →
     match interp fuel t st with
     | Ret _ st' => consistent st'
     | Throw st' => consistent st'
     | _ => True
     end) ∧
  (∀ fuel s st st',
     consistent st → run fuel s st = Ret tt st' → consistent st') ∧
  (∀ fuel getter st c st',
     consistent st → computed fuel getter st = Ret c st' → consistent st') ∧
  (∀ fuel src cb immediate st st',
     consistent st → watch fuel src cb immediate st = Ret tt st' → consistent st') ∧
  (∀ v st p st', consistent st → reactive v st = Ret p st' → consistent st').
Proof.
  split_and!.
  - apply consistent_initial.
  - intros fuel t st Hc. pose proof (interp_consistent fuel t st) as H.
    destruct (interp fuel t st); auto.
  - intros fuel s st st' Hc Hrun.
    pose proof (proj1 (api_consistent fuel) s st) as H.
    rewrite Hrun in H. auto.
  - intros fuel getter st c st' Hc Hrun.
    pose proof (proj1 (proj2 (proj2 (proj2 (proj2 (proj2 (proj2
                  (api_consistent fuel))))))) getter st) as H.
    rewrite Hrun in H. auto.
  - intros fuel src cb immediate st st' Hc Hrun.
    pose proof (proj1 (proj2 (proj2 (proj2 (proj2 (proj2 (proj2 (proj2
                  (api_consistent fuel)))))))) src cb immediate st) as H.
    rewrite Hrun in H. auto.
  - intros v st p st' Hc Hrun.
    pose proof (proj1 (proj2 (proj2 (api_consistent 0))) v st) as H.
    rewrite Hrun in H. auto.
Qed.

(** The theorem at the registration of the listing's effect. *)
Lemma back_references_witness :
  ∃ st st' : state,
    consistent st ∧
    run depth (SEffect (title_fn (VProxy 0)) no_result false) st = Ret tt st' ∧
    consistent st'.
Proof.
  set (st := set_proxies [{| p_target := 0; p_handler := Reactive false false |}]
               (title_data (VBool true))).
  assert (Hc : consistent st).
  { exact (consistent_initial
             [plain_object [(KStr "ok", VBool true); (KStr "text", VStr "Hello Vue");
                            (KStr "text2", VStr "text2")]]). }
  destruct (run depth (SEffect (title_fn (VProxy 0)) no_result false) st)
    as [[] st' | | |] eqn:Hrun; try (vm_compute in Hrun; discriminate).
  exists st, st'. split_and!; [exact Hc | exact Hrun |].
  exact (proj1 (proj2 (proj2 back_references_are_exact)) depth _ st st' Hc Hrun).
Defined.

(** X2.  When a call of the effect function [e] returns, and the
    function of [e] was not called again in the course of it, [e] is a
    member of exactly the dependency sets that [track] recorded for it
    during this call: [cleanup] has emptied the sets it was in and nothing
    but its own reads has put it back.  The user function is any function
    of the modelled language: it may write, and create and run nested
    effects.  For [data.ok ? data.text : 'not']: with [ok] true the effect
    depends on [ok] and [text], so that a write to [text2] does not run it
    and a write to [text] does; once [ok] is false it depends on [ok]
    alone, and a write to [text] no longer runs it. *)
Theorem memberships_are_last_run :
  (∀ fuel e st v st',
     consistent st →
     interp fuel (TCall e) st = Ret v st' →
     ∃ tr tk,
       trace st' = trace st ++ EvRun e :: tr ∧
       tracked st' = tracked st ++ tk ∧
       (EvRun e ∉ tr →
        ∀ t k, e ∈ subscribers (effectsBuckets st') t k ↔ (e, t, k) ∈ tk)) ∧
  (∀ fuel,
     depth ≤ fuel →
     let ok := KStr "ok" in
     let text := KStr "text" in
     tracked_of (title fuel (title_data (VBool true)))
       = Some [(0, 0, ok); (0, 0, text)] ∧
     trace_of ((data ← title fuel; assign fuel data (KStr "text2") (VStr "other"))
                 (title_data (VBool true)))
       = Some [EvRun 0; EvTrigger 0 (KStr "text2")] ∧
     trace_of ((data ← title fuel; assign fuel data text (VStr "Hello Vue3"))
                 (title_data (VBool true)))
       = Some [EvRun 0; EvTrigger 0 text; EvRun 0] ∧
     tracked_of ((data ← title fuel; assign fuel data ok (VBool false))
                   (title_data (VBool true)))
       = Some [(0, 0, ok); (0, 0, text); (0, 0, ok)] ∧
     trace_of ((data ← title fuel;
                assign fuel data ok (VBool false) ;;
                assign fuel data text (VStr "Hello Vue3"))
                 (title_data (VBool true)))
       = Some [EvRun 0; EvTrigger 0 ok; EvRun 0; EvTrigger 0 text]).
Proof.
  split.
  - intros fuel e st v st' [Hb _] Hrun. by eapply effectFn_memberships.
  - intros fuel Hle ok text. split_and!; at_depth.
Qed.

(** The theorem at the first run of the listing's effect. *)
Lemma memberships_witness :
  ∃ st st' : state,
    consistent st ∧
    interp depth (TCall 0) st = Ret VUndef st' ∧
    ∀ t k, 0 ∈ subscribers (effectsBuckets st') t k
           ↔ (0, t, k) ∈ [(0, 0, KStr "ok"); (0, 0, KStr "text")].
Proof.
  set (st := set_effectFns
               [{| fn := FUser {| body := title_fn (VProxy 0); result := no_result |};
                   deps := [];
                   options := {| scheduler := None; lazy := false |} |}]
               (set_proxies [{| p_target := 0; p_handler := Reactive false false |}]
                  (title_data (VBool true)))).
  assert (Hc : consistent st).
  { apply (consistent_register
             (FUser {| body := title_fn (VProxy 0); result := no_result |})
             {| scheduler := None; lazy := false |}
             (set_proxies [{| p_target := 0; p_handler := Reactive false false |}]
                (title_data (VBool true)))).
    exact (consistent_initial
             [plain_object [(KStr "ok", VBool true); (KStr "text", VStr "Hello Vue");
                            (KStr "text2", VStr "text2")]]). }
  destruct (interp depth (TCall 0) st) as [v st' | | |] eqn:Hrun;
    try (vm_compute in Hrun; discriminate).
  assert (Hv : v = VUndef) by (vm_compute in Hrun; congruence). subst v.
  assert (Ht : trace st' = [EvRun 0])
    by (vm_compute in Hrun; injection Hrun as <-; reflexivity).
  assert (Hk : tracked st' = [(0, 0, KStr "ok"); (0, 0, KStr "text")])
    by (vm_compute in Hrun; injection Hrun as <-; reflexivity).
  exists st, st'. split_and!; [exact Hc | exact Hrun |].
  destruct (proj1 memberships_are_last_run depth 0 st VUndef st' Hc Hrun)
    as (tr & tk & Htr & Htk & H).
  rewrite Ht in Htr. rewrite Hk in Htk. simpl in Htr, Htk.
  injection Htr as <-. subst tk. apply H. apply not_elem_of_nil.
Defined.

(** ** The proxies *)

(** X3.  [reactive] is stable: called on a raw object it returns a
    proxy, and called again on the same raw object, at once or after any
    other calls of [reactive], it returns the same proxy; [reactiveMap]
    holds it. *)
Theorem reactive_is_identity_stable :
  (∀ st r, ∃ p st1,
     reactive (VObj r) st = Ret (VProxy p) st1 ∧
     reactiveMap st1 !! r = Some p ∧
     reactive (VObj r) st1 = Ret (VProxy p) st1) ∧
  (∀ st r r' p q st1,
     reactiveMap st !! r = Some p →
     reactive (VObj r') st = Ret q st1 →
     reactiveMap st1 !! r = Some p).
Proof.
  split.
  - intros st r. unfold reactive, bind, gets.
    destruct (reactiveMap st !! r) as [p |] eqn:Hr.
    + exists p, st. by rewrite Hr.
    + eexists _, _. split; [reflexivity |]. simpl.
      rewrite lookup_insert_eq. done.
  - intros st r r' p q st1 Hr. unfold reactive, bind, gets.
    destruct (reactiveMap st !! r') as [p' |] eqn:Hr'.
    + by intros [= <- <-].
    + intros [= <- <-]. simpl. rewrite lookup_insert_ne; [done |]. congruence.
Qed.

(** The theorem at a state in which the object is already wrapped. *)
Lemma reactive_witness :
  ∃ st st1 : state,
    reactiveMap st !! 0 = Some 0 ∧
    reactive (VObj 1) st = Ret (VProxy 1) st1 ∧
    reactiveMap st1 !! 0 = Some 0.
Proof.
  set (st := set_reactiveMap {[0 := 0]}
               (set_proxies [{| p_target := 0; p_handler := Reactive false false |}]
                  array_of_obj_data)).
  destruct (reactive (VObj 1) st) as [q st1 | | |] eqn:Hrun;
    try (vm_compute in Hrun; discriminate).
  assert (Hq : q = VProxy 1) by (vm_compute in Hrun; congruence). subst q.
  exists st, st1. split_and!; [reflexivity | exact Hrun |].
  exact (proj2 reactive_is_identity_stable st 0 1 0 (VProxy 1) st1 eq_refl Hrun).
Defined.

(** X4.  [arr.includes(x)] on a reactive array, deep or shallow, mutable
    or read-only, returns [true] for every element [x] of the raw array:
    when the search through the proxy, which sees a proxy in the place of
    a raw object, does not find [x], the search of the raw array does.  No
    raw object is changed by the call. *)
Theorem includes_finds_raw_element self st p isShallow isReadonly target o i x :
  proxies st !! p
    = Some {| p_target := target; p_handler := Reactive isShallow isReadonly |} →
  heap st !! target = Some o → isArray o = true → proto o = VNull →
  elems o !! i = Some (Some x) →
  (∀ j q, elems o !! j ≠ Some (Some (VProxy q))) →
  ∃ st', call_search self (Array_includes self) (VProxy p) x st
         = Ret (VBool true) st' ∧
         heap st' = heap st.
Proof.
  intros Hp Ho Harr Hproto Hi Hel. unfold call_search.
  rewrite (bind_Ret _ _ _ _ _ (lookup_in_Some proxies _ _ _ Hp)). simpl.
  rewrite (bind_Ret _ _ _ _ _ (lookup_in_Some heap _ _ _ Ho)). rewrite Harr.
  unfold instrumented.
  assert (Hlen : own_get o KLength = Some (VNum (Z.of_nat (length (elems o))))).
  { unfold own_get. by rewrite Harr. }
  assert (Hfirst : ∃ b st1, Array_includes self (VProxy p) x st = Ret (VBool b) st1
                            ∧ heap st1 = heap st
                            ∧ proxies st `prefix_of` proxies st1).
  { unfold Array_includes.
    destruct (get_value_array self st p isShallow isReadonly target o KLength
                Hp Ho Harr Hproto) as (v & st1 & Hget & Hh1 & Hp1 & Hv).
    { by right. }
    { intros q. by rewrite Hlen. }
    rewrite Hlen in Hv. specialize (Hv eq_refl). simpl in Hv. subst v.
    rewrite (bind_Ret _ _ _ _ _ (length_of_num _ _ _ _ _ Hget)).
    destruct (includes_from_proxy self p isShallow isReadonly target o x
                (length (elems o)) 0 st1)
      as (b & st2 & Hrun & Hh2 & Hp2); try done.
    - by eapply prefix_lookup_Some.
    - by rewrite Hh1.
    - exists b, st2. split; [done |]. split; [congruence |]. by etrans. }
  destruct Hfirst as (b & st1 & Hfirst & Hh1 & Hp1).
  rewrite (bind_Ret _ _ _ _ _ Hfirst).
  destruct b; simpl.
  { by exists st1. }
  assert (Hp' : proxies st1 !! p
                = Some {| p_target := target;
                          p_handler := Reactive isShallow isReadonly |})
    by (by eapply prefix_lookup_Some).
  assert (Ho1 : heap st1 !! target = Some o) by (by rewrite Hh1).
  rewrite (bind_Ret _ _ _ _ _ (proxy_get_raw self _ _ _ _ _ _ Hp')).
  exists st1. split; [| done].
  unfold Array_includes.
  assert (Hraw : get_value self (VObj target) KLength st1
                 = Ret (VNum (Z.of_nat (length (elems o)))) st1).
  { unfold get_value.
    rewrite (Reflect_get_own self _ _ _ _ _ Ho1 (or_intror Hproto)).
    by rewrite Hlen. }
  rewrite (bind_Ret _ _ _ _ _ (length_of_num _ _ _ _ _ Hraw)).
  apply (includes_from_raw self target o x _ 0 st1 i); try done.
  - split; [lia |]. simpl. by eapply lookup_lt_Some.
  - unfold own_get. rewrite Harr, Hi. done.
Qed.

(** The theorem at [a = reactive([obj])] and [a.includes(obj)]. *)
Lemma includes_witness :
  ∃ st st' : state,
    proxies st !! 0 = Some {| p_target := 1; p_handler := Reactive false false |} ∧
    heap st !! 1 = Some (array_object [VObj 0]) ∧
    call_search (interp depth) (Array_includes (interp depth)) (VProxy 0) (VObj 0) st
    = Ret (VBool true) st'.
Proof.
  set (st := set_proxies [{| p_target := 1; p_handler := Reactive false false |}]
               array_of_obj_data).
  assert (Hel : ∀ j q, elems (array_object [VObj 0]) !! j ≠ Some (Some (VProxy q))).
  { intros [| j] q; simpl; [done |]. by rewrite lookup_nil. }
  destruct (includes_finds_raw_element (interp depth) st 0 false false 1
              (array_object [VObj 0]) 0 (VObj 0)
              eq_refl eq_refl eq_refl eq_refl eq_refl Hel) as (st' & Hrun & _).
  exists st, st'. split_and!; [reflexivity | reflexivity | exact Hrun].
Defined.

(** ** Notification *)

(** X5.  The set of effects that [trigger] assembles, when it assembles
    one, has no duplicate and holds exactly the effects other than the
    active one that are
    - subscribers of the key, or
    - subscribers of [length], when the target is an array and the change
      adds a property, or
    - subscribers of a key at or beyond the new length, when the target is
      an array and the key is [length], or
    - subscribers of [ITERATE_KEY], when the change adds or deletes a
      property. *)
Theorem trigger_assembles_exactly dm active isArrayTarget k type newVal l :
  effectsToRun dm active isArrayTarget k type newVal = ToRun l →
  NoDup l ∧
  ∀ x, x ∈ l ↔
    Some x ≠ active ∧
    (x ∈ default [] (Map_get k dm)
     ∨ (isArrayTarget = true ∧ type = T_add ∧ x ∈ default [] (Map_get KLength dm))
     ∨ (isArrayTarget = true ∧ k = KLength ∧
        ∃ n k' effects, newVal = VNum n ∧ (k', effects) ∈ dm ∧
                        key_ge k' n = Some true ∧ x ∈ effects)
     ∨ ((type = T_add ∨ type = T_delete) ∧ x ∈ default [] (Map_get KIterate dm))).
Proof.
  unfold effectsToRun.
  set (s1 := add_effects active (default [] (Map_get k dm)) []).
  set (s2 := if isArrayTarget && bool_decide (type = T_add)
             then add_effects active (default [] (Map_get KLength dm)) s1
             else s1).
  assert (N1 : NoDup s1) by (apply NoDup_add_effects, NoDup_nil_2).
  assert (N2 : NoDup s2).
  { subst s2. destruct (isArrayTarget && bool_decide (type = T_add)); [| done].
    by apply NoDup_add_effects. }
  assert (H1 : ∀ x, x ∈ s1 ↔ Some x ≠ active ∧ x ∈ default [] (Map_get k dm)).
  { intros x. subst s1. rewrite elem_of_plain_effectsToRun. tauto. }
  assert (H2 : ∀ x, x ∈ s2 ↔
            Some x ≠ active ∧
            (x ∈ default [] (Map_get k dm)
             ∨ (isArrayTarget = true ∧ type = T_add
                ∧ x ∈ default [] (Map_get KLength dm)))).
  { intros x. subst s2.
    destruct isArrayTarget; simpl; [| rewrite H1; naive_solver].
    destruct (bool_decide (type = T_add)) eqn:Ht.
    - apply bool_decide_eq_true in Ht. rewrite elem_of_add_effects, H1. naive_solver.
    - apply bool_decide_eq_false in Ht. rewrite H1. naive_solver. }
  assert (Hit : ∀ s, NoDup s →
            let s' := if bool_decide (type = T_add) || bool_decide (type = T_delete)
                      then add_effects active (default [] (Map_get KIterate dm)) s
                      else s in
            NoDup s' ∧
            ∀ x, x ∈ s' ↔ x ∈ s ∨ (Some x ≠ active ∧ (type = T_add ∨ type = T_delete)
                                    ∧ x ∈ default [] (Map_get KIterate dm))).
  { intros s Hs.
    destruct (bool_decide (type = T_add) || bool_decide (type = T_delete)) eqn:Ht;
      simpl.
    - apply orb_true_iff in Ht. rewrite !bool_decide_eq_true in Ht.
      split; [by apply NoDup_add_effects |].
      intros x. rewrite elem_of_add_effects. naive_solver.
    - apply orb_false_iff in Ht. rewrite !bool_decide_eq_false in Ht.
      split; [done |]. naive_solver. }
  destruct (isArrayTarget && bool_decide (k = KLength)) eqn:Hlen.
  - apply andb_true_iff in Hlen. rewrite bool_decide_eq_true in Hlen.
    destruct Hlen as [-> ->].
    destruct newVal as [| | | n | | | |]; try done.
    destruct (add_truncated active n dm s2) as [s3 |] eqn:H3; [| done].
    intros [= <-].
    destruct (Hit s3 (NoDup_add_truncated _ _ _ _ _ H3 N2)) as [N Hx].
    split; [exact N |]. intros x.
    rewrite Hx, (add_truncated_elem _ _ _ _ _ H3), H2. split.
    + intros [[[? ?] | (k' & effs & ? & ? & ? & ?)] | (? & ? & ?)].
      * split; [done |]. naive_solver.
      * split; [done |]. right. right. left. split_and!; [done | done |].
        by exists n, k', effs.
      * split; [done |]. by repeat right.
    + intros [Hne [? | [? | [(_ & _ & n' & k' & effs & [= <-] & ? & ? & ?) | ?]]]].
      * left. left. split; [done |]. by left.
      * left. left. split; [done |]. by right.
      * left. right. by exists k', effs.
      * right. naive_solver.
  - intros [= <-]. destruct (Hit s2 N2) as [N Hx]. split; [exact N |].
    intros x. rewrite Hx, H2.
    apply andb_false_iff in Hlen. rewrite bool_decide_eq_false in Hlen.
    naive_solver.
Qed.

(** The theorem at a plain object with a subscriber of [foo] and a
    subscriber of [ITERATE_KEY], when [foo] is deleted. *)
Lemma trigger_assembles_witness :
  effectsToRun [(KStr "foo", [0]); (KIterate, [1]); (KStr "bar", [2])]
               None false (KStr "foo") T_delete VUndef = ToRun [0; 1] ∧
  NoDup [0; 1].
Proof.
  split; [reflexivity |].
  exact (proj1 (trigger_assembles_exactly
                  [(KStr "foo", [0]); (KIterate, [1]); (KStr "bar", [2])]
                  None false (KStr "foo") T_delete VUndef [0; 1] eq_refl)).
Defined.

(** X8.  The reads that record no dependency.  Reading [RAW_KEY]
    through a reactive proxy returns the raw object and changes nothing.
    Reading a property through a read-only proxy, or reading a symbol key
    through any reactive proxy, leaves the dependency store as it was. *)
Theorem untracked_reads :
  (∀ self st p target isShallow isReadonly receiver,
     proxies st !! p
       = Some {| p_target := target; p_handler := Reactive isShallow isReadonly |} →
     proxy_get self p KRaw receiver st = Ret (VObj target) st) ∧
  (∀ self st target o isShallow isReadonly k receiver v st',
     heap st !! target = Some o →
     own_has o k = true ∨ proto o = VNull →
     isReadonly = true ∨ is_symbol k = true →
     reactive_get self isShallow isReadonly target k receiver st = Ret v st' →
     effectsBuckets st' = effectsBuckets st ∧
     effectFns st' = effectFns st ∧
     tracked st' = tracked st ∧
     heap st' = heap st).
Proof.
  split.
  - intros. by eapply proxy_get_raw.
  - intros self st target o isShallow isReadonly k receiver v st' Ho Hown Hk.
    unfold reactive_get. destruct (decide (k = KRaw)); [by intros [= <- <-] |].
    rewrite (bind_Ret _ _ _ _ _ (lookup_in_Some heap _ _ _ Ho)).
    destruct (isArray o && bool_decide (k ∈ arrayInstrumentations)); [done |].
    assert (negb isReadonly && negb (is_symbol k) = false) as ->.
    { destruct Hk as [-> | ->]; [done | by rewrite andb_false_r]. }
    unfold bind at 1. unfold ret at 1.
    rewrite (bind_Ret _ _ _ _ _ (Reflect_get_own self _ _ _ _ _ Ho Hown)).
    destruct isShallow; [by intros [= <- <-] |].
    destruct (default VUndef (own_get o k)) as [| | b | z | | s | r | q];
      simpl; try (by intros [= <- <-]); [| by destruct isReadonly].
    destruct isReadonly; [by intros [= <- <-] |].
    unfold bind, gets. destruct (reactiveMap st !! r); by intros [= <- <-].
Qed.

(** The theorem at a read of [bar] through [readonly({ bar: 1 })] while
    effect 0 is active. *)
Lemma untracked_witness :
  ∃ st st' : state,
    activeEffect st = Some 0 ∧
    reactive_get (interp depth) false true 0 (KStr "bar") (VProxy 0) st
    = Ret (VNum 1) st' ∧
    effectsBuckets st' = effectsBuckets st.
Proof.
  set (st := set_activeEffect (Some 0)
               (set_effectFns
                  [{| fn := FUser {| body := SSkip; result := no_result |};
                      deps := [];
                      options := {| scheduler := None; lazy := false |} |}]
                  (set_proxies [{| p_target := 0; p_handler := Reactive false true |}]
                     (one_reader_data (VNum 1))))).
  assert (Hrun : reactive_get (interp depth) false true 0 (KStr "bar") (VProxy 0) st
                 = Ret (VNum 1) st) by reflexivity.
  exists st, st. split_and!; [reflexivity | exact Hrun |].
  exact (proj1 (proj2 untracked_reads (interp depth) st 0
                  (plain_object [(KStr "bar", VNum 1)]) false true (KStr "bar")
                  (VProxy 0) (VNum 1) st eq_refl (or_introl eq_refl)
                  (or_introl eq_refl) Hrun)).
Defined.

End Further.
(** * [traverse] *)

Module TraverseFacts.
Import Reactivity ProxyFacts TriggerFacts Shapes.
Local Open Scope M_scope.

Lemma filter_length_mono {A} (P Q : A → Prop)
    `{∀ x, Decision (P x)} `{∀ x, Decision (Q x)} (l : list A) :
  (∀ x, x ∈ l → P x → Q x) → length (filter P l) ≤ length (filter Q l).
Proof.
  induction l as [| a l IH]; intros HPQ; [done |].
  rewrite !filter_cons.
  assert (IH' : length (filter P l) ≤ length (filter Q l)).
  { apply IH. intros x Hx. apply HPQ. by right. }
  destruct (decide (P a)) as [Hp | Hp].
  - rewrite decide_True by (apply HPQ; [by left | done]). simpl. lia.
  - destruct (decide (Q a)); simpl; lia.
Qed.

Lemma filter_length_lt {A} (P Q : A → Prop)
    `{∀ x, Decision (P x)} `{∀ x, Decision (Q x)} (l : list A) x :
  (∀ y, y ∈ l → P y → Q y) → x ∈ l → Q x → ¬ P x →
  length (filter P l) < length (filter Q l).
Proof.
  induction l as [| a l IH]; intros HPQ Hx Hq Hp; [by apply elem_of_nil in Hx |].
  rewrite !filter_cons.
  assert (Hl : ∀ y, y ∈ l → P y → Q y) by (intros y Hy; apply HPQ; by right).
  pose proof (filter_length_mono P Q l Hl) as Hle.
  apply elem_of_cons in Hx as [<- | Hx].
  - rewrite decide_False, decide_True by done. simpl. lia.
  - specialize (IH Hl Hx Hq Hp). destruct (decide (P a)) as [Hpa | Hpa].
    + rewrite decide_True by (apply HPQ; [by left | done]). simpl. lia.
    + destruct (decide (Q a)); simpl; lia.
Qed.

Lemma unseen_mono h seen seen' : seen ⊆ seen' → unseen h seen' ≤ unseen h seen.
Proof. intros Hs. apply filter_length_mono. intros r _ Hr Hin. by apply Hr, Hs. Qed.

Lemma unseen_add h seen r :
  r < length h → VObj r ∉ seen → unseen h (seen ++ [VObj r]) < unseen h seen.
Proof.
  intros Hr Hn. apply (filter_length_lt _ _ _ r).
  - intros y _ Hy Hin. apply Hy. apply elem_of_app. by left.
  - apply elem_of_seq. lia.
  - done.
  - intros H. apply H. apply elem_of_app. right. by apply list_elem_of_singleton.
Qed.

(** What a read of an own property returns is stored in the object, or is
    the length of an array. *)
Lemma own_get_stored o k v :
  own_get o k = Some v → v ∈ stored o ∨ ∃ n, v = VNum n.
Proof.
  unfold own_get, stored. intros H.
  assert (Hp : Map_get k (props o) = Some v → v ∈ omap id (elems o) ++ (props o).*2).
  { intros Hm. apply elem_of_app. right. apply Map_get_elem_of in Hm.
    apply list_elem_of_fmap. by exists (k, v). }
  destruct (isArray o); [| left; auto].
  destruct k as [i | | s | | | s]; try (left; by auto);
    [| injection H as <-; right; by eexists].
  left. apply elem_of_app. left. apply list_elem_of_omap.
  destruct (elems o !! i) as [[e |] |] eqn:Hi; simpl in H; try done.
  injection H as ->. exists (Some v). split; [| done].
  by eapply list_elem_of_lookup_2.
Qed.

Lemma raw_value_get h o k :
  raw_data h → o ∈ h → raw_value h (default VUndef (own_get o k)).
Proof.
  intros Hh Ho. destruct (own_get o k) as [v |] eqn:Hget; [| done]. simpl.
  apply own_get_stored in Hget as [Hs | [n ->]]; [| done].
  by apply (Hh o Ho).
Qed.

Lemma get_value_raw self st r o k :
  heap st !! r = Some o → proto o = VNull →
  get_value self (VObj r) k st = Ret (default VUndef (own_get o k)) st.
Proof. intros Ho Hp. by apply Reflect_get_own; [| right]. Qed.

(** On raw data [traverse] returns when its depth exceeds the number of
    objects not seen yet.  It leaves the state alone, adds each object once,
    and every object it adds has had its properties visited. *)
Lemma traverse_raw self st :
  raw_data (heap st) →
  ∀ n source seen,
    raw_value (heap st) source → unseen (heap st) seen < n →
    ∃ seen', traverse self n source seen st = Ret seen' st ∧
      seen ⊆ seen' ∧
      (is_object source = true → source ∈ seen') ∧
      (NoDup seen → NoDup seen') ∧
      (∀ v, v ∈ seen' →
            v ∈ seen ∨ (is_object v = true ∧ reaches (heap st) source v)) ∧
      (∀ a, VObj a ∈ seen' → VObj a ∉ seen →
            ∀ v, child (heap st) a v → v ∈ seen').
Proof.
  intros Hh. induction n as [| n IH]; intros source seen Hsrc Hn; [lia |].
  simpl.
  destruct (negb (is_object source) || bool_decide (source ∈ seen)) eqn:Hskip.
  { exists seen. split_and!; try done.
    - intros Hobj. rewrite Hobj in Hskip. simpl in Hskip.
      by apply bool_decide_eq_true in Hskip.
    - by left. }
  apply orb_false_iff in Hskip as [Hobj Hnew].
  apply negb_false_iff in Hobj. apply bool_decide_eq_false in Hnew.
  destruct source as [| | | | | | r | q]; try done.
  simpl in Hsrc.
  destruct (lookup_lt_is_Some_2 _ _ Hsrc) as [o Ho].
  assert (Hoh : o ∈ heap st) by (by eapply list_elem_of_lookup_2).
  destruct (Hh o Hoh) as [Hproto _].
  assert (Hkeys : for_in_keys (VObj r) st = Ret (enumerable_keys o) st).
  { unfold for_in_keys.
    rewrite (bind_Ret _ _ _ _ _ (lookup_in_Some heap _ _ _ Ho)). by rewrite Hproto. }
  rewrite (bind_Ret _ _ _ _ _ Hkeys).
  assert (Hn1 : unseen (heap st) (seen ++ [VObj r]) < n).
  { pose proof (unseen_add (heap st) seen r Hsrc Hnew). lia. }
  assert (Hloop : ∀ keys seenA,
            keys ⊆ enumerable_keys o → unseen (heap st) seenA < n →
            ∃ seenB,
              (fix loop (keys : list key) (seen : list value) {struct keys}
                 : M (list value) :=
                 match keys with
                 | [] => ret seen
                 | k :: keys' =>
                     v ← get_value self (VObj r) k;
                     seen' ← traverse self n v seen;
                     loop keys' seen'
                 end) keys seenA st = Ret seenB st ∧
              seenA ⊆ seenB ∧
              (NoDup seenA → NoDup seenB) ∧
              (∀ v, v ∈ seenB →
                    v ∈ seenA ∨ (is_object v = true ∧ reaches (heap st) (VObj r) v)) ∧
              (∀ k, k ∈ keys → is_object (default VUndef (own_get o k)) = true →
                    default VUndef (own_get o k) ∈ seenB) ∧
              (∀ a, VObj a ∈ seenB → VObj a ∉ seenA →
                    ∀ v, child (heap st) a v → v ∈ seenB)).
  { induction keys as [| k keys IHk]; intros seenA Hks HnA.
    - exists seenA. split_and!; try done.
      + by left.
      + intros k Hk. by apply elem_of_nil in Hk.
    - rewrite (bind_Ret _ _ _ _ _ (get_value_raw self st r o k Ho Hproto)).
      destruct (IH (default VUndef (own_get o k)) seenA
                  (raw_value_get _ _ _ Hh Hoh) HnA)
        as (seenA' & Hrun & Hsub & Hin & Hnd & Hval & Hcl).
      rewrite (bind_Ret _ _ _ _ _ Hrun).
      destruct (IHk seenA') as (seenB & Hrun' & Hsub' & Hnd' & Hval' & Hks' & Hcl').
      { intros x Hx. apply Hks. by right. }
      { pose proof (unseen_mono (heap st) seenA seenA' Hsub). lia. }
      exists seenB. split_and!.
      + exact Hrun'.
      + by etrans.
      + auto.
      + intros v Hv. destruct (Hval' v Hv) as [Hv' | ?]; [| by right].
        destruct (Hval v Hv') as [? | [Hobjv Hreach]]; [by left |].
        right. split; [done |].
        destruct (is_object (default VUndef (own_get o k))) eqn:Hc.
        * apply (reaches_child _ r (default VUndef (own_get o k))); [| done].
          exists o, k. split_and!; try done. apply Hks. by left.
        * inversion Hreach; subst; [congruence |].
          match goal with H : VObj _ = default _ _ |- _ => rewrite <- H in Hc end.
          done.
      + intros k' Hk' Hobj'. apply elem_of_cons in Hk' as [-> | Hk'].
        * apply Hsub'. by apply Hin.
        * by apply Hks'.
      + intros a Ha Hna v Hv.
        destruct (decide (VObj a ∈ seenA')) as [Ha' | Ha'].
        * apply Hsub'. by apply (Hcl a Ha' Hna).
        * by apply (Hcl' a Ha Ha'). }
  destruct (Hloop (enumerable_keys o) (seen ++ [VObj r])) as
    (seenB & Hrun & Hsub & Hnd & Hval & Hks & Hcl); [done | done |].
  exists seenB. split_and!.
  - exact Hrun.
  - intros x Hx. apply Hsub. apply elem_of_app. by left.
  - intros _. apply Hsub. apply elem_of_app. right. by apply list_elem_of_singleton.
  - intros Hs. apply Hnd. apply NoDup_app. split_and!; [done | | apply NoDup_singleton].
    intros x Hx ->%list_elem_of_singleton. done.
  - intros v Hv. destruct (Hval v Hv) as [Hv' | ?]; [| by right].
    apply elem_of_app in Hv' as [? | ->%list_elem_of_singleton]; [by left |].
    right. split; [done | apply reaches_here].
  - intros a Ha Hna v Hv.
    destruct (decide (a = r)) as [-> | Hne].
    + destruct Hv as (o' & k & Ho' & Hk & <- & Hobj').
      rewrite Ho in Ho'. injection Ho' as <-. by apply Hks.
    + apply (Hcl a Ha); [| done].
      rewrite elem_of_app, list_elem_of_singleton. intros [? | [= ?]]; done.
Qed.

Lemma unseen_le h seen : unseen h seen ≤ length h.
Proof.
  unfold unseen. etrans; [apply length_filter |]. by rewrite length_seq.
Qed.

(** *** Through a proxy *)

Lemma track_same target k st :
  heap (track target k st) = heap st ∧
  proxies (track target k st) = proxies st ∧
  activeEffect (track target k st) = activeEffect st ∧
  shouldTrack (track target k st) = shouldTrack st.
Proof.
  unfold track. destruct (activeEffect st) eqn:Ha; [| done].
  by destruct (shouldTrack st) eqn:Hs.
Qed.

Lemma enumerable_keys_not_symbol o k : k ∈ enumerable_keys o → is_symbol k = false.
Proof.
  unfold enumerable_keys. intros [Hk | Hk]%elem_of_app.
  - destruct (isArray o); [| by apply elem_of_nil in Hk].
    apply list_elem_of_omap in Hk as ([i e] & _ & Hk). simpl in Hk.
    destruct e; [| done]. by injection Hk as <-.
  - by apply list_elem_of_filter in Hk as [Hk _].
Qed.

(** The dependencies that a loop of reads over the keys [ks] of [t]
    records for the active effect. *)
Lemma foldl_track_subscribers t e ks : ∀ st,
  activeEffect st = Some e → shouldTrack st = true →
  ∀ x t' k',
    x ∈ subscribers (effectsBuckets (foldl (λ s k, track t k s) st ks)) t' k'
    ↔ x ∈ subscribers (effectsBuckets st) t' k' ∨ (x = e ∧ t' = t ∧ k' ∈ ks).
Proof.
  induction ks as [| k ks IH]; intros st Ha Hs x t' k'; simpl.
  - rewrite elem_of_nil. tauto.
  - destruct (track_same t k st) as (_ & _ & Ha' & Hs').
    rewrite IH by congruence.
    unfold track at 1. rewrite Ha, Hs. simpl.
    rewrite subscribers_bucket_add, elem_of_cons. naive_solver.
Qed.

(** [traverse] through the hand-written proxy of the [watch] listing: the
    top-level properties are read through the proxy, and what they hold is
    raw. *)
Lemma traverse_plain_proxy self st p t o n :
  proxies st !! p = Some {| p_target := t; p_handler := PlainHandler |} →
  heap st !! t = Some o → raw_data (heap st) → length (heap st) + 1 < n →
  ∃ seen, traverse self n (VProxy p) [] st
          = Ret seen (foldl (λ s k, track t k s) st (enumerable_keys o)).
Proof.
  intros Hp Ho Hh Hn. destruct n as [| n]; [lia |]. simpl.
  assert (Hoh : o ∈ heap st) by (by eapply list_elem_of_lookup_2).
  destruct (Hh o Hoh) as [Hproto _].
  assert (Hkeys : for_in_keys (VProxy p) st = Ret (enumerable_keys o) st).
  { unfold for_in_keys.
    rewrite (bind_Ret _ _ _ _ _ (lookup_in_Some proxies _ _ _ Hp)). simpl.
    rewrite (bind_Ret _ _ _ _ _ (lookup_in_Some heap _ _ _ Ho)).
    unfold bind at 1. unfold ret at 1. by rewrite Hproto. }
  rewrite (bind_Ret _ _ _ _ _ Hkeys).
  assert (Hs0 : unseen (heap st) ([] ++ [VProxy p]) < n).
  { pose proof (unseen_le (heap st) ([] ++ [VProxy p])). lia. }
  match goal with
  | |- ∃ seen, ?loop _ _ st = _ =>
      assert (Hloop : ∀ keys s seenA,
                heap s = heap st → proxies s = proxies st →
                unseen (heap st) seenA < n →
                ∃ seenB, loop keys seenA s
                         = Ret seenB (foldl (λ s k, track t k s) s keys))
  end.
  { induction keys as [| k keys IHk]; intros s seenA Hhs Hps HnA.
    - by exists seenA.
    - assert (Hget : get_value self (VProxy p) k s
                     = Ret (default VUndef (own_get o k)) (track t k s)).
      { unfold get_value, proxy_get.
        rewrite (bind_Ret _ _ _ _ _ (lookup_in_Some proxies _ _ _
                                       (eq_trans (f_equal (.!! p) Hps) Hp))).
        simpl. unfold plain_get. unfold bind at 1. unfold modify at 1.
        apply Reflect_get_own; [| by right].
        destruct (track_same t k s) as (-> & _). by rewrite Hhs. }
      rewrite (bind_Ret _ _ _ _ _ Hget).
      destruct (track_same t k s) as (Hh1 & Hp1 & _).
      destruct (traverse_raw self (track t k s)) with
        (n := n) (source := default VUndef (own_get o k)) (seen := seenA)
        as (seenA' & Hrun & Hsub & _).
      { by rewrite Hh1, Hhs. }
      { rewrite Hh1, Hhs. by apply raw_value_get. }
      { by rewrite Hh1, Hhs. }
      rewrite (bind_Ret _ _ _ _ _ Hrun). simpl.
      apply IHk; [congruence | congruence |].
      pose proof (unseen_mono (heap st) seenA seenA' Hsub). lia. }
  by apply Hloop.
Qed.

(** The keys of an array without other properties are indices. *)
Lemma enumerable_keys_array o k :
  isArray o = true → props o = [] → k ∈ enumerable_keys o → ∃ i, k = KIdx i.
Proof.
  intros Harr Hprops. unfold enumerable_keys. rewrite Harr, Hprops. simpl.
  rewrite app_nil_r. intros ([i e] & _ & Hk)%list_elem_of_omap. simpl in Hk.
  destruct e; [| done]. injection Hk as <-. by exists i.
Qed.

(** [traverse] through a reactive proxy of a flat object or array: the
    handler [ownKeys] records [ITERATE_KEY], or [length] for an array, and
    each read records its key unless the proxy is read-only. *)
Lemma traverse_flat_reactive self st p isShallow isReadonly t o n :
  proxies st !! p
    = Some {| p_target := t; p_handler := Reactive isShallow isReadonly |} →
  heap st !! t = Some o → (isArray o = true → props o = []) →
  proto o = VNull → flat o →
  1 < n →
  traverse self n (VProxy p) [] st
  = Ret [VProxy p]
        (foldl (λ s k, if isReadonly then s else track t k s)
               (track t (if isArray o then KLength else KIterate) st)
               (enumerable_keys o)).
Proof.
  intros Hp Ho Harr Hproto Hflat Hn. destruct n as [| [| n]]; [lia | lia |].
  cbn [traverse]. simpl.
  assert (Hkeys : for_in_keys (VProxy p) st
                  = Ret (enumerable_keys o)
                        (track t (if isArray o then KLength else KIterate) st)).
  { unfold for_in_keys.
    rewrite (bind_Ret _ _ _ _ _ (lookup_in_Some proxies _ _ _ Hp)). simpl.
    rewrite (bind_Ret _ _ _ _ _ (lookup_in_Some heap _ _ _ Ho)).
    unfold bind at 1. unfold modify at 1. by rewrite Hproto. }
  rewrite (bind_Ret _ _ _ _ _ Hkeys).
  match goal with
  | |- ?loop _ _ _ = _ =>
      assert (Hloop : ∀ keys s,
                (∀ k, k ∈ keys → k ∈ enumerable_keys o) →
                heap s = heap st → proxies s = proxies st →
                loop keys ([] ++ [VProxy p]) s
                = Ret [VProxy p]
                      (foldl (λ s k, if isReadonly then s else track t k s) s keys))
  end.
  { induction keys as [| k keys IHk]; intros s Hall Hhs Hps; [done |].
    assert (Hk : is_symbol k = false).
    { apply (enumerable_keys_not_symbol o). apply Hall. by left. }
    set (s1 := if isReadonly then s else track t k s).
    assert (Hs1 : heap s1 = heap st ∧ proxies s1 = proxies st).
    { subst s1. destruct isReadonly; [done |].
      destruct (track_same t k s) as (-> & -> & _). done. }
    assert (Hprim : is_object (default VUndef (own_get o k)) = false).
    { destruct (own_get o k) as [v |] eqn:Hget; [| done]. simpl.
      apply own_get_stored in Hget as [Hv | [z ->]]; [by apply Hflat | done]. }
    assert (Hget : get_value self (VProxy p) k s
                   = Ret (default VUndef (own_get o k)) s1).
    { unfold get_value, proxy_get.
      rewrite (bind_Ret _ _ _ _ _ (lookup_in_Some proxies _ _ _
                                     (eq_trans (f_equal (.!! p) Hps) Hp))).
      simpl. unfold reactive_get.
      rewrite decide_False by (by destruct k).
      rewrite (bind_Ret _ _ _ _ _ (lookup_in_Some heap _ _ _
                                     (eq_trans (f_equal (.!! t) Hhs) Ho))).
      assert (isArray o && bool_decide (k ∈ arrayInstrumentations) = false) as ->.
      { destruct (isArray o) eqn:Ha; [| done]. simpl.
        destruct (enumerable_keys_array o k Ha (Harr eq_refl)) as [i ->].
        - apply Hall. by left.
        - apply not_instrumented_index. }
      rewrite Hk.
      assert (Htr : (if negb isReadonly && negb false
                     then modify (track t k) else ret ()) s = Ret tt s1).
      { subst s1. by destruct isReadonly. }
      rewrite (bind_Ret _ _ _ _ _ Htr).
      rewrite (bind_Ret _ _ _ _ _
                 (Reflect_get_own self s1 t o k (VProxy p)
                    (eq_trans (f_equal (.!! t) (proj1 Hs1)) Ho)
                    (or_intror Hproto))).
      rewrite Hprim. by destruct isShallow. }
    rewrite (bind_Ret _ _ _ _ _ Hget).
    assert (Htrav : traverse self (S n) (default VUndef (own_get o k))
                             ([] ++ [VProxy p]) s1
                    = Ret ([] ++ [VProxy p]) s1).
    { simpl. by rewrite Hprim. }
    rewrite (bind_Ret _ _ _ _ _ Htrav). simpl.
    apply IHk; [| apply Hs1 | apply Hs1]. intros k' Hk'. apply Hall. by right. }
  apply Hloop; [done | |];
    by destruct (track_same t (if isArray o then KLength else KIterate) st)
      as (? & ? & _).
Qed.

(** *** An effect that traverses *)

Lemma cleanup_same e st :
  heap (cleanup e st) = heap st ∧ proxies (cleanup e st) = proxies st ∧
  shouldTrack (cleanup e st) = shouldTrack st.
Proof. unfold cleanup. by destruct (effectFns st !! e). Qed.

(** A call of the effect function [e] whose wrapped function returns. *)
Lemma effectFn_returns fuel e ef st v st2 :
  effectFns st !! e = Some ef →
  run_wrapped fuel (interp fuel) (fn ef)
    (emit (EvRun e)
       (set_effectStack (effectStack (cleanup e st) ++ [e])
          (set_activeEffect (Some e) (cleanup e st)))) = Ret v st2 →
  interp (S fuel) (TCall e) st
  = Ret v (set_activeEffect (last (removelast (effectStack st2)))
             (set_effectStack (removelast (effectStack st2)) st2)).
Proof.
  intros He Hrun. simpl. unfold effectFn.
  rewrite (bind_Ret _ _ _ _ _ (lookup_in_Some effectFns _ _ _ He)).
  unfold wrapper, bind, modify, ret.
  match goal with
  | |- context [run_wrapped fuel (interp fuel) (fn ef) ?s] =>
      assert (Hrun' : run_wrapped fuel (interp fuel) (fn ef) s = Ret v st2)
        by exact Hrun
  end.
  by rewrite Hrun'.
Qed.

Lemma cleanup_empties e st t k :
  (∀ t k, e ∈ subscribers (effectsBuckets st) t k
          → ∃ ef, effectFns st !! e = Some ef ∧ (t, k) ∈ deps ef) →
  e ∉ subscribers (effectsBuckets (cleanup e st)) t k.
Proof.
  intros Hb Hin. unfold cleanup in Hin.
  destruct (effectFns st !! e) as [ef |] eqn:He.
  - simpl in Hin. apply subscribers_foldl_bucket_delete in Hin as [Hin Hnot].
    apply Hnot. split; [done |]. destruct (Hb _ _ Hin) as (ef' & ? & ?). congruence.
  - destruct (Hb _ _ Hin) as (ef' & ? & _). congruence.
Qed.

(** X11.  [traverse] on raw data, cyclic or not: with a depth beyond the number
    of objects it returns, leaves the state as it was, and its set [seen]
    holds each object that the loops reach from the source, once. *)
Theorem traverse_visits_reachable self st r n :
  raw_data (heap st) → r < length (heap st) → length (heap st) < n →
  ∃ seen, traverse self n (VObj r) [] st = Ret seen st ∧
          NoDup seen ∧
          ∀ v, v ∈ seen ↔ is_object v = true ∧ reaches (heap st) (VObj r) v.
Proof.
  intros Hh Hr Hn.
  destruct (traverse_raw self st Hh n (VObj r) []) as
    (seen & Hrun & _ & Hin & Hnd & Hval & Hcl).
  { exact Hr. }
  { pose proof (unseen_le (heap st) []). lia. }
  exists seen. split_and!; [done | apply Hnd, NoDup_nil_2 |].
  intros v. split.
  - intros Hv. destruct (Hval v Hv) as [Hv' | ?]; [| done].
    by apply elem_of_nil in Hv'.
  - intros [Hobj Hreach].
    assert (Hgen : ∀ a w, reaches (heap st) a w → a ∈ seen → w ∈ seen).
    { clear -Hcl. induction 1 as [| a c w Hc Hr IH]; [done |].
      intros Ha. apply IH. apply (Hcl a Ha); [| done]. apply not_elem_of_nil. }
    apply (Hgen (VObj r)); [done |]. by apply Hin.
Qed.

(** The theorem at two objects that refer to each other. *)
Lemma traverse_witness :
  ∃ seen, traverse (interp 0) 3 (VObj 0) [] cyclic_data = Ret seen cyclic_data ∧
          NoDup seen ∧
          ∀ v, v ∈ seen
               ↔ is_object v = true ∧ reaches (heap cyclic_data) (VObj 0) v.
Proof.
  apply traverse_visits_reachable.
  - intros o Ho. simpl in Ho.
    repeat (apply elem_of_cons in Ho as [-> | Ho]); [| | by apply elem_of_nil in Ho].
    + split; [done |]. intros v Hv. vm_compute in Hv.
      repeat (apply elem_of_cons in Hv as [-> | Hv]); simpl; try lia.
      by apply elem_of_nil in Hv.
    + split; [done |]. intros v Hv. vm_compute in Hv.
      repeat (apply elem_of_cons in Hv as [-> | Hv]); simpl; try lia.
      by apply elem_of_nil in Hv.
  - simpl. lia.
  - simpl. lia.
Defined.

(** X12.  An effect that traverses a proxy, as the effect of
    [watch(source, cb)] does for a source that is not a function.
    - Through the hand-written proxy of the [watch] listings, over raw
      data: when its call returns, the effect depends on the enumerable
      keys of the source object and on nothing else, so that a write of a
      key that the object did not have is not delivered to it.
    - Through a mutable reactive proxy of a flat object: it depends on
      these keys and on [ITERATE_KEY], so that [trigger] assembles it for
      every added or deleted property and for every write to one of the
      keys.
    - Through a mutable reactive proxy of a flat array: it depends on the
      indices that are not holes and on [length], so that [trigger]
      assembles it for every added element, for every write to one of
      these indices and for every write of [length]. *)
Theorem traversing_effect_dependencies fuel st e ef p t o :
  (∀ t k, e ∈ subscribers (effectsBuckets st) t k
          → ∃ ef, effectFns st !! e = Some ef ∧ (t, k) ∈ deps ef) →
  shouldTrack st = true →
  effectFns st !! e = Some ef → fn ef = FTraverse (VProxy p) →
  heap st !! t = Some o →
  (proxies st !! p = Some {| p_target := t; p_handler := PlainHandler |} →
   raw_data (heap st) → length (heap st) + 2 < fuel →
   ∃ st', interp fuel (TCall e) st = Ret (VProxy p) st' ∧
     heap st' = heap st ∧
     (∀ t' k', e ∈ subscribers (effectsBuckets st') t' k'
               ↔ t' = t ∧ k' ∈ enumerable_keys o) ∧
     (∀ k', k' ∉ enumerable_keys o →
            e ∉ add_effects None (subscribers (effectsBuckets st') t k') [])) ∧
  (∀ isShallow,
     proxies st !! p
       = Some {| p_target := t; p_handler := Reactive isShallow false |} →
     isArray o = false → proto o = VNull → flat o → 2 < fuel →
     ∃ st', interp fuel (TCall e) st = Ret (VProxy p) st' ∧
       heap st' = heap st ∧
       (∀ t' k', e ∈ subscribers (effectsBuckets st') t' k'
                 ↔ t' = t ∧ (k' = KIterate ∨ k' ∈ enumerable_keys o)) ∧
       (∀ dm k' type newVal l,
          effectsBuckets st' !! t = Some dm →
          effectsToRun dm None false k' type newVal = ToRun l →
          type = T_add ∨ type = T_delete ∨ k' ∈ enumerable_keys o →
          e ∈ l)) ∧
  (∀ isShallow,
     proxies st !! p
       = Some {| p_target := t; p_handler := Reactive isShallow false |} →
     isArray o = true → props o = [] → proto o = VNull → flat o → 2 < fuel →
     ∃ st', interp fuel (TCall e) st = Ret (VProxy p) st' ∧
       heap st' = heap st ∧
       (∀ t' k', e ∈ subscribers (effectsBuckets st') t' k'
                 ↔ t' = t ∧ (k' = KLength ∨ k' ∈ enumerable_keys o)) ∧
       (∀ dm k' type newVal l,
          effectsBuckets st' !! t = Some dm →
          effectsToRun dm None true k' type newVal = ToRun l →
          type = T_add ∨ k' = KLength ∨ k' ∈ enumerable_keys o →
          e ∈ l)).
Proof.
  intros Hb Hs He Hfn Ho.
  set (st1 := emit (EvRun e)
                (set_effectStack (effectStack (cleanup e st) ++ [e])
                   (set_activeEffect (Some e) (cleanup e st)))).
  destruct (cleanup_same e st) as (Hch & Hcp & Hcs).
  assert (Hh1 : heap st1 = heap st) by done.
  assert (Hp1 : proxies st1 = proxies st) by done.
  assert (Ha1 : activeEffect st1 = Some e) by done.
  assert (Hs1 : shouldTrack st1 = true) by (subst st1; simpl; congruence).
  assert (Hout : ∀ t' k', e ∉ subscribers (effectsBuckets st1) t' k').
  { intros t' k'. by apply cleanup_empties. }
  split_and!.
  - intros Hp Hraw Hfuel. destruct fuel as [| m]; [lia |].
    destruct (traverse_plain_proxy (interp m) st1 p t o m) as [seen Htr].
    { by rewrite Hp1. } { by rewrite Hh1. } { by rewrite Hh1. }
    { rewrite Hh1. lia. }
    eexists. split.
    { apply (effectFn_returns m e ef st); [done |]. rewrite Hfn.
      unfold run_wrapped. fold st1. by rewrite (bind_Ret _ _ _ _ _ Htr). }
    assert (Hsub : ∀ t' k',
              e ∈ subscribers
                    (effectsBuckets (foldl (λ s k, track t k s) st1 (enumerable_keys o)))
                    t' k'
              ↔ t' = t ∧ k' ∈ enumerable_keys o).
    { intros t' k'. rewrite (foldl_track_subscribers t e _ st1 Ha1 Hs1).
      specialize (Hout t' k'). naive_solver. }
    split_and!.
    + simpl. clear -Hh1.
      assert (∀ ks s, heap (foldl (λ s k, track t k s) s ks) = heap s) as ->; [| done].
      induction ks as [| k ks IH]; intros s; [done |]. simpl. rewrite IH.
      by destruct (track_same t k s).
    + exact Hsub.
    + intros k' Hk' Hin. apply elem_of_plain_effectsToRun in Hin as [Hin _].
      apply Hsub in Hin. tauto.
  - intros isShallow Hp Harr Hproto Hflat Hfuel. destruct fuel as [| m]; [lia |].
    pose proof (traverse_flat_reactive (interp m) st1 p isShallow false t o m) as Htr.
    rewrite Hp1, Hh1 in Htr.
    assert (Hnoprops : isArray o = true → props o = []) by congruence.
    specialize (Htr Hp Ho Hnoprops Hproto Hflat).
    assert (Hm : 1 < m) by lia. specialize (Htr Hm). rewrite Harr in Htr.
    eexists. split.
    { apply (effectFn_returns m e ef st); [done |]. rewrite Hfn.
      unfold run_wrapped. fold st1. by rewrite (bind_Ret _ _ _ _ _ Htr). }
    destruct (track_same t KIterate st1) as (Hh2 & _ & Ha2 & Hs2).
    assert (Hsub : ∀ t' k',
              e ∈ subscribers
                    (effectsBuckets
                       (foldl (λ s k, track t k s) (track t KIterate st1)
                              (enumerable_keys o)))
                    t' k'
              ↔ t' = t ∧ (k' = KIterate ∨ k' ∈ enumerable_keys o)).
    { intros t' k'.
      rewrite (foldl_track_subscribers t e _ (track t KIterate st1))
        by congruence.
      unfold track at 1. rewrite Ha1, Hs1. simpl.
      rewrite subscribers_bucket_add. specialize (Hout t' k'). naive_solver. }
    split_and!.
    + simpl.
      assert (∀ ks s, heap (foldl (λ s k, track t k s) s ks) = heap s) as ->.
      { induction ks as [| k ks IH]; intros s; [done |]. simpl. rewrite IH.
        by destruct (track_same t k s). }
      congruence.
    + exact Hsub.
    + intros dm k' type newVal l Hdm Hl Hty. simpl in Hdm.
      assert (Hk : ∀ k, e ∈ default [] (Map_get k dm)
                        ↔ k = KIterate ∨ k ∈ enumerable_keys o).
      { intros k. specialize (Hsub t k). unfold subscribers in Hsub.
        rewrite Hdm in Hsub. rewrite Hsub. naive_solver. }
      unfold effectsToRun in Hl. simpl in Hl. injection Hl as <-.
      destruct Hty as [-> | [-> | Hk']].
      * simpl. apply elem_of_add_effects. right. split; [| done].
        apply Hk. by left.
      * simpl. apply elem_of_add_effects. right. split; [| done].
        apply Hk. by left.
      * assert (He1 : e ∈ add_effects None (default [] (Map_get k' dm)) []).
        { apply elem_of_plain_effectsToRun. split; [| done]. apply Hk. by right. }
        destruct (bool_decide (type = T_add) || bool_decide (type = T_delete));
          [| done].
        apply elem_of_add_effects. by left.
  - intros isShallow Hp Harr Hprops Hproto Hflat Hfuel.
    destruct fuel as [| m]; [lia |].
    pose proof (traverse_flat_reactive (interp m) st1 p isShallow false t o m) as Htr.
    rewrite Hp1, Hh1 in Htr.
    specialize (Htr Hp Ho (λ _, Hprops) Hproto Hflat).
    assert (Hm : 1 < m) by lia. specialize (Htr Hm). rewrite Harr in Htr.
    eexists. split.
    { apply (effectFn_returns m e ef st); [done |]. rewrite Hfn.
      unfold run_wrapped. fold st1. by rewrite (bind_Ret _ _ _ _ _ Htr). }
    destruct (track_same t KLength st1) as (Hh2 & _ & Ha2 & Hs2).
    assert (Hsub : ∀ t' k',
              e ∈ subscribers
                    (effectsBuckets
                       (foldl (λ s k, track t k s) (track t KLength st1)
                              (enumerable_keys o)))
                    t' k'
              ↔ t' = t ∧ (k' = KLength ∨ k' ∈ enumerable_keys o)).
    { intros t' k'.
      rewrite (foldl_track_subscribers t e _ (track t KLength st1))
        by congruence.
      unfold track at 1. rewrite Ha1, Hs1. simpl.
      rewrite subscribers_bucket_add. specialize (Hout t' k'). naive_solver. }
    split_and!.
    + simpl.
      assert (∀ ks s, heap (foldl (λ s k, track t k s) s ks) = heap s) as ->.
      { induction ks as [| k ks IH]; intros s; [done |]. simpl. rewrite IH.
        by destruct (track_same t k s). }
      congruence.
    + exact Hsub.
    + intros dm k' type newVal l Hdm Hl Hty. simpl in Hdm.
      assert (Hk : ∀ k, e ∈ default [] (Map_get k dm)
                        ↔ k = KLength ∨ k ∈ enumerable_keys o).
      { intros k. specialize (Hsub t k). unfold subscribers in Hsub.
        rewrite Hdm in Hsub. rewrite Hsub. naive_solver. }
      unfold effectsToRun in Hl.
      set (s1 := add_effects None (default [] (Map_get k' dm)) []) in Hl.
      set (s2 := if true && bool_decide (type = T_add)
                 then add_effects None (default [] (Map_get KLength dm)) s1
                 else s1) in Hl.
      assert (H2 : e ∈ s2).
      { subst s2. destruct Hty as [-> | Hk'].
        - simpl. apply elem_of_add_effects. right. split; [| done].
          apply Hk. by left.
        - assert (e ∈ s1).
          { subst s1. apply elem_of_plain_effectsToRun. split; [| done].
            apply Hk. destruct Hk' as [-> | ?]; [by left | by right]. }
          destruct (true && bool_decide (type = T_add)); [| done].
          apply elem_of_add_effects. by left. }
      assert (Hiter : ∀ s, e ∈ s →
                e ∈ (if bool_decide (type = T_add) || bool_decide (type = T_delete)
                     then add_effects None (default [] (Map_get KIterate dm)) s
                     else s)).
      { intros s Hs'. destruct (_ || _); [| done].
        apply elem_of_add_effects. by left. }
      simpl in Hl. destruct (bool_decide (k' = KLength)).
      * destruct newVal as [| | | n | | | |]; try done.
        destruct (add_truncated None n dm s2) as [s3 |] eqn:H3; [| done].
        injection Hl as <-. apply Hiter.
        apply (add_truncated_elem _ _ _ _ _ H3). by left.
      * injection Hl as <-. by apply Hiter.
Qed.

(** The theorem at a reactive proxy of [{ foo: 1, bar: 2 }]. *)
Lemma traversing_effect_witness :
  ∃ st', interp 3 (TCall 0) traversed_data = Ret (VProxy 0) st' ∧
    ∀ t' k', 0 ∈ subscribers (effectsBuckets st') t' k'
             ↔ t' = 0 ∧ (k' = KIterate ∨ k' ∈ [KStr "foo"; KStr "bar"]).
Proof.
  assert (Hb : ∀ t k, 0 ∈ subscribers (effectsBuckets traversed_data) t k
                      → ∃ ef, effectFns traversed_data !! 0 = Some ef
                              ∧ (t, k) ∈ deps ef).
  { intros t k Hin. unfold subscribers in Hin. simpl in Hin.
    rewrite lookup_empty in Hin. by apply elem_of_nil in Hin. }
  assert (Hflat : flat (plain_object [(KStr "foo", VNum 1); (KStr "bar", VNum 2)])).
  { intros v Hv. vm_compute in Hv.
    repeat (apply elem_of_cons in Hv as [-> | Hv]); try done.
    by apply elem_of_nil in Hv. }
  destruct (proj1 (proj2 (traversing_effect_dependencies 3 traversed_data 0 _ 0 0 _
                            Hb eq_refl eq_refl eq_refl eq_refl))
              false eq_refl eq_refl eq_refl Hflat)
    as (st' & Hrun & _ & Hsub & _); [lia |].
  exists st'. split; [exact Hrun | exact Hsub].
Defined.

End TraverseFacts.
(** * Whose dependency a read is *)

Module AttributionFacts.
Import Reactivity ReactivityFacts StackFacts TriggerFacts MembershipFacts Shapes.
Local Open Scope M_scope.

Lemma attributed_refl st : attributed st st.
Proof.
  intros Hc. split_and!; [done | done |]. exists [], []. rewrite !app_nil_r.
  split_and!; [done | done |]. intros e t k Hin. by apply elem_of_nil in Hin.
Qed.

Lemma attributed_trans a b c : attributed a b → attributed b c → attributed a c.
Proof.
  intros Hab Hbc Hc. destruct (Hab Hc) as (Hcb & Hsb & tr1 & tk1 & Ht1 & Hk1 & H1).
  destruct (Hbc Hcb) as (Hcc & Hsc & tr2 & tk2 & Ht2 & Hk2 & H2).
  split_and!; [done | congruence |].
  exists (tr1 ++ tr2), (tk1 ++ tk2). rewrite Ht2, Ht1, Hk2, Hk1, !app_assoc.
  split_and!; [done | done |].
  intros e t k [Hin | Hin]%elem_of_app.
  - destruct (H1 e t k Hin); [by left | right]. apply elem_of_app. by left.
  - destruct (H2 e t k Hin) as [Hs | Hr]; [left | right].
    + destruct Hc as (_ & -> & _). destruct Hcb as (_ & Hab' & _).
      by rewrite <- Hsb, <- Hab'.
    + apply elem_of_app. by right.
Qed.

(** A state update that keeps the stores of the effects and adds nothing
    to the logs. *)
Lemma attributed_same st st' :
  effectsBuckets st' = effectsBuckets st → effectFns st' = effectFns st →
  activeEffect st' = activeEffect st → effectStack st' = effectStack st →
  trace st' = trace st → tracked st' = tracked st →
  attributed st st'.
Proof.
  intros Hb Hf Ha Hs Ht Hk (Hbr & Hact & Hst). split_and!.
  - split_and!.
    + intros e t k. rewrite Hb, Hf. apply Hbr.
    + congruence.
    + intros x. rewrite Hs, Hf. apply Hst.
  - done.
  - exists [], []. rewrite Ht, Hk, !app_nil_r. split_and!; [done | done |].
    intros e t k Hin. by apply elem_of_nil in Hin.
Qed.

Lemma attributed_track t k st : attributed st (track t k st).
Proof.
  intros Hc. split_and!.
  - by apply consistent_track.
  - unfold track. destruct (activeEffect st); [| done]. by destruct (shouldTrack st).
  - destruct Hc as (_ & Hact & _). unfold track.
    destruct (activeEffect st) as [a |] eqn:Ha.
    + destruct (shouldTrack st).
      * exists [], [(a, t, k)]. simpl. rewrite app_nil_r.
        split_and!; [done | done |].
        intros e t' k' [= -> -> ->]%list_elem_of_singleton. by left.
      * exists [], []. rewrite !app_nil_r. split_and!; [done | done |].
        intros e t' k' Hin. by apply elem_of_nil in Hin.
    + exists [], []. rewrite !app_nil_r. split_and!; [done | done |].
      intros e t' k' Hin. by apply elem_of_nil in Hin.
Qed.

Lemma attributed_emit ev st : attributed st (emit ev st).
Proof.
  intros Hc. split_and!; [done | done |]. exists [ev], []. simpl.
  rewrite app_nil_r. split_and!; [done | done |].
  intros e t k Hin. by apply elem_of_nil in Hin.
Qed.

Lemma attributed_register f opts st :
  attributed st (set_effectFns
                   (effectFns st ++ [{| fn := f; deps := []; options := opts |}]) st).
Proof.
  intros Hc. split_and!; [by apply consistent_register | done |].
  exists [], []. simpl. rewrite !app_nil_r. split_and!; [done | done |].
  intros e t k Hin. by apply elem_of_nil in Hin.
Qed.

Lemma ok_wrapper_attributed e (call_fn : EffectFn → M value) :
  (∀ ef, respects attributed unconstrained (call_fn ef)) →
  respects attributed unconstrained
           (ef ← lookup_in effectFns e; wrapper e (call_fn ef)).
Proof.
  intros Hcall st. unfold bind, lookup_in.
  destruct (effectFns st !! e) as [ef |] eqn:He; [| done].
  unfold wrapper, bind, modify, ret.
  match goal with |- context [call_fn ef ?s] => set (st1 := s) end.
  assert (Hs1 : effectStack st1 = effectStack st ++ [e]).
  { subst st1. simpl. unfold cleanup. by rewrite He. }
  assert (Ht1 : trace st1 = trace st ++ [EvRun e]).
  { subst st1. simpl. unfold cleanup. by rewrite He. }
  assert (Hk1 : tracked st1 = tracked st).
  { subst st1. simpl. unfold cleanup. by rewrite He. }
  assert (H1 : consistent st → consistent st1).
  { intros Hc. apply (consistent_cleanup e) in Hc. destruct Hc as (Hb & Ha & Hs).
    subst st1. split_and!; simpl.
    - exact Hb.
    - by rewrite last_snoc.
    - intros x [Hx | ->%list_elem_of_singleton]%elem_of_app; [by apply Hs |].
      unfold cleanup. rewrite He. simpl. rewrite length_insert.
      by eapply lookup_lt_Some. }
  specialize (Hcall ef st1). destruct (call_fn ef st1) as [v st2 | st2 | |]; try done.
  intros Hc. destruct (Hcall (H1 Hc)) as (Hc2 & Hs2 & tr & tk & Ht & Hk & H).
  destruct Hc2 as (Hb & Ha & Hs).
  assert (Hpop : removelast (effectStack st2) = effectStack st).
  { by rewrite Hs2, Hs1, removelast_last. }
  split_and!.
  - split_and!; simpl.
    + exact Hb.
    + done.
    + intros x Hx. by apply Hs, elem_of_removelast.
  - exact Hpop.
  - exists (EvRun e :: tr), tk. simpl. rewrite Ht, Ht1, Hk, Hk1, <- app_assoc.
    split_and!; [done | done |].
    intros e' t k Hin. right. destruct (H e' t k Hin) as [Hst | Hr].
    + subst st1. simpl in Hst. injection Hst as <-. by left.
    + by right.
Qed.

Lemma mutator_attributed (m : M value) :
  respects attributed unconstrained m →
  respects attributed unconstrained
           (modify (set_shouldTrack false) ;;
            res ← m; modify (set_shouldTrack true) ;; ret res).
Proof.
  apply mutator_by_updates;
    first [ apply attributed_trans | done | by intros; apply attributed_same ].
Qed.

Ltac frame_attributed :=
  first [ apply attributed_refl | apply attributed_trans
        | apply attributed_track | apply attributed_emit
        | apply attributed_register | apply ok_wrapper_attributed
        | apply mutator_attributed
        | done
        | by intros; apply attributed_same ].

Lemma interp_attributed fuel t : respects attributed unconstrained (interp fuel t).
Proof. apply ok_interp; frame_attributed. Qed.






End AttributionFacts.
(** * Deep, shallow and read-only proxies *)

Module WrapperFacts.
Import Reactivity ProxyFacts Shapes.
Local Open Scope M_scope.

(** X15.  What a read of a property that holds a raw object returns.
    - Through a shallow proxy: the raw object itself, and no proxy is
      created.
    - Through a deep read-only proxy: a new read-only proxy of the object
      at every read, so that two reads of the same property return proxies
      that are not identical; a write through any of them is rejected with
      the warning.
    - Through a deep mutable proxy: the proxy that [reactiveMap] records
      for the object, the same at every read. *)
Theorem nested_object_reads self st p isShallow isReadonly t o k r :
  proxies st !! p
    = Some {| p_target := t; p_handler := Reactive isShallow isReadonly |} →
  heap st !! t = Some o → isArray o = false → k ≠ KRaw →
  own_get o k = Some (VObj r) →
  match isShallow, isReadonly with
  | true, _ =>
      ∃ st', get_value self (VProxy p) k st = Ret (VObj r) st' ∧
             proxies st' = proxies st ∧ heap st' = heap st
  | false, true =>
      let q := length (proxies st) in
      ∃ st', get_value self (VProxy p) k st = Ret (VProxy q) st' ∧
             proxies st'
             = proxies st ++ [{| p_target := r; p_handler := Reactive false true |}] ∧
             heap st' = heap st ∧ effectsBuckets st' = effectsBuckets st ∧
             (∃ st'', get_value self (VProxy p) k st' = Ret (VProxy (S q)) st'') ∧
             (∀ k' v, set_value self (VProxy q) k' v st'
                      = Ret tt (emit (EvWarn "set failed: readonly") st'))
  | false, false =>
      ∃ q st', get_value self (VProxy p) k st = Ret (VProxy q) st' ∧
               reactiveMap st' !! r = Some q ∧ heap st' = heap st ∧
               ∃ st'', get_value self (VProxy p) k st' = Ret (VProxy q) st'' ∧
                       proxies st'' = proxies st'
  end.
Proof.
  intros Hp Ho Harr Hk Hget.
  assert (Hown : own_has o k = true ∨ proto o = VNull).
  { left. apply own_has_true. by rewrite Hget. }
  assert (Hread : ∀ s, proxies s !! p
                       = Some {| p_target := t;
                                 p_handler := Reactive isShallow isReadonly |} →
                    heap s !! t = Some o →
                    get_value self (VProxy p) k s
                    = let s1 := if negb isReadonly && negb (is_symbol k)
                                then track t k s else s in
                      if isShallow then Ret (VObj r) s1
                      else (if isReadonly then readonly (VObj r)
                            else reactive (VObj r)) s1).
  { intros s Hps Hos. unfold get_value, proxy_get.
    rewrite (bind_Ret _ _ _ _ _ (lookup_in_Some proxies _ _ _ Hps)). simpl.
    rewrite (reactive_get_own self _ _ t o k _ s Hos Harr Hk Hown).
    rewrite Hget. simpl. by destruct isShallow. }
  assert (Hkeep : ∀ s, let s1 := if negb isReadonly && negb (is_symbol k)
                                 then track t k s else s in
                       heap s1 = heap s ∧ proxies s1 = proxies s
                       ∧ reactiveMap s1 = reactiveMap s).
  { intros s. simpl. destruct (negb isReadonly && negb (is_symbol k)); [| done].
    destruct (track_keeps t k s) as [-> ->]. split_and!; try done.
    unfold track. destruct (activeEffect s); [| done]. by destruct (shouldTrack s). }
  destruct isShallow.
  - cbv beta iota. rewrite (Hread st Hp Ho). simpl. eexists. split; [reflexivity |].
    destruct (Hkeep st) as (? & ? & _). done.
  - destruct isReadonly.
    + cbv beta iota zeta. eexists. split; [by rewrite (Hread st Hp Ho) |]. simpl.
      split_and!; try done.
      * eexists.
        change (proxy_get self p k (VProxy p)) with (get_value self (VProxy p) k).
        rewrite Hread; simpl.
        -- unfold createReactive, bind, gets. simpl.
           rewrite length_app. simpl. rewrite Nat.add_1_r. reflexivity.
        -- by apply lookup_app_l_Some.
        -- done.
      * intros k' v. unfold set_value, proxy_set, bind, lookup_in. simpl.
        rewrite lookup_app_r by done. by rewrite Nat.sub_diag.
    + cbv beta iota. cbn [negb andb] in Hread, Hkeep.
      rewrite (Hread st Hp Ho). cbv zeta.
      set (s1 := if negb (is_symbol k) then track t k st else st).
      destruct (Hkeep st) as (Hh1 & Hp1 & Hm1). fold s1 in Hh1, Hp1, Hm1.
      assert (Hstep : ∀ s q, proxies s !! p
                             = Some {| p_target := t; p_handler := Reactive false false |} →
                        heap s !! t = Some o → reactiveMap s !! r = Some q →
                        ∃ s', get_value self (VProxy p) k s = Ret (VProxy q) s' ∧
                              proxies s' = proxies s).
      { intros s q Hps Hos Hrs. rewrite (Hread s Hps Hos). cbv zeta.
        destruct (Hkeep s) as (_ & Hp2 & Hm2).
        unfold reactive, bind, gets. rewrite Hm2, Hrs.
        eexists. split; [reflexivity | done]. }
      unfold reactive, bind, gets.
      destruct (reactiveMap s1 !! r) as [q |] eqn:Hr.
      * exists q, s1. split_and!; try done.
        apply Hstep; [by rewrite Hp1 | by rewrite Hh1 | done].
      * eexists _, _. split; [reflexivity |]. simpl.
        rewrite lookup_insert_eq. split_and!; try done.
        apply Hstep; simpl.
        -- apply lookup_app_l_Some. by rewrite Hp1.
        -- by rewrite Hh1.
        -- by rewrite lookup_insert_eq.
Qed.

(** The theorem at [readonly({ foo: { aaa: 5 } })] and its property
    [foo]. *)
Lemma nested_object_witness :
  ∃ st st' : state,
    proxies st !! 0 = Some {| p_target := 0; p_handler := Reactive false true |} ∧
    get_value (interp 0) (VProxy 0) (KStr "foo") st = Ret (VProxy 1) st' ∧
    set_value (interp 0) (VProxy 1) (KStr "aaa") (VNum 10) st'
    = Ret tt (emit (EvWarn "set failed: readonly") st').
Proof.
  set (st := set_proxies [{| p_target := 0; p_handler := Reactive false true |}]
               (initial [plain_object [(KStr "foo", VObj 1)];
                         plain_object [(KStr "aaa", VNum 5)]])).
  destruct (nested_object_reads (interp 0) st 0 false true 0
              (plain_object [(KStr "foo", VObj 1)]) (KStr "foo") 1
              eq_refl eq_refl eq_refl)
    as (st' & Hrun & _ & _ & _ & _ & Hset); [done | reflexivity |].
  exists st, st'. split_and!; [reflexivity | exact Hrun | apply Hset].
Defined.

End WrapperFacts.
(** * Effects that run while the recording of dependencies is suspended *)

Module SuspensionFacts.
Import Reactivity ReactivityFacts TriggerFacts MembershipFacts FuelFacts.
Import Programs Scenarios Shapes.
Local Open Scope M_scope.












End SuspensionFacts.
(** * Writes, deletions and pushes through a proxy *)

Module OperationFacts.
Import Reactivity NumberFacts ProxyFacts TriggerFacts FuelFacts Programs.
Local Open Scope M_scope.

(** ** Deferred effects *)

Lemma set_jobQueue_twice x y st :
  set_jobQueue x (set_jobQueue y st) = set_jobQueue x st.
Proof. done. Qed.

(** Effects whose scheduler defers them are queued in the order in which
    [forEach] visits them. *)
Lemma for_each_deferred self l : ∀ st,
  (∀ f, f ∈ l → ∃ ef, effectFns st !! f = Some ef
                      ∧ scheduler (options ef) = Some SchedQueue) →
  for_each (run_effect self) l st = Ret tt (set_jobQueue (jobQueue st ++ l) st).
Proof.
  induction l as [| f l IH]; intros st Hl; simpl.
  - rewrite app_nil_r. by destruct st.
  - destruct (Hl f) as (ef & Hf & Hs); [by left |].
    assert (Hrun : run_effect self f st
                   = Ret tt (set_jobQueue (jobQueue st ++ [f]) st)).
    { unfold run_effect.
      rewrite (bind_Ret _ _ _ _ _ (lookup_in_Some effectFns _ _ _ Hf)).
      by rewrite Hs. }
    rewrite (bind_Ret _ _ _ _ _ Hrun). rewrite IH.
    + simpl. by rewrite set_jobQueue_twice, <- app_assoc.
    + intros g Hg. apply Hl. by right.
Qed.

(** The listing's program for every number: the count at the end is the
    sum as JavaScript rounds it. *)
Lemma deferred_count fuel count :
  depth ≤ fuel →
  heap_of ((deferred fuel ;; flush_jobs fuel) (deferred_data count))
  = Some [plain_object [(KStr "count", VNum (round_to_double (count + 1)))]].
Proof. at_depth. Qed.

(** X6.  A write through the hand-written proxy of the scheduling listing,
    to a property whose subscribers all carry the deferring scheduler,
    stores the value and returns without running any effect: each
    subscriber other than the active effect is put in the queue of
    timers, once per write, whether or not it is queued already and
    whether or not the value has changed.  In the listing's program the
    effect runs when it is registered, the write [proxyData.count++] does
    not run it, and it runs when the timer fires; the count is one more
    at the end, for a count that is a safe integer and stays one. *)
Theorem deferred_effects_are_queued :
  (∀ self st p target o o' k v dm,
     proxies st !! p = Some {| p_target := target; p_handler := PlainHandler |} →
     heap st !! target = Some o →
     own_has o k = true ∨ proto o = VNull →
     own_set o k v = DefOk o' →
     effectsBuckets st !! target = Some dm →
     (∀ f, f ∈ default [] (Map_get k dm) →
           ∃ ef, effectFns st !! f = Some ef
                 ∧ scheduler (options ef) = Some SchedQueue) →
     set_value self (VProxy p) k v st
     = Ret tt (set_jobQueue
                 (jobQueue st
                    ++ add_effects (activeEffect st) (default [] (Map_get k dm)) [])
                 (emit (EvTrigger target k)
                    (set_heap (<[target := o']> (heap st)) st)))) ∧
  (∀ fuel count,
     depth ≤ fuel →
     trace_of (deferred fuel (deferred_data count))
       = Some [EvRun 0; EvTrigger 0 (KStr "count")] ∧
     trace_of ((deferred fuel ;; flush_jobs fuel) (deferred_data count))
       = Some [EvRun 0; EvTrigger 0 (KStr "count"); EvRun 0] ∧
     (isSafeInteger count = true → isSafeInteger (count + 1) = true →
      heap_of ((deferred fuel ;; flush_jobs fuel) (deferred_data count))
      = Some [plain_object [(KStr "count", VNum (count + 1))]])).
Proof.
  split.
  - intros self st p target o o' k v dm Hp Ho Hown Hset Hdm Hl.
    assert (Hdef : Reflect_set self target k v (VObj target) st
                   = Ret (VBool true) (set_heap (<[target := o']> (heap st)) st)).
    { rewrite (Reflect_set_own self _ _ _ _ _ _ Ho Hown). unfold define_on.
      rewrite (bind_Ret _ _ _ _ _ (lookup_in_Some heap _ _ _ Ho)).
      by rewrite Hset. }
    set (st1 := set_heap (<[target := o']> (heap st)) st) in *.
    set (l := add_effects (activeEffect st) (default [] (Map_get k dm)) []).
    assert (Htrig : trigger_plain self target k st1
                    = Ret tt (set_jobQueue (jobQueue st ++ l)
                                (emit (EvTrigger target k) st1))).
    { unfold trigger_plain, bind, modify, gets. simpl. rewrite Hdm.
      rewrite for_each_deferred; [done |].
      intros f Hf. apply elem_of_plain_effectsToRun in Hf as [Hf _]. by apply Hl. }
    assert (Hwrite : proxy_set self p k v (VProxy p) st
                     = Ret (VBool true)
                           (set_jobQueue (jobQueue st ++ l)
                              (emit (EvTrigger target k) st1))).
    { unfold proxy_set.
      rewrite (bind_Ret _ _ _ _ _ (lookup_in_Some proxies _ _ _ Hp)). simpl.
      unfold plain_set. rewrite (bind_Ret _ _ _ _ _ Hdef).
      by rewrite (bind_Ret _ _ _ _ _ Htrig). }
    unfold set_value. by rewrite (bind_Ret _ _ _ _ _ Hwrite).
  - intros fuel count Hle. split_and!; [at_depth | at_depth |].
    intros _ Hs. rewrite <- (round_to_double_safe _ Hs).
    by apply deferred_count.
Qed.

(** The theorem at the write [proxyData.count = 2] of the listing, with
    the deferred effect subscribed. *)
Lemma deferred_effects_witness :
  ∃ st : state,
    subscribers (effectsBuckets st) 0 (KStr "count") = [0] ∧
    set_value (interp 0) (VProxy 0) (KStr "count") (VNum 2) st
    = Ret tt (set_jobQueue [0]
                (emit (EvTrigger 0 (KStr "count"))
                   (set_heap [plain_object [(KStr "count", VNum 2)]] st))).
Proof.
  pose (st := set_effectsBuckets {[0 := [(KStr "count", [0])]]}
                (set_effectFns
                   [{| fn := FUser {| body := SExpr (EGet proxyData (KStr "count"));
                                      result := no_result |};
                       deps := [(0, KStr "count")];
                       options := {| scheduler := Some SchedQueue; lazy := false |} |}]
                   (deferred_data 1))).
  exists st. split; [reflexivity |].
  apply (proj1 deferred_effects_are_queued (interp 0) st 0 0
           (plain_object [(KStr "count", VNum 1)])
           (plain_object [(KStr "count", VNum 2)]) (KStr "count") (VNum 2)
           [(KStr "count", [0])]); try reflexivity.
  - by left.
  - intros f ->%list_elem_of_singleton. by eexists.
Defined.

(** ** [delete] through a reactive proxy *)







(** ** [push] on a reactive array *)

Lemma track_suspended target k st : shouldTrack st = false → track target k st = st.
Proof. intros Hs. unfold track. rewrite Hs. by destruct (activeEffect st). Qed.

(** Reading [length] through a reactive proxy that records nothing. *)
Lemma get_length_untracked self st p isShallow isReadonly target o :
  proxies st !! p
    = Some {| p_target := target; p_handler := Reactive isShallow isReadonly |} →
  heap st !! target = Some o → isArray o = true →
  shouldTrack st = false ∨ isReadonly = true →
  length_of self (VProxy p) st = Ret (length (elems o)) st.
Proof.
  intros Hp Ho Harr Hoff. apply length_of_num.
  unfold get_value, proxy_get.
  rewrite (bind_Ret _ _ _ _ _ (lookup_in_Some proxies _ _ _ Hp)). simpl.
  unfold reactive_get. rewrite decide_False by done.
  rewrite (bind_Ret _ _ _ _ _ (lookup_in_Some heap _ _ _ Ho)).
  rewrite Harr, not_instrumented_length. simpl.
  assert (Hm : (if negb isReadonly && true then modify (track target KLength)
                else ret ()) st = Ret tt st).
  { destruct Hoff as [Hoff | ->]; [| done].
    destruct isReadonly; [done |]. simpl. unfold modify.
    by rewrite track_suspended. }
  rewrite (bind_Ret _ _ _ _ _ Hm).
  assert (Hown : own_has o KLength = true ∨ proto o = VNull).
  { left. apply own_has_true. unfold own_get. rewrite Harr. by eexists. }
  rewrite (bind_Ret _ _ _ _ _ (Reflect_get_own self _ _ _ _ _ Ho Hown)).
  unfold own_get. rewrite Harr. simpl. by destruct isShallow.
Qed.

(** X10.  [arr.push(x)] on a reactive array [arr] of the raw array [o].
    - Mutable, and no effect subscribes to a key of [o]: the call returns
      the new length, [x] is the last element of the raw array, and no
      dependency is recorded, whichever effect is active; [trigger] is
      called for the new index, unless [x] is [undefined], for which the
      handler sees no change.  When the call returns, the recording of
      dependencies is on, also when it was off before.
    - Read-only: the call returns the length plus one although the array
      is unchanged; the two writes are answered by the warning.
    For the two pushing effects of the listing: each runs once, no
    dependency is recorded, and the array ends as [[1, 2]]. *)
Theorem push_appends_untracked self st p target isShallow o x :
  heap st !! target = Some o → isArray o = true → proto o = VNull →
  let len := length (elems o) in
  (proxies st !! p
     = Some {| p_target := target; p_handler := Reactive isShallow false |} →
   effectsBuckets st !! target = None →
   ∃ st', call_push self (VProxy p) x st = Ret (VNum (Z.of_nat (S len))) st' ∧
          heap st' = <[target := {| isArray := true; elems := elems o ++ [Some x];
                                    props := props o; proto := proto o |}]> (heap st) ∧
          tracked st' = tracked st ∧ effectsBuckets st' = effectsBuckets st ∧
          effectFns st' = effectFns st ∧ shouldTrack st' = true ∧
          trace st' = trace st ++ if decide (x = VUndef) then []
                                  else [EvTrigger target (KIdx len)]) ∧
  (proxies st !! p
     = Some {| p_target := target; p_handler := Reactive isShallow true |} →
   call_push self (VProxy p) x st
   = Ret (VNum (Z.of_nat (S len)))
         (set_shouldTrack true
            (emit (EvWarn "set failed: readonly")
               (emit (EvWarn "set failed: readonly") (set_shouldTrack false st))))) ∧
  (∀ fuel,
     depth ≤ fuel →
     trace_of (pushers fuel pushers_data)
       = Some [EvRun 0; EvTrigger 0 (KIdx 0); EvRun 1; EvTrigger 0 (KIdx 1)] ∧
     tracked_of (pushers fuel pushers_data) = Some [] ∧
     heap_of (pushers fuel pushers_data) = Some [array_object [VNum 1; VNum 2]]).
Proof.
  intros Ho Harr Hproto len. split_and!.
  - intros Hp Hnone.
    unfold call_push.
    rewrite (bind_Ret _ _ _ _ _ (lookup_in_Some proxies _ _ _ Hp)).
    rewrite (bind_Ret _ _ _ _ _ (lookup_in_Some heap _ _ _ Ho)). simpl.
    rewrite Harr. unfold instrumented_mutator.
    unfold bind at 1. unfold modify at 1.
    set (st0 := set_shouldTrack false st).
    assert (Hp0 : proxies st0 !! p
                  = Some {| p_target := target; p_handler := Reactive isShallow false |})
      by done.
    assert (Ho0 : heap st0 !! target = Some o) by done.
    pose proof (get_length_untracked self st0 p _ _ _ _ Hp0 Ho0 Harr
                  (or_introl eq_refl)) as Hlen.
    fold len in Hlen.
    (* the write of the new index *)
    set (o1 := {| isArray := true; elems := elems o ++ [Some x];
                  props := props o; proto := proto o |}).
    assert (Hset1 : own_set o (KIdx len) x = DefOk o1).
    { unfold own_set. rewrite Harr. rewrite decide_False by (subst len; lia).
      subst len. by rewrite Nat.sub_diag. }
    assert (Hold1 : default VUndef (own_get o (KIdx len)) = VUndef).
    { unfold own_get. rewrite Harr. subst len.
      by rewrite (lookup_ge_None_2 (elems o) (length (elems o))). }
    assert (Hty1 : set_type o (KIdx len) = Some T_add).
    { unfold set_type. rewrite Harr. by rewrite decide_False by (subst len; lia). }
    pose proof (reactive_set_own self st0 p isShallow target o o1 (KIdx len) x T_add
                  Hp0 Ho0 (or_intror Hproto) Hty1 Hset1) as Hw1.
    cbv zeta in Hw1. rewrite Hold1 in Hw1.
    set (st1 := set_heap (<[target := o1]> (heap st0)) st0) in *.
    set (st2 := if decide (x = VUndef) then st1
                else emit (EvTrigger target (KIdx len)) st1).
    assert (Hw1' : set_value self (VProxy p) (KIdx len) x st0 = Ret tt st2).
    { unfold set_value. unfold bind. rewrite Hw1. subst st2.
      destruct (decide (VUndef = x)) as [<- | Hne].
      - by rewrite decide_True.
      - rewrite decide_False by congruence.
        unfold trigger, bind, modify, gets. simpl. by rewrite Hnone. }
    (* the write of [length] *)
    assert (Hp2 : proxies st2 !! p
                  = Some {| p_target := target; p_handler := Reactive isShallow false |}).
    { subst st2. by destruct (decide (x = VUndef)). }
    assert (Hlt : target < length (heap st)) by (by eapply lookup_lt_Some).
    assert (Hh2 : heap st2 = <[target := o1]> (heap st)).
    { subst st2. by destruct (decide (x = VUndef)). }
    assert (Ho2 : heap st2 !! target = Some o1).
    { rewrite Hh2. by apply list_lookup_insert_eq. }
    assert (Hlen1 : length (elems o1) = S len).
    { subst o1 len. simpl. rewrite length_app. simpl. lia. }
    assert (Hset2 : own_set o1 KLength (VNum (Z.of_nat (S len))) = DefOk o1).
    { unfold own_set. simpl.
      rewrite Nat2Z.id, resize_all_alt; [done | by rewrite <- Hlen1]. }
    assert (Hold2 : default VUndef (own_get o1 KLength) = VNum (Z.of_nat (S len))).
    { change (VNum (Z.of_nat (length (elems o1))) = VNum (Z.of_nat (S len))).
      by rewrite Hlen1. }
    pose proof (reactive_set_own self st2 p isShallow target o1 o1 KLength
                  (VNum (Z.of_nat (S len))) T_add Hp2 Ho2
                  (or_intror Hproto) eq_refl Hset2) as Hw2.
    cbv zeta in Hw2. rewrite Hold2 in Hw2. rewrite decide_True in Hw2 by done.
    assert (Hw2' : set_value self (VProxy p) KLength (VNum (Z.of_nat (S len))) st2
                   = Ret tt (set_heap (<[target := o1]> (heap st2)) st2)).
    { unfold set_value, bind. by rewrite Hw2. }
    assert (Hpush : Array_push self (VProxy p) x st0
                    = Ret (VNum (Z.of_nat (S len)))
                          (set_heap (<[target := o1]> (heap st2)) st2)).
    { unfold Array_push. rewrite (bind_Ret _ _ _ _ _ Hlen).
      rewrite (bind_Ret _ _ _ _ _ Hw1'). by rewrite (bind_Ret _ _ _ _ _ Hw2'). }
    rewrite (bind_Ret _ _ _ _ _ Hpush).
    eexists. split; [reflexivity |]. simpl.
    split_and!.
    + rewrite Hh2. by rewrite list_insert_insert_eq.
    + subst st2. by destruct (decide (x = VUndef)).
    + subst st2. by destruct (decide (x = VUndef)).
    + subst st2. by destruct (decide (x = VUndef)).
    + done.
    + subst st2. destruct (decide (x = VUndef)); simpl; [by rewrite app_nil_r | done].
  - intros Hp.
    unfold call_push.
    rewrite (bind_Ret _ _ _ _ _ (lookup_in_Some proxies _ _ _ Hp)).
    rewrite (bind_Ret _ _ _ _ _ (lookup_in_Some heap _ _ _ Ho)). simpl.
    rewrite Harr. unfold instrumented_mutator.
    unfold bind at 1. unfold modify at 1.
    set (st0 := set_shouldTrack false st).
    assert (Hp0 : proxies st0 !! p
                  = Some {| p_target := target; p_handler := Reactive isShallow true |})
      by done.
    assert (Ho0 : heap st0 !! target = Some o) by done.
    pose proof (get_length_untracked self st0 p _ _ _ _ Hp0 Ho0 Harr
                  (or_introl eq_refl)) as Hlen.
    fold len in Hlen.
    assert (Hpush : Array_push self (VProxy p) x st0
                    = Ret (VNum (Z.of_nat (S len)))
                          (emit (EvWarn "set failed: readonly")
                             (emit (EvWarn "set failed: readonly") st0))).
    { assert (Hw : ∀ s k' v,
                proxies s !! p
                = Some {| p_target := target; p_handler := Reactive isShallow true |} →
                set_value self (VProxy p) k' v s
                = Ret tt (emit (EvWarn "set failed: readonly") s)).
      { intros s k' v Hs. unfold set_value, proxy_set, bind, lookup_in.
        by rewrite Hs. }
      unfold Array_push. rewrite (bind_Ret _ _ _ _ _ Hlen).
      rewrite (bind_Ret _ _ _ _ _ (Hw st0 (KIdx len) x Hp0)).
      by rewrite (bind_Ret _ _ _ _ _
                    (Hw (emit (EvWarn "set failed: readonly") st0) KLength
                        (VNum (Z.of_nat (S len))) Hp0)). }
    by rewrite (bind_Ret _ _ _ _ _ Hpush).
  - intros fuel Hle. split_and!; at_depth.
Qed.

(** The theorem at [reactive([1, 2]).push(3)]. *)
Lemma push_appends_witness :
  ∃ st st' : state,
    activeEffect st = Some 0 ∧ shouldTrack st = true ∧
    call_push (interp 0) (VProxy 0) (VNum 3) st = Ret (VNum 3) st' ∧
    heap st' = [array_object [VNum 1; VNum 2; VNum 3]] ∧
    tracked st' = tracked st.
Proof.
  pose (st := set_activeEffect (Some 0)
                (set_proxies [{| p_target := 0; p_handler := Reactive false false |}]
                   (initial [array_object [VNum 1; VNum 2]]))).
  destruct (proj1 (push_appends_untracked (interp 0) st 0 0 false
                     (array_object [VNum 1; VNum 2]) (VNum 3)
                     eq_refl eq_refl eq_refl) eq_refl eq_refl)
    as (st' & Hrun & Hheap & Htk & _).
  exists st, st'. split_and!; [reflexivity | reflexivity | exact Hrun | exact Hheap
                               | exact Htk].
Defined.

End OperationFacts.
(** * Listing [3.branch-and-cleanup.ts]: the active effect is never reset *)

Module StrayReadFacts.
Import BranchCleanup BranchCleanupFacts.

(** X17.  The listing never resets [activeEffect].  Once the effect
    function [e] has run, it stays the active effect, so a read through
    the proxy outside every effect function is recorded as a dependency of
    [e]: a later write of the property that was read runs [e] again,
    although its function may never read that property.  The stray
    dependency lasts until that next run: [cleanup] removes it, and it is
    not recorded again unless the function reads the property. *)
Theorem stray_read_subscribes_last_effect (st : state) (e : nat) (ef : EffectFn)
    (t : nat) (k : key) :
  backrefs st → effectFns st !! e = Some ef →
  let st1 := effectFn e st in
  let st2 := (proxy_get t k st1).2 in
  activeEffect st1 = Some e ∧
  e ∈ subscribers (effectsBuckets st2) t k ∧
  backrefs st2 ∧
  (∀ v, ∃ rerun, executed (proxy_set t k v st2) = executed st2 ++ rerun
                 ∧ e ∈ rerun) ∧
  ((t, k) ∉ reads (heap st2) (fn ef) →
   e ∉ subscribers (effectsBuckets (effectFn e st2)) t k).
Proof.
  intros Hb He st1 st2.
  destruct (effectFn_spec st e ef Hb He) as (Hh1 & Ha1 & Hx1 & Hf1 & Hin1 & Hoth1).
  fold st1 in Hh1, Ha1, Hx1, Hf1, Hin1, Hoth1.
  assert (Hb1 : backrefs st1) by (by apply backrefs_effectFn).
  assert (He1 : effectFns st1 !! e
                = Some {| fn := fn ef; deps := reads (heap st) (fn ef) |}).
  { rewrite Hf1. apply list_lookup_insert_eq. by eapply lookup_lt_Some. }
  assert (Hin2 : e ∈ subscribers (effectsBuckets st2) t k).
  { subst st2. unfold proxy_get. simpl. unfold track. rewrite Ha1. simpl.
    apply subscribers_bucket_add. by right. }
  assert (Hb2 : backrefs st2).
  { subst st2. unfold proxy_get. simpl. apply backrefs_track; [done |].
    intros a Ha. rewrite Ha1 in Ha. injection Ha as <-. by rewrite He1. }
  assert (He2 : ∃ ef2, effectFns st2 !! e = Some ef2 ∧ fn ef2 = fn ef).
  { subst st2. unfold proxy_get. simpl. unfold track. rewrite Ha1. simpl.
    rewrite list_lookup_alter_eq, He1. simpl. by eexists. }
  split_and!; [done | done | done | |].
  - intros v. destruct (proxy_set_spec t k v st2 Hb2) as (_ & Hx).
    exists (subscribers (effectsBuckets st2) t k). by split.
  - intros Hnot. destruct He2 as (ef2 & He2 & Hfn).
    destruct (effectFn_spec st2 e ef2 Hb2 He2) as (_ & _ & _ & _ & Hin & _).
    rewrite Hin, Hfn. exact Hnot.
Qed.

(** The theorem at the effect of the listing and a read of [text2], which
    the effect function never reads. *)
Lemma stray_read_witness :
  0 ∈ subscribers
        (effectsBuckets (proxy_get 0 (KStr "text2") (effectFn 0 registered)).2)
        0 (KStr "text2") ∧
  ∃ rerun,
    executed (proxy_set 0 (KStr "text2") (VStr "changed")
                (proxy_get 0 (KStr "text2") (effectFn 0 registered)).2)
    = executed (proxy_get 0 (KStr "text2") (effectFn 0 registered)).2 ++ rerun
    ∧ 0 ∈ rerun.
Proof.
  assert (Hb : backrefs registered).
  { intros e t k Hin. unfold subscribers in Hin. simpl in Hin.
    rewrite lookup_empty in Hin. by apply not_elem_of_nil in Hin. }
  destruct (stray_read_subscribes_last_effect registered 0 _ 0 (KStr "text2")
              Hb eq_refl) as (_ & Hin & _ & Hrun & _).
  split; [exact Hin | exact (Hrun (VStr "changed"))].
Defined.

End StrayReadFacts.
(** * Facts about the first listing *)

Module SimplestFacts.
Import Simplest.

Lemma text_after_set k v st :
  default VUndef (Map_get (KStr "text") (Map_set k v (originData st)))
  = if decide (k = KStr "text") then v else text st.
Proof.
  unfold text. destruct (decide (k = KStr "text")) as [-> | Hne].
  - by rewrite Map_get_set_eq.
  - by rewrite Map_get_set_ne.
Qed.

(** A set of functions that holds [effect] holds nothing else. *)
Lemma effects_singleton (l : list function) : NoDup l → Effect ∈ l → l = [Effect].
Proof.
  intros Hnd Hin. destruct l as [| [] l]; [by apply elem_of_nil in Hin |].
  apply NoDup_cons in Hnd as [Hnot _]. destruct l as [| [] l]; [done |].
  exfalso. apply Hnot. by left.
Qed.

Lemma add_effect (l : list function) : NoDup l → Set_add Effect l = [Effect].
Proof.
  intros Hnd. unfold Set_add. destruct (decide (Effect ∈ l)) as [Hin | Hnot].
  - by apply effects_singleton.
  - destruct l as [| [] l]; [done |]. exfalso. apply Hnot. by left.
Qed.

(** A write while [effect] is in the set runs it once. *)
Lemma proxy_set_subscribed fuel k v st :
  2 ≤ fuel → effects st = [Effect] →
  proxy_set fuel k v st
  = Some {| originData := Map_set k v (originData st); effects := [Effect];
            title := if decide (k = KStr "text") then v else text st;
            calls := S (calls st) |}.
Proof.
  intros Hfuel Heff. destruct fuel as [| [| n]]; [lia | lia |].
  unfold proxy_set. simpl. rewrite Heff. simpl.
  unfold effect, proxy_get. simpl. by rewrite text_after_set.
Qed.

(** A write while the set is empty runs nothing. *)
Lemma proxy_set_unsubscribed fuel k v st :
  1 ≤ fuel → effects st = [] →
  proxy_set fuel k v st
  = Some {| originData := Map_set k v (originData st); effects := [];
            title := title st; calls := calls st |}.
Proof.
  intros Hfuel Heff. destruct fuel as [| n]; [lia |].
  unfold proxy_set. simpl. by rewrite Heff.
Qed.

(** X18.  In the first listing the title follows the text: once [effect]
    has been called, after every sequence of reads, writes and calls of
    [effect] the document title is the current [originData.text].  The
    iteration of the [set] handler over the live set ends, because a
    re-run adds no new element to it.  The registration is hard-coded: a
    write of any property runs [effect] once, and a read of any property
    by anyone puts [effect] in the set; before the first read, a write
    runs nothing and leaves the title as it was. *)
Theorem title_follows_text fuel :
  2 ≤ fuel →
  (∀ ops st, NoDup (effects st) →
     ∃ st', run fuel (CallEffect :: ops) st = Some st' ∧ title st' = text st') ∧
  (∀ st k v, effects st = [Effect] →
     ∃ st', proxy_set fuel k v st = Some st' ∧ calls st' = S (calls st)) ∧
  (∀ t k v k', ∃ st',
     run fuel [Read k; Write k' v] (start t) = Some st' ∧ calls st' = 1) ∧
  (∀ t k v, ∃ st',
     proxy_set fuel k v (start t) = Some st' ∧ title st' = t ∧ calls st' = 0).
Proof.
  intros Hfuel.
  assert (Hinv : ∀ ops st, effects st = [Effect] → title st = text st →
                 ∃ st', run fuel ops st = Some st' ∧ title st' = text st').
  { induction ops as [| o ops IH]; intros st Heff Ht; simpl.
    - by exists st.
    - destruct o as [k | k v |]; simpl.
      + apply IH; simpl; [| done]. by rewrite Heff.
      + rewrite (proxy_set_subscribed fuel k v st Hfuel Heff).
        apply IH; simpl; [done |]. unfold text. simpl.
        by rewrite text_after_set.
      + apply IH; unfold effect, proxy_get; simpl; [| done]. by rewrite Heff. }
  split_and!.
  - intros ops st Hnd. simpl. apply Hinv; unfold effect, proxy_get; simpl; [| done].
    by apply add_effect.
  - intros st k v Heff. rewrite (proxy_set_subscribed fuel k v st Hfuel Heff).
    by eexists.
  - intros t k v k'. simpl.
    rewrite proxy_set_subscribed; [by eexists | done | done].
  - intros t k v. rewrite proxy_set_unsubscribed; [by eexists | lia | done].
Qed.

(** The theorem at the program of the listing: [effect()], then
    [proxyData.text = 'Hello Vue3!']. *)
Lemma title_follows_witness :
  ∃ st', run 2 [CallEffect; Write (KStr "text") (VStr "Hello Vue3!")] (start (VStr ""))
         = Some st' ∧ title st' = text st'.
Proof.
  apply (proj1 (title_follows_text 2 (le_n 2))). apply NoDup_nil_2.
Defined.

End SimplestFacts.
(** * Facts about listing [2.basic-enhance.ts] *)

Module BasicEnhanceFacts.
Import BranchCleanup BasicEnhance.

(** [deps.add(activeEffect)] when there is an active effect. *)
Definition add_active (a : option nat) (l : list nat) : list nat :=
  match a with Some b => Set_add b l | None => l end.

Lemma add_active_twice a l : add_active a (add_active a l) = add_active a l.
Proof.
  destruct a as [b |]; [| done]. simpl. unfold Set_add at 1.
  rewrite decide_True; [done |]. apply elem_of_Set_add. by left.
Qed.

Lemma subscribers_bucket_add_list b t k e t' k' :
  subscribers (bucket_add b t k e) t' k'
  = if decide (t' = t ∧ k' = k) then Set_add e (subscribers b t k)
    else subscribers b t' k'.
Proof.
  unfold subscribers, bucket_add.
  destruct (decide (t' = t ∧ k' = k)) as [[-> ->] | Hne].
  - rewrite lookup_insert_eq, Map_get_set_eq. simpl.
    by destruct (b !! t) as [dm |].
  - destruct (decide (t = t')) as [<- | Ht].
    + rewrite lookup_insert_eq. rewrite Map_get_set_ne by naive_solver.
      by destruct (b !! t) as [dm |].
    + by rewrite lookup_insert_ne.
Qed.

Lemma track_spec target k st :
  heap (track target k st) = heap st ∧ fns (track target k st) = fns st ∧
  activeEffect (track target k st) = activeEffect st ∧
  executed (track target k st) = executed st ∧
  ∀ t' k', subscribers (effectsBuckets (track target k st)) t' k'
           = if decide ((t', k') = (target, k))
             then add_active (activeEffect st)
                             (subscribers (effectsBuckets st) t' k')
             else subscribers (effectsBuckets st) t' k'.
Proof.
  unfold track. destruct (activeEffect st) as [b |] eqn:Ha; simpl.
  - split_and!; try done. intros t' k'. rewrite subscribers_bucket_add_list.
    destruct (decide (t' = target ∧ k' = k)) as [[-> ->] | Hne].
    + by rewrite decide_True.
    + rewrite decide_False; [done |]. intros [= -> ->]. by apply Hne.
  - split_and!; try done. intros t' k'. by destruct (decide _).
Qed.

(** What the body of a function does: it reads, and each read adds the
    active effect to the set of the property. *)
Lemma eval_fn_reads (r : rexpr) : ∀ st,
  (eval_fn r st).1 = value_of (heap st) r ∧
  heap (eval_fn r st).2 = heap st ∧ fns (eval_fn r st).2 = fns st ∧
  activeEffect (eval_fn r st).2 = activeEffect st ∧
  executed (eval_fn r st).2 = executed st ∧
  ∀ t k, subscribers (effectsBuckets (eval_fn r st).2) t k
         = if decide ((t, k) ∈ reads (heap st) r)
           then add_active (activeEffect st) (subscribers (effectsBuckets st) t k)
           else subscribers (effectsBuckets st) t k.
Proof.
  assert (Hseq : ∀ (st st1 st2 : state) (r1 r2 : list (nat * key)),
    activeEffect st1 = activeEffect st →
    (∀ t k, subscribers (effectsBuckets st1) t k
            = if decide ((t, k) ∈ r1)
              then add_active (activeEffect st) (subscribers (effectsBuckets st) t k)
              else subscribers (effectsBuckets st) t k) →
    (∀ t k, subscribers (effectsBuckets st2) t k
            = if decide ((t, k) ∈ r2)
              then add_active (activeEffect st1) (subscribers (effectsBuckets st1) t k)
              else subscribers (effectsBuckets st1) t k) →
    ∀ t k, subscribers (effectsBuckets st2) t k
           = if decide ((t, k) ∈ r1 ++ r2)
             then add_active (activeEffect st) (subscribers (effectsBuckets st) t k)
             else subscribers (effectsBuckets st) t k).
  { intros st st1 st2 r1 r2 Ha H1 H2 t k. rewrite H2, H1, Ha.
    destruct (decide ((t, k) ∈ r1)) as [Hin1 | Hn1];
      destruct (decide ((t, k) ∈ r2)) as [Hin2 | Hn2].
    - rewrite decide_True by (apply elem_of_app; by left). apply add_active_twice.
    - by rewrite decide_True by (apply elem_of_app; by left).
    - by rewrite decide_True by (apply elem_of_app; by right).
    - rewrite decide_False; [done |]. by intros [? | ?]%elem_of_app. }
  induction r as [v | target k | c IHc a IHa b IHb | a IHa b IHb]; intros st; simpl.
  - by split_and!.
  - destruct (track_spec target k st) as (Hh & Hf & Ha & Hx & Hs).
    split_and!; try done. intros t k0. rewrite Hs.
    destruct (decide ((t, k0) = (target, k))) as [Heq | Hne].
    + by rewrite decide_True by (by apply list_elem_of_singleton).
    + rewrite decide_False; [done |]. by intros ?%list_elem_of_singleton.
  - destruct (IHc st) as (Hv & Hh & Hf & Ha & Hx & Hs).
    destruct (eval_fn c st) as [vc st1] eqn:Hc. simpl in *. subst vc.
    destruct (truthy (value_of (heap st) c)).
    + destruct (IHa st1) as (Hv' & Hh' & Hf' & Ha' & Hx' & Hs').
      rewrite Hh in *. split_and!; try congruence.
      by apply (Hseq st st1).
    + destruct (IHb st1) as (Hv' & Hh' & Hf' & Ha' & Hx' & Hs').
      rewrite Hh in *. split_and!; try congruence.
      by apply (Hseq st st1).
  - destruct (IHa st) as (_ & Hh & Hf & Ha & Hx & Hs).
    destruct (IHb (eval_fn a st).2) as (Hv' & Hh' & Hf' & Ha' & Hx' & Hs').
    rewrite Hh in *. split_and!; try congruence.
    by apply (Hseq st (eval_fn a st).2).
Qed.

(** A call of a registered function. *)
Lemma call_spec f r st :
  fns st !! f = Some r →
  heap (call f st) = heap st ∧ fns (call f st) = fns st ∧
  activeEffect (call f st) = activeEffect st ∧
  executed (call f st) = executed st ++ [f] ∧
  ∀ t k, subscribers (effectsBuckets (call f st)) t k
         = if decide ((t, k) ∈ reads (heap st) r)
           then add_active (activeEffect st) (subscribers (effectsBuckets st) t k)
           else subscribers (effectsBuckets st) t k.
Proof.
  intros Hf. unfold call. rewrite Hf.
  match goal with |- context [eval_fn r ?s] =>
    destruct (eval_fn_reads r s) as (_ & Hh & Hfn & Ha & Hx & Hs) end.
  simpl in *. by split_and!.
Qed.

(** The states of a program: the sets and the active effect hold
    functions of the table. *)
Definition registered (st : state) : Prop :=
  (∀ t k x, x ∈ subscribers (effectsBuckets st) t k → x < length (fns st)) ∧
  (∀ b, activeEffect st = Some b → b < length (fns st)).

Lemma registered_call f st : registered st → registered (call f st).
Proof.
  intros [Hs Ha]. destruct (fns st !! f) as [r |] eqn:Hf.
  - destruct (call_spec f r st Hf) as (_ & Hfn & Hact & _ & Hsub).
    split.
    + intros t k x. rewrite Hsub, Hfn.
      destruct (decide ((t, k) ∈ reads (heap st) r)); [| by apply Hs].
      destruct (activeEffect st) as [b |] eqn:Hb; simpl; [| by apply Hs].
      intros [-> | Hin]%elem_of_Set_add; [by apply Ha | by eapply Hs].
    + intros b. rewrite Hact, Hfn. apply Ha.
  - unfold call. by rewrite Hf.
Qed.

Lemma add_active_prefix a l : l `prefix_of` add_active a l.
Proof.
  destruct a as [b |]; [| done]. simpl. unfold Set_add.
  destruct (decide (b ∈ l)); [done | by apply prefix_app_r].
Qed.

Lemma add_active_length a l :
  length (add_active a l)
  = length l + match a with
               | Some b => if decide (b ∈ l) then 0 else 1
               | None => 0
               end.
Proof.
  destruct a as [b |]; simpl; [| lia]. unfold Set_add.
  destruct (decide (b ∈ l)); [lia |]. rewrite length_app. simpl. lia.
Qed.

(** The number of elements that the iteration can still add to a set. *)
Definition slack (a : option nat) (l : list nat) : nat :=
  match a with
  | Some b => if decide (b ∈ l) then 0 else 1
  | None => 0
  end.

Lemma elem_of_add_active a l x : x ∈ add_active a l ↔ x ∈ l ∨ a = Some x.
Proof.
  destruct a as [b |]; simpl.
  - rewrite elem_of_Set_add. naive_solver.
  - naive_solver.
Qed.

Lemma elem_of_drop_prefix (l l' : list nat) j x :
  l `prefix_of` l' → x ∈ drop j l → x ∈ drop j l'.
Proof.
  intros [rest ->] Hx. rewrite drop_app. apply elem_of_app. by left.
Qed.

(** The iteration of [trigger] over the live set: it ends, it calls
    each element of the final set once, in order, and what it adds to the
    sets is the active effect, for the properties that the called
    functions read. *)
Lemma forEach_spec target k : ∀ fuel i st,
  registered st →
  i ≤ length (subscribers (effectsBuckets st) target k) →
  length (subscribers (effectsBuckets st) target k)
    + slack (activeEffect st) (subscribers (effectsBuckets st) target k) + 1
    ≤ fuel + i →
  ∃ st', forEach_from fuel target k i st = Some st' ∧
    registered st' ∧
    heap st' = heap st ∧ fns st' = fns st ∧ activeEffect st' = activeEffect st ∧
    subscribers (effectsBuckets st) target k
      `prefix_of` subscribers (effectsBuckets st') target k ∧
    executed st' = executed st ++ drop i (subscribers (effectsBuckets st') target k) ∧
    (∀ t' k' x,
       x ∈ subscribers (effectsBuckets st') t' k'
       ↔ x ∈ subscribers (effectsBuckets st) t' k'
         ∨ (activeEffect st = Some x ∧
            ∃ f r, f ∈ drop i (subscribers (effectsBuckets st') target k) ∧
                   fns st !! f = Some r ∧ (t', k') ∈ reads (heap st) r)).
Proof.
  induction fuel as [| n IH]; intros i st Hreg Hi Hfuel; [lia |].
  simpl. set (l := subscribers (effectsBuckets st) target k) in *.
  destruct (l !! i) as [f |] eqn:Hf.
  - assert (Hin : f ∈ l) by (by eapply list_elem_of_lookup_2).
    assert (Hlt : i < length l) by (by eapply lookup_lt_Some).
    destruct (lookup_lt_is_Some_2 (fns st) f) as [r Hr]; [by eapply (proj1 Hreg) |].
    destruct (call_spec f r st Hr) as (Hh1 & Hf1 & Ha1 & Hx1 & Hs1).
    set (st1 := call f st) in *.
    set (l1 := subscribers (effectsBuckets st1) target k).
    assert (Hpre : l `prefix_of` l1).
    { subst l1. rewrite Hs1. destruct (decide _); [apply add_active_prefix | done]. }
    assert (Hlen : length l1 + slack (activeEffect st1) l1
                   ≤ length l + slack (activeEffect st) l).
    { subst l1. rewrite Hs1, Ha1. fold l.
      destruct (decide ((target, k) ∈ reads (heap st) r)); [| done].
      rewrite add_active_length. unfold slack.
      destruct (activeEffect st) as [b |]; simpl; [| lia].
      rewrite (decide_True (P := b ∈ Set_add b l))
        by (apply elem_of_Set_add; by left).
      destruct (decide (b ∈ l)); lia. }
    destruct (IH (S i) st1) as (st' & Hrun & Hreg' & Hh & Hfn & Ha & Hp & Hx & Hexact).
    + by apply registered_call.
    + fold l1. apply prefix_length in Hpre. lia.
    + fold l1. lia.
    + exists st'. fold l1 in Hp.
      set (l' := subscribers (effectsBuckets st') target k) in *.
      assert (Hdrop : drop i l' = f :: drop (S i) l').
      { apply drop_S. eapply prefix_lookup_Some; [exact Hf |]. by etrans. }
      split_and!; try congruence.
      * by etrans.
      * rewrite Hx, Hx1, <- app_assoc. f_equal. by rewrite Hdrop.
      * intros t' k' x. rewrite Hexact, Hs1, Ha1, Hf1, Hh1, Hdrop. split.
        -- intros [Hx1' | (Hact & f' & r' & Hf' & Hr' & Hread)].
           ++ destruct (decide ((t', k') ∈ reads (heap st) r)) as [Hread |];
                [| by left].
              apply elem_of_add_active in Hx1' as [? | Hact]; [by left | right].
              split; [done |]. exists f, r. split_and!; [by left | done | done].
           ++ right. split; [done |]. exists f', r'. split_and!; [by right | done | done].
        -- intros [Hx0 | (Hact & f' & r' & Hf' & Hr' & Hread)].
           ++ left. destruct (decide _); [| done]. apply elem_of_add_active. by left.
           ++ apply elem_of_cons in Hf' as [-> | Hf'].
              ** left. assert (r' = r) as -> by congruence.
                 rewrite decide_True by done. apply elem_of_add_active. by right.
              ** right. split; [done |]. by exists f', r'.
  - apply lookup_ge_None in Hf. exists st.
    split_and!; try done.
    + by rewrite drop_ge, app_nil_r.
    + intros t' k' x. rewrite drop_ge by done. split; [by left |].
      intros [? | (_ & f & r & Hin & _)]; [done |]. by apply elem_of_nil in Hin.
Qed.

Lemma registered_initial h fs : registered (initial h fs).
Proof.
  split; [| done]. intros t k x Hx. unfold subscribers in Hx. simpl in Hx.
  rewrite lookup_empty in Hx. by apply elem_of_nil in Hx.
Qed.

Lemma registered_effect f st :
  f < length (fns st) → registered st → registered (effect f st).
Proof.
  intros Hf [Hs Ha]. apply registered_call. split; [exact Hs |].
  by intros b [= <-].
Qed.

(** X19.  In the listing without cleanup, [effect(fn)] makes [fn] the
    active effect for good, and a function that [trigger] calls again
    runs under the active effect of that moment.  A write
    [proxyData[k] = v]: the iteration over the live set ends; it calls
    every function of the final set once, in insertion order; and the
    sets gain exactly the active effect, for every property that a called
    function reads.  So the effect registered last becomes a subscriber
    of what the other effects read, and is called in the same iteration.
    No read and no registration removes a subscriber.  For the two effects
    of the listing, the write [proxyData.text = ...] calls the first,
    which subscribes the second, and then the second. *)
Theorem rerun_reads_go_to_active_effect :
  (∀ fuel st target k v,
     registered st →
     length (subscribers (effectsBuckets st) target k) + 2 ≤ fuel →
     ∃ st', proxy_set fuel target k v st = Some st' ∧
       registered st' ∧ activeEffect st' = activeEffect st ∧
       heap st' = alter (Map_set k v) target (heap st) ∧
       subscribers (effectsBuckets st) target k
         `prefix_of` subscribers (effectsBuckets st') target k ∧
       executed st' = executed st ++ subscribers (effectsBuckets st') target k ∧
       ∀ t' k' x,
         x ∈ subscribers (effectsBuckets st') t' k'
         ↔ x ∈ subscribers (effectsBuckets st) t' k'
           ∨ (activeEffect st = Some x ∧
              ∃ f r, f ∈ subscribers (effectsBuckets st') target k ∧
                     fns st !! f = Some r ∧ (t', k') ∈ reads (heap st') r)) ∧
  (∀ st f target k t' k' x,
     x ∈ subscribers (effectsBuckets st) t' k' →
     x ∈ subscribers (effectsBuckets (effect f st)) t' k' ∧
     x ∈ subscribers (effectsBuckets (proxy_get target k st).2) t' k') ∧
  (∀ fuel,
     3 ≤ fuel →
     executed (effect 1 (effect 0 listing)) = [0; 1] ∧
     ∃ st', proxy_set fuel 0 (KStr "text") (VStr "Hello Vue3!")
              (effect 1 (effect 0 listing)) = Some st' ∧
            executed st' = [0; 1; 0; 1] ∧
            subscribers (effectsBuckets st') 0 (KStr "text") = [0; 1]).
Proof.
  split_and!.
  - intros fuel st target k v Hreg Hfuel. unfold proxy_set, trigger.
    match goal with |- context [forEach_from fuel target k 0 ?s] =>
      set (st0 := s) end.
    assert (Hreg0 : registered st0) by done.
    destruct (forEach_spec target k fuel 0 st0 Hreg0) as
      (st' & Hrun & Hreg' & Hh & Hfn & Ha & Hp & Hx & Hexact).
    { lia. }
    { subst st0. simpl. unfold slack. destruct (activeEffect st); [| lia].
      destruct (decide _); lia. }
    exists st'. rewrite drop_0 in Hx.
    split_and!; try done.
    intros t' k' x. rewrite Hexact, drop_0, Hh. done.
  - intros st f target k t' k' x Hx. split.
    + unfold effect.
      match goal with |- context [call f ?s] => set (st0 := s) end.
      destruct (fns st0 !! f) as [r |] eqn:Hf.
      * destruct (call_spec f r st0 Hf) as (_ & _ & _ & _ & Hs). rewrite Hs.
        destruct (decide _); [| done]. apply elem_of_add_active. by left.
      * unfold call. by rewrite Hf.
    + unfold proxy_get. simpl.
      destruct (track_spec target k st) as (_ & _ & _ & _ & Hs). rewrite Hs.
      destruct (decide _); [| done]. apply elem_of_add_active. by left.
  - intros fuel Hfuel. destruct fuel as [| [| [| n]]]; [lia | lia | lia |].
    split; [reflexivity |]. eexists. split; [reflexivity |]. by vm_compute.
Qed.

(** The theorem at the two effects of the listing. *)
Lemma rerun_reads_witness :
  ∃ st', proxy_set 3 0 (KStr "text") (VStr "Hello Vue3!")
           (effect 1 (effect 0 listing)) = Some st' ∧
         executed st'
         = executed (effect 1 (effect 0 listing))
             ++ subscribers (effectsBuckets st') 0 (KStr "text").
Proof.
  assert (Hreg : registered (effect 1 (effect 0 listing))).
  { apply registered_effect; [simpl; lia |].
    apply registered_effect; [simpl; lia |]. apply registered_initial. }
  destruct (proj1 rerun_reads_go_to_active_effect 3 (effect 1 (effect 0 listing)) 0
              (KStr "text") (VStr "Hello Vue3!") Hreg)
    as (st' & Hrun & _ & _ & _ & _ & Hx & _).
  { vm_compute. lia. }
  exists st'. split; [exact Hrun | exact Hx].
Defined.

End BasicEnhanceFacts.
(** * Reads made by a callee are not the caller's *)

Module CalleeFacts.
Import Reactivity ReactivityFacts StackFacts TriggerFacts MembershipFacts.
Import AttributionFacts FuelFacts Programs Scenarios Shapes.
Local Open Scope M_scope.

Lemma callees_refl st : attributed_to_callees st st.
Proof.
  intros Hc. split_and!; [done | done |]. exists [], []. rewrite !app_nil_r.
  split_and!; [done | done |]. intros e t k Hin. by apply elem_of_nil in Hin.
Qed.

Lemma callees_trans a b c :
  attributed_to_callees a b → attributed_to_callees b c → attributed_to_callees a c.
Proof.
  intros Hab Hbc Hc. destruct (Hab Hc) as (Hcb & Hsb & tr1 & tk1 & Ht1 & Hk1 & H1).
  destruct (Hbc Hcb) as (Hcc & Hsc & tr2 & tk2 & Ht2 & Hk2 & H2).
  split_and!; [done | congruence |].
  exists (tr1 ++ tr2), (tk1 ++ tk2). rewrite Ht2, Ht1, Hk2, Hk1, !app_assoc.
  split_and!; [done | done |].
  intros e t k [Hin | Hin]%elem_of_app; apply elem_of_app.
  - left. by eapply H1.
  - right. by eapply H2.
Qed.

Lemma callees_throw a b c :
  attributed_to_callees a b → unconstrained b c → unconstrained a c.
Proof. done. Qed.

(** A state update that keeps the stores of the effects and the log of
    dependencies, and may add events other than runs to the trace. *)
Lemma callees_same st st' tr :
  effectsBuckets st' = effectsBuckets st → effectFns st' = effectFns st →
  activeEffect st' = activeEffect st → effectStack st' = effectStack st →
  trace st' = trace st ++ tr → tracked st' = tracked st →
  attributed_to_callees st st'.
Proof.
  intros Hb Hf Ha Hs Ht Hk (Hbr & Hact & Hst). split_and!.
  - split_and!.
    + intros e t k. rewrite Hb, Hf. apply Hbr.
    + congruence.
    + intros x. rewrite Hs, Hf. apply Hst.
  - done.
  - exists tr, []. rewrite Hk, app_nil_r. split_and!; [done | done |].
    intros e t k Hin. by apply elem_of_nil in Hin.
Qed.

Lemma callees_register f opts st :
  attributed_to_callees st
    (set_effectFns (effectFns st ++ [{| fn := f; deps := []; options := opts |}]) st).
Proof.
  intros Hc. split_and!; [by apply consistent_register | done |].
  exists [], []. simpl. rewrite !app_nil_r. split_and!; [done | done |].
  intros e t k Hin. by apply elem_of_nil in Hin.
Qed.

(** A call of an effect function: what is recorded during the call
    belongs to the effect itself or to the effects it calls. *)
Lemma call_callees fuel e :
  respects attributed_to_callees unconstrained (interp fuel (TCall e)).
Proof.
  destruct fuel as [| n]; [done |]. intros st. simpl.
  unfold effectFn, bind, lookup_in.
  destruct (effectFns st !! e) as [ef |] eqn:He; [| done].
  unfold wrapper, bind, modify, ret.
  match goal with |- context [run_wrapped n (interp n) (fn ef) ?s] =>
    set (st1 := s) end.
  assert (Hcall : respects attributed unconstrained
                           (run_wrapped n (interp n) (fn ef))).
  { apply ok_run_wrapped; first [apply interp_attributed | frame_attributed]. }
  specialize (Hcall st1).
  destruct (run_wrapped n (interp n) (fn ef) st1) as [r st2 | st2 | |]; try done.
  intros Hc.
  assert (Hs1 : effectStack st1 = effectStack st ++ [e]).
  { subst st1. simpl. unfold cleanup. by rewrite He. }
  assert (Ht1 : trace st1 = trace st ++ [EvRun e]).
  { subst st1. simpl. unfold cleanup. by rewrite He. }
  assert (Hk1 : tracked st1 = tracked st).
  { subst st1. simpl. unfold cleanup. by rewrite He. }
  assert (Hc1 : consistent st1).
  { pose proof (consistent_cleanup e st Hc) as (Hb & Ha & Hs).
    subst st1. split_and!; simpl.
    - exact Hb.
    - by rewrite last_snoc.
    - intros x [Hx | ->%list_elem_of_singleton]%elem_of_app; [by apply Hs |].
      unfold cleanup. rewrite He. simpl. rewrite length_insert.
      by eapply lookup_lt_Some. }
  destruct (Hcall Hc1) as (Hc2 & Hs2 & tr & tk & Ht & Hk & H).
  destruct Hc2 as (Hb & Ha & Hs).
  assert (Hpop : removelast (effectStack st2) = effectStack st).
  { by rewrite Hs2, Hs1, removelast_last. }
  split_and!.
  - split_and!; simpl.
    + exact Hb.
    + done.
    + intros x Hx. by apply Hs, elem_of_removelast.
  - exact Hpop.
  - exists (EvRun e :: tr), tk. simpl. rewrite Ht, Ht1, Hk, Hk1, <- app_assoc.
    split_and!; [done | done |].
    intros e' t k Hin. destruct (H e' t k Hin) as [Hst | Hr].
    + subst st1. simpl in Hst. injection Hst as <-. by left.
    + by right.
Qed.

Lemma computed_value_callees n c :
  respects attributed_to_callees unconstrained (computed_value (interp n) c).
Proof.
  unfold computed_value.
  apply (ok_bind _ _ callees_trans callees_throw).
  { apply ok_lookup_in, callees_refl. }
  intros cr. destruct (dirty cr).
  - apply (ok_bind _ _ callees_trans callees_throw); [apply call_callees |].
    intros v.
    apply (ok_bind _ _ callees_trans callees_throw).
    { apply ok_modify. intros st. by apply (callees_same _ _ []); rewrite ?app_nil_r. }
    intros _.
    apply (ok_bind _ _ callees_trans callees_throw).
    { apply ok_modify. intros st. by apply (callees_same _ _ [EvLog "get new value"]). }
    intros _.
    apply (ok_bind _ _ callees_trans callees_throw).
    { apply ok_lookup_in, callees_refl. }
    intros cr'. apply ok_ret, callees_refl.
  - apply (ok_bind _ _ callees_trans callees_throw).
    { apply ok_modify. intros st. by apply (callees_same _ _ [EvLog "get cache value"]). }
    intros _. apply ok_ret, callees_refl.
Qed.

Lemma eval_callees n x :
  reads_no_property x = true →
  respects attributed_to_callees unconstrained (eval (interp n) x).
Proof.
  induction x as [v | o IHo k | a IHa b IHb | c IHc a IHa b IHb | c
                  | a IHa y IHy | a IHa y IHy | a IHa y IHy | a IHa y IHy];
    simpl; try done.
  - intros _. apply ok_ret, callees_refl.
  - intros [Ha Hb]%andb_true_iff.
    apply (ok_bind _ _ callees_trans callees_throw); [by apply IHa |]. intros av.
    apply (ok_bind _ _ callees_trans callees_throw); [by apply IHb |]. intros bv.
    destruct (js_add av bv); [apply ok_ret, callees_refl | apply ok_unmodelled].
  - intros [[Hc Ha]%andb_true_iff Hb]%andb_true_iff.
    apply (ok_bind _ _ callees_trans callees_throw); [by apply IHc |]. intros cv.
    destruct (truthy cv); [by apply IHa | by apply IHb].
  - intros _. apply computed_value_callees.
Qed.

Lemma exec_callees n s :
  touches_no_property s = true →
  respects attributed_to_callees unconstrained (exec (interp n) s).
Proof.
  induction s as [| a IHa b IHb | x | o k x | o k | c a IHa b IHb | b r d |];
    simpl; try done.
  - intros _. apply ok_ret, callees_refl.
  - intros [Ha Hb]%andb_true_iff.
    apply (ok_bind _ _ callees_trans callees_throw); [by apply IHa |]. intros _.
    by apply IHb.
  - intros Hx.
    apply (ok_bind _ _ callees_trans callees_throw); [by apply eval_callees |].
    intros _. apply ok_ret, callees_refl.
  - intros [[Hc Ha]%andb_true_iff Hb]%andb_true_iff.
    apply (ok_bind _ _ callees_trans callees_throw); [by apply eval_callees |].
    intros cv. destruct (truthy cv); [by apply IHa | by apply IHb].
  - intros _.
    apply (ok_bind _ _ callees_trans callees_throw); [| intros _; apply ok_ret, callees_refl].
    unfold effect.
    apply (ok_bind _ _ callees_trans callees_throw); [apply ok_gets, callees_refl |].
    intros e.
    apply (ok_bind _ _ callees_trans callees_throw).
    { apply ok_modify. intros st. apply callees_register. }
    intros _.
    apply (ok_bind _ _ callees_trans callees_throw); [| intros _; apply ok_ret, callees_refl].
    simpl.
    apply (ok_bind _ _ callees_trans callees_throw); [apply call_callees |].
    intros _. apply ok_ret, callees_refl.
Qed.

(** X20.  Reads made by a callee are recorded for the callee.  An effect
    whose function reads no property through a proxy itself, but reads
    computed values or registers nested effects, is left in no dependency
    set when its call returns (unless its function was called again during
    the call): the reads of the getter are recorded for the effect of the
    computed value.  So in the listing of [computed], an effect that
    displays [sum.value] is not run again when [proxyData.foo] changes:
    the write marks [sum] dirty and runs nothing. *)
Theorem reader_of_computed_is_not_subscribed :
  (∀ fuel e ef f st v st',
     consistent st → effectFns st !! e = Some ef → fn ef = FUser f →
     touches_no_property (body f) = true → reads_no_property (result f) = true →
     interp fuel (TCall e) st = Ret v st' →
     ∃ tr tk, trace st' = trace st ++ EvRun e :: tr ∧
              tracked st' = tracked st ++ tk ∧
              (∀ x t k, (x, t, k) ∈ tk → EvRun x ∈ tr) ∧
              (EvRun e ∉ tr → ∀ t k, e ∉ subscribers (effectsBuckets st') t k)) ∧
  (∀ fuel (foo bar foo' : Z),
     depth ≤ fuel →
     trace_of (computed_reader foo' fuel (with_proxyData (sum_data foo bar)))
       = Some [EvRun 1; EvRun 0; EvLog "get new value"; EvTrigger 0 (KStr "foo")]).
Proof.
  split.
  - intros fuel e ef f st v st' Hc He Hfn Hbody Hres Hrun.
    destruct (effectFn_memberships fuel e st v st' (proj1 Hc) Hrun)
      as (tr0 & tk0 & Ht0 & Hk0 & Hmem).
    destruct fuel as [| n]; [done |]. simpl in Hrun.
    unfold effectFn, bind, lookup_in in Hrun. rewrite He in Hrun.
    unfold wrapper, bind, modify, ret in Hrun.
    match type of Hrun with context [run_wrapped n (interp n) (fn ef) ?s] =>
      set (st1 := s) in * end.
    assert (Hcall : respects attributed_to_callees unconstrained
                             (run_wrapped n (interp n) (fn ef))).
    { rewrite Hfn. simpl.
      apply (ok_bind _ _ callees_trans callees_throw); [by apply exec_callees |].
      intros _. by apply eval_callees. }
    specialize (Hcall st1).
    destruct (run_wrapped n (interp n) (fn ef) st1) as [r st2 | st2 | |]; try done.
    injection Hrun as <- <-.
    assert (Ht1 : trace st1 = trace st ++ [EvRun e]).
    { subst st1. simpl. unfold cleanup. by rewrite He. }
    assert (Hk1 : tracked st1 = tracked st).
    { subst st1. simpl. unfold cleanup. by rewrite He. }
    assert (Hc1 : consistent st1).
    { pose proof (consistent_cleanup e st Hc) as (Hb & Ha & Hs).
      subst st1. split_and!; simpl.
      - exact Hb.
      - by rewrite last_snoc.
      - intros x [Hx | ->%list_elem_of_singleton]%elem_of_app; [by apply Hs |].
        unfold cleanup. rewrite He. simpl. rewrite length_insert.
        by eapply lookup_lt_Some. }
    destruct (Hcall Hc1) as (_ & _ & tr & tk & Ht & Hk & H).
    simpl in Ht0, Hk0, Hmem.
    assert (tr0 = tr) as ->.
    { rewrite Ht, Ht1, <- app_assoc in Ht0. simpl in Ht0.
      apply app_inv_head in Ht0. by injection Ht0. }
    assert (tk0 = tk) as ->.
    { rewrite Hk, Hk1 in Hk0. by apply app_inv_head in Hk0. }
    exists tr, tk. split_and!; [done | done | done |].
    intros Hno t k Hin. apply (Hmem Hno) in Hin. apply H in Hin. done.
  - intros fuel foo bar foo' Hle. at_depth.
Qed.

(** The theorem at [effect(() => { sum.value })] of the listing. *)
Lemma reader_of_computed_witness :
  ∃ st st' : state,
    consistent st ∧
    interp 3 (TCall 1) st = Ret VUndef st' ∧
    0 ∈ subscribers (effectsBuckets st') 0 (KStr "foo") ∧
    ∀ t k, 1 ∉ subscribers (effectsBuckets st') t k.
Proof.
  pose (st := set_computeds [{| c_effectFn := 0; cacheValue := VUndef; dirty := true |}]
                (set_effectFns
                   [{| fn := FUser sum_getter; deps := [];
                       options := {| scheduler := Some (SchedComputed 0);
                                     lazy := true |} |};
                    {| fn := FUser {| body := SExpr (EValue 0); result := no_result |};
                       deps := [];
                       options := {| scheduler := None; lazy := false |} |}]
                   (with_proxyData (sum_data 1 2)))).
  assert (Hc : consistent st).
  { split_and!; [| done | by intros x ?%elem_of_nil].
    intros e t k. unfold subscribers. simpl. rewrite lookup_empty. split.
    - by intros ?%elem_of_nil.
    - intros (ef & He & Hd). destruct e as [| [| e]]; simpl in He; [| | done];
        injection He as <-; by apply elem_of_nil in Hd. }
  destruct (interp 3 (TCall 1) st) as [v st' | | |] eqn:Hrun;
    try (vm_compute in Hrun; discriminate).
  assert (Hv : v = VUndef) by (vm_compute in Hrun; congruence). subst v.
  assert (Htr : trace st' = [EvRun 1; EvRun 0; EvLog "get new value"])
    by (vm_compute in Hrun; injection Hrun as <-; reflexivity).
  assert (Hin : 0 ∈ subscribers (effectsBuckets st') 0 (KStr "foo"))
    by (vm_compute in Hrun; injection Hrun as <-; vm_compute; left).
  exists st, st'. split_and!; [exact Hc | exact Hrun | exact Hin |].
  destruct (proj1 reader_of_computed_is_not_subscribed 3 1 _ _ st VUndef st'
              Hc eq_refl eq_refl eq_refl eq_refl Hrun)
    as (tr & tk & Ht & _ & _ & Hno).
  apply Hno. rewrite Htr in Ht. simpl in Ht. injection Ht as <-.
  intros [[=] | [[=] | ?%elem_of_nil]%elem_of_cons]%elem_of_cons. done.
Defined.

End CalleeFacts.
(** * Facts about the error-handling utility *)

Module ErrorHandlingFacts.
Import ErrorHandling.

(** A handler that only logs returns, and leaves the registration as it
    is. *)
Lemma quiet_returns h : ∀ fuel arg st,
  quiet h = true → size h ≤ fuel →
  ∃ st', exec fuel h arg st = Done st' ∧ errorHandler st' = errorHandler st.
Proof.
  induction h as [s | | msg | a IHa b IHb | fn | fn | h IH];
    intros fuel arg st Hq Hfuel; simpl in *; try done;
    (destruct fuel as [| n]; [lia |]); simpl.
  - by eexists.
  - by eexists.
  - apply andb_true_iff in Hq as [Ha Hb].
    destruct (IHa n arg st Ha) as (st1 & -> & H1); [lia |].
    destruct (IHb n arg st1 Hb) as (st2 & -> & H2); [lia |].
    exists st2. split; [done | congruence].
Qed.

(** The registered handler only logs and is not larger than [H]. *)
Definition guarded (H : nat) (st : state) : Prop :=
  ∃ h, errorHandler st = Some h ∧ quiet h = true ∧ size h ≤ H.

(** With a handler that only logs in place, a call through the utility
    returns. *)
Lemma call_guarded H n fn st :
  (∀ f, fn = Some f →
     (∃ st', exec n f None st = Done st' ∧ guarded H st') ∨
     (∃ e st', exec n f None st = Threw e st' ∧ guarded H st')) →
  guarded H st → H ≤ n →
  ∃ st', callWithErrorHandling (exec n) fn st = Done st' ∧ guarded H st'.
Proof.
  intros Hf Hg Hn. destruct fn as [f |]; simpl.
  - destruct (Hf f eq_refl) as [(st1 & -> & Hg1) | (e & st1 & -> & Hg1)].
    + by exists st1.
    + destruct Hg1 as (h & Hh & Hq & Hs). rewrite Hh.
      destruct (quiet_returns h n (Some e) st1 Hq) as (st2 & -> & Hsame); [lia |].
      exists st2. split; [done |]. exists h. by rewrite Hsame.
  - by exists st.
Qed.

(** With such a handler in place, no execution runs out of fuel, and the
    handler stays one that only logs. *)
Lemma exec_guarded H : ∀ fuel c arg st,
  registers_quiet c = true → size c ≤ H → guarded H st → size c + H < fuel →
  (∃ st', exec fuel c arg st = Done st' ∧ guarded H st') ∨
  (∃ e st', exec fuel c arg st = Threw e st' ∧ guarded H st').
Proof.
  induction fuel as [| n IH]; intros c arg st Hr Hsize Hg Hfuel; [lia |].
  destruct c as [s | | msg | a b | fn | fn | h]; simpl in *.
  - left. by eexists.
  - left. by eexists.
  - right. by eexists _, _.
  - apply andb_true_iff in Hr as [Hra Hrb].
    destruct (IH a arg st Hra) as [(st1 & -> & Hg1) | (e & st1 & -> & Hg1)];
      [lia | done | lia | |].
    + apply IH; [done | lia | done | lia].
    + right. by eexists _, _.
  - left. apply call_guarded; [| done | lia].
    intros f ->. simpl in *. apply IH; [done | lia | done | lia].
  - left. apply call_guarded; [| done | lia].
    intros f ->. simpl in *. apply IH; [done | lia | done | lia].
  - left. eexists. split; [done |]. exists h. split_and!; [done | done | lia].
Qed.

(** X21.  The utility contains the exceptions of the functions it calls.
    Once a handler that only logs is registered, a call [foo(fn)] or
    [bar(fn)] returns, whatever [fn] does: throw, call the utility again,
    register other such handlers; and a handler of this kind is still
    registered afterwards.  Without a registered handler, the exception of
    [fn] is replaced by the TypeError of calling [null].  A call without a
    function only logs.  The program of the listing logs [foo], the two
    lines of the handler, [bar], and the two lines of the handler. *)
Theorem errors_are_contained :
  (∀ fuel fn h st,
     errorHandler st = Some h → quiet h = true →
     from_option registers_quiet true fn = true →
     2 * from_option size 0 fn + size h + 2 < fuel →
     ∃ st1 st2 h1 h2,
       exec fuel (Foo fn) None st = Done st1 ∧
       errorHandler st1 = Some h1 ∧ quiet h1 = true ∧
       exec fuel (Bar fn) None st = Done st2 ∧
       errorHandler st2 = Some h2 ∧ quiet h2 = true) ∧
  (∀ fuel msg st,
     2 ≤ fuel → errorHandler st = None →
     exec fuel (Foo (Some (Throw msg))) None st = Threw TypeError (log (LStr "foo") st)) ∧
  (∀ fuel arg st,
     1 ≤ fuel → exec fuel (Foo None) arg st = Done (log (LStr "foo") st)) ∧
  (∀ fuel,
     5 ≤ fuel →
     exec fuel demo None initial
     = Done {| errorHandler := Some handler;
               console := [LStr "foo"; LStr "error handler executed!";
                           LArgument (Some (Error "foo error"));
                           LStr "bar"; LStr "error handler executed!";
                           LArgument (Some (Error "bar error"))] |}).
Proof.
  split_and!.
  - intros fuel fn h st Hh Hq Hr Hfuel.
    set (H := size h + from_option size 0 fn + 1).
    assert (Hg : guarded H st) by (exists h; split_and!; [done | done | subst H; lia]).
    destruct (exec_guarded H fuel (Foo fn) None st)
      as [(st1 & Hrun1 & h1 & Hh1 & Hq1 & _) | (e & st1 & Hrun1 & _)];
      [done | simpl; subst H; lia | done | simpl; subst H; lia | |].
    + destruct (exec_guarded H fuel (Bar fn) None st)
        as [(st2 & Hrun2 & h2 & Hh2 & Hq2 & _) | (e & st2 & Hrun2 & _)];
        [done | simpl; subst H; lia | done | simpl; subst H; lia | |].
      * by exists st1, st2, h1, h2.
      * exfalso. destruct fuel as [| n]; [lia |]. simpl in Hrun2.
        destruct (call_guarded H n fn (log (LStr "bar") st)) as (st3 & Hc & _);
          [| done | subst H; lia | congruence].
        intros f ->. simpl in *. apply exec_guarded; [done | | done |]; subst H; lia.
    + exfalso. destruct fuel as [| n]; [lia |]. simpl in Hrun1.
      destruct (call_guarded H n fn (log (LStr "foo") st)) as (st3 & Hc & _);
        [| done | subst H; lia | congruence].
      intros f ->. simpl in *. apply exec_guarded; [done | | done |]; subst H; lia.
  - intros fuel msg st Hfuel Hnone. destruct fuel as [| [| n]]; [lia | lia |].
    simpl. by rewrite Hnone.
  - intros fuel arg st Hfuel. destruct fuel as [| n]; [lia | done].
  - intros fuel Hfuel. destruct fuel as [| [| [| [| [| n]]]]]; try lia. reflexivity.
Qed.

(** The theorem at [foo(() => { throw new Error('foo error') })] with the
    handler of the listing registered. *)
Lemma errors_are_contained_witness :
  ∃ st1 : state,
    exec 8 (Foo (Some (Throw "foo error"))) None
         {| errorHandler := Some handler; console := [] |} = Done st1.
Proof.
  destruct (proj1 errors_are_contained 8 (Some (Throw "foo error")) handler
              {| errorHandler := Some handler; console := [] |}
              eq_refl eq_refl eq_refl)
    as (st1 & _ & _ & _ & Hrun & _); [simpl; lia |].
  by exists st1.
Defined.

End ErrorHandlingFacts.
(** * The job of a watcher *)

Module WatchFacts.
Import Reactivity ProxyFacts DerivedFacts FuelFacts Programs.
Local Open Scope M_scope.

(** X9.  One run of the job of a watcher whose callback and invalidation
    hook only log.  The effect function is called for the new value; the
    hook that is pending is called; the callback is called with the new
    value and with the value of the previous run as old value; and the
    hook that the callback registers, if it registers one, replaces the
    pending one.  A hook stays pending when the callback registers none,
    and is called again by every later run.  For a source that is an
    object the effect function returns the source itself, so that the new
    and the old value of the callback are the same object.  For
    [watch(() => proxyData.bar, cb)] and two writes of [bar]: the callback
    is called twice, the second time with the value of the first write as
    old value, after the hook registered by the first call. *)
Theorem watch_job_passes_previous_value :
  (∀ n st w wr v st2,
     watchers st !! w = Some wr →
     cb_body (w_cb wr) = SSkip →
     w_cleanup wr = None ∨ w_cleanup wr = Some SSkip →
     interp (S n) (TCall (w_effectFn wr)) st = Ret v st2 →
     watchers st2 = watchers st →
     ∃ st', job (interp (S n)) w st = Ret tt st' ∧
       trace st' = trace st2
                   ++ match w_cleanup wr with
                      | Some _ => [EvInvalidate w]
                      | None => []
                      end
                   ++ [EvCallback w v (oldValue wr)] ∧
       watchers st' !! w
       = Some {| w_cb := w_cb wr; w_effectFn := w_effectFn wr;
                 oldValue := v; newValue := v;
                 w_cleanup := match cb_onInvalidate (w_cb wr) with
                              | Some h => Some h
                              | None => w_cleanup wr
                              end |}) ∧
  (∀ fuel st e ef source v st',
     effectFns st !! e = Some ef → fn ef = FTraverse source →
     is_object source = true →
     interp fuel (TCall e) st = Ret v st' → v = source) ∧
  (∀ fuel (foo bar bar1 bar2 : Z),
     depth ≤ fuel →
     trace_of ((watch fuel (SrcFunction bar_getter) invalidating_cb false ;;
                assign fuel (VProxy 0) (KStr "bar") (VNum bar1))
                 (with_proxyData (sum_data foo bar)))
       = Some [EvRun 0; EvTrigger 0 (KStr "bar"); EvRun 0;
               EvCallback 0 (VNum bar1) (VNum bar)] ∧
     trace_of ((watch fuel (SrcFunction bar_getter) invalidating_cb false ;;
                assign fuel (VProxy 0) (KStr "bar") (VNum bar1) ;;
                assign fuel (VProxy 0) (KStr "bar") (VNum bar2))
                 (with_proxyData (sum_data foo bar)))
       = Some [EvRun 0; EvTrigger 0 (KStr "bar"); EvRun 0;
               EvCallback 0 (VNum bar1) (VNum bar);
               EvTrigger 0 (KStr "bar"); EvRun 0; EvInvalidate 0;
               EvCallback 0 (VNum bar2) (VNum bar1)]).
Proof.
  split_and!.
  - intros n st w wr v st2 Hw Hbody Hhook Hcall Hsame.
    unfold job.
    rewrite (bind_Ret _ _ _ _ _ (lookup_in_Some watchers _ _ _ Hw)).
    rewrite (bind_Ret _ _ _ _ _ Hcall).
    erewrite bind_Ret; [| reflexivity].
    set (wr1 := {| w_cb := w_cb wr; w_effectFn := w_effectFn wr;
                   oldValue := oldValue wr; newValue := v;
                   w_cleanup := w_cleanup wr |}).
    assert (Hl1 : watchers (store_newValue w v st2) !! w = Some wr1).
    { simpl. by rewrite list_lookup_alter_eq, Hsame, Hw. }
    rewrite (bind_Ret _ _ _ _ _ (lookup_in_Some watchers _ _ _ Hl1)).
    simpl w_cleanup.
    set (st3 := match w_cleanup wr with
                | Some _ => emit (EvInvalidate w) (store_newValue w v st2)
                | None => store_newValue w v st2
                end).
    assert (Hhooked :
      (match w_cleanup wr with
       | Some hook => modify (emit (EvInvalidate w)) ;;
                      interp (S n) (TStmt hook) ;; ret tt
       | None => ret tt
       end) (store_newValue w v st2) = Ret tt st3).
    { subst st3. destruct Hhook as [-> | ->]; reflexivity. }
    rewrite (bind_Ret _ _ _ _ _ Hhooked).
    assert (Hl3 : watchers st3 !! w = Some wr1).
    { subst st3. by destruct (w_cleanup wr). }
    rewrite (bind_Ret _ _ _ _ _ (lookup_in_Some watchers _ _ _ Hl3)).
    erewrite bind_Ret; [| reflexivity].
    erewrite bind_Ret; [| reflexivity].
    simpl w_cb. rewrite Hbody.
    erewrite bind_Ret; [| reflexivity].
    eexists. split; [reflexivity |]. split.
    + simpl. subst st3.
      destruct (cb_onInvalidate (w_cb wr)), (w_cleanup wr); simpl;
        by rewrite <- ?app_assoc.
    + simpl.
      destruct (cb_onInvalidate (w_cb wr)) as [h |] eqn:Hreg; simpl;
        by rewrite !list_lookup_alter_eq, Hl3.
  - intros fuel st e ef source v st' He Hfn Hobj.
    destruct fuel as [| n]; [done |]. simpl.
    unfold effectFn, bind, lookup_in. rewrite He. rewrite Hfn.
    unfold wrapper, bind, modify, ret. simpl.
    unfold bind.
    match goal with |- context [traverse (interp n) n source [] ?s] =>
      destruct (traverse (interp n) n source [] s) as [seen s2 | | |] end; try done.
    rewrite Hobj. unfold ret. by intros [= <- _].
  - intros fuel foo bar bar1 bar2 Hle. split_and!; at_depth.
Qed.

(** The theorem at a watcher of [proxyData.bar] with a pending hook. *)
Lemma watch_job_witness :
  ∃ st st' : state,
    oldValue <$> watchers st !! 0 = Some (VNum 1) ∧
    job (interp 3) 0 st = Ret tt st' ∧
    trace st' = [EvRun 0; EvInvalidate 0; EvCallback 0 (VNum 2) (VNum 1)].
Proof.
  pose (wr := {| w_cb := invalidating_cb; w_effectFn := 0; oldValue := VNum 1;
                 newValue := VNum 1; w_cleanup := Some SSkip |}).
  pose (st := set_watchers [wr]
                (set_effectFns
                   [{| fn := FUser bar_getter; deps := [];
                       options := {| scheduler := Some (SchedWatch 0);
                                     lazy := true |} |}]
                   (with_proxyData (sum_data 0 2)))).
  destruct (interp 3 (TCall 0) st) as [v st2 | | |] eqn:Hrun;
    try (vm_compute in Hrun; discriminate).
  assert (Hv : v = VNum 2) by (vm_compute in Hrun; congruence). subst v.
  assert (Hw2 : watchers st2 = watchers st)
    by (vm_compute in Hrun; injection Hrun as <-; reflexivity).
  assert (Ht2 : trace st2 = [EvRun 0])
    by (vm_compute in Hrun; injection Hrun as <-; reflexivity).
  destruct (proj1 watch_job_passes_previous_value 2 st 0 wr (VNum 2) st2
              eq_refl eq_refl (or_intror eq_refl) Hrun Hw2)
    as (st' & Hjob & Htr & _).
  exists st, st'. split_and!; [reflexivity | exact Hjob |].
  rewrite Htr, Ht2. reflexivity.
Defined.

End WatchFacts.
